(** * HLS manifest text parser (shaka.hls.ManifestTextParser)

    A shallow embedding of [lib/hls/manifest_text_parser.js] and of the
    document model it builds ([shaka.hls.Tag], [Attribute], [Segment],
    [Playlist] and the computed indices), followed by the properties of the
    parser that the specification states.

    Conventions.
    - A JavaScript string is a sequence of UTF-16 code units.  The model
      holds a text as its UTF-8 encoding, one [ascii] per byte, so that
      every text can be written.  The code compares and splits its texts at
      characters below U+0080, at white space and at line terminators
      only, and the UTF-8 encoding of a character starts with a byte that
      occurs nowhere else in an encoding: on the bytes each operation below
      does what the code does on the code units.
    - [null] and [undefined] are [None].
    - An exception is the [Throws] outcome; the parser's only mutable field,
      [globalId_], is threaded through every outcome. *)

From Stdlib Require Import String Ascii List Bool Arith NArith ZArith Lia
  Sorted.
From Stdlib Require SpecFloat.
Import ListNotations.
Local Open Scope string_scope.

(** ** The JavaScript built-ins the parser relies on *)

Module JS.

Definition LF : ascii := "010"%char.
Definition CR : ascii := "013"%char.
Definition DQUOTE : ascii := "034"%char.

(** The one-character string holding a double quote. *)
Definition dquote : string := String DQUOTE EmptyString.

(** [s] between double quotes. *)
Definition quoted (s : string) : string := dquote ++ s ++ dquote.

(** The characters of one, two and three bytes that are WhiteSpace or
    LineTerminator of ECMA-262, the set [String.prototype.trim] strips and
    the StrWhiteSpaceChar production reads: TAB, LF, VT, FF, CR, SP;
    U+00A0; U+1680, U+2000 to U+200A, U+2028, U+2029, U+202F, U+205F,
    U+3000 and U+FEFF. *)
Definition isWhiteSpace1 (a : ascii) : bool :=
  let x := nat_of_ascii a in
  ((9 <=? x)%nat && (x <=? 13)%nat) || (x =? 32)%nat.

Definition isWhiteSpace2 (a b : ascii) : bool :=
  (nat_of_ascii a =? 194)%nat && (nat_of_ascii b =? 160)%nat.

Definition isWhiteSpace3 (a b c : ascii) : bool :=
  let x := nat_of_ascii a in
  let y := nat_of_ascii b in
  let z := nat_of_ascii c in
  ((x =? 225)%nat && (y =? 154)%nat && (z =? 128)%nat)
  || ((x =? 226)%nat && (y =? 128)%nat
      && (((128 <=? z)%nat && (z <=? 138)%nat)
          || (z =? 168)%nat || (z =? 169)%nat || (z =? 175)%nat))
  || ((x =? 226)%nat && (y =? 129)%nat && (z =? 159)%nat)
  || ((x =? 227)%nat && (y =? 128)%nat && (z =? 128)%nat)
  || ((x =? 239)%nat && (y =? 187)%nat && (z =? 191)%nat).

(** One character of that set at the head of [s]: the text after it. *)
Definition whiteSpace (s : string) : option string :=
  match s with
  | String a s1 =>
      if isWhiteSpace1 a then Some s1
      else
        match s1 with
        | String b s2 =>
            if isWhiteSpace2 a b then Some s2
            else
              match s2 with
              | String c s3 => if isWhiteSpace3 a b c then Some s3 else None
              | EmptyString => None
              end
        | EmptyString => None
        end
  | EmptyString => None
  end.

(** [s] without the white space it starts with. *)
Fixpoint trimStart (s : string) : string :=
  match s with
  | String a s1 =>
      if isWhiteSpace1 a then trimStart s1
      else
        match s1 with
        | String b s2 =>
            if isWhiteSpace2 a b then trimStart s2
            else
              match s2 with
              | String c s3 =>
                  if isWhiteSpace3 a b c then trimStart s3 else s
              | EmptyString => s
              end
        | EmptyString => s
        end
  | EmptyString => EmptyString
  end.

(** [s] is made of white space only. *)
Definition blank (s : string) : bool := String.eqb (trimStart s) "".

(** [s] without the white space it ends with: the text up to the first
    position from which on there is white space only. *)
Fixpoint trimEnd (s : string) : string :=
  match s with
  | String c s' => if blank s then "" else String c (trimEnd s')
  | EmptyString => EmptyString
  end.

(** [s.trim()] *)
Definition trim (s : string) : string := trimEnd (trimStart s).

(** [s.startsWith(p)] *)
Definition startsWith (s p : string) : bool := String.prefix p s.

(** [s] without its prefix [p], when [s.startsWith(p)]. *)
Fixpoint stripPrefix (p s : string) : option string :=
  match p with
  | String a p' =>
      match s with
      | String b s' => if Ascii.eqb a b then stripPrefix p' s' else None
      | EmptyString => None
      end
  | EmptyString => Some s
  end.

(** U+2028 LINE SEPARATOR and U+2029 PARAGRAPH SEPARATOR. *)
Definition LS : string :=
  String "226" (String "128" (String "168" EmptyString)).
Definition PS : string :=
  String "226" (String "128" (String "169" EmptyString)).

(** One LineTerminator of ECMA-262 (U+000A, U+000D, U+2028, U+2029) at the
    head of [s]: the text after it. *)
Definition lineTerminator (s : string) : option string :=
  match s with
  | String c s' =>
      if Ascii.eqb c LF || Ascii.eqb c CR then Some s'
      else
        match stripPrefix LS s with
        | Some r => Some r
        | None => stripPrefix PS s
        end
  | EmptyString => None
  end.

(** [s.replace(/\r\n|\r(?=[^\n]|$)/gm, '\n')]: every CR LF pair and every
    other CR becomes one LF. *)
Fixpoint normalizeNewlines (s : string) : string :=
  match s with
  | String c s' =>
      if Ascii.eqb c CR then
        match s' with
        | String c' s'' =>
            if Ascii.eqb c' LF then String LF (normalizeNewlines s'')
            else String LF (normalizeNewlines s')
        | EmptyString => String LF EmptyString
        end
      else String c (normalizeNewlines s')
  | EmptyString => EmptyString
  end.

(** [s.split(/\n+/m)]: the pieces between maximal runs of LF, empty first
    and last pieces included; the empty string gives one empty piece. *)
Fixpoint splitLines (s : string) : list string :=
  match s with
  | String c s' =>
      if Ascii.eqb c LF then
        match s' with
        | String c' _ =>
            if Ascii.eqb c' LF then splitLines s' else "" :: splitLines s'
        | EmptyString => "" :: splitLines s'
        end
      else
        match splitLines s' with
        | l :: ls => String c l :: ls
        | [] => [String c ""]
        end
  | EmptyString => [""]
  end.

(** [s.split(',')[0]]: the text before the first comma. *)
Fixpoint beforeComma (s : string) : string :=
  match s with
  | String c s' => if Ascii.eqb c "," then "" else String c (beforeComma s')
  | EmptyString => EmptyString
  end.

(** *** Numbers

    A Number is a binary64 value, held as the [spec_float] of the Standard
    Library: a zero or an infinity with its sign, NaN, or the finite value
    [(-1)^s * m * 2^e] with [m] of at most 53 bits. *)
Definition Num : Type := SpecFloat.spec_float.

Definition NaN : Num := SpecFloat.S754_nan.
Definition Infinity (negative : bool) : Num :=
  SpecFloat.S754_infinity negative.

(** The Number value for the mathematical value
    [(-1)^negative * mantissa * 10^exponent] of a literal: the binary64
    value nearest to it, the one with an even significand when two are as
    near; an infinity from [2^1024 - 2^970] on and a zero up to
    [2^-1075].  The quotient [mantissa * 10^exponent] is taken with enough
    bits and the position of the remainder, then rounded. *)
Definition Finite (negative : bool) (mantissa : N) (exponent : Z) : Num :=
  match mantissa with
  | N0 => SpecFloat.S754_zero negative
  | Npos m =>
      let num := (Zpos m * 10 ^ Z.max exponent 0)%Z in
      let den := (10 ^ Z.max (- exponent) 0)%Z in
      let '(q, e, l) := SpecFloat.SFdiv_core_binary 53 1024 num 0 den 0 in
      SpecFloat.binary_round_aux 53 1024 negative q e l
  end.

Definition ofNat (n : nat) : Num := Finite false (N.of_nat n) 0.
Definition zero : Num := SpecFloat.S754_zero false.
Definition minusOne : Num := Finite true 1 0.

(** [isNaN(x)] *)
Definition isNaN (x : Num) : bool :=
  match x with SpecFloat.S754_nan => true | _ => false end.

(** [isFinite(x)] *)
Definition isFinite (x : Num) : bool :=
  match x with
  | SpecFloat.S754_zero _ | SpecFloat.S754_finite _ _ _ => true
  | _ => false
  end.

(** ToBoolean on a Number: NaN and the zeros are falsy. *)
Definition truthyNum (x : Num) : bool :=
  match x with
  | SpecFloat.S754_nan | SpecFloat.S754_zero _ => false
  | _ => true
  end.

(** ToBoolean on a string or null: null and the empty string are falsy. *)
Definition truthyStr (s : option string) : bool :=
  match s with
  | Some s => negb (String.eqb s "")
  | None => false
  end.

Definition digitOf (radix : N) (c : ascii) : option N :=
  let n := N_of_ascii c in
  let d :=
    if (48 <=? n)%N && (n <=? 57)%N then Some (n - 48)%N
    else if (97 <=? n)%N && (n <=? 102)%N then Some (n - 87)%N
    else if (65 <=? n)%N && (n <=? 70)%N then Some (n - 55)%N
    else None in
  match d with
  | Some v => if (v <? radix)%N then Some v else None
  | None => None
  end.

(** Reads the longest run of digits of [radix] at the head of [s]:
    the value accumulated onto [acc], the number of digits, the rest. *)
Fixpoint readDigits (radix : N) (s : string) (acc : N) (count : nat)
  : N * nat * string :=
  match s with
  | String c s' =>
      match digitOf radix c with
      | Some d => readDigits radix s' (acc * radix + d)%N (S count)
      | None => (acc, count, s)
      end
  | EmptyString => (acc, count, EmptyString)
  end.

(** NonDecimalIntegerLiteral: 0x, 0o or 0b (either case) and at least one
    digit, nothing after. *)
Definition nonDecimalLiteral (s : string) : option N :=
  match s with
  | String "0" (String p ds) =>
      let radix :=
        if Ascii.eqb p "x" || Ascii.eqb p "X" then Some 16%N
        else if Ascii.eqb p "o" || Ascii.eqb p "O" then Some 8%N
        else if Ascii.eqb p "b" || Ascii.eqb p "B" then Some 2%N
        else None in
      match radix with
      | Some r =>
          match readDigits r ds 0 0 with
          | (v, S _, EmptyString) => Some v
          | _ => None
          end
      | None => None
      end
  | _ => None
  end.

(** An optional sign: whether it is a minus, and the rest. *)
Definition readSign (s : string) : bool * string :=
  match s with
  | String "+" s' => (false, s')
  | String "-" s' => (true, s')
  | _ => (false, s)
  end.

(** ExponentPart, optional, then the end of the literal. *)
Definition exponentPart (s : string) : option Z :=
  match s with
  | EmptyString => Some 0%Z
  | String c s' =>
      if Ascii.eqb c "e" || Ascii.eqb c "E" then
        let (neg, ds) := readSign s' in
        match readDigits 10 ds 0 0 with
        | (v, S _, EmptyString) =>
            Some (if neg then (- Z.of_N v)%Z else Z.of_N v)
        | _ => None
        end
      else None
  end.

(** StrUnsignedDecimalLiteral *)
Definition unsignedDecimalLiteral (neg : bool) (s : string) : Num :=
  if String.eqb s "Infinity" then Infinity neg
  else
    match readDigits 10 s 0 0 with
    | (m1, n1, String "." r1) =>
        match readDigits 10 r1 m1 0 with
        | (m2, n2, r2) =>
            match n1, n2 with
            | O, O => NaN
            | _, _ =>
                match exponentPart r2 with
                | Some e => Finite neg m2 (e - Z.of_nat n2)
                | None => NaN
                end
            end
        end
    | (m1, S _, r1) =>
        match exponentPart r1 with
        | Some e => Finite neg m1 e
        | None => NaN
        end
    | (_, O, _) => NaN
    end.

(** [Number(s)] on a string: StringToNumber of ECMA-262, every digit of
    the literal taken into account. *)
Definition Number (s : string) : Num :=
  let t := trim s in
  if String.eqb t "" then zero
  else
    match nonDecimalLiteral t with
    | Some v => Finite false v 0
    | None => let (neg, u) := readSign t in unsignedDecimalLiteral neg u
    end.

End JS.

(** ** The document model (shaka.hls.Attribute, Tag, Segment, Playlist) *)

(** [shaka.util.Error.Code], the codes this parser raises, and the
    [TypeError] the engine raises on a property access on [null]. *)
Inductive Error : Type :=
| HLS_PLAYLIST_HEADER_MISSING
| HLS_INVALID_PLAYLIST_HIERARCHY
| INVALID_HLS_TAG (word : string)
| TypeError.

(** What a call on a parser instance does: it returns or throws, and in
    both cases leaves [this.globalId_] at some value. *)
Inductive Outcome (A : Type) : Type :=
| Returns (a : A) (globalId : nat)
| Throws (e : Error) (globalId : nat).
Arguments Returns {A} a globalId.
Arguments Throws {A} e globalId.

Module Attribute.

(** [shaka.hls.Attribute].  The value is [undefined] ([None]) when the
    constructor was handed [undefined]. *)
Record t : Type := mk {
  name : string;
  value : option string
}.

End Attribute.

Module Tag.

(** [shaka.hls.Tag].  [value] is [null] ([None]) when absent. *)
Record t : Type := mk {
  id : nat;
  name : string;
  attributes : list Attribute.t;
  value : option string
}.

(** [attrToStr] inside [toString]: [Number(undefined)] is NaN and
    [undefined] concatenates as the text "undefined". *)
Definition attrToStr (attr : Attribute.t) : string :=
  match Attribute.value attr with
  | Some v =>
      let isNumericAttr := negb (JS.isNaN (JS.Number v)) in
      let value := if isNumericAttr then v else JS.quoted v in
      Attribute.name attr ++ "=" ++ value
  | None => Attribute.name attr ++ "=" ++ JS.quoted "undefined"
  end.

(** [toString(attributesToSkip)] *)
Definition toString (tag : t) (attributesToSkip : option (list string))
  : string :=
  let tagStr := "#" ++ name tag in
  let appendages :=
    List.map attrToStr
      (List.filter
         (fun attr =>
            match attributesToSkip with
            | None => true
            | Some skip =>
                negb (existsb (String.eqb (Attribute.name attr)) skip)
            end)
         (attributes tag)) in
  let appendages :=
    match value tag with
    | Some v => if JS.truthyStr (Some v) then v :: appendages else appendages
    | None => appendages
    end in
  if (0 <? List.length appendages)%nat
  then tagStr ++ ":" ++ String.concat "," appendages
  else tagStr.

(** [getTagKey(keepAllAttributes)] *)
Definition getTagKey (tag : t) (keepAllAttributes : bool) : string :=
  if keepAllAttributes then toString tag None
  else toString tag
         (Some ["AUDIO"; "VIDEO"; "SUBTITLES"; "PATHWAY-ID"; "GROUP-ID";
                "URI"]).

(** [addAttribute(attribute)] *)
Definition addAttribute (tag : t) (attribute : Attribute.t) : t :=
  mk (id tag) (name tag) (attributes tag ++ [attribute]) (value tag).

(** [getAttribute(name)]: the first attribute of that name.  The
    [goog.asserts.assert] in the source only logs. *)
Definition getAttribute (tag : t) (n : string) : option Attribute.t :=
  match List.filter (fun attr => String.eqb (Attribute.name attr) n)
          (attributes tag) with
  | a :: _ => Some a
  | [] => None
  end.

(** [getAttributeValue(name)] without a default value. *)
Definition getAttributeValue (tag : t) (n : string) : option string :=
  match getAttribute tag n with
  | Some a => Attribute.value a
  | None => None
  end.

(** [setName(name)] *)
Definition setName (tag : t) (n : string) : t :=
  mk (id tag) n (attributes tag) (value tag).

(** [getAttributeValue(name, defaultValue)] with a default value:
    [defaultValue || null] when no attribute has that name. *)
Definition getAttributeValueOr (tag : t) (n : string)
  (defaultValue : string) : option string :=
  match getAttribute tag n with
  | Some a => Attribute.value a
  | None =>
      if JS.truthyStr (Some defaultValue) then Some defaultValue else None
  end.

(** The code [getRequiredAttrValue] raises, with the name it looked for.
    The parser itself never calls that method. *)
Inductive RequiredAttributeError : Type :=
| HLS_REQUIRED_ATTRIBUTE_MISSING (attribute : string).

(** [getRequiredAttrValue(name)] *)
Definition getRequiredAttrValue (tag : t) (n : string)
  : RequiredAttributeError + option string :=
  match getAttribute tag n with
  | None => inl (HLS_REQUIRED_ATTRIBUTE_MISSING n)
  | Some a => inr (Attribute.value a)
  end.

End Tag.

Module SegmentComputed.

(** [shaka.hls.SegmentComputed]: the pre-computed view of one segment's tags. *)
Record t : Type := mk {
  extinf : option Tag.t;
  extinfDuration : JS.Num;
  map : option Tag.t;
  mapId : option nat;
  gap : option Tag.t;
  byterange : option Tag.t;
  discontinuity : option Tag.t;
  keys : list Tag.t;
  bitrate : JS.Num;
  dateTime : option Tag.t;
  tiles : option Tag.t
}.

Definition set_extinf (c : t) (v : option Tag.t) : t :=
  mk v (c.(extinfDuration)) (c.(map)) (c.(mapId)) (c.(gap))
    (c.(byterange)) (c.(discontinuity)) (c.(keys)) (c.(bitrate))
    (c.(dateTime)) (c.(tiles)).

Definition set_extinfDuration (c : t) (v : JS.Num) : t :=
  mk (c.(extinf)) v (c.(map)) (c.(mapId)) (c.(gap)) (c.(byterange))
    (c.(discontinuity)) (c.(keys)) (c.(bitrate)) (c.(dateTime))
    (c.(tiles)).

Definition set_map (c : t) (v : option Tag.t) : t :=
  mk (c.(extinf)) (c.(extinfDuration)) v (c.(mapId)) (c.(gap))
    (c.(byterange)) (c.(discontinuity)) (c.(keys)) (c.(bitrate))
    (c.(dateTime)) (c.(tiles)).

Definition set_mapId (c : t) (v : option nat) : t :=
  mk (c.(extinf)) (c.(extinfDuration)) (c.(map)) v (c.(gap))
    (c.(byterange)) (c.(discontinuity)) (c.(keys)) (c.(bitrate))
    (c.(dateTime)) (c.(tiles)).

Definition set_gap (c : t) (v : option Tag.t) : t :=
  mk (c.(extinf)) (c.(extinfDuration)) (c.(map)) (c.(mapId)) v
    (c.(byterange)) (c.(discontinuity)) (c.(keys)) (c.(bitrate))
    (c.(dateTime)) (c.(tiles)).

Definition set_byterange (c : t) (v : option Tag.t) : t :=
  mk (c.(extinf)) (c.(extinfDuration)) (c.(map)) (c.(mapId)) (c.(gap)) v
    (c.(discontinuity)) (c.(keys)) (c.(bitrate)) (c.(dateTime))
    (c.(tiles)).

Definition set_discontinuity (c : t) (v : option Tag.t) : t :=
  mk (c.(extinf)) (c.(extinfDuration)) (c.(map)) (c.(mapId)) (c.(gap))
    (c.(byterange)) v (c.(keys)) (c.(bitrate)) (c.(dateTime)) (c.(tiles)).

Definition set_keys (c : t) (v : list Tag.t) : t :=
  mk (c.(extinf)) (c.(extinfDuration)) (c.(map)) (c.(mapId)) (c.(gap))
    (c.(byterange)) (c.(discontinuity)) v (c.(bitrate)) (c.(dateTime))
    (c.(tiles)).

Definition set_bitrate (c : t) (v : JS.Num) : t :=
  mk (c.(extinf)) (c.(extinfDuration)) (c.(map)) (c.(mapId)) (c.(gap))
    (c.(byterange)) (c.(discontinuity)) (c.(keys)) v (c.(dateTime))
    (c.(tiles)).

Definition set_dateTime (c : t) (v : option Tag.t) : t :=
  mk (c.(extinf)) (c.(extinfDuration)) (c.(map)) (c.(mapId)) (c.(gap))
    (c.(byterange)) (c.(discontinuity)) (c.(keys)) (c.(bitrate)) v
    (c.(tiles)).

Definition set_tiles (c : t) (v : option Tag.t) : t :=
  mk (c.(extinf)) (c.(extinfDuration)) (c.(map)) (c.(mapId)) (c.(gap))
    (c.(byterange)) (c.(discontinuity)) (c.(keys)) (c.(bitrate))
    (c.(dateTime)) v.

End SegmentComputed.

Module PlaylistComputed.

(** [shaka.hls.PlaylistComputed]: the playlist-level tag index. *)
Record t : Type := mk {
  mediaSequence : JS.Num;
  skippedSegments : JS.Num;
  discontinuitySequence : JS.Num;
  skipTag : option Tag.t;
  endListTag : option Tag.t;
  serverControlTag : option Tag.t;
  playlistTypeTag : option Tag.t;
  startTag : option Tag.t;
  partInfTag : option Tag.t;
  targetDurationTag : option Tag.t;
  variableTags : list Tag.t;
  dateRangeTags : list Tag.t;
  mediaTags : list Tag.t;
  variantTags : list Tag.t;
  imageTags : list Tag.t;
  iFrameTags : list Tag.t;
  sessionKeyTags : list Tag.t;
  sessionDataTags : list Tag.t;
  contentSteeringTags : list Tag.t
}.

Definition set_mediaSequence (c : t) (v : JS.Num) : t :=
  mk v (c.(skippedSegments)) (c.(discontinuitySequence)) (c.(skipTag))
    (c.(endListTag)) (c.(serverControlTag)) (c.(playlistTypeTag))
    (c.(startTag)) (c.(partInfTag)) (c.(targetDurationTag))
    (c.(variableTags)) (c.(dateRangeTags)) (c.(mediaTags))
    (c.(variantTags)) (c.(imageTags)) (c.(iFrameTags))
    (c.(sessionKeyTags)) (c.(sessionDataTags)) (c.(contentSteeringTags)).

Definition set_skippedSegments (c : t) (v : JS.Num) : t :=
  mk (c.(mediaSequence)) v (c.(discontinuitySequence)) (c.(skipTag))
    (c.(endListTag)) (c.(serverControlTag)) (c.(playlistTypeTag))
    (c.(startTag)) (c.(partInfTag)) (c.(targetDurationTag))
    (c.(variableTags)) (c.(dateRangeTags)) (c.(mediaTags))
    (c.(variantTags)) (c.(imageTags)) (c.(iFrameTags))
    (c.(sessionKeyTags)) (c.(sessionDataTags)) (c.(contentSteeringTags)).

Definition set_discontinuitySequence (c : t) (v : JS.Num) : t :=
  mk (c.(mediaSequence)) (c.(skippedSegments)) v (c.(skipTag))
    (c.(endListTag)) (c.(serverControlTag)) (c.(playlistTypeTag))
    (c.(startTag)) (c.(partInfTag)) (c.(targetDurationTag))
    (c.(variableTags)) (c.(dateRangeTags)) (c.(mediaTags))
    (c.(variantTags)) (c.(imageTags)) (c.(iFrameTags))
    (c.(sessionKeyTags)) (c.(sessionDataTags)) (c.(contentSteeringTags)).

Definition set_skipTag (c : t) (v : option Tag.t) : t :=
  mk (c.(mediaSequence)) (c.(skippedSegments)) (c.(discontinuitySequence))
    v (c.(endListTag)) (c.(serverControlTag)) (c.(playlistTypeTag))
    (c.(startTag)) (c.(partInfTag)) (c.(targetDurationTag))
    (c.(variableTags)) (c.(dateRangeTags)) (c.(mediaTags))
    (c.(variantTags)) (c.(imageTags)) (c.(iFrameTags))
    (c.(sessionKeyTags)) (c.(sessionDataTags)) (c.(contentSteeringTags)).

Definition set_endListTag (c : t) (v : option Tag.t) : t :=
  mk (c.(mediaSequence)) (c.(skippedSegments)) (c.(discontinuitySequence))
    (c.(skipTag)) v (c.(serverControlTag)) (c.(playlistTypeTag))
    (c.(startTag)) (c.(partInfTag)) (c.(targetDurationTag))
    (c.(variableTags)) (c.(dateRangeTags)) (c.(mediaTags))
    (c.(variantTags)) (c.(imageTags)) (c.(iFrameTags))
    (c.(sessionKeyTags)) (c.(sessionDataTags)) (c.(contentSteeringTags)).

Definition set_serverControlTag (c : t) (v : option Tag.t) : t :=
  mk (c.(mediaSequence)) (c.(skippedSegments)) (c.(discontinuitySequence))
    (c.(skipTag)) (c.(endListTag)) v (c.(playlistTypeTag)) (c.(startTag))
    (c.(partInfTag)) (c.(targetDurationTag)) (c.(variableTags))
    (c.(dateRangeTags)) (c.(mediaTags)) (c.(variantTags)) (c.(imageTags))
    (c.(iFrameTags)) (c.(sessionKeyTags)) (c.(sessionDataTags))
    (c.(contentSteeringTags)).

Definition set_playlistTypeTag (c : t) (v : option Tag.t) : t :=
  mk (c.(mediaSequence)) (c.(skippedSegments)) (c.(discontinuitySequence))
    (c.(skipTag)) (c.(endListTag)) (c.(serverControlTag)) v (c.(startTag))
    (c.(partInfTag)) (c.(targetDurationTag)) (c.(variableTags))
    (c.(dateRangeTags)) (c.(mediaTags)) (c.(variantTags)) (c.(imageTags))
    (c.(iFrameTags)) (c.(sessionKeyTags)) (c.(sessionDataTags))
    (c.(contentSteeringTags)).

Definition set_startTag (c : t) (v : option Tag.t) : t :=
  mk (c.(mediaSequence)) (c.(skippedSegments)) (c.(discontinuitySequence))
    (c.(skipTag)) (c.(endListTag)) (c.(serverControlTag))
    (c.(playlistTypeTag)) v (c.(partInfTag)) (c.(targetDurationTag))
    (c.(variableTags)) (c.(dateRangeTags)) (c.(mediaTags))
    (c.(variantTags)) (c.(imageTags)) (c.(iFrameTags))
    (c.(sessionKeyTags)) (c.(sessionDataTags)) (c.(contentSteeringTags)).

Definition set_partInfTag (c : t) (v : option Tag.t) : t :=
  mk (c.(mediaSequence)) (c.(skippedSegments)) (c.(discontinuitySequence))
    (c.(skipTag)) (c.(endListTag)) (c.(serverControlTag))
    (c.(playlistTypeTag)) (c.(startTag)) v (c.(targetDurationTag))
    (c.(variableTags)) (c.(dateRangeTags)) (c.(mediaTags))
    (c.(variantTags)) (c.(imageTags)) (c.(iFrameTags))
    (c.(sessionKeyTags)) (c.(sessionDataTags)) (c.(contentSteeringTags)).

Definition set_targetDurationTag (c : t) (v : option Tag.t) : t :=
  mk (c.(mediaSequence)) (c.(skippedSegments)) (c.(discontinuitySequence))
    (c.(skipTag)) (c.(endListTag)) (c.(serverControlTag))
    (c.(playlistTypeTag)) (c.(startTag)) (c.(partInfTag)) v
    (c.(variableTags)) (c.(dateRangeTags)) (c.(mediaTags))
    (c.(variantTags)) (c.(imageTags)) (c.(iFrameTags))
    (c.(sessionKeyTags)) (c.(sessionDataTags)) (c.(contentSteeringTags)).

Definition set_variableTags (c : t) (v : list Tag.t) : t :=
  mk (c.(mediaSequence)) (c.(skippedSegments)) (c.(discontinuitySequence))
    (c.(skipTag)) (c.(endListTag)) (c.(serverControlTag))
    (c.(playlistTypeTag)) (c.(startTag)) (c.(partInfTag))
    (c.(targetDurationTag)) v (c.(dateRangeTags)) (c.(mediaTags))
    (c.(variantTags)) (c.(imageTags)) (c.(iFrameTags))
    (c.(sessionKeyTags)) (c.(sessionDataTags)) (c.(contentSteeringTags)).

Definition set_dateRangeTags (c : t) (v : list Tag.t) : t :=
  mk (c.(mediaSequence)) (c.(skippedSegments)) (c.(discontinuitySequence))
    (c.(skipTag)) (c.(endListTag)) (c.(serverControlTag))
    (c.(playlistTypeTag)) (c.(startTag)) (c.(partInfTag))
    (c.(targetDurationTag)) (c.(variableTags)) v (c.(mediaTags))
    (c.(variantTags)) (c.(imageTags)) (c.(iFrameTags))
    (c.(sessionKeyTags)) (c.(sessionDataTags)) (c.(contentSteeringTags)).

Definition set_mediaTags (c : t) (v : list Tag.t) : t :=
  mk (c.(mediaSequence)) (c.(skippedSegments)) (c.(discontinuitySequence))
    (c.(skipTag)) (c.(endListTag)) (c.(serverControlTag))
    (c.(playlistTypeTag)) (c.(startTag)) (c.(partInfTag))
    (c.(targetDurationTag)) (c.(variableTags)) (c.(dateRangeTags)) v
    (c.(variantTags)) (c.(imageTags)) (c.(iFrameTags))
    (c.(sessionKeyTags)) (c.(sessionDataTags)) (c.(contentSteeringTags)).

Definition set_variantTags (c : t) (v : list Tag.t) : t :=
  mk (c.(mediaSequence)) (c.(skippedSegments)) (c.(discontinuitySequence))
    (c.(skipTag)) (c.(endListTag)) (c.(serverControlTag))
    (c.(playlistTypeTag)) (c.(startTag)) (c.(partInfTag))
    (c.(targetDurationTag)) (c.(variableTags)) (c.(dateRangeTags))
    (c.(mediaTags)) v (c.(imageTags)) (c.(iFrameTags))
    (c.(sessionKeyTags)) (c.(sessionDataTags)) (c.(contentSteeringTags)).

Definition set_imageTags (c : t) (v : list Tag.t) : t :=
  mk (c.(mediaSequence)) (c.(skippedSegments)) (c.(discontinuitySequence))
    (c.(skipTag)) (c.(endListTag)) (c.(serverControlTag))
    (c.(playlistTypeTag)) (c.(startTag)) (c.(partInfTag))
    (c.(targetDurationTag)) (c.(variableTags)) (c.(dateRangeTags))
    (c.(mediaTags)) (c.(variantTags)) v (c.(iFrameTags))
    (c.(sessionKeyTags)) (c.(sessionDataTags)) (c.(contentSteeringTags)).

Definition set_iFrameTags (c : t) (v : list Tag.t) : t :=
  mk (c.(mediaSequence)) (c.(skippedSegments)) (c.(discontinuitySequence))
    (c.(skipTag)) (c.(endListTag)) (c.(serverControlTag))
    (c.(playlistTypeTag)) (c.(startTag)) (c.(partInfTag))
    (c.(targetDurationTag)) (c.(variableTags)) (c.(dateRangeTags))
    (c.(mediaTags)) (c.(variantTags)) (c.(imageTags)) v
    (c.(sessionKeyTags)) (c.(sessionDataTags)) (c.(contentSteeringTags)).

Definition set_sessionKeyTags (c : t) (v : list Tag.t) : t :=
  mk (c.(mediaSequence)) (c.(skippedSegments)) (c.(discontinuitySequence))
    (c.(skipTag)) (c.(endListTag)) (c.(serverControlTag))
    (c.(playlistTypeTag)) (c.(startTag)) (c.(partInfTag))
    (c.(targetDurationTag)) (c.(variableTags)) (c.(dateRangeTags))
    (c.(mediaTags)) (c.(variantTags)) (c.(imageTags)) (c.(iFrameTags)) v
    (c.(sessionDataTags)) (c.(contentSteeringTags)).

Definition set_sessionDataTags (c : t) (v : list Tag.t) : t :=
  mk (c.(mediaSequence)) (c.(skippedSegments)) (c.(discontinuitySequence))
    (c.(skipTag)) (c.(endListTag)) (c.(serverControlTag))
    (c.(playlistTypeTag)) (c.(startTag)) (c.(partInfTag))
    (c.(targetDurationTag)) (c.(variableTags)) (c.(dateRangeTags))
    (c.(mediaTags)) (c.(variantTags)) (c.(imageTags)) (c.(iFrameTags))
    (c.(sessionKeyTags)) v (c.(contentSteeringTags)).

Definition set_contentSteeringTags (c : t) (v : list Tag.t) : t :=
  mk (c.(mediaSequence)) (c.(skippedSegments)) (c.(discontinuitySequence))
    (c.(skipTag)) (c.(endListTag)) (c.(serverControlTag))
    (c.(playlistTypeTag)) (c.(startTag)) (c.(partInfTag))
    (c.(targetDurationTag)) (c.(variableTags)) (c.(dateRangeTags))
    (c.(mediaTags)) (c.(variantTags)) (c.(imageTags)) (c.(iFrameTags))
    (c.(sessionKeyTags)) (c.(sessionDataTags)) v.

End PlaylistComputed.

Module SegmentsComputed.

(** [shaka.hls.SegmentsComputed] *)
Record t : Type := mk {
  count : nat;
  gapCount : nat;
  lastExtinfDuration : option JS.Num
}.

End SegmentsComputed.

Module PlaylistComputedData.

(** [shaka.hls.PlaylistComputedData] *)
Record t : Type := mk {
  playlist : PlaylistComputed.t;
  segments : SegmentsComputed.t
}.

End PlaylistComputedData.

Module Segment.

(** [shaka.hls.Segment] *)
Record t : Type := mk {
  tags : list Tag.t;
  verbatimSegmentUri : string;
  partialSegments : list Tag.t;
  computed : SegmentComputed.t
}.

(** The constructor, with the argument order of the source. *)
Definition new (verbatimSegmentUri : string) (tags : list Tag.t)
  (computed : SegmentComputed.t) (partialSegments : list Tag.t) : t :=
  mk tags verbatimSegmentUri partialSegments computed.

End Segment.

(** [shaka.hls.PlaylistType] *)
Inductive PlaylistType : Type := MASTER | MEDIA.

Definition PlaylistType_eqb (a b : PlaylistType) : bool :=
  match a, b with
  | MASTER, MASTER | MEDIA, MEDIA => true
  | _, _ => false
  end.

Module Playlist.

(** [shaka.hls.Playlist] *)
Record t : Type := mk {
  type : PlaylistType;
  tags : list Tag.t;
  segments : option (list Segment.t);
  computed : PlaylistComputedData.t
}.

(** The constructor.  [this.segments = segments || null]: an array, empty
    or not, is truthy and is kept; only a missing argument gives [null]. *)
Definition new (type : PlaylistType) (tags : list Tag.t)
  (computed : PlaylistComputedData.t) (segments : option (list Segment.t))
  : t :=
  mk type tags
     (match segments with Some a => Some a | None => None end)
     computed.

End Playlist.

(** ** Collaborators that are not among the sources *)

Module Utils.

(** Modelled from the spec: [shaka.hls.Utils.isComment] is not among the
    sources.  A comment is a line that starts with the comment marker [#]
    and is not a directive, that is, does not start with [#EXT]. *)
Definition isComment (line : string) : bool :=
  JS.startsWith line "#" && negb (JS.startsWith line "#EXT").

End Utils.

Module TextParser.

(** The longest prefix of [s] with no character of [stop], and the rest. *)
Fixpoint span (stop : ascii -> bool) (s : string) : string * string :=
  match s with
  | String c s' =>
      if stop c then (EmptyString, s)
      else let (a, b) := span stop s' in (String c a, b)
  | EmptyString => (EmptyString, EmptyString)
  end.

(** A comma or the end of the input, the tail of [valueRegex] and
    [attributeRegex]: what follows the match. *)
Definition commaOrEnd (s : string) : option string :=
  match s with
  | EmptyString => Some EmptyString
  | String c s' => if Ascii.eqb c "," then Some s' else None
  end.

Definition isBlank (c : ascii) : bool :=
  Ascii.eqb c " " || Ascii.eqb c "009".

(** Modelled from the spec: [shaka.util.TextParser] is not among the
    sources.  The parser holds the text and a cursor, kept here as the text
    from the cursor on.  [readRegex(r)] gives the match of [r] that starts
    at the cursor and moves the cursor past it; it gives [null] and leaves
    the cursor when [r] has no match starting there.  [skipWhitespace()]
    moves the cursor past blanks and tabs. *)
Fixpoint skipWhitespace (s : string) : string :=
  match s with
  | String c s' => if isBlank c then skipWhitespace s' else s
  | EmptyString => EmptyString
  end.

End TextParser.

(** ** The local state of parseSegments_ *)

Module SegmentsState.

(** The local variables of [parseSegments_], with the two arrays it mutates
  on behalf of its caller ([playlistTags], [tagIndex]).  The pre-sized
  array [segments] is kept as its filled slots, [segments[0 ..
  segmentIndex)], and its [length]; [segmentIndex] is the number of filled
  slots. *)
Record t : Type := mk {
  segments : list Segment.t;
  segmentsLength : nat;
  segmentTags : list Tag.t;
  partialSegmentTags : list Tag.t;
  currentMapTag : option Tag.t;
  gapCount : nat;
  lastExtinfDuration : option JS.Num;
  computed : SegmentComputed.t;
  playlistTags : list Tag.t;
  tagIndex : PlaylistComputed.t
}.

Definition set_segments (c : t) (v : list Segment.t) : t :=
  mk v (c.(segmentsLength)) (c.(segmentTags)) (c.(partialSegmentTags))
    (c.(currentMapTag)) (c.(gapCount)) (c.(lastExtinfDuration))
    (c.(computed)) (c.(playlistTags)) (c.(tagIndex)).

Definition set_segmentsLength (c : t) (v : nat) : t :=
  mk (c.(segments)) v (c.(segmentTags)) (c.(partialSegmentTags))
    (c.(currentMapTag)) (c.(gapCount)) (c.(lastExtinfDuration))
    (c.(computed)) (c.(playlistTags)) (c.(tagIndex)).

Definition set_segmentTags (c : t) (v : list Tag.t) : t :=
  mk (c.(segments)) (c.(segmentsLength)) v (c.(partialSegmentTags))
    (c.(currentMapTag)) (c.(gapCount)) (c.(lastExtinfDuration))
    (c.(computed)) (c.(playlistTags)) (c.(tagIndex)).

Definition set_partialSegmentTags (c : t) (v : list Tag.t) : t :=
  mk (c.(segments)) (c.(segmentsLength)) (c.(segmentTags)) v
    (c.(currentMapTag)) (c.(gapCount)) (c.(lastExtinfDuration))
    (c.(computed)) (c.(playlistTags)) (c.(tagIndex)).

Definition set_currentMapTag (c : t) (v : option Tag.t) : t :=
  mk (c.(segments)) (c.(segmentsLength)) (c.(segmentTags))
    (c.(partialSegmentTags)) v (c.(gapCount)) (c.(lastExtinfDuration))
    (c.(computed)) (c.(playlistTags)) (c.(tagIndex)).

Definition set_gapCount (c : t) (v : nat) : t :=
  mk (c.(segments)) (c.(segmentsLength)) (c.(segmentTags))
    (c.(partialSegmentTags)) (c.(currentMapTag)) v
    (c.(lastExtinfDuration)) (c.(computed)) (c.(playlistTags))
    (c.(tagIndex)).

Definition set_lastExtinfDuration (c : t) (v : option JS.Num) : t :=
  mk (c.(segments)) (c.(segmentsLength)) (c.(segmentTags))
    (c.(partialSegmentTags)) (c.(currentMapTag)) (c.(gapCount)) v
    (c.(computed)) (c.(playlistTags)) (c.(tagIndex)).

Definition set_computed (c : t) (v : SegmentComputed.t) : t :=
  mk (c.(segments)) (c.(segmentsLength)) (c.(segmentTags))
    (c.(partialSegmentTags)) (c.(currentMapTag)) (c.(gapCount))
    (c.(lastExtinfDuration)) v (c.(playlistTags)) (c.(tagIndex)).

Definition set_playlistTags (c : t) (v : list Tag.t) : t :=
  mk (c.(segments)) (c.(segmentsLength)) (c.(segmentTags))
    (c.(partialSegmentTags)) (c.(currentMapTag)) (c.(gapCount))
    (c.(lastExtinfDuration)) (c.(computed)) v (c.(tagIndex)).

Definition set_tagIndex (c : t) (v : PlaylistComputed.t) : t :=
  mk (c.(segments)) (c.(segmentsLength)) (c.(segmentTags))
    (c.(partialSegmentTags)) (c.(currentMapTag)) (c.(gapCount))
    (c.(lastExtinfDuration)) (c.(computed)) (c.(playlistTags)) v.

End SegmentsState.


(** ** shaka.hls.ManifestTextParser *)

Module ManifestTextParser.

Import TextParser.

(** *** STATIC_PATTERNS *)

Definition isColon (c : ascii) : bool := Ascii.eqb c ":".
Definition commaOrEquals (c : ascii) : bool :=
  Ascii.eqb c "," || Ascii.eqb c "=".
Definition isEquals (c : ascii) : bool := Ascii.eqb c "=".
Definition isQuote (c : ascii) : bool := Ascii.eqb c JS.DQUOTE.
Definition quoteOrComma (c : ascii) : bool :=
  Ascii.eqb c JS.DQUOTE || Ascii.eqb c ",".

(** Any characters up to the end of the input, when the dot matches no
    line terminator and the pattern has no [m] flag: no line terminator
    starts anywhere in the rest. *)
Fixpoint dotStarToEnd (s : string) : bool :=
  match s with
  | String c s' =>
      match JS.lineTerminator s with
      | Some _ => false
      | None => dotStarToEnd s'
      end
  | EmptyString => true
  end.

(** [word.match(STATIC_PATTERNS.tagBlocks)]: at the start a hash, then
    group 1 (EXT and the longest run of characters other than a colon),
    then optionally a colon and group 2 (the rest), then the end of the
    input.  The result holds groups 1 and 2. *)
Definition tagBlocks (word : string) : option (string * option string) :=
  match JS.stripPrefix "#EXT" word with
  | Some rest =>
      match span isColon rest with
      | (n, EmptyString) => Some ("EXT" ++ n, None)
      | (n, String _ data) =>
          if dotStarToEnd data then Some ("EXT" ++ n, Some data) else None
      end
  | None => None
  end.

(** The match of [STATIC_PATTERNS.header] at one position: the token
    #EXTM3U, then the end of a line (the end of the input or, with the [m]
    flag, a line terminator ahead) or a blank, a tab or a line feed. *)
Definition headerHere (s : string) : bool :=
  match JS.stripPrefix "#EXTM3U" s with
  | Some rest =>
      match rest with
      | String c _ =>
          match JS.lineTerminator rest with
          | Some _ => true
          | None => Ascii.eqb c " " || Ascii.eqb c "009"
          end
      | EmptyString => true
      end
  | None => false
  end.

(** A match that starts right after a line terminator of [s]. *)
Fixpoint headerAfterLineTerminator (s : string) : bool :=
  match s with
  | String c s' =>
      match JS.lineTerminator s with
      | Some r => headerHere r
      | None => false
      end
      || headerAfterLineTerminator s'
  | EmptyString => false
  end.

(** [header.test(s)]: with the [m] flag the pattern may match at the start
    of the input and after every line terminator. *)
Definition header (s : string) : bool :=
  headerHere s || headerAfterLineTerminator s.

(** [parser.readRegex(valueRegex)] with the cursor at the start of the
    data: group 1 (the longest run, not empty, of characters other than a
    comma and an equals sign), then a comma or the end.  The result holds
    group 1 and the text after the match. *)
Definition valueRegex (data : string) : option (string * string) :=
  match span commaOrEquals data with
  | (EmptyString, _) => None
  | (v, rest) =>
      match commaOrEnd rest with
      | Some rest' => Some (v, rest')
      | None => None
      end
  end.

(** The first alternative after the equals sign: a quote, group 2 (the
    characters up to the next quote), that quote, then a comma or the
    end. *)
Definition quotedValue (s : string) : option (string * string) :=
  match s with
  | String c s' =>
      if isQuote c then
        match span isQuote s' with
        | (v, String _ rest) =>
            match commaOrEnd rest with
            | Some rest' => Some (v, rest')
            | None => None
            end
        | (_, EmptyString) => None
        end
      else None
  | EmptyString => None
  end.

(** The second alternative: group 3 (the longest run of characters other
    than a quote and a comma), then a comma or the end. *)
Definition unquotedValue (s : string) : option (string * string) :=
  match span quoteOrComma s with
  | (v, rest) =>
      match commaOrEnd rest with
      | Some rest' => Some (v, rest')
      | None => None
      end
  end.

(** [parser.readRegex(attributeRegex)]: group 1 (the longest run, not
    empty, of characters other than an equals sign), the equals sign, then
    the first alternative or else the second.  The result holds groups 1, 2
    and 3 and the text after the match. *)
Definition attributeRegex (s : string)
  : option (string * option string * option string * string) :=
  match span isEquals s with
  | (EmptyString, _) => None
  | (_, EmptyString) => None
  | (k, String _ afterEquals) =>
      match quotedValue afterEquals with
      | Some (v, rest) => Some (k, Some v, None, rest)
      | None =>
          match unquotedValue afterEquals with
          | Some (v, rest) => Some (k, None, Some v, rest)
          | None => None
          end
      end
  end.

(** [a || b] on two optional strings. *)
Definition orElse (a b : option string) : option string :=
  if JS.truthyStr a then a else b.

(** The [while (blockAttrs)] loop of [parseTag].  Every round consumes at
    least two characters, so [fuel] at the length of the text is never
    exhausted ([readAttributes_fuel]). *)
Fixpoint readAttributes (fuel : nat) (s : string) : list Attribute.t :=
  match fuel with
  | O => []
  | S fuel' =>
      match attributeRegex s with
      | Some (attrName, g2, g3, rest) =>
          let attrValue := orElse g2 g3 in
          Attribute.mk attrName attrValue
            :: readAttributes fuel' (skipWhitespace rest)
      | None => []
      end
  end.

(** [static parseTag(id, word)] *)
Definition parseTag (id : nat) (word : string) : Error + Tag.t :=
  match tagBlocks word with
  | None => inl (INVALID_HLS_TAG word)
  | Some (name, data) =>
      match data with
      | Some d =>
          if JS.truthyStr (Some d) then
            let (value, rest) :=
              match valueRegex d with
              | Some (v, rest) => (Some v, rest)
              | None => (None, d)
              end in
            inr (Tag.mk id name (readAttributes (String.length rest) rest)
                   value)
          else inr (Tag.mk id name [] None)
      | None => inr (Tag.mk id name [] None)
      end
  end.

(** *** The classification tables *)

Definition has (set : list string) (x : string) : bool :=
  existsb (String.eqb x) set.
Arguments has set x : simpl never.

Definition MEDIA_PLAYLIST_TAGS : list string :=
  [ "EXT-X-TARGETDURATION"; "EXT-X-MEDIA-SEQUENCE";
    "EXT-X-DISCONTINUITY-SEQUENCE"; "EXT-X-PLAYLIST-TYPE";
    "EXT-X-I-FRAMES-ONLY"; "EXT-X-ENDLIST"; "EXT-X-SERVER-CONTROL";
    "EXT-X-SKIP"; "EXT-X-PART-INF"; "EXT-X-DATERANGE" ].

Definition SEGMENT_TAGS : list string :=
  [ "EXTINF"; "EXT-X-BYTERANGE"; "EXT-X-DISCONTINUITY";
    "EXT-X-PROGRAM-DATE-TIME"; "EXT-X-KEY"; "EXT-X-DATERANGE"; "EXT-X-MAP";
    "EXT-X-GAP"; "EXT-X-TILES" ].

(** *** The computed views *)

Definition createDefaultComputed_ : SegmentComputed.t :=
  SegmentComputed.mk None JS.zero None None None None None [] JS.zero None
    None.

Definition createDefaultSegmentsComputed_ : SegmentsComputed.t :=
  SegmentsComputed.mk 0 0 None.

(** [Number(v || d)] for a tag value [v] and a numeric default [d]. *)
Definition numberOr (v : option string) (d : JS.Num) : JS.Num :=
  match v with
  | Some s => if JS.truthyStr (Some s) then JS.Number s else d
  | None => d
  end.

(** [updateComputedForTag_(computed, tag)].  [tag.value.split] throws a
    TypeError when the EXTINF tag has no value. *)
Definition updateComputedForTag_ (computed : SegmentComputed.t)
  (tag : Tag.t) : Error + SegmentComputed.t :=
  let name := Tag.name tag in
  if String.eqb name "EXTINF" then
    match SegmentComputed.extinf computed with
    | None =>
        match Tag.value tag with
        | Some v =>
            let duration := JS.beforeComma v in
            inr (SegmentComputed.set_extinfDuration
                   (SegmentComputed.set_extinf computed (Some tag))
                   (JS.Number duration))
        | None => inl TypeError
        end
    | Some _ => inr computed
    end
  else if String.eqb name "EXT-X-MAP" then
    match SegmentComputed.map computed with
    | None =>
        inr (SegmentComputed.set_mapId
               (SegmentComputed.set_map computed (Some tag))
               (Some (Tag.id tag)))
    | Some _ => inr computed
    end
  else if String.eqb name "EXT-X-GAP" then
    match SegmentComputed.gap computed with
    | None => inr (SegmentComputed.set_gap computed (Some tag))
    | Some _ => inr computed
    end
  else if String.eqb name "EXT-X-BYTERANGE" then
    match SegmentComputed.byterange computed with
    | None => inr (SegmentComputed.set_byterange computed (Some tag))
    | Some _ => inr computed
    end
  else if String.eqb name "EXT-X-DISCONTINUITY" then
    match SegmentComputed.discontinuity computed with
    | None => inr (SegmentComputed.set_discontinuity computed (Some tag))
    | Some _ => inr computed
    end
  else if String.eqb name "EXT-X-KEY" then
    inr (SegmentComputed.set_keys computed
           (SegmentComputed.keys computed ++ [tag]))
  else if String.eqb name "EXT-X-PROGRAM-DATE-TIME" then
    match SegmentComputed.dateTime computed with
    | None => inr (SegmentComputed.set_dateTime computed (Some tag))
    | Some _ => inr computed
    end
  else if String.eqb name "EXT-X-TILES" then
    match SegmentComputed.tiles computed with
    | None => inr (SegmentComputed.set_tiles computed (Some tag))
    | Some _ => inr computed
    end
  else if String.eqb name "EXT-X-BITRATE" then
    if JS.truthyNum (SegmentComputed.bitrate computed) then inr computed
    else inr (SegmentComputed.set_bitrate computed
                (numberOr (Tag.value tag) JS.zero))
  else inr computed.

Definition createDefaultTagIndex_ : PlaylistComputed.t :=
  PlaylistComputed.mk JS.zero JS.zero JS.minusOne
    None None None None None None None
    [] [] [] [] [] [] [] [] [].

(** [updateTagIndexForTag_(index, tag)] *)
Definition updateTagIndexForTag_ (index : PlaylistComputed.t) (tag : Tag.t)
  : PlaylistComputed.t :=
  let name := Tag.name tag in
  if String.eqb name "EXT-X-MEDIA-SEQUENCE" then
    PlaylistComputed.set_mediaSequence index
      (numberOr (Tag.value tag) JS.zero)
  else if String.eqb name "EXT-X-SKIP" then
    let index := PlaylistComputed.set_skipTag index (Some tag) in
    let skipped := Tag.getAttributeValue tag "SKIPPED-SEGMENTS" in
    PlaylistComputed.set_skippedSegments index
      (match skipped with
       | Some s => if JS.truthyStr (Some s) then JS.Number s else JS.zero
       | None => JS.zero
       end)
  else if String.eqb name "EXT-X-DEFINE" then
    PlaylistComputed.set_variableTags index
      (PlaylistComputed.variableTags index ++ [tag])
  else if String.eqb name "EXT-X-ENDLIST" then
    match PlaylistComputed.endListTag index with
    | None => PlaylistComputed.set_endListTag index (Some tag)
    | Some _ => index
    end
  else if String.eqb name "EXT-X-SERVER-CONTROL" then
    match PlaylistComputed.serverControlTag index with
    | None => PlaylistComputed.set_serverControlTag index (Some tag)
    | Some _ => index
    end
  else if String.eqb name "EXT-X-PLAYLIST-TYPE" then
    match PlaylistComputed.playlistTypeTag index with
    | None => PlaylistComputed.set_playlistTypeTag index (Some tag)
    | Some _ => index
    end
  else if String.eqb name "EXT-X-START" then
    match PlaylistComputed.startTag index with
    | None => PlaylistComputed.set_startTag index (Some tag)
    | Some _ => index
    end
  else if String.eqb name "EXT-X-PART-INF" then
    match PlaylistComputed.partInfTag index with
    | None => PlaylistComputed.set_partInfTag index (Some tag)
    | Some _ => index
    end
  else if String.eqb name "EXT-X-TARGETDURATION" then
    match PlaylistComputed.targetDurationTag index with
    | None => PlaylistComputed.set_targetDurationTag index (Some tag)
    | Some _ => index
    end
  else if String.eqb name "EXT-X-DATERANGE" then
    PlaylistComputed.set_dateRangeTags index
      (PlaylistComputed.dateRangeTags index ++ [tag])
  else if String.eqb name "EXT-X-DISCONTINUITY-SEQUENCE" then
    PlaylistComputed.set_discontinuitySequence index
      (numberOr (Tag.value tag) JS.minusOne)
  else if String.eqb name "EXT-X-MEDIA" then
    PlaylistComputed.set_mediaTags index
      (PlaylistComputed.mediaTags index ++ [tag])
  else if String.eqb name "EXT-X-STREAM-INF" then
    PlaylistComputed.set_variantTags index
      (PlaylistComputed.variantTags index ++ [tag])
  else if String.eqb name "EXT-X-IMAGE-STREAM-INF" then
    PlaylistComputed.set_imageTags index
      (PlaylistComputed.imageTags index ++ [tag])
  else if String.eqb name "EXT-X-I-FRAME-STREAM-INF" then
    PlaylistComputed.set_iFrameTags index
      (PlaylistComputed.iFrameTags index ++ [tag])
  else if String.eqb name "EXT-X-SESSION-KEY" then
    PlaylistComputed.set_sessionKeyTags index
      (PlaylistComputed.sessionKeyTags index ++ [tag])
  else if String.eqb name "EXT-X-SESSION-DATA" then
    PlaylistComputed.set_sessionDataTags index
      (PlaylistComputed.sessionDataTags index ++ [tag])
  else if String.eqb name "EXT-X-CONTENT-STEERING" then
    PlaylistComputed.set_contentSteeringTags index
      (PlaylistComputed.contentSteeringTags index ++ [tag])
  else index.

(** *** parseSegments_ *)

(** [x == s] for an optional string [x] and a string literal [s]. *)
Definition looseEq (x : option string) (s : string) : bool :=
  match x with
  | Some v => String.eqb v s
  | None => false
  end.

(** The store of one segment at [segmentIndex]: into the pre-sized array
    while it has room, by [push] afterwards. *)
Definition storeSegment (st : SegmentsState.t) (segment : Segment.t)
  : SegmentsState.t :=
  let segmentIndex := List.length (SegmentsState.segments st) in
  if (segmentIndex <? SegmentsState.segmentsLength st)%nat then
    SegmentsState.set_segments st (SegmentsState.segments st ++ [segment])
  else
    SegmentsState.set_segmentsLength
      (SegmentsState.set_segments st (SegmentsState.segments st ++ [segment]))
      (S (SegmentsState.segmentsLength st)).

(** The body of the loop for a line that starts with [#EXT], once the line
    is parsed into [tag]. *)
Definition directiveLine (st : SegmentsState.t) (tag : Tag.t)
  : Error + SegmentsState.t :=
  if has MEDIA_PLAYLIST_TAGS (Tag.name tag) then
    inr (SegmentsState.set_tagIndex
           (SegmentsState.set_playlistTags st
              (SegmentsState.playlistTags st ++ [tag]))
           (updateTagIndexForTag_ (SegmentsState.tagIndex st) tag))
  else
    let (st1, tag1) :=
      if String.eqb (Tag.name tag) "EXT-X-MAP" then
        (SegmentsState.set_currentMapTag st (Some tag), tag)
      else if String.eqb (Tag.name tag) "EXT-X-PART" then
        (SegmentsState.set_partialSegmentTags st
           (SegmentsState.partialSegmentTags st ++ [tag]), tag)
      else if String.eqb (Tag.name tag) "EXT-X-PRELOAD-HINT" then
        if looseEq (Tag.getAttributeValue tag "TYPE") "PART" then
          (SegmentsState.set_partialSegmentTags st
             (SegmentsState.partialSegmentTags st ++ [tag]), tag)
        else if looseEq (Tag.getAttributeValue tag "TYPE") "MAP" then
          (* Rename the Preload Hint tag to be a Map tag. *)
          let renamed := Tag.setName tag "EXT-X-MAP" in
          (SegmentsState.set_currentMapTag st (Some renamed), renamed)
        else (st, tag)
      else
        (SegmentsState.set_segmentTags st
           (SegmentsState.segmentTags st ++ [tag]), tag) in
    (* Update computed data incrementally for all tags *)
    match updateComputedForTag_ (SegmentsState.computed st1) tag1 with
    | inr computed => inr (SegmentsState.set_computed st1 computed)
    | inl e => inl e
    end.

(** [segmentTags.push(currentMapTag)] when there is a current map tag. *)
Definition withMapTag (segmentTags : list Tag.t)
  (currentMapTag : option Tag.t) : list Tag.t :=
  match currentMapTag with
  | Some m => segmentTags ++ [m]
  | None => segmentTags
  end.

(** The body of the loop for a URI line: one segment is emitted and the
    pending state is reset. *)
Definition uriLine (st : SegmentsState.t) (line : string)
  : SegmentsState.t :=
  let verbatimSegmentUri := JS.trim line in
  let currentMapTag := SegmentsState.currentMapTag st in
  let segmentTags := withMapTag (SegmentsState.segmentTags st) currentMapTag in
  let computed := SegmentsState.computed st in
  let lastExtinfDuration :=
    match SegmentComputed.extinf computed with
    | Some _ => Some (SegmentComputed.extinfDuration computed)
    | None => SegmentsState.lastExtinfDuration st
    end in
  let gapCount :=
    match SegmentComputed.gap computed with
    | Some _ => S (SegmentsState.gapCount st)
    | None => SegmentsState.gapCount st
    end in
  let computed :=
    match SegmentComputed.map computed, currentMapTag with
    | None, Some m =>
        SegmentComputed.set_mapId
          (SegmentComputed.set_map computed (Some m)) (Some (Tag.id m))
    | _, _ => computed
    end in
  let segment :=
    Segment.new verbatimSegmentUri segmentTags computed
      (SegmentsState.partialSegmentTags st) in
  let st := storeSegment st segment in
  SegmentsState.mk (SegmentsState.segments st)
    (SegmentsState.segmentsLength st) [] [] currentMapTag gapCount
    lastExtinfDuration createDefaultComputed_
    (SegmentsState.playlistTags st) (SegmentsState.tagIndex st).

(** The [for] loop of [parseSegments_] over the lines from [lineIndex] on.
    [parseTag_] reads and increments [globalId_] before it parses. *)
Fixpoint segmentsLoop (lines : list string) (st : SegmentsState.t)
  (globalId : nat) : Outcome SegmentsState.t :=
  match lines with
  | [] => Returns st globalId
  | line :: rest =>
      if JS.startsWith line "#EXT" then
        match parseTag globalId line with
        | inr tag =>
            match directiveLine st tag with
            | inr st' => segmentsLoop rest st' (S globalId)
            | inl e => Throws e (S globalId)
            end
        | inl e => Throws e (S globalId)
        end
      else if Utils.isComment line then
        (* Skip comments. *)
        segmentsLoop rest st globalId
      else segmentsLoop rest (uriLine st line) globalId
  end.

(** [for (const tag of segmentTags) updateComputedForTag_(computed, tag)] *)
Fixpoint updateComputedForTags (computed : SegmentComputed.t)
  (tags : list Tag.t) : Error + SegmentComputed.t :=
  match tags with
  | [] => inr computed
  | tag :: tags' =>
      match updateComputedForTag_ computed tag with
      | inr computed' => updateComputedForTags computed' tags'
      | inl e => inl e
      end
  end.

(** What [parseSegments_] hands back: its result object and the final
    contents of the caller's [playlistTags] and [tagIndex]. *)
Record SegmentsResult : Type := mkSegmentsResult {
  segments : list Segment.t;
  analysis : SegmentsComputed.t;
  playlistTags : list Tag.t;
  tagIndex : PlaylistComputed.t
}.

(** The code after the loop: the segment that wraps trailing partial
    segments, the analysis and the trimmed array. *)
Definition finishSegments (st : SegmentsState.t) : Error + SegmentsResult :=
  let final :=
    match SegmentsState.partialSegmentTags st with
    | _ :: _ =>
        let segmentTags :=
          withMapTag (SegmentsState.segmentTags st)
            (SegmentsState.currentMapTag st) in
        match updateComputedForTags createDefaultComputed_ segmentTags with
        | inr computed =>
            inr (storeSegment st
                   (Segment.new "" segmentTags computed
                      (SegmentsState.partialSegmentTags st)))
        | inl e => inl e
        end
    | [] => inr st
    end in
  match final with
  | inr st =>
      let segmentIndex := List.length (SegmentsState.segments st) in
      inr (mkSegmentsResult
             (SegmentsState.segments st)
             (SegmentsComputed.mk segmentIndex (SegmentsState.gapCount st)
                (SegmentsState.lastExtinfDuration st))
             (SegmentsState.playlistTags st) (SegmentsState.tagIndex st))
  | inl e => inl e
  end.

(** The state [parseSegments_] starts its loop in. *)
Definition initialSegmentsState (remainingLines : nat)
  (playlistTags : list Tag.t) (tagIndex : PlaylistComputed.t)
  : SegmentsState.t :=
  let estimatedSegments := Nat.max 100 (remainingLines / 2) in
  SegmentsState.mk [] estimatedSegments [] [] None 0 None
    createDefaultComputed_ playlistTags tagIndex.

(** [parseSegments_(lines, startIndex, playlistTags, tagIndex)], on the
    lines from [startIndex] on. *)
Definition parseSegments_ (lines : list string) (playlistTags : list Tag.t)
  (tagIndex : PlaylistComputed.t) (globalId : nat)
  : Outcome SegmentsResult :=
  match segmentsLoop lines
          (initialSegmentsState (List.length lines) playlistTags tagIndex)
          globalId with
  | Returns st globalId' =>
      match finishSegments st with
      | inr r => Returns r globalId'
      | inl e => Throws e globalId'
      end
  | Throws e globalId' => Throws e globalId'
  end.

(** *** parsePlaylist *)

(** The local variables of the scanning loop of [parsePlaylist]. *)
Record ScanState : Type := mkScanState {
  playlistType : PlaylistType;
  typeDetected : bool;
  tags : list Tag.t;
  scanIndex : PlaylistComputed.t;
  skip : bool
}.

(** What one round of the scanning loop does: it goes on to the next line,
    or the call ends. *)
Inductive ScanStep : Type :=
| Next (st : ScanState) (globalId : nat)
| Done (o : Outcome Playlist.t).

(** Detect playlist type on first relevant tag. *)
Definition detectType (st : ScanState) (name : string)
  : PlaylistType * bool :=
  if negb (typeDetected st) then
    if has MEDIA_PLAYLIST_TAGS name then (MEDIA, true)
    else if String.eqb name "EXT-X-STREAM-INF" || String.eqb name "EXT-X-MEDIA"
    then (playlistType st, true)
    else if has SEGMENT_TAGS name then (MEDIA, true)
    else (playlistType st, typeDetected st)
  else (playlistType st, typeDetected st).

(** One round of the scanning loop, on [line] with the lines after it.
    The tag of a stream-variant line is one object, shared by [tags] and by
    the index: the URI attribute added to it after the two pushes shows in
    both, so the model adds it before them. *)
Definition scanLine (st : ScanState) (globalId : nat) (line : string)
  (rest : list string) : ScanStep :=
  let next := List.hd_error rest in
  if Utils.isComment line || skip st then
    Next (mkScanState (playlistType st) (typeDetected st) (tags st)
            (scanIndex st) false) globalId
  else
    match parseTag globalId line with
    | inl e => Done (Throws e (S globalId))
    | inr tag =>
        let globalId := S globalId in
        let (playlistType, typeDetected) := detectType st (Tag.name tag) in
        if has SEGMENT_TAGS (Tag.name tag) then
          if negb (PlaylistType_eqb playlistType MEDIA) then
            Done (Throws HLS_INVALID_PLAYLIST_HIERARCHY globalId)
          else
            match parseSegments_ (line :: rest) (tags st) (scanIndex st)
                    globalId with
            | Returns r globalId' =>
                Done (Returns
                        (Playlist.new playlistType (playlistTags r)
                           (PlaylistComputedData.mk (tagIndex r) (analysis r))
                           (Some (segments r)))
                        globalId')
            | Throws e globalId' => Done (Throws e globalId')
            end
        else
          let isVariant := String.eqb (Tag.name tag) "EXT-X-STREAM-INF" in
          let tag :=
            if isVariant
            then Tag.addAttribute tag (Attribute.mk "URI" next)
            else tag in
          Next (mkScanState playlistType typeDetected (tags st ++ [tag])
                  (updateTagIndexForTag_ (scanIndex st) tag) isVariant)
            globalId
    end.

(** The scanning loop over the lines from [i] on, and the return after
    it. *)
Fixpoint scanLines (lines : list string) (st : ScanState) (globalId : nat)
  : Outcome Playlist.t :=
  match lines with
  | [] =>
      Returns
        (Playlist.new (playlistType st) (tags st)
           (PlaylistComputedData.mk (scanIndex st)
              createDefaultSegmentsComputed_)
           (Some []))
        globalId
  | line :: rest =>
      match scanLine st globalId line rest with
      | Next st' globalId' => scanLines rest st' globalId'
      | Done o => o
      end
  end.

Definition initialScanState : ScanState :=
  mkScanState MASTER false [] createDefaultTagIndex_ true.

(** [str.replace(...).trim().split(...)] *)
Definition linesOf (str : string) : list string :=
  JS.splitLines (JS.trim (JS.normalizeNewlines str)).

(** [parsePlaylist(data)] on a parser whose [globalId_] is [globalId];
    [str] is the text [StringUtils.fromUTF8] decoded from [data].
    [header.test(undefined)] tests the text "undefined". *)
Definition parsePlaylist (globalId : nat) (str : string)
  : Outcome Playlist.t :=
  let lines := linesOf str in
  let line0 := match lines with l :: _ => l | [] => "undefined" end in
  if negb (header line0) then Throws HLS_PLAYLIST_HEADER_MISSING globalId
  else scanLines lines initialScanState globalId.

End ManifestTextParser.

(** ** Documents and spec-side notions used by the statements *)

Module Docs.

(** A document: its lines, each ended by a line feed but the last. *)
Definition document (lines : list string) : string :=
  String.concat (String JS.LF EmptyString) lines.

(** An [EXT-X-PART] line, with or without [GAP=YES]. *)
Definition partLine (uri : string) (gap : bool) : string :=
  "#EXT-X-PART:DURATION=2,URI=" ++ JS.quoted uri
    ++ (if gap then ",GAP=YES" else "").

(** The playlist of the unit test 'counts both regular and partial
    segment gaps' of [test/hls/manifest_text_parser_unit.js]. *)
Definition mixedGaps : string :=
  document
    [ "#EXTM3U"; "#EXT-X-VERSION:6"; "#EXT-X-TARGETDURATION:6";
      "#EXT-X-PART-INF:PART-TARGET=2";
      "#EXTINF:6,";
      partLine "part1.mp4" true; partLine "part2.mp4" false;
      partLine "part3.mp4" false; "segment1.mp4";
      "#EXTINF:6,"; "#EXT-X-GAP"; "segment2.mp4";
      "#EXTINF:6,";
      partLine "part4.mp4" false; partLine "part5.mp4" true;
      partLine "part6.mp4" false; "segment3.mp4"; "" ].

(** A stream variant directly followed by a duration directive. *)
Definition variantThenSegment : string :=
  document [ "#EXTM3U"; "#EXT-X-STREAM-INF:BANDWIDTH=1"; "#EXTINF:5" ].

(** A master playlist: one stream variant and its URI. *)
Definition master : string :=
  document [ "#EXTM3U"; "#EXT-X-STREAM-INF:BANDWIDTH=2165224";
             "prog_index.m3u8" ].

(** The document of the unit test 'rejects invalid tags'. *)
Definition invalidTag : string := document [ "#EXTM3U"; "invalid tag" ].

(** The master playlist with a segment tag of the unit test 'rejects
    invalid playlists'. *)
Definition segmentTagInMaster : string :=
  document [ "#EXTM3U"; "#EXT-X-MEDIA:TYPE=AUDIO"; "#EXTINF:6.00600" ].

(** A skip directive given twice. *)
Definition twoSkips : string :=
  document [ "#EXTM3U"; "#EXT-X-SKIP:SKIPPED-SEGMENTS=1";
             "#EXT-X-SKIP:SKIPPED-SEGMENTS=2" ].

(** A start directive given twice after the first segment. *)
Definition startAfterSegment : string :=
  document [ "#EXTM3U"; "#EXTINF:5"; "uri"; "#EXT-X-START:TIME-OFFSET=1";
             "#EXT-X-START:TIME-OFFSET=2" ].

(** A target duration and a skip directive, each given twice. *)
Definition repeatedSlots : string :=
  document [ "#EXTM3U"; "#EXT-X-TARGETDURATION:6";
             "#EXT-X-SKIP:SKIPPED-SEGMENTS=1"; "#EXT-X-TARGETDURATION:7";
             "#EXT-X-SKIP:SKIPPED-SEGMENTS=2" ].

(** Segments with bit rates: a second bit rate after one that counts, a
    bit rate after one that is 0, and one that is not a number. *)
Definition twoBitrates : string :=
  document [ "#EXTM3U"; "#EXTINF:5,"; "#EXT-X-BITRATE:800";
             "#EXT-X-BITRATE:900"; "a.ts";
             "#EXTINF:x,"; "#EXT-X-BITRATE:0"; "#EXT-X-BITRATE:700"; "b.ts";
             "#EXT-X-BITRATE:fast"; "c.ts" ].

(** A media sequence number that is not a number. *)
Definition badMediaSequence : string :=
  document [ "#EXTM3U"; "#EXT-X-MEDIA-SEQUENCE:abc" ].

(** Partial segments at the end of a document that has no segment-only
    directive. *)
Definition partsWithoutSegmentTag : string :=
  document [ "#EXTM3U"; "#EXT-X-TARGETDURATION:6";
             partLine "part1.mp4" false ].

(** The lines of the unit test 'parses segments with partial segments'
    from its first segment-only directive on: those before the trailing
    partial segment, and that one. *)
Definition mapLine : string := "#EXT-X-MAP:URI=" ++ JS.quoted "init.mp4".

Definition beforeTrailingPart : list string :=
  [ mapLine; "#EXTINF:5"; "uri";
    partLine "uri2.1" false; partLine "uri2.2" false; "#EXTINF:2"; "uri2" ].

Definition trailingPart : list string := [ partLine "uri3.1" false ].

Definition withTrailingPart : string :=
  document ([ "#EXTM3U"; "#EXT-X-TARGETDURATION:6" ]
              ++ beforeTrailingPart ++ trailingPart).

(** The directive line of the unit test 'recreates valid tag with
    attributes'. *)
Definition mediaLine : string :=
  "#EXT-X-MEDIA:CODECS=" ++ JS.quoted "avc1.64002a,mp4a.40.2"
    ++ ",AUDIO=" ++ JS.quoted "a1,a2".


(** The playlist a fresh parser returns for [str]; a playlist without
    tags when the call throws. *)
Definition playlistOf (str : string) : Playlist.t :=
  match ManifestTextParser.parsePlaylist 0 str with
  | Returns p _ => p
  | Throws _ _ =>
      Playlist.new MASTER []
        (PlaylistComputedData.mk ManifestTextParser.createDefaultTagIndex_
           ManifestTextParser.createDefaultSegmentsComputed_) None
  end.

Definition masterPlaylist : Playlist.t :=
  Eval vm_compute in playlistOf master.

Definition twoSkipsPlaylist : Playlist.t :=
  Eval vm_compute in playlistOf twoSkips.

Definition badMediaSequencePlaylist : Playlist.t :=
  Eval vm_compute in playlistOf badMediaSequence.

Definition repeatedSlotsPlaylist : Playlist.t :=
  Eval vm_compute in playlistOf repeatedSlots.

Definition twoBitratesPlaylist : Playlist.t :=
  Eval vm_compute in playlistOf twoBitrates.

End Docs.

(** Every character of [s] satisfies [p]. *)
Fixpoint allChars (p : ascii -> bool) (s : string) : bool :=
  match s with
  | String c s' => p c && allChars p s'
  | EmptyString => true
  end.

Definition notCR (c : ascii) : bool := negb (Ascii.eqb c JS.CR).
Definition notLF (c : ascii) : bool := negb (Ascii.eqb c JS.LF).

(** The text holds neither a carriage return nor a line feed. *)
Definition noNewline (s : string) : bool :=
  allChars notCR s && allChars notLF s.

(** A character below U+0080 other than CR and LF. *)
Definition plain (c : ascii) : bool :=
  (nat_of_ascii c <? 128)%nat && notCR c && notLF c.

Module Spec.

Import ManifestTextParser.

(** A segment is flagged as a gap when one of its tags is EXT-X-GAP; a
    partial segment, when its GAP attribute is YES. *)
Definition segmentIsGap (s : Segment.t) : bool :=
  existsb (fun t => String.eqb (Tag.name t) "EXT-X-GAP") (Segment.tags s).

Definition partialIsGap (t : Tag.t) : bool :=
  looseEq (Tag.getAttributeValue t "GAP") "YES".

(** The total number of segments and partial segments flagged as a gap. *)
Definition flaggedGaps (segments : list Segment.t) : nat :=
  List.length (List.filter segmentIsGap segments)
  + List.length
      (List.filter partialIsGap
         (List.flat_map Segment.partialSegments segments)).

Definition isLF (c : ascii) : bool := Ascii.eqb c JS.LF.

(** The first line of the newline-normalized, trimmed input: its text up to
    the first line feed. *)
Definition firstLine (str : string) : string :=
  fst (TextParser.span isLF (JS.trim (JS.normalizeNewlines str))).

(** What may follow the header token: the end of the line, a blank or a
    tab and any text, or a U+2028 or U+2029 and any text. *)
Definition lineEnd (post : string) : Prop :=
  post = "" \/
  (exists c rest, post = String c rest /\ TextParser.isBlank c = true) \/
  (exists sep rest, post = sep ++ rest /\ (sep = JS.LS \/ sep = JS.PS)).

(** The header lines, among the lines without CR and LF: the token
    #EXTM3U at the start of the line or right after a U+2028 or U+2029,
    and then the end of the line, a blank or a tab, or a U+2028 or
    U+2029. *)
Definition headerLine (line : string) : Prop :=
  exists pre post,
    line = pre ++ "#EXTM3U" ++ post /\
    (pre = "" \/
     exists p sep, pre = p ++ sep /\ (sep = JS.LS \/ sep = JS.PS)) /\
    lineEnd post.

(** The scanning loop of [parsePlaylist] run over the lines [pre], which
    the lines [post] follow: the state it reaches in front of [post] when
    none of the lines of [pre] ends the call.  While it is defined the
    state machine is in playlist-scanning mode. *)
Fixpoint scanPrefix (pre post : list string) (st : ScanState) (g : nat)
  : option (ScanState * nat) :=
  match pre with
  | [] => Some (st, g)
  | line :: pre' =>
      match scanLine st g line (pre' ++ post) with
      | Next st' g' => scanPrefix pre' post st' g'
      | Done _ => None
      end
  end.

(** The type a directive name decides, when it is type-relevant. *)
Definition typeOfName (name : string) : option PlaylistType :=
  if has MEDIA_PLAYLIST_TAGS name then Some MEDIA
  else if String.eqb name "EXT-X-STREAM-INF" || String.eqb name "EXT-X-MEDIA"
  then Some MASTER
  else if has SEGMENT_TAGS name then Some MEDIA
  else None.

(** The playlist type the first type-relevant directive among [tags]
    decides; [None] while no directive was type-relevant. *)
Fixpoint detectedType (tags : list Tag.t) : option PlaylistType :=
  match tags with
  | [] => None
  | t :: tags' =>
      match typeOfName (Tag.name t) with
      | Some ty => Some ty
      | None => detectedType tags'
      end
  end.

(** The line is a stream-variant directive. *)
Definition isVariantLine (line : string) : bool :=
  match parseTag 0 line with
  | inr t => String.eqb (Tag.name t) "EXT-X-STREAM-INF"
  | inl _ => false
  end.

(** *** The document, line by line

    The state machine of the specification (4.2) takes a line as a comment,
    as the URI of the stream variant of the line before it, or as a
    directive; the notions below read this off the lines alone, without
    the parser's state. *)

(** The name of a directive line, whatever the id of its tag. *)
Definition nameOf (line : string) : option string :=
  match parseTag 0 line with
  | inr t => Some (Tag.name t)
  | inl _ => None
  end.

(** A directive line whose name is in [table]. *)
Definition lineIn (table : list string) (line : string) : bool :=
  match nameOf line with
  | Some n => has table n
  | None => false
  end.

(** A directive line whose name is in the segment-only table. *)
Definition isSegmentLine (line : string) : bool := lineIn SEGMENT_TAGS line.

(** A directive line whose name is not in the segment-only table. *)
Definition isPlaylistLine (line : string) : bool :=
  match nameOf line with
  | Some n => negb (has SEGMENT_TAGS n)
  | None => false
  end.

(** The lines the state machine classifies, in order: all lines but the
    comments and the lines it consumes unread, which are the first line
    (the header) and the line after a stream-variant line it classified.
    [skip] tells whether the first of [lines] is consumed. *)
Fixpoint classified (skip : bool) (lines : list string) : list string :=
  match lines with
  | [] => []
  | line :: rest =>
      if Utils.isComment line || skip then classified false rest
      else line :: classified (isVariantLine line) rest
  end.

(** The playlist type the first type-relevant directive among [lines]
    decides; [None] when no line is type-relevant. *)
Fixpoint decidedType (lines : list string) : option PlaylistType :=
  match lines with
  | [] => None
  | line :: rest =>
      match nameOf line with
      | Some n =>
          match typeOfName n with
          | Some ty => Some ty
          | None => decidedType rest
          end
      | None => decidedType rest
      end
  end.

(** The segment section of a document: its lines from the first
    segment-only directive the state machine classifies on; no line when
    it classifies none. *)
Fixpoint segmentSection (skip : bool) (lines : list string) : list string :=
  match lines with
  | [] => []
  | line :: rest =>
      if Utils.isComment line || skip then segmentSection false rest
      else if isSegmentLine line then lines
      else segmentSection (isVariantLine line) rest
  end.

(** While scanning from a fresh state, the call on [str] encounters a
    segment-only directive, in state [st]: a line that is reached in
    scanning mode, is neither a comment nor consumed as the URI of a stream
    variant, and parses into a tag of [SEGMENT_TAGS]. *)
Definition encountersSegmentDirective (g : nat) (str : string)
  (st : ScanState) : Prop :=
  exists pre line post g1 tag,
    linesOf str = (pre ++ line :: post)%list /\
    scanPrefix pre (line :: post) initialScanState g = Some (st, g1) /\
    skip st = false /\
    Utils.isComment line = false /\
    parseTag g1 line = inr tag /\
    has SEGMENT_TAGS (Tag.name tag) = true.

(** The first and the last tag of a name in a tag list. *)
Definition firstTag (name : string) (tags : list Tag.t) : option Tag.t :=
  List.find (fun t => String.eqb (Tag.name t) name) tags.

Definition lastTag (name : string) (tags : list Tag.t) : option Tag.t :=
  firstTag name (List.rev tags).

(** [Number(v)] when the optional text [v] is there and not empty, [d]
    otherwise. *)
Definition numberOrDefault (v : option string) (d : JS.Num) : JS.Num :=
  match v with
  | None => d
  | Some s => if String.eqb s "" then d else JS.Number s
  end.

(** The numeric field a tag list gives: read off the value the function
    [valueOf] extracts from the last tag of [name], [d] without one. *)
Definition numericField (name : string) (valueOf : Tag.t -> option string)
  (d : JS.Num) (tags : list Tag.t) : JS.Num :=
  match lastTag name tags with
  | Some t => numberOrDefault (valueOf t) d
  | None => d
  end.

(** A low-latency partial segment: EXT-X-PART, or a preload hint of type
    PART. *)
Definition isPartialTag (t : Tag.t) : bool :=
  String.eqb (Tag.name t) "EXT-X-PART"
  || (String.eqb (Tag.name t) "EXT-X-PRELOAD-HINT"
      && looseEq (Tag.getAttributeValue t "TYPE") "PART").

(** An initialization-segment directive: EXT-X-MAP, or a preload hint of
    type MAP. *)
Definition isMapTag (t : Tag.t) : bool :=
  String.eqb (Tag.name t) "EXT-X-MAP"
  || (String.eqb (Tag.name t) "EXT-X-PRELOAD-HINT"
      && looseEq (Tag.getAttributeValue t "TYPE") "MAP").

(** The tag an initialization-segment directive is carried as: itself, or
    the preload hint renamed. *)
Definition mapTagOf (t : Tag.t) : Tag.t :=
  if String.eqb (Tag.name t) "EXT-X-MAP" then t
  else Tag.setName t "EXT-X-MAP".

(** The classification of a line of the segment aggregator by the tag it
    parses into. *)
Definition lineIs (p : Tag.t -> bool) (line : string) : bool :=
  JS.startsWith line "#EXT" &&
  match parseTag 0 line with
  | inr t => p t
  | inl _ => false
  end.

Definition isPartialLine : string -> bool := lineIs isPartialTag.

(** The tags directive lines parse into when the counter starts at [g]. *)
Fixpoint tagsOf (g : nat) (lines : list string) : list Tag.t :=
  match lines with
  | [] => []
  | l :: ls =>
      match parseTag g l with
      | inr t => t :: tagsOf (S g) ls
      | inl _ => tagsOf (S g) ls
      end
  end.



(** While scanning from a fresh state, the call on [str] reaches the lines
    [lines] in state [st] with the counter at [g1], and the first of them is
    a segment-only directive it encounters. *)
Definition reachesSegmentDirective (g : nat) (str : string) (st : ScanState)
  (g1 : nat) (lines : list string) : Prop :=
  exists pre line post tag,
    lines = line :: post /\
    linesOf str = (pre ++ lines)%list /\
    scanPrefix pre lines initialScanState g = Some (st, g1) /\
    skip st = false /\
    Utils.isComment line = false /\
    parseTag g1 line = inr tag /\
    has SEGMENT_TAGS (Tag.name tag) = true.

(** *** Canonical directive lines

    A directive line in canonical form: the name, an optional value, and
    attributes whose values are written bare when [Number] reads them as a
    number and between double quotes otherwise. *)
Inductive AttrValue : Type :=
| Bare (v : string)
| Quoted (v : string).

Record Directive : Type := mkDirective {
  dName : string;
  dValue : option string;
  dAttrs : list (string * AttrValue)
}.

Definition textOf (v : AttrValue) : string :=
  match v with Bare s | Quoted s => s end.

Definition renderAttr (a : string * AttrValue) : string :=
  match a with
  | (n, Bare v) => n ++ "=" ++ v
  | (n, Quoted v) => n ++ "=" ++ JS.quoted v
  end.

(** The line of a directive: [#NAME], [#NAME:VALUE], [#NAME:ATTRIBUTES] or
    [#NAME:VALUE,ATTRIBUTES]. *)
Definition render (d : Directive) : string :=
  match dValue d, dAttrs d with
  | None, [] => "#" ++ dName d
  | None, attrs =>
      "#" ++ dName d ++ ":" ++ String.concat "," (List.map renderAttr attrs)
  | Some v, attrs =>
      "#" ++ dName d ++ ":"
        ++ String.concat "," (v :: List.map renderAttr attrs)
  end.

(** No character of [s] satisfies [bad]. *)
Definition noneOf (bad : ascii -> bool) (s : string) : bool :=
  allChars (fun c => negb (bad c)) s.

Definition startsBlank (s : string) : bool :=
  match s with
  | String c _ => TextParser.isBlank c
  | EmptyString => false
  end.

Definition validName (n : string) : bool :=
  JS.startsWith n "EXT" && noneOf isColon n.

Definition validValue (v : string) : bool :=
  negb (String.eqb v "") && noneOf commaOrEquals v
  && dotStarToEnd v.

Definition validAttrName (n : string) : bool :=
  negb (String.eqb n "") && noneOf commaOrEquals n
  && dotStarToEnd n && negb (startsBlank n).

(** Canonical quoting: bare exactly when [Number] reads a number. *)
Definition validAttrValue (v : AttrValue) : bool :=
  match v with
  | Bare s =>
      noneOf quoteOrComma s && dotStarToEnd s
      && negb (JS.isNaN (JS.Number s))
  | Quoted s =>
      noneOf isQuote s && dotStarToEnd s
      && JS.isNaN (JS.Number s)
  end.

Definition validAttr (a : string * AttrValue) : bool :=
  validAttrName (fst a) && validAttrValue (snd a).

Definition canonical (d : Directive) : bool :=
  validName (dName d)
  && match dValue d with Some v => validValue v | None => true end
  && List.forallb validAttr (dAttrs d).

(** The tag of a directive. *)
Definition attributeOf (a : string * AttrValue) : Attribute.t :=
  Attribute.mk (fst a) (Some (textOf (snd a))).

Definition tagOf (id : nat) (d : Directive) : Tag.t :=
  Tag.mk id (dName d) (List.map attributeOf (dAttrs d)) (dValue d).

End Spec.

(** Intermediate states of the parser on the documents of [Docs]. *)
Module Samples.

Import ManifestTextParser.

(** The scanning state of [Docs.withTrailingPart] in front of its first
    segment-only directive. *)
Definition scanState : ScanState :=
  Eval vm_compute in
    match Spec.scanPrefix [ "#EXTM3U"; "#EXT-X-TARGETDURATION:6" ]
            (Docs.beforeTrailingPart ++ Docs.trailingPart)
            initialScanState 0 with
    | Some (st, _) => st
    | None => initialScanState
    end.

Definition stateOf (o : Outcome SegmentsState.t) : SegmentsState.t :=
  match o with
  | Returns st _ => st
  | Throws _ _ => initialSegmentsState 0 [] createDefaultTagIndex_
  end.

(** The aggregator's state on [Docs.withTrailingPart] in front of the
    trailing partial segment. *)
Definition beforeTrailingPart : SegmentsState.t :=
  Eval vm_compute in
    stateOf
      (segmentsLoop Docs.beforeTrailingPart
         (initialSegmentsState
            (List.length (Docs.beforeTrailingPart ++ Docs.trailingPart))
            (tags scanState) (scanIndex scanState)) 2).

(** The aggregator's state after a map directive as its first line. *)
Definition afterMapLine : SegmentsState.t :=
  Eval vm_compute in
    stateOf
      (segmentsLoop [ Docs.mapLine ]
         (initialSegmentsState 100 [] createDefaultTagIndex_) 0).


(** Two segments without a map directive of their own. *)
Definition twoSegments : list string :=
  [ "#EXTINF:5"; "uri"; "#EXTINF:4"; "uri2" ].

Definition afterTwoSegments : SegmentsState.t :=
  Eval vm_compute in stateOf (segmentsLoop twoSegments afterMapLine 1).

Definition twoSegmentsResult : SegmentsResult :=
  Eval vm_compute in
    match finishSegments afterTwoSegments with
    | inr r => r
    | inl _ => mkSegmentsResult [] createDefaultSegmentsComputed_ []
                 createDefaultTagIndex_
    end.

(** The directive of [Docs.mediaLine]. *)
Definition mediaDirective : Spec.Directive :=
  Spec.mkDirective "EXT-X-MEDIA" None
    [ ("CODECS", Spec.Quoted "avc1.64002a,mp4a.40.2");
      ("AUDIO", Spec.Quoted "a1,a2") ].

End Samples.

Import ManifestTextParser.

(** ** Notions the statements and the invariants below are written with *)

(** The errors of the segment aggregator: a malformed directive or a
    TypeError. *)
Definition segmentError (e : Error) : Prop :=
  e = TypeError \/ exists word, e = INVALID_HLS_TAG word.

(** The two type variables of the scanning loop hold what the first
    type-relevant tag pushed so far decides. *)
Definition typeInvariant (st : ScanState) : Prop :=
  Spec.detectedType (tags st)
    = (if typeDetected st then Some (playlistType st) else None) /\
  (typeDetected st = false -> playlistType st = MASTER).

(** The index the tags [tags] give, starting from [index]. *)
Definition indexTags (tags : list Tag.t) (index : PlaylistComputed.t)
  : PlaylistComputed.t :=
  List.fold_left updateTagIndexForTag_ tags index.

(** The computed view after a tag named EXT-X-MAP. *)
Definition withMap (c : SegmentComputed.t) (m : Tag.t) : SegmentComputed.t :=
  match SegmentComputed.map c with
  | None =>
      SegmentComputed.set_mapId (SegmentComputed.set_map c (Some m))
        (Some (Tag.id m))
  | Some _ => c
  end.

(** The segment a URI line emits. *)
Definition emitted (st : SegmentsState.t) (line : string) : Segment.t :=
  Segment.new (JS.trim line)
    (withMapTag (SegmentsState.segmentTags st)
       (SegmentsState.currentMapTag st))
    match SegmentComputed.map (SegmentsState.computed st),
          SegmentsState.currentMapTag st with
    | None, Some m =>
        SegmentComputed.set_mapId
          (SegmentComputed.set_map (SegmentsState.computed st) (Some m))
          (Some (Tag.id m))
    | _, _ => SegmentsState.computed st
    end
    (SegmentsState.partialSegmentTags st).

(** What holds of the aggregator's state all along: no tag named
    EXT-X-MAP among the pending segment tags, a current map tag named
    EXT-X-MAP, and a pending computed view whose duration tag is the one a
    computation from scratch over the pending segment tags finds. *)
Definition wfState (st : SegmentsState.t) : Prop :=
  Forall (fun t => String.eqb (Tag.name t) "EXT-X-MAP" = false)
    (SegmentsState.segmentTags st) /\
  (forall m, SegmentsState.currentMapTag st = Some m ->
             Tag.name m = "EXT-X-MAP") /\
  exists c0,
    updateComputedForTags createDefaultComputed_
      (SegmentsState.segmentTags st) = inr c0 /\
    SegmentComputed.extinf c0
      = SegmentComputed.extinf (SegmentsState.computed st).

(** The segment that wraps trailing partial segments. *)
Definition trailer (st : SegmentsState.t) (c : SegmentComputed.t)
  : Segment.t :=
  Segment.new ""
    (withMapTag (SegmentsState.segmentTags st)
       (SegmentsState.currentMapTag st))
    c (SegmentsState.partialSegmentTags st).

(** The attributes of a canonical line, separated by commas. *)
Definition renderAttrs (attrs : list (string * Spec.AttrValue)) : string :=
  String.concat "," (List.map Spec.renderAttr attrs).

(** The attributes [getTagKey(false)] leaves out of the key. *)
Definition keySkipped : list string :=
  [ "AUDIO"; "VIDEO"; "SUBTITLES"; "PATHWAY-ID"; "GROUP-ID"; "URI" ].

(** A tag without the attributes whose names are in [skip]. *)
Definition withoutAttributes (skip : list string) (tag : Tag.t) : Tag.t :=
  Tag.mk (Tag.id tag) (Tag.name tag)
    (List.filter
       (fun attr => negb (existsb (String.eqb (Attribute.name attr)) skip))
       (Tag.attributes tag))
    (Tag.value tag).

(** The text after the first colon of [word], when it has a colon. *)
Definition afterFirstColon (word : string) : option string :=
  match TextParser.span isColon word with
  | (_, String _ data) => Some data
  | (_, EmptyString) => None
  end.

(** The first comma-separated item of the data of a directive, when it can
    be the directive's value: it is not empty and holds no equals sign. *)
Definition valueItem (data : string) : option string :=
  let item := JS.beforeComma data in
  if negb (String.eqb item "") && Spec.noneOf isEquals item
  then Some item else None.

(** What every attribute [parseTag] builds satisfies: a name that is not
    empty and holds no equals sign, and a value without a double quote. *)
Definition parsedAttribute (a : Attribute.t) : Prop :=
  Attribute.name a <> "" /\
  Spec.noneOf isEquals (Attribute.name a) = true /\
  forall v, Attribute.value a = Some v -> Spec.noneOf isQuote v = true.

(** An attribute that [toString] prints in a form [parseTag] reads back:
    a name as in a canonical line, and a value that is there, holds no
    double quote and no line terminator and, when [Number] reads it as a
    number and it is therefore printed bare, no comma. *)
Definition printableAttribute (a : Attribute.t) : bool :=
  Spec.validAttrName (Attribute.name a) &&
  match Attribute.value a with
  | Some v =>
      Spec.noneOf isQuote v && dotStarToEnd v
      && (JS.isNaN (JS.Number v) || Spec.noneOf quoteOrComma v)
  | None => false
  end.

(** A tag whose name, value and attributes are as in a canonical line. *)
Definition printable (t : Tag.t) : bool :=
  Spec.validName (Tag.name t)
  && match Tag.value t with Some v => Spec.validValue v | None => true end
  && List.forallb printableAttribute (Tag.attributes t).

(** The way [toString] writes an attribute: bare when [Number] reads its
    value as a number, between double quotes otherwise. *)
Definition writtenAs (a : Attribute.t) : string * Spec.AttrValue :=
  (Attribute.name a,
   match Attribute.value a with
   | Some v => if JS.isNaN (JS.Number v) then Spec.Quoted v else Spec.Bare v
   | None => Spec.Quoted "undefined"
   end).

(** The directive a tag is printed as. *)
Definition directiveOf (t : Tag.t) : Spec.Directive :=
  Spec.mkDirective (Tag.name t) (Tag.value t)
    (List.map writtenAs (Tag.attributes t)).

(** A text with Windows line ends: every line feed becomes CR LF. *)
Fixpoint toCRLF (s : string) : string :=
  match s with
  | String c s' =>
      if Ascii.eqb c JS.LF then String JS.CR (String JS.LF (toCRLF s'))
      else String c (toCRLF s')
  | EmptyString => EmptyString
  end.

(** A text with classic Mac OS line ends: every line feed becomes CR. *)
Fixpoint toCR (s : string) : string :=
  match s with
  | String c s' =>
      if Ascii.eqb c JS.LF then String JS.CR (toCR s')
      else String c (toCR s')
  | EmptyString => EmptyString
  end.


(** The text ends with a white space character. *)
Fixpoint endsWhiteSpace (s : string) : bool :=
  match s with
  | String _ s' =>
      match JS.whiteSpace s with
      | Some EmptyString => true
      | _ => endsWhiteSpace s'
      end
  | EmptyString => false
  end.


(** [s] without the line feeds it starts with. *)
Fixpoint dropLF (s : string) : string :=
  match s with
  | String c s' => if Ascii.eqb c JS.LF then dropLF s' else s
  | EmptyString => EmptyString
  end.

(** The line starts with a character that is not white space. *)
Definition startsTrimmed (l : string) : Prop :=
  match l with
  | String _ _ => JS.whiteSpace l = None
  | EmptyString => False
  end.

(** The line ends with a character that is not white space. *)
Definition endsTrimmed (l : string) : Prop :=
  match l with
  | String _ _ => endsWhiteSpace l = false
  | EmptyString => False
  end.

(** The tag the scanning loop pushes for a line: the parsed tag, with the
    next line as its URI attribute when it is a stream variant. *)
Definition pushedTag (tag : Tag.t) (next : option string) : Tag.t :=
  if String.eqb (Tag.name tag) "EXT-X-STREAM-INF"
  then Tag.addAttribute tag (Attribute.mk "URI" next)
  else tag.

(** Where the segment aggregator puts the tag of a directive line. *)
Inductive Route : Type :=
| ToPlaylist
| ToMap
| ToPartial
| Dropped
| ToSegment.

Definition routeOf (tag : Tag.t) : Route :=
  if has MEDIA_PLAYLIST_TAGS (Tag.name tag) then ToPlaylist
  else if Spec.isMapTag tag then ToMap
  else if Spec.isPartialTag tag then ToPartial
  else if String.eqb (Tag.name tag) "EXT-X-PRELOAD-HINT" then Dropped
  else ToSegment.

(** The playlist the scanning loop returns when it runs out of lines. *)
Definition scannedPlaylist (st : ScanState) : Playlist.t :=
  Playlist.new (playlistType st) (tags st)
    (PlaylistComputedData.mk (scanIndex st) createDefaultSegmentsComputed_)
    (Some []).

(** The playlist [parsePlaylist] returns from the segment aggregator's
    result. *)
Definition mediaPlaylist (r : SegmentsResult) : Playlist.t :=
  Playlist.new MEDIA (playlistTags r)
    (PlaylistComputedData.mk (tagIndex r) (analysis r))
    (Some (segments r)).

(** The tags of a name in a tag list, in order. *)
Definition tagsNamed (name : string) (tags : list Tag.t) : list Tag.t :=
  List.filter (fun t => String.eqb (Tag.name t) name) tags.

(** The tag [t] is the tag of a stream-variant line of the document whose
    lines are [lines]: what [parseTag] makes of the line under the tag's
    id, with one more attribute, the URI, whose value is the text of the
    next line as it stands, or [undefined] when there is no next line. *)
Definition variantOf (lines : list string) (t : Tag.t) : Prop :=
  exists pre line post t0,
    lines = (pre ++ line :: post)%list /\
    parseTag (Tag.id t) line = inr t0 /\
    t = Tag.addAttribute t0 (Attribute.mk "URI" (List.hd_error post)).

(** The duration a tag list gives: [Number] of the text before the first
    comma of the value of its first EXTINF tag, 0 without one. *)
Definition durationOf (tags : list Tag.t) : JS.Num :=
  match Spec.firstTag "EXTINF" tags with
  | Some t =>
      match Tag.value t with
      | Some v => JS.Number (JS.beforeComma v)
      | None => JS.zero
      end
  | None => JS.zero
  end.

(** The computed view [c] is the view of the tag list [tags]: each
    single-valued field holds the first tag of its name, [keys] holds the
    key tags in order, and the duration is the one the first EXTINF tag
    gives.  The map and the bit rate are not part of it. *)
Definition viewOf (c : SegmentComputed.t) (tags : list Tag.t) : Prop :=
  SegmentComputed.extinf c = Spec.firstTag "EXTINF" tags /\
  SegmentComputed.extinfDuration c = durationOf tags /\
  SegmentComputed.gap c = Spec.firstTag "EXT-X-GAP" tags /\
  SegmentComputed.byterange c = Spec.firstTag "EXT-X-BYTERANGE" tags /\
  SegmentComputed.discontinuity c
    = Spec.firstTag "EXT-X-DISCONTINUITY" tags /\
  SegmentComputed.keys c = tagsNamed "EXT-X-KEY" tags /\
  SegmentComputed.dateTime c
    = Spec.firstTag "EXT-X-PROGRAM-DATE-TIME" tags /\
  SegmentComputed.tiles c = Spec.firstTag "EXT-X-TILES" tags.

(** The invariant: the pending view is the view of the pending segment
    tags, and the current map tag is named EXT-X-MAP. *)
Definition viewInvariant (st : SegmentsState.t) : Prop :=
  viewOf (SegmentsState.computed st) (SegmentsState.segmentTags st) /\
  (forall m, SegmentsState.currentMapTag st = Some m ->
             Tag.name m = "EXT-X-MAP").

(** The segments of a playlist, none when the field is [null]. *)
Definition segmentsOf (p : Playlist.t) : list Segment.t :=
  match Playlist.segments p with
  | Some segs => segs
  | None => []
  end.

(** The playlists a fresh parser returns for two documents of [Docs]. *)
Definition mixedGapsPlaylist : Playlist.t :=
  Eval vm_compute in Docs.playlistOf Docs.mixedGaps.

Definition withTrailingPartPlaylist : Playlist.t :=
  Eval vm_compute in Docs.playlistOf Docs.withTrailingPart.

(** The counter a fresh parser is left with after a document. *)
Definition counterAfter (str : string) : nat :=
  match parsePlaylist 0 str with
  | Returns _ g => g
  | Throws _ g => g
  end.



(** A line of the segment section that stands for a segment: neither a
    directive nor a comment. *)
Definition isUriLine (line : string) : bool :=
  negb (JS.startsWith line "#EXT") && negb (Utils.isComment line).

(** The tag list is not empty. *)
Definition nonEmpty (l : list Tag.t) : bool :=
  match l with [] => false | _ :: _ => true end.

(** Whether partial segments are pending after [lines], when [pending]
    tells whether some were before them: a partial-segment directive makes
    them pending, a URI line takes them along. *)
Fixpoint pendingPartials (lines : list string) (pending : bool) : bool :=
  match lines with
  | [] => pending
  | l :: ls =>
      if JS.startsWith l "#EXT"
      then pendingPartials ls (pending || Spec.isPartialLine l)
      else if Utils.isComment l then pendingPartials ls pending
      else pendingPartials ls false
  end.

(** The segment has a duration tag among its tags. *)
Definition hasDuration (s : Segment.t) : bool :=
  existsb (fun t => String.eqb (Tag.name t) "EXTINF") (Segment.tags s).

(** The duration of the last of [segs] that has a duration tag. *)
Fixpoint lastDuration (segs : list Segment.t) : option JS.Num :=
  match segs with
  | [] => None
  | s :: rest =>
      match lastDuration rest with
      | Some d => Some d
      | None =>
          if hasDuration s then Some (durationOf (Segment.tags s)) else None
      end
  end.

(** The tags the aggregator's loop makes of the directive lines among
    [lines], each with the id it is given when the counter starts at
    [g]. *)
Fixpoint directiveTags (g : nat) (lines : list string) : list Tag.t :=
  match lines with
  | [] => []
  | l :: ls =>
      if JS.startsWith l "#EXT" then
        match parseTag g l with
        | inr t => t :: directiveTags (S g) ls
        | inl _ => []
        end
      else directiveTags g ls
  end.

(** A tag of MEDIA_PLAYLIST_TAGS. *)
Definition isPlaylistTag (t : Tag.t) : bool :=
  has MEDIA_PLAYLIST_TAGS (Tag.name t).

(** A tag the aggregator keeps with the segment it describes: not a tag
    of MEDIA_PLAYLIST_TAGS, and not named EXT-X-MAP, EXT-X-PART or
    EXT-X-PRELOAD-HINT. *)
Definition isOwnTag (t : Tag.t) : bool :=
  negb (has MEDIA_PLAYLIST_TAGS (Tag.name t))
  && negb (String.eqb (Tag.name t) "EXT-X-MAP")
  && negb (String.eqb (Tag.name t) "EXT-X-PART")
  && negb (String.eqb (Tag.name t) "EXT-X-PRELOAD-HINT").

(** The lines up to the last URI line, none when there is no URI line. *)
Fixpoint uptoLastUri (lines : list string) : list string :=
  match lines with
  | [] => []
  | l :: ls => if existsb isUriLine lines then l :: uptoLastUri ls else []
  end.

(** The lines whose segment tags some segment receives: all of them when
    partial segments are pending after the last line, as the trailing
    segment takes what is pending then, and else the lines up to the last
    URI line. *)
Definition received (lines : list string) : list string :=
  if pendingPartials lines false then lines else uptoLastUri lines.

(** The playlist-scoped tags of a document, read off its lines when the
    counter starts at [g].  In front of the first segment-only directive
    every line is a directive, but the comments and the line after each
    stream-variant line ([skip] tells that the line at hand is one; the
    first line, the header, is passed over in the same way), and each
    gives its tag, a stream variant with its URI.  From the first
    segment-only directive on, which is parsed a second time there, the
    directive lines with a name of MEDIA_PLAYLIST_TAGS give theirs. *)
Fixpoint scopedTags (g : nat) (skip : bool) (lines : list string)
  : list Tag.t :=
  match lines with
  | [] => []
  | line :: rest =>
      if Utils.isComment line || skip then scopedTags g false rest
      else
        match parseTag g line with
        | inr tag =>
            if has SEGMENT_TAGS (Tag.name tag)
            then List.filter isPlaylistTag (directiveTags (S g) lines)
            else pushedTag tag (List.hd_error rest)
                   :: scopedTags (S g)
                        (String.eqb (Tag.name tag) "EXT-X-STREAM-INF") rest
        | inl _ => []
        end
  end.

(** The bit rate a tag list gives.  Each EXT-X-BITRATE tag stands for a
    number, [Number] of its value, 0 without a value or with an empty
    one.  The bit rate is the first of these numbers that is neither 0
    nor NaN; the last of them when there is no such number; and 0 without
    an EXT-X-BITRATE tag. *)
Definition bitrateOf (tags : list Tag.t) : JS.Num :=
  let numbers :=
    List.map (fun t => Spec.numberOrDefault (Tag.value t) JS.zero)
      (tagsNamed "EXT-X-BITRATE" tags) in
  match List.find JS.truthyNum numbers with
  | Some b => b
  | None => List.last numbers JS.zero
  end.

(** The two numeric fields of a segment's computed view are the ones its
    tags give: the duration is [Number] of the text before the first comma
    of the value of the first EXTINF tag, which has a value, and 0 without
    an EXTINF tag; the bit rate is the one of the EXT-X-BITRATE tags. *)
Definition numbersOf (s : Segment.t) : Prop :=
  match Spec.firstTag "EXTINF" (Segment.tags s) with
  | Some t =>
      exists v,
        Tag.value t = Some v /\
        SegmentComputed.extinfDuration (Segment.computed s)
          = JS.Number (JS.beforeComma v)
  | None => SegmentComputed.extinfDuration (Segment.computed s) = JS.zero
  end /\
  SegmentComputed.bitrate (Segment.computed s) = bitrateOf (Segment.tags s).

(** The duration tag of a computed view has a value. *)
Definition hasValue (c : SegmentComputed.t) : Prop :=
  forall t, SegmentComputed.extinf c = Some t -> Tag.value t <> None.

(** The invariant behind it. *)
Definition numbersInvariant (st : SegmentsState.t) : Prop :=
  viewInvariant st /\
  hasValue (SegmentsState.computed st) /\
  SegmentComputed.bitrate (SegmentsState.computed st)
    = bitrateOf (SegmentsState.segmentTags st).

(** The tags of a segment but the map tag that was attached to it. *)
Definition ownTags (s : Segment.t) : list Tag.t :=
  List.filter (fun t => negb (String.eqb (Tag.name t) "EXT-X-MAP"))
    (Segment.tags s).

(** The tag [x] is held by the segment [s]: among its tags or its partial
    segments, or as the map of its computed view. *)
Definition inSegment (s : Segment.t) (x : Tag.t) : Prop :=
  In x (Segment.tags s) \/ In x (Segment.partialSegments s) \/
  SegmentComputed.map (Segment.computed s) = Some x.

(** The tag [x] is held by the playlist [p]: among its tags, or by one of
    its segments. *)
Definition inPlaylist (p : Playlist.t) (x : Tag.t) : Prop :=
  In x (Playlist.tags p) \/
  exists s, In s (segmentsOf p) /\ inSegment s x.

(** The tag [x] is held by the aggregator's state. *)
Definition inState (st : SegmentsState.t) (x : Tag.t) : Prop :=
  In x (SegmentsState.playlistTags st) \/
  In x (SegmentsState.segmentTags st) \/
  In x (SegmentsState.partialSegmentTags st) \/
  SegmentsState.currentMapTag st = Some x \/
  SegmentComputed.map (SegmentsState.computed st) = Some x \/
  exists s, In s (SegmentsState.segments st) /\ inSegment s x.

(** The tags that satisfy [P] have ids from [lo] up to, not including,
    [hi], and no two of them share an id. *)
Definition distinctIds (P : Tag.t -> Prop) (lo hi : nat) : Prop :=
  (forall x, P x -> lo <= Tag.id x < hi) /\
  (forall x y, P x -> P y -> Tag.id x = Tag.id y -> x = y).

(** The ids of the tag list go up, and stay below [hi]. *)
Definition ascending (l : list Tag.t) (hi : nat) : Prop :=
  StronglySorted lt (List.map Tag.id l) /\
  Forall (fun t => Tag.id t < hi) l.

(** The aggregator's state, the length of the pre-sized array left out. *)
Definition forgetLength (st : SegmentsState.t) : SegmentsState.t :=
  SegmentsState.set_segmentsLength st 0.

(** The lines but the comments. *)
Definition withoutComments (lines : list string) : list string :=
  List.filter (fun l => negb (Utils.isComment l)) lines.

(** The attributes of a canonical line with the text [ws] after each of the
    commas between them. *)
Definition spacedAttrs (ws : string)
  (attrs : list (string * Spec.AttrValue)) : string :=
  String.concat ("," ++ ws) (List.map Spec.renderAttr attrs).

(** The line of a directive with [ws] after each of the commas between its
    attributes; the comma after the value is followed by nothing. *)
Definition spaced (ws : string) (d : Spec.Directive) : string :=
  match Spec.dValue d, Spec.dAttrs d with
  | None, [] => "#" ++ Spec.dName d
  | None, _ :: _ =>
      "#" ++ Spec.dName d ++ ":" ++ spacedAttrs ws (Spec.dAttrs d)
  | Some v, [] => "#" ++ Spec.dName d ++ ":" ++ v
  | Some v, _ :: _ =>
      "#" ++ Spec.dName d ++ ":" ++ v ++ ","
        ++ spacedAttrs ws (Spec.dAttrs d)
  end.

(** ** The model on the repository's unit tests *)

Example number_samples :
  JS.Number "5.99467" = JS.Finite false 599467 (-5) /\
  JS.Number "" = JS.zero /\
  JS.Number " 12 " = JS.Finite false 12 0 /\
  JS.Number "-1" = JS.minusOne /\
  JS.Number "1e3" = JS.Finite false 1 3 /\
  JS.Number ".5" = JS.Finite false 5 (-1) /\
  JS.Number "5." = JS.Finite false 5 0 /\
  JS.Number "0x1F" = JS.Finite false 31 0 /\
  JS.Number "Infinity" = JS.Infinity false /\
  JS.Number "abc" = JS.NaN /\
  JS.Number "." = JS.NaN /\
  JS.Number "5.5,extra" = JS.NaN /\
  JS.Number "720@0" = JS.NaN /\
  JS.Number "+-1" = JS.NaN /\
  JS.Number "-0x10" = JS.NaN.
Proof. repeat split; reflexivity. Qed.

(** Numbers are rounded to binary64: 0.1 is not exact, a literal below
    the least subnormal is 0 and so falsy, one above the largest finite
    value is Infinity, and 2^53 + 1 is 2^53. *)
Example number_rounding :
  JS.Number "0.1" = SpecFloat.S754_finite false 7205759403792794 (-56) /\
  JS.Number "1e-400" = JS.zero /\
  JS.truthyNum (JS.Number "1e-400") = false /\
  JS.truthyNum (JS.Number "5e-324") = true /\
  JS.Number "1e400" = JS.Infinity false /\
  JS.Number "-1e400" = JS.Infinity true /\
  JS.Number "9007199254740993" = JS.Number "9007199254740992" /\
  JS.Number "-0" = SpecFloat.S754_zero true /\
  JS.truthyNum (JS.Number "-0") = false.
Proof. repeat split; vm_compute; reflexivity. Qed.

(** White space of more than one byte: U+00A0 and U+2028 are trimmed,
    at both ends and by [Number]; inside a line a U+2028 or U+2029 is a
    line terminator, which [.] does not match. *)
Example white_space_samples :
  JS.trim (String "194" (String "160" "a") ++ JS.LS) = "a" /\
  JS.Number (JS.PS ++ "12" ++ JS.LS) = JS.ofNat 12 /\
  linesOf ("#EXTM3U" ++ String JS.LF ("a" ++ JS.LS ++ "b"))
    = [ "#EXTM3U"; "a" ++ JS.LS ++ "b" ] /\
  parseTag 0 ("#EXTINF:5,a" ++ JS.LS ++ "b")
    = inl (INVALID_HLS_TAG ("#EXTINF:5,a" ++ JS.LS ++ "b")) /\
  parsePlaylist 0
    (Docs.document [ "#EXTM3U"; "#EXTINF:5,a" ++ JS.PS ++ "b"; "uri" ])
    = Throws (INVALID_HLS_TAG ("#EXTINF:5,a" ++ JS.PS ++ "b")) 1.
Proof. repeat split; vm_compute; reflexivity. Qed.

Example string_samples :
  JS.splitLines (Docs.document [ "a"; ""; "b" ]) = [ "a"; "b" ] /\
  JS.splitLines "" = [ "" ] /\
  JS.trim "  a b  " = "a b" /\
  JS.normalizeNewlines (String JS.CR (String JS.LF (String JS.CR "x")))
    = String JS.LF (String JS.LF "x") /\
  JS.beforeComma "5.5,x" = "5.5".
Proof. repeat split; reflexivity. Qed.

(** 'parses tags with commas in attribute values' and 'handles tags with
    both value and attributes'. *)
Example parseTag_samples :
  parseTag 3 Docs.mediaLine
    = inr (Tag.mk 3 "EXT-X-MEDIA"
             [ Attribute.mk "CODECS" (Some "avc1.64002a,mp4a.40.2");
               Attribute.mk "AUDIO" (Some "a1,a2") ] None) /\
  parseTag 2 "#EXTINF:5.99467,pid=180"
    = inr (Tag.mk 2 "EXTINF" [ Attribute.mk "pid" (Some "180") ]
             (Some "5.99467")) /\
  parseTag 0 "#EXT-X-INDEPENDENT-SEGMENTS"
    = inr (Tag.mk 0 "EXT-X-INDEPENDENT-SEGMENTS" [] None) /\
  parseTag 0 "invalid tag" = inl (INVALID_HLS_TAG "invalid tag").
Proof. repeat split; reflexivity. Qed.

(** The four tests of 'tag.toString'. *)
Example toString_samples :
  List.map
    (fun text =>
       match parseTag 0 text with
       | inr tag => String.eqb (Tag.toString tag None) text
       | inl _ => false
       end)
    [ Docs.mediaLine; "#EXT-X-PLAYLIST-TYPE:VOD"; "#EXTM3U";
      "#EXTINF:5.99467,pid=180" ]
  = [ true; true; true; true ].
Proof. vm_compute. reflexivity. Qed.

(** 'rejects invalid playlists', 'parses a Media Playlist' and the tag ids
    and the trailing segment of 'parses segments with partial segments'. *)
Example parsePlaylist_samples :
  parsePlaylist 0 "invalid playlist" = Throws HLS_PLAYLIST_HEADER_MISSING 0 /\
  parsePlaylist 0 (Docs.document [ "#EXTM3U"; "#EXT-X-TARGETDURATION:6"; "" ])
    = Returns
        (Playlist.mk MEDIA [ Tag.mk 0 "EXT-X-TARGETDURATION" [] (Some "6") ]
           (Some [])
           (PlaylistComputedData.mk
              (PlaylistComputed.set_targetDurationTag createDefaultTagIndex_
                 (Some (Tag.mk 0 "EXT-X-TARGETDURATION" [] (Some "6"))))
              createDefaultSegmentsComputed_)) 1 /\
  option_map
    (List.map
       (fun s =>
          (Segment.verbatimSegmentUri s,
           List.map Tag.id (Segment.tags s),
           List.map Tag.id (Segment.partialSegments s),
           SegmentComputed.mapId (Segment.computed s))))
    (Playlist.segments (Docs.playlistOf Docs.withTrailingPart))
  = Some [ ("uri", [ 3; 2 ], [], Some 2);
           ("uri2", [ 6; 2 ], [ 4; 5 ], Some 2);
           ("", [ 2 ], [ 7 ], Some 2) ].
Proof. repeat split; vm_compute; reflexivity. Qed.

(** ** Errors: which code which function can raise *)

Lemma parseTag_error (id : nat) (word : string) (e : Error) :
  parseTag id word = inl e -> e = INVALID_HLS_TAG word.
Proof.
  unfold parseTag. destruct (tagBlocks word) as [[name [d|]]|]; intros H.
  - destruct (JS.truthyStr (Some d)); [destruct (valueRegex d) as [[v r]|]|];
      discriminate.
  - discriminate.
  - congruence.
Qed.

Lemma updateComputedForTag_error (c : SegmentComputed.t) (t : Tag.t)
  (e : Error) :
  updateComputedForTag_ c t = inl e -> e = TypeError.
Proof.
  unfold updateComputedForTag_. intros H.
  repeat match type of H with
         | context [if ?b then _ else _] => destruct b
         | context [match ?x with _ => _ end] => destruct x
         end; congruence.
Qed.

Lemma updateComputedForTags_error (tags : list Tag.t)
  (c : SegmentComputed.t) (e : Error) :
  updateComputedForTags c tags = inl e -> e = TypeError.
Proof.
  revert c. induction tags as [|t tags IH]; intros c; simpl.
  - discriminate.
  - destruct (updateComputedForTag_ c t) eqn:E.
    + intros H. inversion H; subst. eapply updateComputedForTag_error; eauto.
    + apply IH.
Qed.

Lemma directiveLine_error (st : SegmentsState.t) (t : Tag.t) (e : Error) :
  directiveLine st t = inl e -> e = TypeError.
Proof.
  unfold directiveLine.
  destruct (has MEDIA_PLAYLIST_TAGS (Tag.name t)); [discriminate|].
  match goal with |- context [let (_, _) := ?p in _] => destruct p as [st1 t1] end.
  destruct (updateComputedForTag_ _ t1) eqn:E; [|discriminate].
  intros H; inversion H; subst. eapply updateComputedForTag_error; eauto.
Qed.

Lemma segmentsLoop_error (lines : list string) (st : SegmentsState.t)
  (g g' : nat) (e : Error) :
  segmentsLoop lines st g = Throws e g' -> segmentError e.
Proof.
  revert st g. induction lines as [|l ls IH]; intros st g; simpl.
  - discriminate.
  - destruct (JS.startsWith l "#EXT").
    + destruct (parseTag g l) as [e0|t] eqn:E.
      * intros H; inversion H; subst. right. eexists.
        eapply parseTag_error; eauto.
      * destruct (directiveLine st t) as [e0|st'] eqn:D.
        -- intros H; inversion H; subst. left.
           eapply directiveLine_error; eauto.
        -- apply IH.
    + destruct (Utils.isComment l); apply IH.
Qed.

Lemma parseSegments_error (lines : list string) (tags : list Tag.t)
  (index : PlaylistComputed.t) (g g' : nat) (e : Error) :
  parseSegments_ lines tags index g = Throws e g' -> segmentError e.
Proof.
  unfold parseSegments_.
  destruct (segmentsLoop lines _ g) as [st g1|e1 g1] eqn:L.
  - unfold finishSegments.
    destruct (SegmentsState.partialSegmentTags st).
    + discriminate.
    + destruct (updateComputedForTags _ _) eqn:U; [|discriminate].
      intros H; inversion H; subst. left.
      eapply updateComputedForTags_error; eauto.
  - intros H; inversion H; subst. eapply segmentsLoop_error; eauto.
Qed.


(** ** C1: gap accounting *)

(** C1 (the code at the input of a failing unit test).  On the playlist of the
    unit test 'counts both regular and partial segment gaps' (three
    segments: a GAP=YES partial segment in the first, EXT-X-GAP on the
    second, another GAP=YES partial segment in the third) [parsePlaylist]
    returns three segments of which three segments or partial segments are
    flagged as a gap, and reports [gapCount] 1: only the EXT-X-GAP marker of
    a full segment is counted. *)
Theorem gapCount_misses_partial_segment_gaps :
  exists p g segs,
    parsePlaylist 0 Docs.mixedGaps = Returns p g /\
    Playlist.segments p = Some segs /\
    List.length segs = 3 /\
    Spec.flaggedGaps segs = 3 /\
    SegmentsComputed.gapCount
      (PlaylistComputedData.segments (Playlist.computed p)) = 1.
Proof.
  destruct (parsePlaylist 0 Docs.mixedGaps) as [p g|e g] eqn:E;
    vm_compute in E; [|discriminate].
  inversion E; subst. do 3 eexists.
  split; [reflexivity|]. split; [reflexivity|].
  vm_compute. repeat split.
Qed.

(** ** C9: the header check *)

(** *** Texts *)

Lemma append_assoc (a b c : string) : (a ++ b) ++ c = a ++ b ++ c.
Proof. induction a as [|x a IH]; simpl; [reflexivity|now rewrite IH]. Qed.

Lemma append_nil_r (a : string) : a ++ "" = a.
Proof. induction a as [|x a IH]; simpl; [reflexivity|now rewrite IH]. Qed.

Lemma length_append (a b : string) :
  String.length (a ++ b) = String.length a + String.length b.
Proof. induction a as [|x a IH]; simpl; [reflexivity|now rewrite IH]. Qed.

Lemma allChars_app (p : ascii -> bool) (a b : string) :
  allChars p (a ++ b) = allChars p a && allChars p b.
Proof.
  induction a as [|x a IH]; simpl; [reflexivity|].
  now rewrite IH, andb_assoc.
Qed.

Lemma stripPrefix_Some (p s r : string) :
  JS.stripPrefix p s = Some r -> s = p ++ r.
Proof.
  revert s. induction p as [|a p IH]; intros s; simpl.
  - intros H; inversion H; reflexivity.
  - destruct s as [|b s]; [discriminate|].
    destruct (Ascii.eqb_spec a b) as [->|]; [|discriminate].
    intros H. now rewrite (IH _ H).
Qed.

Lemma stripPrefix_app (p r : string) : JS.stripPrefix p (p ++ r) = Some r.
Proof.
  induction p as [|a p IH]; simpl; [reflexivity|].
  now rewrite Ascii.eqb_refl.
Qed.

Lemma string_length_ind (P : string -> Prop) :
  (forall s, (forall t, String.length t < String.length s -> P t) -> P s) ->
  forall s, P s.
Proof.
  intros H s.
  enough (G : forall n t, String.length t < n -> P t)
    by (apply (G (S (String.length s))); lia).
  induction n as [|n IH]; intros t L; [lia|].
  apply H. intros u U. apply IH. lia.
Qed.

Lemma whiteSpace_suffix (s r : string) :
  JS.whiteSpace s = Some r ->
  exists w, s = w ++ r /\ String.length r < String.length s.
Proof.
  destruct s as [|a [|b [|c s]]]; simpl.
  - discriminate.
  - destruct (JS.isWhiteSpace1 a); [|discriminate].
    intros H; inversion H; subst. exists (String a ""). simpl. split; [reflexivity|lia].
  - destruct (JS.isWhiteSpace1 a).
    + intros H; inversion H; subst. exists (String a "").
      simpl. split; [reflexivity|lia].
    + destruct (JS.isWhiteSpace2 a b); [|discriminate].
      intros H; inversion H; subst. exists (String a (String b "")).
      simpl. split; [reflexivity|lia].
  - destruct (JS.isWhiteSpace1 a).
    + intros H; inversion H; subst. exists (String a "").
      simpl. split; [reflexivity|lia].
    + destruct (JS.isWhiteSpace2 a b).
      * intros H; inversion H; subst. exists (String a (String b "")).
        simpl. split; [reflexivity|lia].
      * destruct (JS.isWhiteSpace3 a b c); [|discriminate].
        intros H; inversion H; subst.
        exists (String a (String b (String c ""))).
        simpl. split; [reflexivity|lia].
Qed.

(** [trimStart] strips one white space character after the other. *)
Lemma trimStart_eq (s : string) :
  JS.trimStart s
    = match JS.whiteSpace s with
      | Some r => JS.trimStart r
      | None => s
      end.
Proof.
  destruct s as [|a [|b [|c s]]]; simpl; try reflexivity.
  - now destruct (JS.isWhiteSpace1 a).
  - destruct (JS.isWhiteSpace1 a); [reflexivity|].
    now destruct (JS.isWhiteSpace2 a b).
  - destruct (JS.isWhiteSpace1 a); [reflexivity|].
    destruct (JS.isWhiteSpace2 a b); [reflexivity|].
    now destruct (JS.isWhiteSpace3 a b c).
Qed.

Lemma trimStart_suffix (s : string) : exists w, s = w ++ JS.trimStart s.
Proof.
  induction s as [s IH] using string_length_ind.
  rewrite trimStart_eq. destruct (JS.whiteSpace s) as [r|] eqn:W.
  - destruct (whiteSpace_suffix s r W) as (w & E & L).
    destruct (IH r L) as [w' E']. exists (w ++ w').
    now rewrite append_assoc, <- E'.
  - now exists "".
Qed.

Lemma trimEnd_prefix (s : string) : exists w, s = JS.trimEnd s ++ w.
Proof.
  induction s as [|c s [w IH]]; [now exists ""|].
  cbn [JS.trimEnd]. destruct (JS.blank (String c s)).
  - now exists (String c s).
  - exists w. simpl. now rewrite <- IH.
Qed.

Lemma allChars_trimStart (p : ascii -> bool) (s : string) :
  allChars p s = true -> allChars p (JS.trimStart s) = true.
Proof.
  destruct (trimStart_suffix s) as [w E]. rewrite E at 1.
  rewrite allChars_app. intros H. apply andb_prop in H. apply H.
Qed.

Lemma allChars_trimEnd (p : ascii -> bool) (s : string) :
  allChars p s = true -> allChars p (JS.trimEnd s) = true.
Proof.
  destruct (trimEnd_prefix s) as [w E]. rewrite E at 1.
  rewrite allChars_app. intros H. apply andb_prop in H. apply H.
Qed.

Lemma normalizeNewlines_no_CR (s : string) :
  allChars notCR (JS.normalizeNewlines s) = true.
Proof.
  enough (H : allChars notCR (JS.normalizeNewlines s) = true /\
              forall c, allChars notCR (JS.normalizeNewlines (String c s)) = true)
    by apply H.
  induction s as [|a s [IH1 IH2]].
  - split; [reflexivity|]. intros c. simpl.
    destruct (Ascii.eqb c JS.CR) eqn:E; simpl; [reflexivity|].
    unfold notCR. now rewrite E.
  - split; [apply IH2|]. intros c.
    change (JS.normalizeNewlines (String c (String a s))) with
      (if Ascii.eqb c JS.CR
       then if Ascii.eqb a JS.LF
            then String JS.LF (JS.normalizeNewlines s)
            else String JS.LF (JS.normalizeNewlines (String a s))
       else String c (JS.normalizeNewlines (String a s))).
    destruct (Ascii.eqb c JS.CR) eqn:E.
    + destruct (Ascii.eqb a JS.LF); simpl; [apply IH1|apply IH2].
    + simpl allChars. unfold notCR at 1. rewrite E. simpl. apply IH2.
Qed.



Lemma allChars_span_fst (p stop : ascii -> bool) (s : string) :
  allChars p s = true -> allChars p (fst (TextParser.span stop s)) = true.
Proof.
  induction s as [|c s IH]; simpl; [auto|].
  intros H. apply andb_prop in H. destruct H as [H1 H2].
  destruct (stop c); simpl; [reflexivity|].
  destruct (TextParser.span stop s) as [a b]. simpl in *.
  rewrite H1. simpl. auto.
Qed.

Lemma span_fst_no_stop (stop : ascii -> bool) (s : string) :
  allChars (fun c => negb (stop c)) (fst (TextParser.span stop s)) = true.
Proof.
  induction s as [|c s IH]; simpl; [auto|].
  destruct (stop c) eqn:E; simpl; [reflexivity|].
  destruct (TextParser.span stop s) as [a b]. simpl in *.
  now rewrite E.
Qed.



Lemma firstLine_no_newline (str : string) :
  noNewline (Spec.firstLine str) = true.
Proof.
  unfold noNewline, Spec.firstLine. apply andb_true_intro. split.
  - apply allChars_span_fst. unfold JS.trim.
    apply allChars_trimEnd, allChars_trimStart, normalizeNewlines_no_CR.
  - apply (span_fst_no_stop Spec.isLF).
Qed.

Lemma lineTerminator_cases (s r : string) :
  JS.lineTerminator s = Some r ->
  (exists c, s = String c r /\ (c = JS.LF \/ c = JS.CR)) \/
  s = JS.LS ++ r \/ s = JS.PS ++ r.
Proof.
  destruct s as [|c s]; [discriminate|]. cbn [JS.lineTerminator].
  destruct (Ascii.eqb_spec c JS.LF) as [->|N1].
  - intros H; inversion H; subst. left. exists JS.LF. tauto.
  - destruct (Ascii.eqb_spec c JS.CR) as [->|N2].
    + intros H; inversion H; subst. left. exists JS.CR. tauto.
    + cbn [orb]. right.
      destruct (JS.stripPrefix JS.LS (String c s)) as [r'|] eqn:S1.
      * inversion H; subst. left. now apply stripPrefix_Some.
      * right. now apply stripPrefix_Some.
Qed.

Lemma lineTerminator_separator (sep r : string) :
  sep = JS.LS \/ sep = JS.PS -> JS.lineTerminator (sep ++ r) = Some r.
Proof. intros [->| ->]; reflexivity. Qed.

(** In a text without CR and LF a line terminator is a U+2028 or a
    U+2029. *)
Lemma lineTerminator_no_newline (s r : string) :
  noNewline s = true -> JS.lineTerminator s = Some r ->
  exists sep, s = sep ++ r /\ (sep = JS.LS \/ sep = JS.PS).
Proof.
  intros N H. destruct (lineTerminator_cases s r H) as [[c [-> C]]|[E|E]].
  - exfalso. unfold noNewline in N. simpl in N. unfold notCR, notLF in N.
    destruct C as [-> | ->]; simpl in N.
    + now rewrite andb_false_r in N.
    + discriminate.
  - exists JS.LS. tauto.
  - exists JS.PS. tauto.
Qed.

Lemma noNewline_app (a b : string) :
  noNewline (a ++ b) = true -> noNewline a = true /\ noNewline b = true.
Proof.
  unfold noNewline. rewrite !allChars_app. intros H.
  apply andb_prop in H. destruct H as [H1 H2].
  apply andb_prop in H1. apply andb_prop in H2.
  destruct H1 as [A1 B1]. destruct H2 as [A2 B2].
  now rewrite A1, A2, B1, B2.
Qed.

Lemma headerHere_end (s : string) :
  noNewline s = true ->
  (headerHere s = true <->
   exists post, s = "#EXTM3U" ++ post /\ Spec.lineEnd post).
Proof.
  intros N. unfold headerHere. split.
  - destruct (JS.stripPrefix "#EXTM3U" s) as [rest|] eqn:S; [|discriminate].
    apply stripPrefix_Some in S. subst s. intros H. exists rest.
    split; [reflexivity|].
    destruct rest as [|c rest]; [now left|]. right.
    apply noNewline_app in N. destruct N as [_ N].
    destruct (JS.lineTerminator (String c rest)) as [r|] eqn:L.
    + right. destruct (lineTerminator_no_newline _ _ N L) as (sep & E & Q).
      now exists sep, r.
    + left. now exists c, rest.
  - intros (post & -> & E). rewrite stripPrefix_app.
    destruct E as [->|[(c & rest & -> & B)|(sep & rest & -> & Q)]].
    + reflexivity.
    + destruct (JS.lineTerminator (String c rest)); [reflexivity|exact B].
    + rewrite (lineTerminator_separator sep rest Q).
      now destruct Q as [-> | ->].
Qed.

Lemma headerAfterLineTerminator_start (s : string) :
  noNewline s = true ->
  (headerAfterLineTerminator s = true <->
   exists p sep r,
     s = p ++ sep ++ r /\ (sep = JS.LS \/ sep = JS.PS) /\
     headerHere r = true).
Proof.
  induction s as [|c s IH]; intros N.
  - split; [discriminate|]. intros (p & sep & r & E & Q & _).
    destruct p; destruct Q as [-> | ->]; discriminate.
  - assert (N' : noNewline s = true)
      by (apply (noNewline_app (String c "") s N)).
    cbn [headerAfterLineTerminator]. split.
    + intros H. apply orb_prop in H. destruct H as [H|H].
      * destruct (JS.lineTerminator (String c s)) as [r|] eqn:L;
          [|discriminate].
        destruct (lineTerminator_no_newline _ _ N L) as (sep & E & Q).
        exists "", sep, r. tauto.
      * apply (IH N') in H. destruct H as (p & sep & r & -> & Q & H).
        exists (String c p), sep, r. tauto.
    + intros (p & sep & r & E & Q & H). destruct p as [|c' p].
      * simpl in E. rewrite E, (lineTerminator_separator sep r Q), H.
        reflexivity.
      * simpl in E. inversion E; subst.
        apply orb_true_intro. right. apply (IH N'). now exists p, sep, r.
Qed.

(** On a line without CR and LF the header pattern matches exactly the
    header lines. *)
Lemma header_headerLine (line : string) :
  noNewline line = true ->
  (header line = true <-> Spec.headerLine line).
Proof.
  intros N. unfold header, Spec.headerLine. split.
  - intros H. apply orb_prop in H. destruct H as [H|H].
    + apply (headerHere_end line N) in H. destruct H as (post & -> & E).
      exists "", post. split; [reflexivity|]. split; [now left|exact E].
    + apply (headerAfterLineTerminator_start line N) in H.
      destruct H as (p & sep & r & -> & Q & H).
      assert (Nr : noNewline r = true).
      { apply noNewline_app in N. destruct N as [_ N].
        apply noNewline_app in N. apply N. }
      apply (headerHere_end r Nr) in H. destruct H as (post & -> & E).
      exists (p ++ sep), post. rewrite append_assoc.
      split; [reflexivity|]. split; [right; now exists p, sep|exact E].
  - intros (pre & post & -> & [->|(p & sep & -> & Q)] & E).
    + apply orb_true_intro. left. apply (headerHere_end _ N).
      now exists post.
    + apply orb_true_intro. right.
      apply (headerAfterLineTerminator_start _ N).
      exists p, sep, ("#EXTM3U" ++ post). rewrite append_assoc.
      split; [reflexivity|]. split; [exact Q|].
      apply headerHere_end; [|now exists post].
      rewrite append_assoc in N.
      apply noNewline_app in N. destruct N as [_ N].
      apply noNewline_app in N. apply N.
Qed.

Lemma header_firstLine (str : string) :
  header (Spec.firstLine str) = true <-> Spec.headerLine (Spec.firstLine str).
Proof. apply header_headerLine, firstLine_no_newline. Qed.

Lemma splitLines_hd (s : string) :
  exists ls, JS.splitLines s = fst (TextParser.span Spec.isLF s) :: ls.
Proof.
  induction s as [|c s [ls IH]]; simpl.
  - now exists [].
  - unfold Spec.isLF at 1. destruct (Ascii.eqb c JS.LF); simpl.
    + destruct s as [|c' s'].
      * eexists; reflexivity.
      * destruct (Ascii.eqb c' JS.LF) eqn:E.
        -- rewrite IH. simpl. unfold Spec.isLF at 1. rewrite E. simpl.
           eexists; reflexivity.
        -- eexists; reflexivity.
    + rewrite IH. destruct (TextParser.span Spec.isLF s) as [a b]. simpl.
      eexists; reflexivity.
Qed.

Lemma prefix_app (p s : string) :
  String.prefix p s = true -> exists r, s = p ++ r.
Proof.
  revert s. induction p as [|a p IH]; intros s.
  - intros _. now exists s.
  - destruct s as [|b s]; simpl; [discriminate|].
    destruct (ascii_dec a b) as [->|]; [|discriminate].
    intros H. destruct (IH s H) as [r ->]. now exists r.
Qed.




(** The header check of [parsePlaylist], on the first line. *)
Lemma parsePlaylist_header (g : nat) (str : string) :
  parsePlaylist g str =
    if header (Spec.firstLine str)
    then scanLines (linesOf str) initialScanState g
    else Throws HLS_PLAYLIST_HEADER_MISSING g.
Proof.
  unfold parsePlaylist.
  destruct (splitLines_hd (JS.trim (JS.normalizeNewlines str))) as [ls F].
  fold (linesOf str) in F. fold (Spec.firstLine str) in F. rewrite F.
  now destruct (header (Spec.firstLine str)).
Qed.


(** A first line with a U+2028 in front of the token: the pattern, which
    has the [m] flag, accepts it. *)
Example header_after_line_separator :
  header ("x" ++ JS.LS ++ "#EXTM3U") = true /\
  header ("#EXTM3U" ++ JS.PS ++ "x") = true /\
  header "#EXTM3Ux" = false /\
  header "x#EXTM3U" = false.
Proof. repeat split; reflexivity. Qed.


(** ** The scanning loop, line by line *)

Lemma scanLines_scanPrefix (pre post : list string) (st st' : ScanState)
  (g g' : nat) :
  Spec.scanPrefix pre post st g = Some (st', g') ->
  scanLines (pre ++ post)%list st g = scanLines post st' g'.
Proof.
  revert st g. induction pre as [|l pre IH]; intros st g; simpl.
  - intros H; inversion H; subst. reflexivity.
  - destruct (scanLine st g l (pre ++ post)); [apply IH|discriminate].
Qed.

Lemma scanPrefix_snoc (pre : list string) (l : string) (post : list string)
  (st st' : ScanState) (g g' : nat) :
  Spec.scanPrefix (pre ++ [l])%list post st g = Some (st', g') ->
  exists st1 g1,
    Spec.scanPrefix pre (l :: post) st g = Some (st1, g1) /\
    scanLine st1 g1 l post = Next st' g'.
Proof.
  revert st g. induction pre as [|a pre IH]; intros st g; simpl.
  - destruct (scanLine st g l post) eqn:E; [|discriminate].
    intros H; inversion H; subst. now exists st, g.
  - rewrite <- app_assoc. simpl.
    destruct (scanLine st g a (pre ++ l :: post)); [apply IH|discriminate].
Qed.

Lemma stripPrefix_startsWith (p s : string) :
  JS.stripPrefix p s = None <-> JS.startsWith s p = false.
Proof.
  unfold JS.startsWith. revert s.
  induction p as [|a p IH]; intros s.
  - destruct s; simpl; split; discriminate.
  - destruct s as [|b s]; simpl; [tauto|].
    destruct (Ascii.eqb_spec a b) as [->|N].
    + destruct (ascii_dec b b); [apply IH|congruence].
    + destruct (ascii_dec a b); [congruence|tauto].
Qed.

Lemma parseTag_not_directive (id : nat) (line : string) :
  JS.startsWith line "#EXT" = false ->
  parseTag id line = inl (INVALID_HLS_TAG line).
Proof.
  intros H. apply stripPrefix_startsWith in H.
  unfold parseTag, tagBlocks. now rewrite H.
Qed.

(** The tag [parseTag] builds depends on [id] through its [id] field
    only. *)
Lemma parseTag_id (i j : nat) (word : string) (t : Tag.t) :
  parseTag i word = inr t ->
  parseTag j word =
    inr (Tag.mk j (Tag.name t) (Tag.attributes t) (Tag.value t)).
Proof.
  unfold parseTag. destruct (tagBlocks word) as [[name [d|]]|].
  - destruct (JS.truthyStr (Some d)).
    + destruct (valueRegex d) as [[v r]|];
        intros H; inversion H; subst; reflexivity.
    + intros H; inversion H; subst; reflexivity.
  - intros H; inversion H; subst; reflexivity.
  - discriminate.
Qed.

Lemma scanLine_skip (st st' : ScanState) (g g' : nat) (line : string)
  (rest : list string) :
  scanLine st g line rest = Next st' g' ->
  skip st' = true -> Spec.isVariantLine line = true.
Proof.
  unfold scanLine.
  destruct (Utils.isComment line || skip st).
  - intros H; inversion H; subst. discriminate.
  - destruct (parseTag g line) as [e|t] eqn:E; [discriminate|].
    destruct (detectType st (Tag.name t)) as [ty det].
    destruct (has SEGMENT_TAGS (Tag.name t)).
    + destruct (negb (PlaylistType_eqb ty MEDIA)); [discriminate|].
      destruct (parseSegments_ _ _ _ _); discriminate.
    + intros H; inversion H; subst. simpl. intros V.
      unfold Spec.isVariantLine. rewrite (parseTag_id _ 0 _ _ E). exact V.
Qed.

(** ** C10: bare lines while scanning *)

(** C10.  While [parsePlaylist] is in playlist-scanning mode, a line that
    is not a comment, does not start with [#EXT] and does not immediately
    follow an EXT-X-STREAM-INF line makes the call fail with
    INVALID_HLS_TAG (MalformedDirective) carrying that line. *)
Theorem bare_line_rejected_while_scanning (g g1 : nat) (str : string)
  (pre post : list string) (prev line : string) (st : ScanState) :
  Spec.headerLine (Spec.firstLine str) ->
  linesOf str = (pre ++ prev :: line :: post)%list ->
  Spec.scanPrefix (pre ++ [prev])%list (line :: post) initialScanState g
    = Some (st, g1) ->
  Spec.isVariantLine prev = false ->
  Utils.isComment line = false ->
  JS.startsWith line "#EXT" = false ->
  parsePlaylist g str = Throws (INVALID_HLS_TAG line) (S g1).
Proof.
  intros HL L P V C E.
  assert (K : skip st = false).
  { destruct (scanPrefix_snoc _ _ _ _ _ _ _ P) as [st1 [g0 [_ S1]]].
    destruct (skip st) eqn:K; [|reflexivity].
    rewrite (scanLine_skip _ _ _ _ _ _ S1 K) in V. discriminate. }
  unfold parsePlaylist.
  destruct (splitLines_hd (JS.trim (JS.normalizeNewlines str))) as [ls F].
  fold (linesOf str) in F. fold (Spec.firstLine str) in F. rewrite F.
  apply (header_firstLine str) in HL.
  rewrite HL. cbn [negb]. rewrite <- F, L.
  change (pre ++ prev :: line :: post)%list
    with (pre ++ [prev] ++ line :: post)%list.
  rewrite app_assoc, (scanLines_scanPrefix _ _ _ _ _ _ P).
  simpl. unfold scanLine. rewrite C, K. simpl.
  now rewrite (parseTag_not_directive g1 line E).
Qed.

Lemma bare_line_rejected_while_scanning_witness :
  parsePlaylist 0 Docs.invalidTag = Throws (INVALID_HLS_TAG "invalid tag") 1.
Proof.
  apply (bare_line_rejected_while_scanning 0 0 Docs.invalidTag
           [] [] "#EXTM3U" "invalid tag"
           (mkScanState MASTER false [] createDefaultTagIndex_ false)).
  - exists "", "". split; [reflexivity|]. split; left; reflexivity.
  - reflexivity.
  - reflexivity.
  - reflexivity.
  - reflexivity.
  - reflexivity.
Defined.

(** ** The scanning loop at a segment-only directive *)

Lemma detectedType_snoc (l : list Tag.t) (t : Tag.t) :
  Spec.detectedType (l ++ [t]) =
    match Spec.detectedType l with
    | Some ty => Some ty
    | None => Spec.typeOfName (Tag.name t)
    end.
Proof.
  induction l as [|a l IH]; simpl.
  - destruct (Spec.typeOfName (Tag.name t)); reflexivity.
  - destruct (Spec.typeOfName (Tag.name a)); [reflexivity|exact IH].
Qed.

Lemma detectType_typeOfName (st : ScanState) (name : string) :
  typeInvariant st ->
  detectType st name =
    match Spec.detectedType (tags st), Spec.typeOfName name with
    | Some ty, _ => (ty, true)
    | None, Some ty => (ty, true)
    | None, None => (MASTER, false)
    end.
Proof.
  intros [I1 I2]. unfold detectType, Spec.typeOfName. rewrite I1.
  destruct (typeDetected st); simpl; [reflexivity|].
  rewrite (I2 eq_refl).
  destruct (has MEDIA_PLAYLIST_TAGS name); [reflexivity|].
  destruct (String.eqb name "EXT-X-STREAM-INF" || String.eqb name "EXT-X-MEDIA");
    [reflexivity|].
  destruct (has SEGMENT_TAGS name); reflexivity.
Qed.

Lemma typeOfName_segment (name : string) :
  has SEGMENT_TAGS name = true -> Spec.typeOfName name = Some MEDIA.
Proof.
  intros H. unfold Spec.typeOfName.
  destruct (has MEDIA_PLAYLIST_TAGS name); [reflexivity|].
  destruct (String.eqb_spec name "EXT-X-STREAM-INF") as [->|_];
    [vm_compute in H; discriminate|].
  destruct (String.eqb_spec name "EXT-X-MEDIA") as [->|_];
    [vm_compute in H; discriminate|].
  simpl. now rewrite H.
Qed.

Lemma scanLine_typeInvariant (st st' : ScanState) (g g' : nat)
  (line : string) (rest : list string) :
  typeInvariant st -> scanLine st g line rest = Next st' g' ->
  typeInvariant st'.
Proof.
  intros I. unfold scanLine.
  destruct (Utils.isComment line || skip st).
  - intros H; inversion H; subst. exact I.
  - destruct (parseTag g line) as [e|t]; [discriminate|].
    rewrite (detectType_typeOfName st (Tag.name t) I).
    assert (N : forall (b : bool) a, Tag.name (if b then Tag.addAttribute t a else t)
                            = Tag.name t) by (intros [] a; reflexivity).
    destruct (has SEGMENT_TAGS (Tag.name t)).
    + destruct (Spec.detectedType (tags st)) as [ty|];
        [|destruct (Spec.typeOfName (Tag.name t))];
        cbv beta iota;
        repeat match goal with
               | |- context [if ?b then _ else _] => destruct b
               | |- context [match ?x with _ => _ end] => destruct x
               end; discriminate.
    + destruct (Spec.detectedType (tags st)) as [ty|] eqn:D.
      * intros H; inversion H; subst. unfold typeInvariant; simpl.
        rewrite detectedType_snoc, D. split; [reflexivity|discriminate].
      * destruct (Spec.typeOfName (Tag.name t)) as [ty|] eqn:T;
          intros H; inversion H; subst; unfold typeInvariant; simpl;
          rewrite detectedType_snoc, D, N, T; split;
          solve [reflexivity|discriminate].
Qed.

Lemma scanPrefix_typeInvariant (pre post : list string) (st st' : ScanState)
  (g g' : nat) :
  typeInvariant st -> Spec.scanPrefix pre post st g = Some (st', g') ->
  typeInvariant st'.
Proof.
  revert st g. induction pre as [|l pre IH]; intros st g I; simpl.
  - intros H; inversion H; subst. exact I.
  - destruct (scanLine st g l (pre ++ post)) as [st1 g1|] eqn:E;
      [|discriminate].
    apply IH. eapply scanLine_typeInvariant; eauto.
Qed.

Lemma initialScanState_typeInvariant : typeInvariant initialScanState.
Proof. split; reflexivity. Qed.

(** What the scanning loop does on a segment-only directive it
    encounters. *)
Lemma scanLines_segment_directive (st : ScanState) (g : nat) (line : string)
  (post : list string) (tag : Tag.t) :
  typeInvariant st -> skip st = false -> Utils.isComment line = false ->
  parseTag g line = inr tag -> has SEGMENT_TAGS (Tag.name tag) = true ->
  scanLines (line :: post) st g =
    match Spec.detectedType (tags st) with
    | Some MASTER => Throws HLS_INVALID_PLAYLIST_HIERARCHY (S g)
    | _ =>
        match parseSegments_ (line :: post) (tags st) (scanIndex st) (S g)
        with
        | Returns r g' =>
            Returns
              (Playlist.new MEDIA (playlistTags r)
                 (PlaylistComputedData.mk (tagIndex r) (analysis r))
                 (Some (segments r))) g'
        | Throws e g' => Throws e g'
        end
    end.
Proof.
  intros I K C P SG. cbn [scanLines]. unfold scanLine.
  rewrite C, K, P. cbn [orb].
  rewrite (detectType_typeOfName st _ I), SG, (typeOfName_segment _ SG).
  destruct (Spec.detectedType (tags st)) as [[|]|]; cbv beta iota;
    cbn [negb PlaylistType_eqb]; try reflexivity;
    destruct (parseSegments_ _ _ _ _); reflexivity.
Qed.

Lemma scanLines_hierarchy (lines : list string) (st : ScanState)
  (g g' : nat) :
  typeInvariant st ->
  scanLines lines st g = Throws HLS_INVALID_PLAYLIST_HIERARCHY g' ->
  exists pre line post st1 g1 tag,
    lines = (pre ++ line :: post)%list /\
    Spec.scanPrefix pre (line :: post) st g = Some (st1, g1) /\
    skip st1 = false /\ Utils.isComment line = false /\
    parseTag g1 line = inr tag /\
    has SEGMENT_TAGS (Tag.name tag) = true /\
    Spec.detectedType (tags st1) = Some MASTER.
Proof.
  revert st g. induction lines as [|l ls IH]; intros st g I.
  - discriminate.
  - destruct (scanLine st g l ls) as [st1 g1|o] eqn:E.
    + simpl. rewrite E. intros H.
      destruct (IH st1 g1 (scanLine_typeInvariant _ _ _ _ _ _ I E) H)
        as (pre & line & post & st2 & g2 & tag & L & P & R).
      exists (l :: pre), line, post, st2, g2, tag. split.
      * simpl. now rewrite L.
      * split; [|exact R]. simpl. rewrite <- L, E. exact P.
    + assert (CK : Utils.isComment l || skip st = false).
      { unfold scanLine in E.
        destruct (Utils.isComment l || skip st); [discriminate|reflexivity]. }
      apply orb_false_elim in CK. destruct CK as [C K].
      destruct (parseTag g l) as [e|tag] eqn:P.
      * simpl. unfold scanLine. rewrite C, K, P. simpl.
        apply parseTag_error in P. subst e. discriminate.
      * destruct (has SEGMENT_TAGS (Tag.name tag)) eqn:SG.
        -- rewrite (scanLines_segment_directive st g l ls tag I K C P SG).
           destruct (Spec.detectedType (tags st)) as [[|]|] eqn:D.
           ++ intros _. exists [], l, ls, st, g, tag. simpl. tauto.
           ++ destruct (parseSegments_ _ _ _ _) as [r g1|e g1] eqn:PS;
                [discriminate|]. intros H; inversion H; subst.
              apply parseSegments_error in PS.
              destruct PS as [T|[w T]]; discriminate.
           ++ destruct (parseSegments_ _ _ _ _) as [r g1|e g1] eqn:PS;
                [discriminate|]. intros H; inversion H; subst.
              apply parseSegments_error in PS.
              destruct PS as [T|[w T]]; discriminate.
        -- exfalso. unfold scanLine in E. rewrite C, K, P in E. simpl in E.
           destruct (detectType st (Tag.name tag)). rewrite SG in E.
           discriminate.
Qed.

Lemma parsePlaylist_scanLines (g : nat) (str : string) :
  Spec.headerLine (Spec.firstLine str) ->
  parsePlaylist g str = scanLines (linesOf str) initialScanState g.
Proof.
  intros HL. unfold parsePlaylist.
  destruct (splitLines_hd (JS.trim (JS.normalizeNewlines str))) as [ls F].
  fold (linesOf str) in F. fold (Spec.firstLine str) in F. rewrite F.
  apply (header_firstLine str) in HL.
  now rewrite HL.
Qed.

Lemma parsePlaylist_at_segment_directive (g : nat) (str : string)
  (st : ScanState) :
  Spec.headerLine (Spec.firstLine str) ->
  Spec.encountersSegmentDirective g str st ->
  match Spec.detectedType (tags st) with
  | Some MASTER =>
      exists g', parsePlaylist g str = Throws HLS_INVALID_PLAYLIST_HIERARCHY g'
  | _ =>
      (forall g', parsePlaylist g str
                  <> Throws HLS_INVALID_PLAYLIST_HIERARCHY g') /\
      (forall p g', parsePlaylist g str = Returns p g' ->
                    Playlist.type p = MEDIA)
  end.
Proof.
  intros HL (pre & line & post & g1 & tag & L & P & K & C & T & SG).
  rewrite (parsePlaylist_scanLines g str HL), L,
    (scanLines_scanPrefix _ _ _ _ _ _ P).
  pose proof (scanPrefix_typeInvariant _ _ _ _ _ _
                initialScanState_typeInvariant P) as I.
  rewrite (scanLines_segment_directive st g1 line post tag I K C T SG).
  assert (M : forall o : Outcome SegmentsResult,
    o = parseSegments_ (line :: post) (tags st) (scanIndex st) (S g1) ->
    (forall g',
       match o with
       | Returns r g'0 =>
           Returns
             (Playlist.new MEDIA (playlistTags r)
                (PlaylistComputedData.mk (tagIndex r) (analysis r))
                (Some (segments r))) g'0
       | Throws e g'0 => Throws e g'0
       end <> Throws HLS_INVALID_PLAYLIST_HIERARCHY g') /\
    (forall p g',
       match o with
       | Returns r g'0 =>
           Returns
             (Playlist.new MEDIA (playlistTags r)
                (PlaylistComputedData.mk (tagIndex r) (analysis r))
                (Some (segments r))) g'0
       | Throws e g'0 => Throws e g'0
       end = Returns p g' -> Playlist.type p = MEDIA)).
  { intros [r g0|e g0] EQ; split.
    - discriminate.
    - intros p g' H; inversion H; subst; reflexivity.
    - intros g' H; inversion H; subst. symmetry in EQ.
      apply parseSegments_error in EQ. destruct EQ as [X|[w X]]; discriminate.
    - discriminate. }
  destruct (Spec.detectedType (tags st)) as [[|]|].
  - eexists; reflexivity.
  - apply M; reflexivity.
  - apply M; reflexivity.
Qed.

(** The unit test 'rejects invalid playlists': an alternative-media
    declaration followed by a duration directive. *)
Example segment_tag_in_master_rejected :
  parsePlaylist 0 Docs.segmentTagInMaster
    = Throws HLS_INVALID_PLAYLIST_HIERARCHY 2.
Proof. vm_compute. reflexivity. Qed.

(** ** The playlist tag index is a fold over the playlist's tag list *)

Lemma indexTags_snoc (tags : list Tag.t) (t : Tag.t)
  (index : PlaylistComputed.t) :
  indexTags (tags ++ [t]) index
    = updateTagIndexForTag_ (indexTags tags index) t.
Proof. unfold indexTags. now rewrite fold_left_app. Qed.

Lemma storeSegment_index (st : SegmentsState.t) (s : Segment.t) :
  SegmentsState.playlistTags (storeSegment st s)
    = SegmentsState.playlistTags st /\
  SegmentsState.tagIndex (storeSegment st s) = SegmentsState.tagIndex st.
Proof.
  unfold storeSegment.
  destruct (_ <? _)%nat; split; reflexivity.
Qed.

Lemma directiveLine_index (st st' : SegmentsState.t) (t : Tag.t) :
  directiveLine st t = inr st' ->
  SegmentsState.tagIndex st
    = indexTags (SegmentsState.playlistTags st) createDefaultTagIndex_ ->
  SegmentsState.tagIndex st'
    = indexTags (SegmentsState.playlistTags st') createDefaultTagIndex_.
Proof.
  unfold directiveLine. intros H I.
  destruct (has MEDIA_PLAYLIST_TAGS (Tag.name t)).
  - inversion H; subst; simpl. now rewrite indexTags_snoc, I.
  - repeat match type of H with
           | context [if ?b then _ else _] => destruct b
           end;
      match type of H with
      | context [updateComputedForTag_ ?c ?x] =>
          destruct (updateComputedForTag_ c x); [discriminate|]
      end; inversion H; subst; exact I.
Qed.

Lemma segmentsLoop_index (lines : list string) (st st' : SegmentsState.t)
  (g g' : nat) :
  segmentsLoop lines st g = Returns st' g' ->
  SegmentsState.tagIndex st
    = indexTags (SegmentsState.playlistTags st) createDefaultTagIndex_ ->
  SegmentsState.tagIndex st'
    = indexTags (SegmentsState.playlistTags st') createDefaultTagIndex_.
Proof.
  revert st g. induction lines as [|l ls IH]; intros st g; simpl.
  - intros H; inversion H; subst; auto.
  - destruct (JS.startsWith l "#EXT").
    + destruct (parseTag g l) as [e|t]; [discriminate|].
      destruct (directiveLine st t) as [e|st1] eqn:D; [discriminate|].
      intros H I. apply (IH _ _ H). eapply directiveLine_index; eauto.
    + destruct (Utils.isComment l); [apply IH|].
      intros H I. apply (IH _ _ H). unfold uriLine. simpl.
      destruct (storeSegment_index st
                  (Segment.new (JS.trim l)
                     (withMapTag (SegmentsState.segmentTags st)
                        (SegmentsState.currentMapTag st))
                     match SegmentComputed.map (SegmentsState.computed st),
                           SegmentsState.currentMapTag st with
                     | None, Some m =>
                         SegmentComputed.set_mapId
                           (SegmentComputed.set_map
                              (SegmentsState.computed st) (Some m))
                           (Some (Tag.id m))
                     | _, _ => SegmentsState.computed st
                     end
                     (SegmentsState.partialSegmentTags st))) as [A B].
      now rewrite A, B.
Qed.

Lemma parseSegments_index (lines : list string) (tags : list Tag.t)
  (g g' : nat) (r : SegmentsResult) :
  parseSegments_ lines tags (indexTags tags createDefaultTagIndex_) g
    = Returns r g' ->
  tagIndex r = indexTags (playlistTags r) createDefaultTagIndex_.
Proof.
  unfold parseSegments_.
  destruct (segmentsLoop lines _ g) as [st g1|e g1] eqn:L; [|discriminate].
  apply segmentsLoop_index in L; [|reflexivity].
  unfold finishSegments.
  destruct (SegmentsState.partialSegmentTags st).
  - intros H; inversion H; subst; exact L.
  - destruct (updateComputedForTags _ _); [discriminate|].
    intros H; inversion H; subst; simpl.
    match goal with
    | |- context [storeSegment st ?s] =>
        destruct (storeSegment_index st s) as [A B]
    end.
    now rewrite A, B.
Qed.

Lemma scanLines_index (lines : list string) (st : ScanState) (g g' : nat)
  (p : Playlist.t) :
  scanIndex st = indexTags (tags st) createDefaultTagIndex_ ->
  scanLines lines st g = Returns p g' ->
  PlaylistComputedData.playlist (Playlist.computed p)
    = indexTags (Playlist.tags p) createDefaultTagIndex_.
Proof.
  revert st g. induction lines as [|l ls IH]; intros st g I; simpl.
  - intros H; inversion H; subst; exact I.
  - unfold scanLine.
    destruct (Utils.isComment l || skip st); [now apply IH|].
    destruct (parseTag g l) as [e|t]; [discriminate|].
    destruct (detectType st (Tag.name t)) as [ty det].
    destruct (has SEGMENT_TAGS (Tag.name t)).
    + destruct (negb (PlaylistType_eqb ty MEDIA)); [discriminate|].
      rewrite I.
      destruct (parseSegments_ _ _ _ _) as [r g1|e g1] eqn:P; [|discriminate].
      intros H; inversion H; subst; simpl.
      eapply parseSegments_index; eauto.
    + apply IH. simpl. now rewrite indexTags_snoc, I.
Qed.

(** The index of a returned playlist is the fold of
    [updateTagIndexForTag_] over the playlist's own tag list. *)
Lemma parsePlaylist_index (g g' : nat) (str : string) (p : Playlist.t) :
  parsePlaylist g str = Returns p g' ->
  PlaylistComputedData.playlist (Playlist.computed p)
    = indexTags (Playlist.tags p) createDefaultTagIndex_.
Proof.
  unfold parsePlaylist. destruct (negb (header _)); [discriminate|].
  apply scanLines_index. reflexivity.
Qed.

(** *** What one tag does to each field *)

Ltac name_cases index t :=
  unfold updateTagIndexForTag_;
  repeat match goal with
         | |- context [String.eqb (Tag.name t) ?s] =>
             destruct (String.eqb_spec (Tag.name t) s) as [->|_]
         end;
  destruct index; simpl;
  repeat match goal with
         | |- context [match ?x with _ => _ end] => destruct x; simpl
         end;
  reflexivity.

Section Folds.

Variable A : Type.
Variable field : PlaylistComputed.t -> A.
Variable name : string.

(** A field every tag of [name] overwrites: the last such tag decides. *)
Lemma indexTags_last_wins (h : Tag.t -> A) :
  (forall index t,
     field (updateTagIndexForTag_ index t)
       = if String.eqb (Tag.name t) name then h t else field index) ->
  forall tags index,
    field (indexTags tags index)
      = match Spec.lastTag name tags with
        | Some t => h t
        | None => field index
        end.
Proof.
  intros Step tags index. induction tags as [|t tags IH] using rev_ind.
  - reflexivity.
  - rewrite indexTags_snoc, Step. unfold Spec.lastTag.
    rewrite rev_app_distr. simpl.
    destruct (String.eqb (Tag.name t) name); [reflexivity|exact IH].
Qed.

End Folds.

Section FirstWins.

Variable field : PlaylistComputed.t -> option Tag.t.
Variable name : string.

(** A slot only the first tag of [name] fills. *)
Lemma indexTags_first_wins :
  (forall index t,
     field (updateTagIndexForTag_ index t)
       = match field index with
         | Some x => Some x
         | None => if String.eqb (Tag.name t) name then Some t else None
         end) ->
  forall tags index,
    field (indexTags tags index)
      = match field index with
        | Some x => Some x
        | None => Spec.firstTag name tags
        end.
Proof.
  intros Step tags. induction tags as [|t tags IH]; intros index.
  - simpl. now destruct (field index).
  - change (indexTags (t :: tags) index)
      with (indexTags tags (updateTagIndexForTag_ index t)).
    rewrite IH, Step. simpl.
    destruct (field index); [reflexivity|].
    destruct (String.eqb (Tag.name t) name); reflexivity.
Qed.

End FirstWins.

Lemma endListTag_step (index : PlaylistComputed.t) (t : Tag.t) :
  PlaylistComputed.endListTag (updateTagIndexForTag_ index t)
    = match PlaylistComputed.endListTag index with
      | Some x => Some x
      | None =>
          if String.eqb (Tag.name t) "EXT-X-ENDLIST" then Some t else None
      end.
Proof. name_cases index t. Qed.

Lemma serverControlTag_step (index : PlaylistComputed.t) (t : Tag.t) :
  PlaylistComputed.serverControlTag (updateTagIndexForTag_ index t)
    = match PlaylistComputed.serverControlTag index with
      | Some x => Some x
      | None =>
          if String.eqb (Tag.name t) "EXT-X-SERVER-CONTROL"
          then Some t else None
      end.
Proof. name_cases index t. Qed.

Lemma playlistTypeTag_step (index : PlaylistComputed.t) (t : Tag.t) :
  PlaylistComputed.playlistTypeTag (updateTagIndexForTag_ index t)
    = match PlaylistComputed.playlistTypeTag index with
      | Some x => Some x
      | None =>
          if String.eqb (Tag.name t) "EXT-X-PLAYLIST-TYPE"
          then Some t else None
      end.
Proof. name_cases index t. Qed.

Lemma startTag_step (index : PlaylistComputed.t) (t : Tag.t) :
  PlaylistComputed.startTag (updateTagIndexForTag_ index t)
    = match PlaylistComputed.startTag index with
      | Some x => Some x
      | None =>
          if String.eqb (Tag.name t) "EXT-X-START" then Some t else None
      end.
Proof. name_cases index t. Qed.

Lemma partInfTag_step (index : PlaylistComputed.t) (t : Tag.t) :
  PlaylistComputed.partInfTag (updateTagIndexForTag_ index t)
    = match PlaylistComputed.partInfTag index with
      | Some x => Some x
      | None =>
          if String.eqb (Tag.name t) "EXT-X-PART-INF" then Some t else None
      end.
Proof. name_cases index t. Qed.

Lemma targetDurationTag_step (index : PlaylistComputed.t) (t : Tag.t) :
  PlaylistComputed.targetDurationTag (updateTagIndexForTag_ index t)
    = match PlaylistComputed.targetDurationTag index with
      | Some x => Some x
      | None =>
          if String.eqb (Tag.name t) "EXT-X-TARGETDURATION"
          then Some t else None
      end.
Proof. name_cases index t. Qed.

Lemma skipTag_step (index : PlaylistComputed.t) (t : Tag.t) :
  PlaylistComputed.skipTag (updateTagIndexForTag_ index t)
    = if String.eqb (Tag.name t) "EXT-X-SKIP" then Some t
      else PlaylistComputed.skipTag index.
Proof. name_cases index t. Qed.

Lemma numberOr_numberOrDefault (v : option string) (d : JS.Num) :
  numberOr v d = Spec.numberOrDefault v d.
Proof.
  destruct v as [s|]; [|reflexivity]. simpl.
  now destruct (String.eqb s "").
Qed.

Lemma mediaSequence_step (index : PlaylistComputed.t) (t : Tag.t) :
  PlaylistComputed.mediaSequence (updateTagIndexForTag_ index t)
    = if String.eqb (Tag.name t) "EXT-X-MEDIA-SEQUENCE"
      then Spec.numberOrDefault (Tag.value t) JS.zero
      else PlaylistComputed.mediaSequence index.
Proof. rewrite <- numberOr_numberOrDefault. name_cases index t. Qed.

Lemma discontinuitySequence_step (index : PlaylistComputed.t) (t : Tag.t) :
  PlaylistComputed.discontinuitySequence (updateTagIndexForTag_ index t)
    = if String.eqb (Tag.name t) "EXT-X-DISCONTINUITY-SEQUENCE"
      then Spec.numberOrDefault (Tag.value t) JS.minusOne
      else PlaylistComputed.discontinuitySequence index.
Proof. rewrite <- numberOr_numberOrDefault. name_cases index t. Qed.

Lemma skippedSegments_step (index : PlaylistComputed.t) (t : Tag.t) :
  PlaylistComputed.skippedSegments (updateTagIndexForTag_ index t)
    = if String.eqb (Tag.name t) "EXT-X-SKIP"
      then Spec.numberOrDefault
             (Tag.getAttributeValue t "SKIPPED-SEGMENTS") JS.zero
      else PlaylistComputed.skippedSegments index.
Proof.
  rewrite <- numberOr_numberOrDefault. unfold numberOr. name_cases index t.
Qed.

Lemma updateComputedForTag_returns (c : SegmentComputed.t) (t : Tag.t) :
  (Tag.name t = "EXTINF" -> Tag.value t <> None) ->
  exists c', updateComputedForTag_ c t = inr c'.
Proof.
  intros V. unfold updateComputedForTag_.
  destruct (String.eqb_spec (Tag.name t) "EXTINF") as [E|_].
  - destruct (SegmentComputed.extinf c); [eexists; reflexivity|].
    destruct (Tag.value t) eqn:TV; [eexists; reflexivity|].
    now destruct (V E).
  - repeat match goal with
           | |- context [if ?b then _ else _] => destruct b
           | |- context [match ?x with _ => _ end] => destruct x
           end; eexists; reflexivity.
Qed.

(** ** The segment aggregator, line by line *)

Lemma segmentsLoop_app (a b : list string) (st : SegmentsState.t) (g : nat) :
  segmentsLoop (a ++ b) st g =
    match segmentsLoop a st g with
    | Returns st1 g1 => segmentsLoop b st1 g1
    | Throws e g1 => Throws e g1
    end.
Proof.
  revert st g. induction a as [|l a IH]; intros st g; simpl.
  - reflexivity.
  - destruct (JS.startsWith l "#EXT").
    + destruct (parseTag g l) as [e|t]; [reflexivity|].
      destruct (directiveLine st t); [reflexivity|apply IH].
    + destruct (Utils.isComment l); apply IH.
Qed.

Lemma lineIs_parseTag (p : Tag.t -> bool) (line : string) (g : nat)
  (t : Tag.t) :
  (forall i, p (Tag.mk i (Tag.name t) (Tag.attributes t) (Tag.value t))
             = p t) ->
  JS.startsWith line "#EXT" = true -> parseTag g line = inr t ->
  Spec.lineIs p line = p t.
Proof.
  intros Hp S P. unfold Spec.lineIs. rewrite S.
  rewrite (parseTag_id g 0 line t P). simpl. apply Hp.
Qed.

Lemma updateComputedForTag_not_map (c c' : SegmentComputed.t) (t : Tag.t) :
  String.eqb (Tag.name t) "EXT-X-MAP" = false ->
  updateComputedForTag_ c t = inr c' ->
  SegmentComputed.map c' = SegmentComputed.map c /\
  SegmentComputed.mapId c' = SegmentComputed.mapId c.
Proof.
  intros N. unfold updateComputedForTag_. rewrite N. destruct c. simpl.
  repeat match goal with
         | |- context [if ?b then _ else _] => destruct b
         | |- context [match ?x with _ => _ end] => destruct x
         end;
    intros H; inversion H; subst; split; reflexivity.
Qed.

Lemma updateComputedForTag_map (c : SegmentComputed.t) (m : Tag.t) :
  Tag.name m = "EXT-X-MAP" ->
  updateComputedForTag_ c m = inr (withMap c m).
Proof.
  intros N. unfold updateComputedForTag_, withMap. rewrite N. simpl.
  now destruct (SegmentComputed.map c).
Qed.

Lemma mapTagOf_name (t : Tag.t) : Tag.name (Spec.mapTagOf t) = "EXT-X-MAP".
Proof.
  unfold Spec.mapTagOf.
  destruct (String.eqb_spec (Tag.name t) "EXT-X-MAP"); [assumption|].
  reflexivity.
Qed.

Lemma directiveLine_map (st : SegmentsState.t) (t : Tag.t) :
  Spec.isMapTag t = true ->
  directiveLine st t =
    inr (SegmentsState.set_computed
           (SegmentsState.set_currentMapTag st (Some (Spec.mapTagOf t)))
           (withMap (SegmentsState.computed st) (Spec.mapTagOf t))).
Proof.
  unfold Spec.isMapTag, Spec.mapTagOf, directiveLine.
  destruct t as [i n a v]. simpl.
  destruct (String.eqb_spec n "EXT-X-MAP") as [->|N]; simpl.
  - intros _. change (has MEDIA_PLAYLIST_TAGS "EXT-X-MAP") with false.
    cbv beta iota. simpl SegmentsState.computed.
    now rewrite updateComputedForTag_map.
  - destruct (String.eqb_spec n "EXT-X-PRELOAD-HINT") as [->|]; simpl;
      [|discriminate].
    intros M. change (has MEDIA_PLAYLIST_TAGS "EXT-X-PRELOAD-HINT") with false.
    cbv beta iota.
    destruct (looseEq (Tag.getAttributeValue _ "TYPE") "PART") eqn:P.
    + exfalso. revert P M. unfold looseEq.
      destruct (Tag.getAttributeValue _ "TYPE") as [x|]; [|discriminate].
      intros P M. apply String.eqb_eq in P, M. congruence.
    + rewrite M. simpl SegmentsState.computed.
      now rewrite updateComputedForTag_map.
Qed.

Lemma directiveLine_partial (st : SegmentsState.t) (t : Tag.t) :
  Spec.isPartialTag t = true ->
  directiveLine st t =
    inr (SegmentsState.set_partialSegmentTags st
           (SegmentsState.partialSegmentTags st ++ [t])).
Proof.
  unfold Spec.isPartialTag, directiveLine.
  destruct t as [i n a v]. simpl.
  destruct (String.eqb_spec n "EXT-X-PART") as [->|N]; simpl.
  - intros _. change (has MEDIA_PLAYLIST_TAGS "EXT-X-PART") with false.
    cbv beta iota. destruct st; reflexivity.
  - destruct (String.eqb_spec n "EXT-X-PRELOAD-HINT") as [->|]; simpl;
      [|discriminate].
    intros M. change (has MEDIA_PLAYLIST_TAGS "EXT-X-PRELOAD-HINT") with false.
    cbv beta iota. rewrite M. destruct st; reflexivity.
Qed.


Lemma storeSegment_segments (st : SegmentsState.t) (s : Segment.t) :
  SegmentsState.segments (storeSegment st s)
    = (SegmentsState.segments st ++ [s])%list.
Proof. unfold storeSegment. now destruct (_ <? _)%nat. Qed.

Lemma uriLine_emits (st : SegmentsState.t) (line : string) :
  SegmentsState.segments (uriLine st line)
    = (SegmentsState.segments st ++ [emitted st line])%list /\
  SegmentsState.currentMapTag (uriLine st line)
    = SegmentsState.currentMapTag st /\
  SegmentsState.computed (uriLine st line) = createDefaultComputed_ /\
  SegmentsState.segmentTags (uriLine st line) = [] /\
  SegmentsState.partialSegmentTags (uriLine st line) = [].
Proof.
  unfold uriLine. simpl. fold (emitted st line).
  rewrite storeSegment_segments. tauto.
Qed.



(** *** Invariants of the aggregator's state *)

Lemma updateComputedForTags_app (a b : list Tag.t) (c : SegmentComputed.t) :
  updateComputedForTags c (a ++ b) =
    match updateComputedForTags c a with
    | inr c1 => updateComputedForTags c1 b
    | inl e => inl e
    end.
Proof.
  revert c. induction a as [|t a IH]; intros c; simpl; [reflexivity|].
  destruct (updateComputedForTag_ c t); [reflexivity|apply IH].
Qed.

Lemma updateComputedForTag_not_extinf (c c' : SegmentComputed.t) (t : Tag.t) :
  String.eqb (Tag.name t) "EXTINF" = false ->
  updateComputedForTag_ c t = inr c' ->
  SegmentComputed.extinf c' = SegmentComputed.extinf c.
Proof.
  intros N. unfold updateComputedForTag_. rewrite N. destruct c. simpl.
  repeat match goal with
         | |- context [if ?b then _ else _] => destruct b
         | |- context [match ?x with _ => _ end] => destruct x
         end;
    intros H; inversion H; subst; reflexivity.
Qed.

(** Two computed views that agree on the duration tag take the same tag
    alike: both updates return, and the results agree again. *)
Lemma updateComputedForTag_agree (c1 c2 c2' : SegmentComputed.t) (t : Tag.t) :
  SegmentComputed.extinf c1 = SegmentComputed.extinf c2 ->
  updateComputedForTag_ c2 t = inr c2' ->
  exists c1',
    updateComputedForTag_ c1 t = inr c1' /\
    SegmentComputed.extinf c1' = SegmentComputed.extinf c2'.
Proof.
  intros A U.
  destruct (String.eqb (Tag.name t) "EXTINF") eqn:N.
  - revert U. unfold updateComputedForTag_. rewrite N, A.
    destruct (SegmentComputed.extinf c2) eqn:X.
    + intros H; inversion H; subst. eexists. split; [reflexivity|].
      now rewrite A.
    + destruct (Tag.value t); [|discriminate].
      intros H; inversion H; subst. eexists. split; [reflexivity|].
      destruct c1, c2; reflexivity.
  - destruct (updateComputedForTag_returns c1 t) as [c1' U1].
    { intros E. rewrite E in N. discriminate. }
    exists c1'. split; [exact U1|].
    rewrite (updateComputedForTag_not_extinf _ _ _ N U1).
    now rewrite (updateComputedForTag_not_extinf _ _ _ N U).
Qed.

Lemma initialSegmentsState_wf (n : nat) (tags : list Tag.t)
  (index : PlaylistComputed.t) :
  wfState (initialSegmentsState n tags index).
Proof.
  split; [constructor|]. split; [discriminate|].
  exists createDefaultComputed_. split; reflexivity.
Qed.

Lemma uriLine_wf (st : SegmentsState.t) (line : string) :
  wfState st -> wfState (uriLine st line).
Proof.
  intros [_ [W2 _]]. split; [constructor|]. split; [exact W2|].
  exists createDefaultComputed_. split; reflexivity.
Qed.

Lemma directiveLine_wf (st st' : SegmentsState.t) (t : Tag.t) :
  wfState st -> directiveLine st t = inr st' -> wfState st'.
Proof.
  intros [W1 [W2 [c0 [W3 W4]]]]. unfold directiveLine.
  destruct (has MEDIA_PLAYLIST_TAGS (Tag.name t)).
  { intros H; inversion H; subst. split; [exact W1|]. split; [exact W2|].
    exists c0. split; assumption. }
  (* a tag that is kept out of the pending segment tags *)
  assert (K : forall (s1 : SegmentsState.t) (t1 : Tag.t),
    SegmentsState.segmentTags s1 = SegmentsState.segmentTags st ->
    SegmentsState.computed s1 = SegmentsState.computed st ->
    (forall m, SegmentsState.currentMapTag s1 = Some m ->
               Tag.name m = "EXT-X-MAP") ->
    String.eqb (Tag.name t1) "EXTINF" = false ->
    match updateComputedForTag_ (SegmentsState.computed s1) t1 with
    | inr computed => inr (SegmentsState.set_computed s1 computed)
    | inl e => inl e
    end = inr st' -> wfState st').
  { intros s1 t1 A B C N.
    destruct (updateComputedForTag_ _ t1) as [e|c] eqn:U; [discriminate|].
    intros H; inversion H; subst; simpl.
    split; [simpl; rewrite A; exact W1|]. split; [exact C|].
    exists c0. simpl. rewrite A. split; [exact W3|].
    rewrite (updateComputedForTag_not_extinf _ _ _ N U), B. exact W4. }
  destruct (String.eqb_spec (Tag.name t) "EXT-X-MAP") as [E|NM].
  { apply K; try reflexivity.
    - simpl. intros m H; inversion H; subst. exact E.
    - now rewrite E. }
  destruct (String.eqb_spec (Tag.name t) "EXT-X-PART") as [E|NP].
  { apply K; try reflexivity; [exact W2|now rewrite E]. }
  destruct (String.eqb_spec (Tag.name t) "EXT-X-PRELOAD-HINT") as [E|NH].
  { destruct (looseEq (Tag.getAttributeValue t "TYPE") "PART").
    - apply K; try reflexivity; [exact W2|now rewrite E].
    - destruct (looseEq (Tag.getAttributeValue t "TYPE") "MAP").
      + apply K; try reflexivity.
        simpl. intros m H; inversion H; subst. reflexivity.
      + apply K; try reflexivity; [exact W2|now rewrite E]. }
  (* a tag that joins the pending segment tags *)
  simpl SegmentsState.computed.
  destruct (updateComputedForTag_ (SegmentsState.computed st) t) as [e|c] eqn:U;
    [discriminate|].
  intros H; inversion H; subst. clear K. unfold wfState; simpl.
  split; [|split; [exact W2|]].
  - apply Forall_app. split; [exact W1|]. constructor; [|constructor].
    now apply String.eqb_neq.
  - destruct (updateComputedForTag_agree c0 _ _ t W4 U) as [c1 [U1 A1]].
    exists c1. rewrite updateComputedForTags_app, W3. simpl.
    rewrite U1. split; [reflexivity|exact A1].
Qed.

Lemma segmentsLoop_wf (lines : list string) (st st' : SegmentsState.t)
  (g g' : nat) :
  wfState st -> segmentsLoop lines st g = Returns st' g' -> wfState st'.
Proof.
  revert st g. induction lines as [|l ls IH]; intros st g W; simpl.
  - intros H; inversion H; subst; exact W.
  - destruct (JS.startsWith l "#EXT").
    + destruct (parseTag g l) as [e|t]; [discriminate|].
      destruct (directiveLine st t) as [e|st1] eqn:D; [discriminate|].
      apply IH. eapply directiveLine_wf; eauto.
    + destruct (Utils.isComment l); [now apply IH|].
      apply IH. now apply uriLine_wf.
Qed.

Lemma updateComputedForTags_no_map (tags : list Tag.t)
  (c c' : SegmentComputed.t) :
  Forall (fun t => String.eqb (Tag.name t) "EXT-X-MAP" = false) tags ->
  updateComputedForTags c tags = inr c' ->
  SegmentComputed.map c' = SegmentComputed.map c /\
  SegmentComputed.mapId c' = SegmentComputed.mapId c.
Proof.
  revert c. induction tags as [|t tags IH]; intros c F; simpl.
  - intros H; inversion H; subst; tauto.
  - inversion F as [|? ? N F']; subst.
    destruct (updateComputedForTag_ c t) as [e|c1] eqn:U; [discriminate|].
    intros H. destruct (IH c1 F' H) as [A B].
    destruct (updateComputedForTag_not_map _ _ _ N U) as [A1 B1].
    rewrite A, B, A1, B1. tauto.
Qed.

(** The computation from scratch of the trailing segment's view returns. *)
Lemma trailer_computed (st : SegmentsState.t) :
  wfState st ->
  exists c,
    updateComputedForTags createDefaultComputed_
      (withMapTag (SegmentsState.segmentTags st)
         (SegmentsState.currentMapTag st)) = inr c /\
    SegmentComputed.map c = SegmentsState.currentMapTag st /\
    SegmentComputed.mapId c
      = option_map Tag.id (SegmentsState.currentMapTag st).
Proof.
  intros [W1 [W2 [c0 [W3 _]]]]. unfold withMapTag.
  destruct (updateComputedForTags_no_map _ _ _ W1 W3) as [A B].
  destruct (SegmentsState.currentMapTag st) as [m|].
  - rewrite updateComputedForTags_app, W3. simpl.
    rewrite (updateComputedForTag_map c0 m (W2 m eq_refl)).
    eexists. split; [reflexivity|]. unfold withMap. rewrite A. simpl.
    destruct c0; split; reflexivity.
  - exists c0. split; [exact W3|]. now rewrite A, B.
Qed.

Lemma finishSegments_cases (st : SegmentsState.t) (r : SegmentsResult) :
  finishSegments st = inr r ->
  (SegmentsState.partialSegmentTags st = [] /\
   segments r = SegmentsState.segments st) \/
  (exists c,
     SegmentsState.partialSegmentTags st <> [] /\
     updateComputedForTags createDefaultComputed_
       (withMapTag (SegmentsState.segmentTags st)
          (SegmentsState.currentMapTag st)) = inr c /\
     segments r = (SegmentsState.segments st ++ [trailer st c])%list).
Proof.
  unfold finishSegments.
  destruct (SegmentsState.partialSegmentTags st) as [|x xs] eqn:P.
  - intros H; inversion H; subst. left. split; reflexivity.
  - destruct (updateComputedForTags _ _) as [e|c] eqn:U; [discriminate|].
    intros H; inversion H; subst. right. exists c.
    split; [discriminate|]. split; [reflexivity|]. simpl.
    rewrite storeSegment_segments. unfold trailer. now rewrite P.
Qed.

(** ** C6: the carried initialization segment *)


Lemma isPartialTag_id (t : Tag.t) (i : nat) :
  Spec.isPartialTag (Tag.mk i (Tag.name t) (Tag.attributes t) (Tag.value t))
    = Spec.isPartialTag t.
Proof. destruct t; reflexivity. Qed.




(** ** C7: partial segments at the end of the input *)

Lemma segmentsLoop_partials (trailing : list string) (st : SegmentsState.t)
  (g : nat) :
  Forall (fun l => Spec.isPartialLine l = true) trailing ->
  segmentsLoop trailing st g =
    Returns
      (SegmentsState.set_partialSegmentTags st
         (SegmentsState.partialSegmentTags st ++ Spec.tagsOf g trailing))
      (g + List.length trailing).
Proof.
  revert st g. induction trailing as [|l ls IH]; intros st g F.
  - simpl. rewrite app_nil_r, Nat.add_0_r. destruct st; reflexivity.
  - inversion F as [|? ? PL F']; subst.
    unfold Spec.isPartialLine, Spec.lineIs in PL.
    apply andb_prop in PL. destruct PL as [S PL].
    destruct (parseTag 0 l) as [e|t0] eqn:P0; [discriminate|].
    pose proof (parseTag_id 0 g l t0 P0) as P.
    rewrite <- (isPartialTag_id t0 g) in PL.
    simpl. rewrite S, P, (directiveLine_partial st _ PL), (IH _ _ F').
    f_equal; [|lia]. destruct st; simpl. now rewrite <- app_assoc.
Qed.

Lemma tagsOf_not_nil (trailing : list string) (g : nat) :
  trailing <> [] ->
  Forall (fun l => Spec.isPartialLine l = true) trailing ->
  Spec.tagsOf g trailing <> [].
Proof.
  destruct trailing as [|l ls]; [congruence|]. intros _ F.
  inversion F as [|? ? PL _]; subst.
  unfold Spec.isPartialLine, Spec.lineIs in PL.
  apply andb_prop in PL. destruct PL as [_ PL].
  destruct (parseTag 0 l) as [e|t0] eqn:P0; [discriminate|].
  simpl. rewrite (parseTag_id 0 g l t0 P0). discriminate.
Qed.

(** The aggregator on lines that end with partial-segment directives. *)
Lemma parseSegments_trailing_partials (mid trailing : list string)
  (tags : list Tag.t) (index : PlaylistComputed.t) (g g1 : nat)
  (st1 : SegmentsState.t) :
  segmentsLoop mid
    (initialSegmentsState (List.length (mid ++ trailing)) tags index) g
    = Returns st1 g1 ->
  trailing <> [] ->
  Forall (fun l => Spec.isPartialLine l = true) trailing ->
  exists r final,
    parseSegments_ (mid ++ trailing) tags index g
      = Returns r (g1 + List.length trailing) /\
    segments r = (SegmentsState.segments st1 ++ [final])%list /\
    Segment.verbatimSegmentUri final = "" /\
    Segment.partialSegments final
      = (SegmentsState.partialSegmentTags st1 ++ Spec.tagsOf g1 trailing)%list /\
    Segment.tags final
      = withMapTag (SegmentsState.segmentTags st1)
          (SegmentsState.currentMapTag st1) /\
    updateComputedForTags createDefaultComputed_ (Segment.tags final)
      = inr (Segment.computed final) /\
    SegmentsComputed.count (analysis r)
      = S (List.length (SegmentsState.segments st1)).
Proof.
  intros L NE F.
  pose proof (segmentsLoop_wf _ _ _ _ _ (initialSegmentsState_wf _ tags index) L)
    as W.
  unfold parseSegments_.
  rewrite segmentsLoop_app, L, (segmentsLoop_partials _ _ _ F).
  set (st2 := SegmentsState.set_partialSegmentTags st1 _).
  assert (W2 : wfState st2) by (destruct W as (A & B & C); now split).
  destruct (trailer_computed st2 W2) as (c & U & _).
  unfold finishSegments.
  destruct (SegmentsState.partialSegmentTags st2) as [|x xs] eqn:P.
  { exfalso. subst st2. simpl in P. apply app_eq_nil in P.
    now apply (tagsOf_not_nil trailing g1 NE F). }
  rewrite U. rewrite <- P. clear P.
  eexists. exists (trailer st2 c).
  split; [reflexivity|]. simpl.
  rewrite !storeSegment_segments.
  repeat split; try reflexivity.
  - exact U.
  - subst st2. simpl. rewrite length_app. simpl. lia.
Qed.

Lemma parsePlaylist_segment_mode (g : nat) (str : string) (st : ScanState)
  (g1 : nat) (lines : list string) :
  Spec.headerLine (Spec.firstLine str) ->
  Spec.reachesSegmentDirective g str st g1 lines ->
  Spec.detectedType (tags st) <> Some MASTER ->
  parsePlaylist g str =
    match parseSegments_ lines (tags st) (scanIndex st) (S g1) with
    | Returns r g' =>
        Returns
          (Playlist.new MEDIA (playlistTags r)
             (PlaylistComputedData.mk (tagIndex r) (analysis r))
             (Some (segments r))) g'
    | Throws e g' => Throws e g'
    end.
Proof.
  intros HL (pre & line & post & tag & E & L & P & K & C & T & SG) D.
  subst lines.
  rewrite (parsePlaylist_scanLines g str HL), L,
    (scanLines_scanPrefix _ _ _ _ _ _ P).
  pose proof (scanPrefix_typeInvariant _ _ _ _ _ _
                initialScanState_typeInvariant P) as I.
  rewrite (scanLines_segment_directive st g1 line post tag I K C T SG).
  destruct (Spec.detectedType (tags st)) as [[|]|]; congruence.
Qed.

(** C7 (counterexample).  [Docs.partsWithoutSegmentTag] ends with a
    partial-segment directive that no URI line follows; no segment-only
    directive precedes it, the scanning loop keeps the directive as a
    playlist tag and no segment is emitted. *)
Lemma trailing_part_without_segment_tag :
  Spec.isPartialLine (Docs.partLine "part1.mp4" false) = true /\
  exists p g,
    parsePlaylist 0 Docs.partsWithoutSegmentTag = Returns p g /\
    Playlist.segments p = Some [] /\
    List.length (Playlist.tags p) = 2.
Proof.
  split; [vm_compute; reflexivity|].
  destruct (parsePlaylist 0 Docs.partsWithoutSegmentTag) as [p g|e g] eqn:E;
    vm_compute in E; [|discriminate].
  inversion E; subst. do 2 eexists. repeat split.
Qed.

(** C7 (amended).  Let [parsePlaylist] have encountered a segment-only
    directive while the detected type is not MASTER, so that the segment
    aggregator runs on the lines from that directive on, and let these
    lines end with one or more partial-segment directives (EXT-X-PART, or
    EXT-X-PRELOAD-HINT with TYPE=PART) that no URI line follows.  Then the
    call returns, and its segments are those emitted before the trailing
    directives and exactly one more: its URI is empty, its partial segments
    are the pending ones followed by the tags of the trailing directives,
    its tags are the pending segment tags followed by the current map tag,
    and its computed view is the one computed from scratch over these
    tags. *)
Theorem trailing_partial_segments (g g0 g1 : nat) (str : string)
  (st : ScanState) (mid trailing : list string) (st1 : SegmentsState.t) :
  Spec.headerLine (Spec.firstLine str) ->
  Spec.reachesSegmentDirective g str st g0 (mid ++ trailing) ->
  Spec.detectedType (tags st) <> Some MASTER ->
  segmentsLoop mid
    (initialSegmentsState (List.length (mid ++ trailing)) (tags st)
       (scanIndex st)) (S g0)
    = Returns st1 g1 ->
  trailing <> [] ->
  Forall (fun l => Spec.isPartialLine l = true) trailing ->
  exists p final,
    parsePlaylist g str = Returns p (g1 + List.length trailing) /\
    Playlist.segments p
      = Some (SegmentsState.segments st1 ++ [final])%list /\
    Segment.verbatimSegmentUri final = "" /\
    Segment.partialSegments final
      = (SegmentsState.partialSegmentTags st1 ++ Spec.tagsOf g1 trailing)%list /\
    Segment.tags final
      = withMapTag (SegmentsState.segmentTags st1)
          (SegmentsState.currentMapTag st1) /\
    updateComputedForTags createDefaultComputed_ (Segment.tags final)
      = inr (Segment.computed final) /\
    SegmentsComputed.count
      (PlaylistComputedData.segments (Playlist.computed p))
      = S (List.length (SegmentsState.segments st1)).
Proof.
  intros HL R D L NE F.
  destruct (parseSegments_trailing_partials _ _ _ _ _ _ _ L NE F)
    as (r & final & P & A1 & A2 & A3 & A4 & A5 & A6).
  rewrite (parsePlaylist_segment_mode g str st g0 _ HL R D), P.
  eexists. exists final. split; [reflexivity|]. simpl.
  rewrite A1. tauto.
Qed.

(** Two map directives in the run of one segment: the first one, explicit
    in the segment's own run, is the segment's computed map, while the
    second one is the current map tag, which the segment's tags hold and the
    next segment's computed map points at. *)
Example two_maps_in_one_run :
  option_map
    (List.map
       (fun s =>
          (List.map Tag.id (Segment.tags s),
           SegmentComputed.mapId (Segment.computed s))))
    (Playlist.segments
       (Docs.playlistOf
          (Docs.document
             [ "#EXTM3U"; Docs.mapLine; Docs.mapLine; "#EXTINF:5"; "uri";
               "#EXTINF:5"; "uri2" ])))
  = Some [ ([ 3; 2 ], Some 1); ([ 4; 2 ], Some 2) ].
Proof. vm_compute. reflexivity. Qed.

Lemma trailing_partial_segments_witness :
  exists p final,
    parsePlaylist 0 Docs.withTrailingPart
      = Returns p (7 + List.length Docs.trailingPart) /\
    Playlist.segments p
      = Some (SegmentsState.segments Samples.beforeTrailingPart
                ++ [final])%list /\
    Segment.verbatimSegmentUri final = "" /\
    Segment.partialSegments final
      = (SegmentsState.partialSegmentTags Samples.beforeTrailingPart
           ++ Spec.tagsOf 7 Docs.trailingPart)%list /\
    Segment.tags final
      = withMapTag (SegmentsState.segmentTags Samples.beforeTrailingPart)
          (SegmentsState.currentMapTag Samples.beforeTrailingPart) /\
    updateComputedForTags createDefaultComputed_ (Segment.tags final)
      = inr (Segment.computed final) /\
    SegmentsComputed.count
      (PlaylistComputedData.segments (Playlist.computed p))
      = S (List.length (SegmentsState.segments Samples.beforeTrailingPart)).
Proof.
  apply (trailing_partial_segments 0 1 7 Docs.withTrailingPart
           Samples.scanState Docs.beforeTrailingPart Docs.trailingPart
           Samples.beforeTrailingPart).
  - exists "", "". split; [reflexivity|]. split; left; reflexivity.
  - exists [ "#EXTM3U"; "#EXT-X-TARGETDURATION:6" ], Docs.mapLine,
      (List.tl Docs.beforeTrailingPart ++ Docs.trailingPart)%list,
      (Tag.mk 1 "EXT-X-MAP" [ Attribute.mk "URI" (Some "init.mp4") ] None).
    repeat split; vm_compute; reflexivity.
  - vm_compute. discriminate.
  - vm_compute. reflexivity.
  - discriminate.
  - repeat constructor.
Defined.


(** ** C5: the round trip through [parseTag] and [toString] *)





(** *** Line terminators and the separators of a directive

    A character below U+0080 that is neither CR nor LF is no part of a line
    terminator: a text put together with such characters in between holds
    a line terminator exactly when a part does. *)
Lemma plain_tests (c : ascii) :
  plain c = true ->
  Ascii.eqb c JS.LF = false /\ Ascii.eqb c JS.CR = false /\
  Ascii.eqb "226" c = false /\ Ascii.eqb "128" c = false /\
  Ascii.eqb "168" c = false /\ Ascii.eqb "169" c = false.
Proof.
  intros P. repeat split;
    match goal with
    | |- Ascii.eqb ?a ?b = false =>
        destruct (Ascii.eqb_spec a b) as [E|]; [|reflexivity];
        first [rewrite E in P|rewrite <- E in P];
        vm_compute in P; discriminate P
    end.
Qed.

Lemma lineTerminator_plain (c : ascii) (b : string) :
  plain c = true -> JS.lineTerminator (String c b) = None.
Proof.
  intros P. destruct (plain_tests c P) as (A1 & A2 & A3 & _).
  cbn [JS.lineTerminator JS.LS JS.PS JS.stripPrefix].
  now rewrite A1, A2, A3.
Qed.

Lemma lineTerminator_before_plain (x c : ascii) (a b : string) :
  plain c = true ->
  match JS.lineTerminator (String x (a ++ String c b)) with
  | Some _ => true
  | None => false
  end
  = match JS.lineTerminator (String x a) with
    | Some _ => true
    | None => false
    end.
Proof.
  intros P. destruct (plain_tests c P) as (_ & _ & _ & A4 & A5 & A6).
  cbn [JS.lineTerminator JS.LS JS.PS JS.stripPrefix].
  destruct (Ascii.eqb x JS.LF || Ascii.eqb x JS.CR); [reflexivity|].
  destruct (Ascii.eqb "226" x); [|reflexivity].
  destruct a as [|y [|z a]]; cbn [append].
  - now rewrite A4.
  - destruct (Ascii.eqb "128" y); [|reflexivity]. now rewrite A5, A6.
  - destruct (Ascii.eqb "128" y); [|reflexivity].
    destruct (Ascii.eqb "168" z); [reflexivity|].
    now destruct (Ascii.eqb "169" z).
Qed.

Lemma dotStarToEnd_plain (c : ascii) (a b : string) :
  plain c = true ->
  dotStarToEnd (a ++ String c b) = dotStarToEnd a && dotStarToEnd b.
Proof.
  intros P. induction a as [|x a IH].
  - cbn [append dotStarToEnd]. now rewrite (lineTerminator_plain c b P).
  - cbn [append dotStarToEnd].
    pose proof (lineTerminator_before_plain x c a b P) as L.
    destruct (JS.lineTerminator (String x (a ++ String c b)));
      destruct (JS.lineTerminator (String x a)); try discriminate L.
    + reflexivity.
    + exact IH.
Qed.

Lemma dotStarToEnd_cons (c : ascii) (s : string) :
  dotStarToEnd (String c s) = true ->
  JS.lineTerminator (String c s) = None /\ dotStarToEnd s = true.
Proof.
  cbn [dotStarToEnd].
  destruct (JS.lineTerminator (String c s)); [discriminate|tauto].
Qed.

Lemma dotStarToEnd_quoted (v : string) :
  dotStarToEnd v = true -> dotStarToEnd (JS.quoted v) = true.
Proof.
  intros V. unfold JS.quoted, JS.dquote. cbn [append].
  cbn [dotStarToEnd]. rewrite (lineTerminator_plain JS.DQUOTE _ eq_refl).
  rewrite (dotStarToEnd_plain JS.DQUOTE v "" eq_refl), V. reflexivity.
Qed.

(** [span] stops where the text it may take ends. *)
Lemma span_app (stop : ascii -> bool) (a b : string) :
  Spec.noneOf stop a = true ->
  match b with String c _ => stop c = true | EmptyString => True end ->
  TextParser.span stop (a ++ b) = (a, b).
Proof.
  unfold Spec.noneOf. intros A B. induction a as [|x a IH]; simpl.
  - destruct b as [|c b]; simpl; [reflexivity|]. now rewrite B.
  - simpl in A. apply andb_prop in A. destruct A as [A1 A2].
    apply negb_true_iff in A1. rewrite A1, (IH A2). reflexivity.
Qed.

Lemma span_all (stop : ascii -> bool) (a : string) :
  Spec.noneOf stop a = true -> TextParser.span stop a = (a, "").
Proof.
  intros A. rewrite <- (append_nil_r a) at 1. now apply span_app.
Qed.

Lemma noneOf_weaken (p q : ascii -> bool) (s : string) :
  (forall c, q c = true -> p c = true) ->
  Spec.noneOf p s = true -> Spec.noneOf q s = true.
Proof.
  unfold Spec.noneOf. intros I. induction s as [|c s IH]; simpl; [auto|].
  intros H. apply andb_prop in H. destruct H as [H1 H2].
  rewrite (IH H2), andb_true_r. apply negb_true_iff.
  apply negb_true_iff in H1. destruct (q c) eqn:Q; [|reflexivity].
  rewrite (I c Q) in H1. discriminate.
Qed.

(** *** The tag pattern *)

Lemma tagBlocks_name (n : string) :
  Spec.validName n = true -> tagBlocks ("#" ++ n) = Some (n, None).
Proof.
  unfold Spec.validName. intros V. apply andb_prop in V.
  destruct V as [P C]. apply prefix_app in P. destruct P as [r ->].
  unfold tagBlocks. simpl in *. now rewrite (span_all isColon r C).
Qed.

Lemma tagBlocks_data (n data : string) :
  Spec.validName n = true -> dotStarToEnd data = true ->
  tagBlocks ("#" ++ n ++ ":" ++ data) = Some (n, Some data).
Proof.
  unfold Spec.validName. intros V D. apply andb_prop in V.
  destruct V as [P C]. apply prefix_app in P. destruct P as [r ->].
  unfold tagBlocks. simpl in *.
  rewrite (span_app isColon r (String ":" data) C eq_refl).
  now rewrite D.
Qed.

(** *** The value pattern *)

Lemma valueRegex_value (v tail rest : string) :
  Spec.validValue v = true ->
  (tail = "" /\ rest = "") \/ tail = "," ++ rest ->
  valueRegex (v ++ tail) = Some (v, rest).
Proof.
  unfold Spec.validValue. intros V T.
  apply andb_prop in V. destruct V as [V _].
  apply andb_prop in V. destruct V as [NE V].
  unfold valueRegex. rewrite (span_app commaOrEquals v tail V).
  - destruct v as [|c v]; [discriminate|].
    destruct T as [[-> ->]| ->]; reflexivity.
  - destruct T as [[-> ->]| ->]; [exact I|reflexivity].
Qed.

Lemma valueRegex_attribute (n rest : string) :
  Spec.validAttrName n = true -> valueRegex (n ++ "=" ++ rest) = None.
Proof.
  unfold Spec.validAttrName. intros V.
  apply andb_prop in V. destruct V as [V _].
  apply andb_prop in V. destruct V as [V _].
  apply andb_prop in V. destruct V as [NE V].
  unfold valueRegex.
  rewrite (span_app commaOrEquals n ("=" ++ rest) V eq_refl).
  destruct n as [|c n]; [discriminate|]. reflexivity.
Qed.

(** *** The attribute pattern *)

Lemma quotedValue_quoted (v tail rest : string) :
  Spec.noneOf isQuote v = true ->
  (tail = "" /\ rest = "") \/ tail = "," ++ rest ->
  quotedValue (JS.quoted v ++ tail) = Some (v, rest).
Proof.
  intros V T. unfold JS.quoted, JS.dquote. simpl.
  rewrite append_assoc.
  rewrite (span_app isQuote v (String JS.DQUOTE "" ++ tail) V eq_refl).
  simpl. destruct T as [[-> ->]| ->]; reflexivity.
Qed.

Lemma quotedValue_bare (v tail rest : string) :
  Spec.noneOf quoteOrComma v = true ->
  (tail = "" /\ rest = "") \/ tail = "," ++ rest ->
  quotedValue (v ++ tail) = None.
Proof.
  intros V T. destruct v as [|c v].
  - destruct T as [[-> ->]| ->]; reflexivity.
  - simpl. unfold Spec.noneOf in V. simpl in V.
    apply andb_prop in V. destruct V as [V _].
    apply negb_true_iff in V. unfold quoteOrComma in V.
    apply orb_false_elim in V. destruct V as [V _].
    unfold isQuote. now rewrite V.
Qed.

Lemma unquotedValue_bare (v tail rest : string) :
  Spec.noneOf quoteOrComma v = true ->
  (tail = "" /\ rest = "") \/ tail = "," ++ rest ->
  unquotedValue (v ++ tail) = Some (v, rest).
Proof.
  intros V T. unfold unquotedValue.
  rewrite (span_app quoteOrComma v tail V).
  - destruct T as [[-> ->]| ->]; reflexivity.
  - destruct T as [[-> ->]| ->]; [exact I|reflexivity].
Qed.

Lemma attributeRegex_render (a : string * Spec.AttrValue)
  (tail rest : string) :
  Spec.validAttr a = true ->
  (tail = "" /\ rest = "") \/ tail = "," ++ rest ->
  exists g2 g3,
    attributeRegex (Spec.renderAttr a ++ tail) = Some (fst a, g2, g3, rest) /\
    orElse g2 g3 = Some (Spec.textOf (snd a)).
Proof.
  destruct a as [n av]. unfold Spec.validAttr. simpl. intros V T.
  apply andb_prop in V. destruct V as [VN VV].
  assert (NE : n <> "").
  { unfold Spec.validAttrName in VN. destruct n; [discriminate|congruence]. }
  assert (E : Spec.noneOf isEquals n = true).
  { unfold Spec.validAttrName in VN.
    apply andb_prop in VN. destruct VN as [VN _].
    apply andb_prop in VN. destruct VN as [VN _].
    apply andb_prop in VN. destruct VN as [_ VN].
    revert VN. apply noneOf_weaken. intros c H. unfold commaOrEquals.
    unfold isEquals in H. rewrite H. apply orb_true_r. }
  unfold attributeRegex.
  destruct av as [v|v]; simpl in VV; simpl Spec.textOf.
  - apply andb_prop in VV. destruct VV as [VV _].
    apply andb_prop in VV. destruct VV as [VV _].
    change (Spec.renderAttr (n, Spec.Bare v)) with (n ++ "=" ++ v).
    rewrite !append_assoc.
    cbn [append].
    rewrite (span_app isEquals n (String "=" (v ++ tail)) E eq_refl).
    destruct n as [|c n]; [congruence|].
    rewrite (quotedValue_bare v tail rest VV T).
    rewrite (unquotedValue_bare v tail rest VV T).
    exists None, (Some v). split; reflexivity.
  - apply andb_prop in VV. destruct VV as [VV NaN].
    apply andb_prop in VV. destruct VV as [VV _].
    change (Spec.renderAttr (n, Spec.Quoted v))
      with (n ++ "=" ++ JS.quoted v).
    rewrite !append_assoc.
    cbn [append].
    rewrite (span_app isEquals n (String "=" (JS.quoted v ++ tail)) E eq_refl).
    destruct n as [|c n]; [congruence|].
    rewrite (quotedValue_quoted v tail rest VV T).
    exists (Some v), None. split; [reflexivity|].
    unfold orElse, JS.truthyStr.
    destruct (String.eqb_spec v "") as [->|]; [|reflexivity].
    vm_compute in NaN. discriminate.
Qed.

(** *** The attribute loop never runs out of fuel *)

Import TextParser.

Lemma span_length (stop : ascii -> bool) (s a b : string) :
  TextParser.span stop s = (a, b) ->
  String.length s = String.length a + String.length b.
Proof.
  revert a b. induction s as [|c s IH]; intros a b; simpl.
  - intros H; inversion H; subst; reflexivity.
  - destruct (stop c).
    + intros H; inversion H; subst; reflexivity.
    + destruct (TextParser.span stop s) as [a' b'].
      intros H; inversion H; subst. simpl. now rewrite (IH a' b eq_refl).
Qed.

Lemma commaOrEnd_length (s r : string) :
  commaOrEnd s = Some r -> String.length r <= String.length s.
Proof.
  destruct s as [|c s]; simpl.
  - intros H; inversion H; subst; auto.
  - destruct (Ascii.eqb c ","); [|discriminate].
    intros H; inversion H; subst; auto.
Qed.

Lemma quotedValue_length (s v r : string) :
  quotedValue s = Some (v, r) -> String.length r <= String.length s.
Proof.
  destruct s as [|c s]; simpl; [discriminate|].
  destruct (isQuote c); [|discriminate].
  destruct (TextParser.span isQuote s) as [a b] eqn:S.
  destruct b as [|q b]; [discriminate|].
  destruct (commaOrEnd b) as [r'|] eqn:C; [|discriminate].
  intros H; inversion H; subst.
  apply span_length in S. apply commaOrEnd_length in C. simpl in S. lia.
Qed.

Lemma unquotedValue_length (s v r : string) :
  unquotedValue s = Some (v, r) -> String.length r <= String.length s.
Proof.
  unfold unquotedValue.
  destruct (TextParser.span quoteOrComma s) as [a b] eqn:S.
  destruct (commaOrEnd b) as [r'|] eqn:C; [|discriminate].
  intros H; inversion H; subst.
  apply span_length in S. apply commaOrEnd_length in C. lia.
Qed.

Lemma attributeRegex_length (s k r : string) (g2 g3 : option string) :
  attributeRegex s = Some (k, g2, g3, r) ->
  String.length r < String.length s.
Proof.
  unfold attributeRegex.
  destruct (TextParser.span isEquals s) as [a b] eqn:S.
  destruct a as [|c a]; [discriminate|].
  destruct b as [|e b]; [discriminate|].
  apply span_length in S. simpl in S.
  destruct (quotedValue b) as [[v r']|] eqn:Q.
  - intros H; inversion H; subst. apply quotedValue_length in Q. lia.
  - destruct (unquotedValue b) as [[v r']|] eqn:U; [|discriminate].
    intros H; inversion H; subst. apply unquotedValue_length in U. lia.
Qed.

Lemma skipWhitespace_length (s : string) :
  String.length (skipWhitespace s) <= String.length s.
Proof.
  induction s as [|c s IH]; simpl; [auto|].
  destruct (isBlank c); simpl; lia.
Qed.

(** Fuel at the length of the text is as good as any larger fuel. *)
Lemma readAttributes_fuel (n m : nat) (s : string) :
  String.length s <= n -> String.length s <= m ->
  readAttributes n s = readAttributes m s.
Proof.
  revert m s. induction n as [|n IH]; intros m s Hn Hm.
  - destruct s; [|simpl in Hn; lia]. destruct m; reflexivity.
  - destruct m as [|m].
    + destruct s; [reflexivity|simpl in Hm; lia].
    + simpl. destruct (attributeRegex s) as [[[[k g2] g3] r]|] eqn:A;
        [|reflexivity].
      apply attributeRegex_length in A.
      pose proof (skipWhitespace_length r).
      f_equal. apply IH; lia.
Qed.

(** *** Parsing a canonical line *)

Lemma renderAttrs_cons (a : string * Spec.AttrValue)
  (attrs : list (string * Spec.AttrValue)) :
  exists tail,
    renderAttrs (a :: attrs) = Spec.renderAttr a ++ tail /\
    ((tail = "" /\ renderAttrs attrs = "")
     \/ tail = "," ++ renderAttrs attrs).
Proof.
  destruct attrs as [|b attrs].
  - exists "". split; [|left; split; reflexivity].
    unfold renderAttrs. simpl. now rewrite append_nil_r.
  - exists ("," ++ renderAttrs (b :: attrs)). split; [reflexivity|].
    now right.
Qed.

Lemma validAttr_head (a : string * Spec.AttrValue) (rest : string) :
  Spec.validAttr a = true ->
  exists c s, Spec.renderAttr a ++ rest = String c s /\ isBlank c = false.
Proof.
  destruct a as [n av]. unfold Spec.validAttr, Spec.validAttrName. simpl.
  intros V. apply andb_prop in V. destruct V as [V _].
  apply andb_prop in V. destruct V as [V B].
  apply andb_prop in V. destruct V as [V _].
  apply andb_prop in V. destruct V as [NE _].
  destruct n as [|c n]; [discriminate|]. simpl in B.
  apply negb_true_iff in B.
  destruct av; simpl; eexists; eexists; split; try reflexivity; exact B.
Qed.

Lemma skipWhitespace_renderAttrs (attrs : list (string * Spec.AttrValue)) :
  List.forallb Spec.validAttr attrs = true ->
  skipWhitespace (renderAttrs attrs) = renderAttrs attrs.
Proof.
  destruct attrs as [|a attrs]; [reflexivity|]. simpl. intros V.
  apply andb_prop in V. destruct V as [V _].
  destruct (renderAttrs_cons a attrs) as [tail [E _]]. rewrite E.
  destruct (validAttr_head a tail V) as (c & s & -> & B).
  simpl. now rewrite B.
Qed.

Lemma readAttributes_render (attrs : list (string * Spec.AttrValue))
  (fuel : nat) :
  List.forallb Spec.validAttr attrs = true ->
  String.length (renderAttrs attrs) <= fuel ->
  readAttributes fuel (renderAttrs attrs)
    = List.map Spec.attributeOf attrs.
Proof.
  revert fuel. induction attrs as [|a attrs IH]; intros fuel V L.
  - destruct fuel; reflexivity.
  - simpl in V. apply andb_prop in V. destruct V as [Va Vs].
    destruct (renderAttrs_cons a attrs) as [tail [E T]].
    rewrite E in *.
    assert (T' : (tail = "" /\ renderAttrs attrs = "")
                 \/ tail = "," ++ renderAttrs attrs).
    { destruct T as [[T1 T2]|T]; [left; split; assumption|now right]. }
    destruct (attributeRegex_render a tail (renderAttrs attrs) Va T')
      as (g2 & g3 & A & O).
    pose proof (attributeRegex_length _ _ _ _ _ A) as LT.
    destruct fuel as [|fuel]; [lia|].
    simpl. rewrite A, O, (skipWhitespace_renderAttrs attrs Vs).
    rewrite IH; [|exact Vs|lia]. destruct a; reflexivity.
Qed.

Lemma noneOf_renderAttr (a : string * Spec.AttrValue) :
  Spec.validAttr a = true ->
  dotStarToEnd (Spec.renderAttr a) = true.
Proof.
  destruct a as [n av]. unfold Spec.validAttr, Spec.validAttrName. simpl.
  intros V. apply andb_prop in V. destruct V as [V VV].
  apply andb_prop in V. destruct V as [V _].
  apply andb_prop in V. destruct V as [_ N].
  assert (X : dotStarToEnd (Spec.textOf av) = true).
  { destruct av; simpl in *;
      apply andb_prop in VV; destruct VV as [VV _];
      apply andb_prop in VV; destruct VV as [_ VV]; exact VV. }
  destruct av as [v|v]; simpl in X; cbn [append];
    rewrite (dotStarToEnd_plain "=" n _ eq_refl), N; simpl.
  - exact X.
  - apply (dotStarToEnd_quoted v X).
Qed.

Lemma noneOf_renderAttrs (attrs : list (string * Spec.AttrValue)) :
  List.forallb Spec.validAttr attrs = true ->
  dotStarToEnd (renderAttrs attrs) = true.
Proof.
  induction attrs as [|a attrs IH]; [reflexivity|]. simpl. intros V.
  apply andb_prop in V. destruct V as [Va Vs].
  destruct (renderAttrs_cons a attrs) as [tail [E T]]. rewrite E.
  destruct T as [[-> _]| ->].
  - rewrite append_nil_r. apply (noneOf_renderAttr a Va).
  - cbn [append]. rewrite (dotStarToEnd_plain "," _ _ eq_refl).
    now rewrite (noneOf_renderAttr a Va), (IH Vs).
Qed.

Lemma render_cases (n : string) (v : option string)
  (attrs : list (string * Spec.AttrValue)) :
  Spec.render (Spec.mkDirective n v attrs) =
    match v, attrs with
    | None, [] => "#" ++ n
    | None, _ :: _ => "#" ++ n ++ ":" ++ renderAttrs attrs
    | Some x, [] => "#" ++ n ++ ":" ++ x
    | Some x, _ :: _ => "#" ++ n ++ ":" ++ x ++ "," ++ renderAttrs attrs
    end.
Proof. destruct v, attrs; reflexivity. Qed.

(** [parseTag] reads a canonical line back into its directive. *)
Lemma parseTag_render (id : nat) (d : Spec.Directive) :
  Spec.canonical d = true ->
  parseTag id (Spec.render d) = inr (Spec.tagOf id d).
Proof.
  destruct d as [n v attrs]. unfold Spec.canonical, Spec.tagOf.
  cbn [Spec.dName Spec.dValue Spec.dAttrs].
  intros V. apply andb_prop in V. destruct V as [V VA].
  apply andb_prop in V. destruct V as [VN VV].
  rewrite render_cases. unfold parseTag.
  destruct v as [v|]; [|destruct attrs as [|a attrs]].
  - (* a value, with or without attributes *)
    assert (NT : dotStarToEnd v = true).
    { unfold Spec.validValue in VV. apply andb_prop in VV. tauto. }
    assert (NE : JS.truthyStr (Some v) = true).
    { unfold Spec.validValue in VV. apply andb_prop in VV.
      destruct VV as [VV _]. apply andb_prop in VV. tauto. }
    destruct attrs as [|a attrs].
    + rewrite (tagBlocks_data n v VN NT), NE.
      rewrite <- (append_nil_r v) at 1.
      rewrite (valueRegex_value v "" "" VV); [reflexivity|now left].
    + rewrite tagBlocks_data; [|exact VN|].
      * assert (TR : JS.truthyStr
                       (Some (v ++ "," ++ renderAttrs (a :: attrs))) = true).
        { destruct v; [discriminate|reflexivity]. }
        rewrite TR.
        rewrite (valueRegex_value v _ (renderAttrs (a :: attrs)) VV);
          [|now right].
        now rewrite (readAttributes_render (a :: attrs) _ VA (le_n _)).
      * cbn [append]. rewrite (dotStarToEnd_plain "," v _ eq_refl), NT.
        apply (noneOf_renderAttrs (a :: attrs) VA).
  - now rewrite (tagBlocks_name n VN).
  - rewrite (tagBlocks_data n _ VN (noneOf_renderAttrs (a :: attrs) VA)).
    destruct (renderAttrs_cons a attrs) as [tail [E _]].
    pose proof VA as VA'. simpl in VA'. apply andb_prop in VA'.
    destruct VA' as [Va _].
    assert (TR : JS.truthyStr (Some (renderAttrs (a :: attrs))) = true).
    { rewrite E. destruct (validAttr_head a tail Va) as (c & s & -> & _).
      reflexivity. }
    rewrite TR.
    assert (NV : valueRegex (renderAttrs (a :: attrs)) = None).
    { rewrite E. destruct a as [an av].
      unfold Spec.validAttr in Va. apply andb_prop in Va.
      destruct Va as [Van _].
      destruct av; simpl; rewrite !append_assoc;
        apply (valueRegex_attribute an _ Van). }
    rewrite NV.
    now rewrite (readAttributes_render (a :: attrs) _ VA (le_n _)).
Qed.

(** *** Printing a canonical directive *)

Lemma filter_all (A : Type) (l : list A) : List.filter (fun _ => true) l = l.
Proof. induction l as [|x l IH]; simpl; [reflexivity|now rewrite IH]. Qed.

Lemma attrToStr_attributeOf (a : string * Spec.AttrValue) :
  Spec.validAttr a = true ->
  Tag.attrToStr (Spec.attributeOf a) = Spec.renderAttr a.
Proof.
  destruct a as [n av]. unfold Spec.validAttr. simpl. intros V.
  apply andb_prop in V. destruct V as [_ V].
  unfold Tag.attrToStr. simpl.
  destruct av as [v|v]; simpl in *; apply andb_prop in V;
    destruct V as [_ V].
  - apply negb_true_iff in V. now rewrite V.
  - now rewrite V.
Qed.

Lemma map_attrToStr (attrs : list (string * Spec.AttrValue)) :
  List.forallb Spec.validAttr attrs = true ->
  List.map Tag.attrToStr (List.map Spec.attributeOf attrs)
    = List.map Spec.renderAttr attrs.
Proof.
  induction attrs as [|a attrs IH]; [reflexivity|]. simpl. intros V.
  apply andb_prop in V. destruct V as [Va Vs].
  now rewrite (attrToStr_attributeOf a Va), (IH Vs).
Qed.

(** [toString] prints the tag of a canonical directive as its line. *)
Lemma toString_tagOf (id : nat) (d : Spec.Directive) :
  Spec.canonical d = true ->
  Tag.toString (Spec.tagOf id d) None = Spec.render d.
Proof.
  destruct d as [n v attrs]. unfold Spec.canonical, Spec.tagOf.
  cbn [Spec.dName Spec.dValue Spec.dAttrs].
  intros V. apply andb_prop in V. destruct V as [V VA].
  apply andb_prop in V. destruct V as [_ VV].
  rewrite render_cases. unfold Tag.toString.
  cbn [Tag.name Tag.value Tag.attributes].
  rewrite filter_all, (map_attrToStr attrs VA).
  destruct v as [v|].
  - assert (NE : JS.truthyStr (Some v) = true).
    { unfold Spec.validValue in VV. apply andb_prop in VV.
      destruct VV as [VV _]. apply andb_prop in VV. tauto. }
    rewrite NE. destruct attrs; reflexivity.
  - destruct attrs; reflexivity.
Qed.

Lemma quoted_differs (n v : string) : n ++ "=" ++ JS.quoted v <> n ++ "=" ++ v.
Proof.
  intros H. apply (f_equal String.length) in H.
  unfold JS.quoted, JS.dquote in H.
  rewrite ?length_append in H. simpl in H. rewrite ?length_append in H.
  simpl in H. lia.
Qed.

(** C5 (counterexample).  The duration line [#EXTINF:5,], the form with
    an empty title that the repository's own test playlists use, is parsed
    into a tag that prints as [#EXTINF:5]: the trailing comma is lost.  And
    the attribute value Infinity is printed bare although it is not a finite
    number. *)
Lemma round_trip_drops_trailing_comma :
  (exists tag,
     parseTag 0 "#EXTINF:5," = inr tag /\
     Tag.toString tag None = "#EXTINF:5" /\
     Tag.toString tag None <> "#EXTINF:5,") /\
  (Tag.attrToStr (Attribute.mk "X" (Some "Infinity")) = "X=Infinity" /\
   JS.isFinite (JS.Number "Infinity") = false).
Proof.
  split.
  - eexists. split; [vm_compute; reflexivity|].
    split; [reflexivity|]. vm_compute. discriminate.
  - split; reflexivity.
Qed.

(** C5 (amended).  For every canonical directive line, that is a line of
    one of the four shapes [#NAME], [#NAME:VALUE], [#NAME:ATTRIBUTES] and
    [#NAME:VALUE,ATTRIBUTES] with attributes separated by single commas, a
    name that starts with EXT and holds no colon, and attribute values bare
    when [Number] reads them as a number and double-quoted otherwise,
    [parseTag] returns a tag and [toString()] of that tag is the line,
    character for character.  An attribute value is printed bare if and
    only if [Number] of it is not NaN. *)
Theorem canonical_round_trip (id : nat) (d : Spec.Directive) :
  Spec.canonical d = true ->
  (exists tag,
     parseTag id (Spec.render d) = inr tag /\
     tag = Spec.tagOf id d /\
     Tag.toString tag None = Spec.render d) /\
  (forall attr v,
     Attribute.value attr = Some v ->
     (Tag.attrToStr attr = Attribute.name attr ++ "=" ++ v
      <-> JS.isNaN (JS.Number v) = false)).
Proof.
  intros V. split.
  - exists (Spec.tagOf id d). split; [now apply parseTag_render|].
    split; [reflexivity|now apply toString_tagOf].
  - intros [n x] v. simpl. intros ->. unfold Tag.attrToStr. simpl.
    destruct (JS.isNaN (JS.Number v)); simpl.
    + split; [|discriminate]. intros H. now apply quoted_differs in H.
    + split; reflexivity.
Qed.

Lemma canonical_round_trip_witness :
  exists tag,
    parseTag 0 Docs.mediaLine = inr tag /\
    Tag.toString tag None = Docs.mediaLine.
Proof.
  destruct (canonical_round_trip 0 Samples.mediaDirective)
    as [(tag & P & _ & T) _].
  - vm_compute. reflexivity.
  - exists tag. split; [exact P|exact T].
Defined.

(** ** The methods of shaka.hls.Tag *)

Lemma getAttribute_app (tag : Tag.t) (more : list Attribute.t) (n : string) :
  Tag.getAttribute
    (Tag.mk (Tag.id tag) (Tag.name tag) (Tag.attributes tag ++ more)
       (Tag.value tag)) n
  = match Tag.getAttribute tag n with
    | Some x => Some x
    | None =>
        List.find (fun attr => String.eqb (Attribute.name attr) n) more
    end.
Proof.
  unfold Tag.getAttribute. simpl.
  induction (Tag.attributes tag) as [|a l IH]; simpl.
  - induction more as [|b m IHm]; simpl; [reflexivity|].
    destruct (String.eqb (Attribute.name b) n); [reflexivity|exact IHm].
  - destruct (String.eqb (Attribute.name a) n); [reflexivity|exact IH].
Qed.

(** X1.  [addAttribute] appends and [getAttribute] takes the first match:
    after [tag.addAttribute(a)] a lookup by name still finds the earlier
    attribute of that name when there is one, finds [a] when no earlier
    attribute has that name and [a] has it, and finds nothing otherwise.
    So does [getAttributeValue], with and without a default. *)
Theorem getAttribute_addAttribute (tag : Tag.t) (a : Attribute.t)
  (n : string) :
  Tag.getAttribute (Tag.addAttribute tag a) n
    = match Tag.getAttribute tag n with
      | Some x => Some x
      | None => if String.eqb (Attribute.name a) n then Some a else None
      end /\
  Tag.getAttributeValue (Tag.addAttribute tag a) n
    = match Tag.getAttribute tag n with
      | Some x => Attribute.value x
      | None =>
          if String.eqb (Attribute.name a) n then Attribute.value a else None
      end /\
  (forall d,
     Tag.getAttributeValueOr (Tag.addAttribute tag a) n d
       = match Tag.getAttribute tag n with
         | Some x => Attribute.value x
         | None =>
             if String.eqb (Attribute.name a) n then Attribute.value a
             else if String.eqb d "" then None else Some d
         end).
Proof.
  assert (G : Tag.getAttribute (Tag.addAttribute tag a) n
              = match Tag.getAttribute tag n with
                | Some x => Some x
                | None =>
                    if String.eqb (Attribute.name a) n then Some a else None
                end).
  { unfold Tag.addAttribute. rewrite getAttribute_app. reflexivity. }
  split; [exact G|]. split.
  - unfold Tag.getAttributeValue. rewrite G.
    destruct (Tag.getAttribute tag n); [reflexivity|].
    destruct (String.eqb (Attribute.name a) n); reflexivity.
  - intros d. unfold Tag.getAttributeValueOr. rewrite G.
    destruct (Tag.getAttribute tag n); [reflexivity|].
    destruct (String.eqb (Attribute.name a) n); [reflexivity|].
    simpl. destruct (String.eqb d ""); reflexivity.
Qed.

Lemma getAttribute_None (tag : Tag.t) (n : string) :
  Tag.getAttribute tag n = None <->
  Forall (fun attr => Attribute.name attr <> n) (Tag.attributes tag).
Proof.
  unfold Tag.getAttribute.
  induction (Tag.attributes tag) as [|a l IH]; simpl.
  - split; [constructor|reflexivity].
  - destruct (String.eqb_spec (Attribute.name a) n) as [E|N].
    + split; [discriminate|]. intros F. inversion F; subst. congruence.
    + rewrite IH. split.
      * intros F. constructor; assumption.
      * intros F. now inversion F.
Qed.

(** X2.  [getRequiredAttrValue(name)] throws exactly when the tag has no
    attribute of that name, and the error carries the name; when it
    returns, it returns what [getAttributeValue(name)] returns, which may be
    [undefined]; and it never throws for the name of an attribute that was
    added. *)
Theorem getRequiredAttrValue_throws_iff (tag : Tag.t) (n : string) :
  ((exists e, Tag.getRequiredAttrValue tag n = inl e)
   <-> Forall (fun attr => Attribute.name attr <> n) (Tag.attributes tag)) /\
  (forall e, Tag.getRequiredAttrValue tag n = inl e ->
             e = Tag.HLS_REQUIRED_ATTRIBUTE_MISSING n) /\
  (forall v, Tag.getRequiredAttrValue tag n = inr v ->
             Tag.getAttributeValue tag n = v) /\
  (forall v,
     exists r,
       Tag.getRequiredAttrValue (Tag.addAttribute tag (Attribute.mk n v)) n
         = inr r).
Proof.
  split; [|split; [|split]].
  - rewrite <- getAttribute_None. unfold Tag.getRequiredAttrValue.
    destruct (Tag.getAttribute tag n).
    + split; [intros [e H]; discriminate|discriminate].
    + split; [reflexivity|]. intros _. eexists. reflexivity.
  - intros e. unfold Tag.getRequiredAttrValue.
    destruct (Tag.getAttribute tag n); [discriminate|].
    intros H; inversion H; reflexivity.
  - intros v. unfold Tag.getRequiredAttrValue, Tag.getAttributeValue.
    destruct (Tag.getAttribute tag n); [|discriminate].
    intros H; inversion H; reflexivity.
  - intros v. unfold Tag.getRequiredAttrValue, Tag.addAttribute.
    rewrite getAttribute_app. simpl. rewrite String.eqb_refl.
    destruct (Tag.getAttribute tag n); eexists; reflexivity.
Qed.

Lemma toString_withoutAttributes (tag : Tag.t) (skip : list string) :
  Tag.toString tag (Some skip)
    = Tag.toString (withoutAttributes skip tag) None.
Proof.
  unfold Tag.toString, withoutAttributes. simpl.
  rewrite (filter_all _ (List.filter _ _)). reflexivity.
Qed.

(** X3.  The key [getTagKey(false)] gives is the text of the tag without
    its AUDIO, VIDEO, SUBTITLES, PATHWAY-ID, GROUP-ID and URI attributes:
    it does not change when an attribute of one of these names is added,
    whatever its value.  Neither this key nor the one [getTagKey(true)]
    gives depends on the tag's id. *)
Theorem getTagKey_ignores_skipped_attributes (tag : Tag.t) :
  Tag.getTagKey tag false
    = Tag.toString (withoutAttributes keySkipped tag) None /\
  Forall
    (fun n =>
       forall v,
         Tag.getTagKey (Tag.addAttribute tag (Attribute.mk n v)) false
           = Tag.getTagKey tag false)
    keySkipped /\
  (forall keepAllAttributes i,
     Tag.getTagKey
       (Tag.mk i (Tag.name tag) (Tag.attributes tag) (Tag.value tag))
       keepAllAttributes
     = Tag.getTagKey tag keepAllAttributes).
Proof.
  split; [|split].
  - apply toString_withoutAttributes.
  - assert (K : forall n v,
      existsb (String.eqb n) keySkipped = true ->
      Tag.getTagKey (Tag.addAttribute tag (Attribute.mk n v)) false
        = Tag.getTagKey tag false).
    { intros n v E. unfold Tag.getTagKey, Tag.toString, Tag.addAttribute.
      cbn [Tag.attributes Tag.name Tag.value]. rewrite List.filter_app.
      cbn [List.filter Attribute.name]. fold keySkipped. rewrite E.
      cbn [negb]. now rewrite app_nil_r. }
    repeat constructor; intros v; apply K; reflexivity.
  - intros k i. destruct tag; reflexivity.
Qed.

(** ** parseTag: which words it takes, and what it makes of them *)


Lemma startsWith_stripPrefix (p s : string) :
  JS.startsWith s p = true -> exists r, JS.stripPrefix p s = Some r.
Proof.
  intros H. destruct (JS.stripPrefix p s) as [r|] eqn:S; [now exists r|].
  apply stripPrefix_startsWith in S. congruence.
Qed.

Lemma span_colon_directive (rest : string) :
  TextParser.span isColon ("#EXT" ++ rest)
    = ("#EXT" ++ fst (TextParser.span isColon rest),
       snd (TextParser.span isColon rest)).
Proof. simpl. now destruct (TextParser.span isColon rest). Qed.

(** What [tagBlocks] gives, in terms of the first colon of the word. *)
Lemma tagBlocks_Some (word n : string) (d : option string) :
  tagBlocks word = Some (n, d) ->
  JS.startsWith word "#EXT" = true /\
  fst (TextParser.span isColon word) = "#" ++ n /\
  d = afterFirstColon word /\
  JS.startsWith n "EXT" = true /\
  (forall data, d = Some data -> dotStarToEnd data = true).
Proof.
  unfold tagBlocks, afterFirstColon.
  destruct (JS.stripPrefix "#EXT" word) as [rest|] eqn:S; [|discriminate].
  assert (P : JS.startsWith word "#EXT" = true).
  { destruct (JS.startsWith word "#EXT") eqn:E; [reflexivity|].
    apply stripPrefix_startsWith in E. congruence. }
  apply stripPrefix_Some in S. subst word.
  rewrite span_colon_directive.
  destruct (TextParser.span isColon rest) as [a b]. simpl fst. simpl snd.
  destruct b as [|c data].
  - intros H; inversion H; subst.
    split; [exact P|]. split; [reflexivity|]. split; [reflexivity|].
    split; [simpl; now destruct a|]. intros data E; discriminate E.
  - destruct (dotStarToEnd data) eqn:D; [|discriminate].
    intros H; inversion H; subst.
    split; [exact P|]. split; [reflexivity|]. split; [reflexivity|].
    split; [simpl; now destruct a|]. intros data' E.
    inversion E; subst. exact D.
Qed.

Lemma tagBlocks_None (word : string) :
  tagBlocks word = None <->
  (JS.startsWith word "#EXT" = false \/
   exists data, afterFirstColon word = Some data /\ dotStarToEnd data = false).
Proof.
  unfold tagBlocks, afterFirstColon.
  destruct (JS.stripPrefix "#EXT" word) as [rest|] eqn:S.
  - assert (P : JS.startsWith word "#EXT" = true).
    { destruct (JS.startsWith word "#EXT") eqn:E; [reflexivity|].
      apply stripPrefix_startsWith in E. congruence. }
    apply stripPrefix_Some in S. subst word.
    rewrite span_colon_directive.
    destruct (TextParser.span isColon rest) as [a b]. simpl fst. simpl snd.
    destruct b as [|c data].
    + split; [discriminate|]. intros [H|[data [H _]]]; congruence.
    + destruct (dotStarToEnd data) eqn:D.
      * split; [discriminate|].
        intros [H|[data' [H H']]]; [congruence|].
        inversion H; subst. congruence.
      * split; [|reflexivity]. intros _. right. now exists data.
  - apply stripPrefix_startsWith in S. split; [now left|reflexivity].
Qed.

Lemma parseTag_None (id : nat) (word : string) :
  (exists e, parseTag id word = inl e) <-> tagBlocks word = None.
Proof.
  unfold parseTag. destruct (tagBlocks word) as [[n [d|]]|].
  - destruct (JS.truthyStr (Some d)); [destruct (valueRegex d) as [[v r]|]|];
      (split; [intros [e H]; discriminate|discriminate]).
  - split; [intros [e H]; discriminate|discriminate].
  - split; [reflexivity|]. intros _. eexists. reflexivity.
Qed.

(** A suffix of a text without line terminators has none either. *)
Lemma dotStarToEnd_span_snd (stop : ascii -> bool) (s : string) :
  dotStarToEnd s = true -> dotStarToEnd (snd (TextParser.span stop s)) = true.
Proof.
  induction s as [|c s IH]; [reflexivity|]. intros H.
  cbn [TextParser.span]. destruct (stop c); [exact H|].
  apply dotStarToEnd_cons in H. destruct H as [_ H2].
  specialize (IH H2). now destruct (TextParser.span stop s).
Qed.

Lemma afterFirstColon_dotStarToEnd (word data : string) :
  dotStarToEnd word = true -> afterFirstColon word = Some data ->
  dotStarToEnd data = true.
Proof.
  unfold afterFirstColon. intros D.
  pose proof (dotStarToEnd_span_snd isColon word D) as X.
  destruct (TextParser.span isColon word) as [a b]. simpl in X.
  destruct b as [|c b]; [discriminate|].
  intros H; inversion H; subst. apply dotStarToEnd_cons in X. tauto.
Qed.

(** On a word without line terminators that starts with the directive
    marker, [parseTag] returns. *)
Lemma parseTag_directive (id : nat) (word : string) :
  dotStarToEnd word = true -> JS.startsWith word "#EXT" = true ->
  exists t, parseTag id word = inr t.
Proof.
  intros D S. destruct (parseTag id word) as [e|t] eqn:P; [|now exists t].
  assert (X : exists e, parseTag id word = inl e) by now exists e.
  apply parseTag_None, tagBlocks_None in X.
  destruct X as [X|[data [A B]]]; [congruence|].
  rewrite (afterFirstColon_dotStarToEnd word data D A) in B. discriminate.
Qed.

(** X4.  [parseTag] throws nothing but INVALID_HLS_TAG, with the word it
    was given.  It throws exactly when the word does not start with [#EXT]
    or the text after its first colon holds a line terminator; on a word
    without line terminators (the lines of a playlist hold no CR and no
    LF, and seldom a U+2028 or U+2029) it throws exactly when the word
    does not start with [#EXT]. *)
Theorem parseTag_throws_iff (id : nat) (word : string) :
  (forall e, parseTag id word = inl e -> e = INVALID_HLS_TAG word) /\
  ((exists e, parseTag id word = inl e) <->
   (JS.startsWith word "#EXT" = false \/
    exists data,
      afterFirstColon word = Some data /\ dotStarToEnd data = false)) /\
  (dotStarToEnd word = true ->
   ((exists t, parseTag id word = inr t)
    <-> JS.startsWith word "#EXT" = true)).
Proof.
  split; [apply parseTag_error|]. split.
  - rewrite parseTag_None. apply tagBlocks_None.
  - intros D. split.
    + intros [t P]. destruct (JS.startsWith word "#EXT") eqn:S;
        [reflexivity|].
      rewrite (parseTag_not_directive id word S) in P. discriminate.
    + now apply parseTag_directive.
Qed.

(** The value pattern takes the first comma-separated item, when that item
    is not empty and holds no equals sign. *)
Lemma span_commaOrEquals (data : string) :
  match snd (TextParser.span commaOrEquals data) with
  | String c _ =>
      if Ascii.eqb c ","
      then JS.beforeComma data = fst (TextParser.span commaOrEquals data) /\
           Spec.noneOf isEquals (JS.beforeComma data) = true
      else Spec.noneOf isEquals (JS.beforeComma data) = false
  | EmptyString =>
      JS.beforeComma data = fst (TextParser.span commaOrEquals data) /\
      Spec.noneOf isEquals (JS.beforeComma data) = true
  end.
Proof.
  induction data as [|c s IH].
  - split; reflexivity.
  - cbn [TextParser.span JS.beforeComma].
    destruct (Ascii.eqb_spec c ",") as [->|NC].
    + split; reflexivity.
    + destruct (Ascii.eqb_spec c "=") as [->|NE].
      * reflexivity.
      * assert (CE : commaOrEquals c = false).
        { unfold commaOrEquals.
          destruct (Ascii.eqb_spec c ","); [contradiction|].
          destruct (Ascii.eqb_spec c "="); [contradiction|reflexivity]. }
        rewrite CE.
        assert (X : Spec.noneOf isEquals (String c (JS.beforeComma s))
                    = Spec.noneOf isEquals (JS.beforeComma s)).
        { unfold Spec.noneOf, isEquals. simpl.
          destruct (Ascii.eqb_spec c "="); [contradiction|reflexivity]. }
        rewrite X.
        destruct (TextParser.span commaOrEquals s) as [a b].
        cbn [fst snd] in *. destruct b as [|c' b'].
        -- destruct IH as [-> I2]. split; [reflexivity|exact I2].
        -- destruct (Ascii.eqb c' ","); [|exact IH].
           destruct IH as [-> I2]. split; [reflexivity|exact I2].
Qed.

Lemma valueRegex_valueItem (data : string) :
  option_map fst (valueRegex data) = valueItem data.
Proof.
  unfold valueRegex, valueItem.
  pose proof (span_commaOrEquals data) as X.
  destruct (TextParser.span commaOrEquals data) as [a b]. simpl in X.
  destruct b as [|c b].
  - destruct X as [X1 X2]. rewrite X2, X1.
    destruct a; reflexivity.
  - destruct (Ascii.eqb c ",") eqn:C.
    + destruct X as [X1 X2]. rewrite X2, X1.
      destruct a; simpl; [reflexivity|]. now rewrite C.
    + rewrite X, andb_false_r. destruct a; simpl; [reflexivity|].
      now rewrite C.
Qed.

Lemma quotedValue_noneOf (s v r : string) :
  quotedValue s = Some (v, r) -> Spec.noneOf isQuote v = true.
Proof.
  destruct s as [|c s]; simpl; [discriminate|].
  destruct (isQuote c); [|discriminate].
  pose proof (span_fst_no_stop isQuote s) as X.
  destruct (TextParser.span isQuote s) as [a b].
  destruct b as [|q b]; [discriminate|].
  destruct (commaOrEnd b); [|discriminate].
  intros H; inversion H; subst. exact X.
Qed.

Lemma unquotedValue_noneOf (s v r : string) :
  unquotedValue s = Some (v, r) -> Spec.noneOf quoteOrComma v = true.
Proof.
  unfold unquotedValue.
  pose proof (span_fst_no_stop quoteOrComma s) as X.
  destruct (TextParser.span quoteOrComma s) as [a b].
  destruct (commaOrEnd b); [|discriminate].
  intros H; inversion H; subst. exact X.
Qed.

Lemma attributeRegex_parsed (s k r : string) (g2 g3 : option string) :
  attributeRegex s = Some (k, g2, g3, r) ->
  parsedAttribute (Attribute.mk k (orElse g2 g3)).
Proof.
  unfold attributeRegex, parsedAttribute. simpl.
  pose proof (span_fst_no_stop isEquals s) as X.
  destruct (TextParser.span isEquals s) as [a b]. simpl in X.
  destruct a as [|c a]; [discriminate|].
  destruct b as [|e b]; [discriminate|].
  destruct (quotedValue b) as [[v r']|] eqn:Q.
  - intros H; inversion H; subst. split; [discriminate|].
    split; [exact X|]. intros w. unfold orElse.
    destruct (JS.truthyStr (Some v)); [|discriminate].
    intros W; inversion W; subst. eapply quotedValue_noneOf; eauto.
  - destruct (unquotedValue b) as [[v r']|] eqn:U; [|discriminate].
    intros H; inversion H; subst. split; [discriminate|].
    split; [exact X|]. intros w. unfold orElse. simpl.
    intros W; inversion W; subst.
    apply unquotedValue_noneOf in U. revert U. apply noneOf_weaken.
    intros c0 C. unfold quoteOrComma. unfold isQuote in C. now rewrite C.
Qed.

Lemma readAttributes_parsed (fuel : nat) (s : string) :
  Forall parsedAttribute (readAttributes fuel s).
Proof.
  revert s. induction fuel as [|fuel IH]; intros s; simpl; [constructor|].
  destruct (attributeRegex s) as [[[[k g2] g3] r]|] eqn:A; [|constructor].
  constructor; [|apply IH]. eapply attributeRegex_parsed; eauto.
Qed.

(** X5.  What [parseTag] makes of a word it takes.  The tag has the id it
    was given; its name is the text between the hash and the first colon;
    its value is the first comma-separated item after that colon when that
    item is not empty and holds no equals sign, and [null] otherwise;
    without a colon there are no attributes; and every attribute has a name
    that is not empty and holds no equals sign and a value that holds no
    double quote. *)
Theorem parseTag_shape (id : nat) (word : string) (t : Tag.t) :
  parseTag id word = inr t ->
  Tag.id t = id /\
  "#" ++ Tag.name t = fst (TextParser.span isColon word) /\
  JS.startsWith (Tag.name t) "EXT" = true /\
  Tag.value t
    = match afterFirstColon word with
      | Some data => valueItem data
      | None => None
      end /\
  (afterFirstColon word = None -> Tag.attributes t = []) /\
  Forall parsedAttribute (Tag.attributes t).
Proof.
  unfold parseTag. destruct (tagBlocks word) as [[n d]|] eqn:B;
    [|discriminate].
  destruct (tagBlocks_Some _ _ _ B) as (_ & N & D & E & _).
  rewrite <- D, N. destruct d as [d|].
  - destruct (JS.truthyStr (Some d)) eqn:T.
    + pose proof (valueRegex_valueItem d) as V.
      destruct (valueRegex d) as [[v r]|]; intros H; inversion H; subst;
        simpl; (split; [reflexivity|]); (split; [reflexivity|]);
        (split; [exact E|]); (split; [exact V|]);
        (split; [discriminate|]); apply readAttributes_parsed.
    + intros H; inversion H; subst. simpl.
      assert (d = "") as ->.
      { simpl in T. apply negb_false_iff in T. now apply String.eqb_eq. }
      split; [reflexivity|]. split; [reflexivity|]. split; [exact E|].
      split; [reflexivity|]. split; [discriminate|constructor].
  - intros H; inversion H; subst. simpl.
    split; [reflexivity|]. split; [reflexivity|]. split; [exact E|].
    split; [reflexivity|]. split; [reflexivity|constructor].
Qed.

Lemma parseTag_shape_witness :
  valueItem "5.99467,pid=180" = Some "5.99467" /\
  Forall parsedAttribute [ Attribute.mk "pid" (Some "180") ].
Proof.
  destruct (parseTag_shape 2 "#EXTINF:5.99467,pid=180"
              (Tag.mk 2 "EXTINF" [ Attribute.mk "pid" (Some "180") ]
                 (Some "5.99467")))
    as (_ & _ & _ & V & _ & A).
  - reflexivity.
  - split; [symmetry; exact V|exact A].
Defined.

(** ** Printing a tag and parsing it again *)

Lemma validAttr_writtenAs (a : Attribute.t) :
  printableAttribute a = true ->
  Spec.validAttr (writtenAs a) = true /\ Spec.attributeOf (writtenAs a) = a.
Proof.
  destruct a as [n v]. unfold printableAttribute, Spec.validAttr, writtenAs.
  simpl. intros P. apply andb_prop in P. destruct P as [-> P].
  destruct v as [v|]; [|discriminate].
  apply andb_prop in P. destruct P as [P C].
  apply andb_prop in P. destruct P as [Q L].
  unfold Spec.attributeOf. simpl.
  destruct (JS.isNaN (JS.Number v)) eqn:N; simpl.
  - rewrite Q, L, N. split; reflexivity.
  - simpl in C. rewrite C, L, N. split; reflexivity.
Qed.

Lemma canonical_directiveOf (t : Tag.t) :
  printable t = true ->
  Spec.canonical (directiveOf t) = true /\
  Spec.tagOf (Tag.id t) (directiveOf t) = t.
Proof.
  destruct t as [i n attrs v]. unfold printable, Spec.canonical, directiveOf,
    Spec.tagOf. simpl. intros P.
  apply andb_prop in P. destruct P as [P A]. rewrite P. simpl.
  assert (X : List.forallb Spec.validAttr (List.map writtenAs attrs) = true
              /\ List.map Spec.attributeOf (List.map writtenAs attrs) = attrs).
  { induction attrs as [|a attrs IH]; [split; reflexivity|].
    simpl in A. apply andb_prop in A. destruct A as [A1 A2].
    destruct (validAttr_writtenAs a A1) as [V E].
    destruct (IH A2) as [V' E']. simpl. rewrite V, V', E, E'.
    split; reflexivity. }
  destruct X as [-> ->]. split; reflexivity.
Qed.

(** X6.  For a tag as the canonical lines give them (a name that starts
    with EXT and holds no colon; no value, or one that is not empty and
    holds no comma, equals sign or line terminator; attributes with a name
    as in a canonical line and a value without double quote and line
    terminator and, when it reads as a number, without comma), parsing the
    text [toString()] prints gives the tag back, with the id handed to
    [parseTag]. *)
Theorem parseTag_toString (t : Tag.t) (id : nat) :
  printable t = true ->
  parseTag id (Tag.toString t None)
    = inr (Tag.mk id (Tag.name t) (Tag.attributes t) (Tag.value t)).
Proof.
  intros P. destruct (canonical_directiveOf t P) as [C E].
  pose proof (toString_tagOf (Tag.id t) _ C) as T. rewrite E in T.
  rewrite T, (parseTag_render id _ C). unfold Spec.tagOf.
  pose proof (f_equal Tag.attributes E) as EA. simpl in EA.
  unfold directiveOf. simpl. now rewrite EA.
Qed.

Lemma parseTag_toString_witness :
  parseTag 7
    (Tag.toString
       (Tag.mk 0 "EXT-X-MEDIA"
          [ Attribute.mk "CODECS" (Some "avc1.64002a,mp4a.40.2");
            Attribute.mk "CHANNELS" (Some "2") ] None) None)
  = inr (Tag.mk 7 "EXT-X-MEDIA"
           [ Attribute.mk "CODECS" (Some "avc1.64002a,mp4a.40.2");
             Attribute.mk "CHANNELS" (Some "2") ] None).
Proof.
  apply (parseTag_toString
           (Tag.mk 0 "EXT-X-MEDIA"
              [ Attribute.mk "CODECS" (Some "avc1.64002a,mp4a.40.2");
                Attribute.mk "CHANNELS" (Some "2") ] None) 7).
  vm_compute. reflexivity.
Defined.

(** ** The lines [parsePlaylist] works on *)
















(** ** Line ends *)

Lemma normalizeNewlines_id (s : string) :
  allChars notCR s = true -> JS.normalizeNewlines s = s.
Proof.
  induction s as [|c s IH]; simpl; [reflexivity|].
  intros H. apply andb_prop in H. destruct H as [H1 H2].
  unfold notCR in H1. apply negb_true_iff in H1. rewrite H1.
  now rewrite (IH H2).
Qed.

Lemma normalizeNewlines_toCRLF (s : string) :
  allChars notCR s = true -> JS.normalizeNewlines (toCRLF s) = s.
Proof.
  induction s as [|c s IH]; simpl; [reflexivity|].
  intros H. apply andb_prop in H. destruct H as [H1 H2].
  unfold notCR in H1. apply negb_true_iff in H1.
  destruct (Ascii.eqb_spec c JS.LF) as [->|NL].
  - simpl. now rewrite (IH H2).
  - simpl. rewrite H1. now rewrite (IH H2).
Qed.

Lemma toCR_head (s : string) :
  match toCR s with
  | String c _ => Ascii.eqb c JS.LF = false
  | EmptyString => True
  end.
Proof.
  destruct s as [|c s]; simpl; [exact I|].
  destruct (Ascii.eqb c JS.LF) eqn:E; [reflexivity|exact E].
Qed.

Lemma normalizeNewlines_toCR (s : string) :
  allChars notCR s = true -> JS.normalizeNewlines (toCR s) = s.
Proof.
  induction s as [|c s IH]; simpl; [reflexivity|].
  intros H. apply andb_prop in H. destruct H as [H1 H2].
  unfold notCR in H1. apply negb_true_iff in H1.
  specialize (IH H2).
  destruct (Ascii.eqb_spec c JS.LF) as [->|NL].
  - cbn [JS.normalizeNewlines]. rewrite Ascii.eqb_refl.
    pose proof (toCR_head s) as T.
    destruct (toCR s) as [|c' s'] eqn:E.
    + simpl in IH. now rewrite <- IH.
    + rewrite T. now rewrite IH.
  - simpl. rewrite H1. now rewrite IH.
Qed.

(** X8.  Line ends do not matter: a document written with CR LF line ends,
    or with lone CR line ends, is parsed exactly as the same document
    written with LF line ends, with the same result, error and counter. *)
Theorem line_ends_do_not_matter (g : nat) (str : string) :
  allChars notCR str = true ->
  parsePlaylist g (toCRLF str) = parsePlaylist g str /\
  parsePlaylist g (toCR str) = parsePlaylist g str.
Proof.
  intros C. unfold parsePlaylist, linesOf.
  now rewrite (normalizeNewlines_toCRLF str C),
    (normalizeNewlines_toCR str C), (normalizeNewlines_id str C).
Qed.

Lemma line_ends_do_not_matter_witness :
  parsePlaylist 0 (toCRLF Docs.mixedGaps) = parsePlaylist 0 Docs.mixedGaps /\
  parsePlaylist 0 (toCR Docs.mixedGaps) = parsePlaylist 0 Docs.mixedGaps.
Proof.
  apply (line_ends_do_not_matter 0 Docs.mixedGaps).
  vm_compute. reflexivity.
Defined.

(** ** Documents given by their lines *)

Lemma document_cons (l m : string) (ls : list string) :
  Docs.document (l :: m :: ls)
    = l ++ String JS.LF (Docs.document (m :: ls)).
Proof. reflexivity. Qed.

Lemma allChars_document (p : ascii -> bool) (ls : list string) :
  p JS.LF = true -> Forall (fun l => allChars p l = true) ls ->
  allChars p (Docs.document ls) = true.
Proof.
  intros L. induction ls as [|l ls IH]; intros F; [reflexivity|].
  inversion F as [|? ? Hl F']; subst.
  destruct ls as [|m ls]; [exact Hl|].
  rewrite document_cons, allChars_app, Hl. simpl. rewrite L. now apply IH.
Qed.

(** A line feed is no part of a white space character of two or three
    bytes. *)
Lemma isWhiteSpace2_LF (a : ascii) : JS.isWhiteSpace2 a JS.LF = false.
Proof. unfold JS.isWhiteSpace2. apply andb_false_r. Qed.

Lemma isWhiteSpace3_LF (a b : ascii) : JS.isWhiteSpace3 a b JS.LF = false.
Proof.
  unfold JS.isWhiteSpace3. change (nat_of_ascii JS.LF) with 10.
  generalize (nat_of_ascii a) (nat_of_ascii b). intros x y. cbn.
  now rewrite !andb_false_r.
Qed.

Lemma isWhiteSpace3_LF_inside (a c : ascii) :
  JS.isWhiteSpace3 a JS.LF c = false.
Proof.
  unfold JS.isWhiteSpace3. change (nat_of_ascii JS.LF) with 10.
  generalize (nat_of_ascii a) (nat_of_ascii c). intros x z. cbn.
  now rewrite !andb_false_r.
Qed.

Lemma trimStart_id (s : string) :
  JS.whiteSpace s = None -> JS.trimStart s = s.
Proof. intros W. now rewrite trimStart_eq, W. Qed.

Lemma endsWhiteSpace_app (a b : string) :
  endsWhiteSpace b = true -> endsWhiteSpace (a ++ b) = true.
Proof.
  intros B. induction a as [|c a IH]; [exact B|].
  cbn [append endsWhiteSpace]. rewrite IH.
  now destruct (JS.whiteSpace _) as [[|]|].
Qed.

(** A text of white space only, when it is not empty, ends with white
    space. *)
Lemma blank_endsWhiteSpace (s : string) :
  JS.blank s = true -> s <> "" -> endsWhiteSpace s = true.
Proof.
  induction s as [s IH] using string_length_ind. unfold JS.blank.
  rewrite trimStart_eq. destruct (JS.whiteSpace s) as [r|] eqn:W.
  - intros B _. destruct (whiteSpace_suffix s r W) as (w & E & L).
    destruct r as [|d r].
    + destruct s as [|c s]; [discriminate|].
      cbn [endsWhiteSpace]. now rewrite W.
    + rewrite E. apply endsWhiteSpace_app. apply (IH _ L); [exact B|].
      discriminate.
  - intros B N. destruct s; [contradiction|discriminate].
Qed.

Lemma trimEnd_id (s : string) :
  endsWhiteSpace s = false -> JS.trimEnd s = s.
Proof.
  induction s as [|c s IH]; [reflexivity|]. intros E.
  cbn [JS.trimEnd]. destruct (JS.blank (String c s)) eqn:B.
  - rewrite (blank_endsWhiteSpace _ B) in E; [discriminate|]. discriminate.
  - rewrite IH; [reflexivity|]. cbn [endsWhiteSpace] in E.
    now destruct (JS.whiteSpace (String c s)) as [[|]|].
Qed.

(** White space in front of a line feed ends before it. *)
Lemma whiteSpace_before_LF (a b : string) :
  b <> "" -> JS.whiteSpace (a ++ String JS.LF b) <> Some "".
Proof.
  intros N.
  destruct a as [|x [|y [|z a]]]; cbn [append JS.whiteSpace].
  - change (JS.isWhiteSpace1 JS.LF) with true. cbv iota. congruence.
  - destruct (JS.isWhiteSpace1 x); [discriminate|].
    rewrite isWhiteSpace2_LF. destruct b; [discriminate|].
    now rewrite isWhiteSpace3_LF_inside.
  - destruct (JS.isWhiteSpace1 x); [discriminate|].
    destruct (JS.isWhiteSpace2 x y); [discriminate|].
    now rewrite isWhiteSpace3_LF.
  - destruct (JS.isWhiteSpace1 x); [discriminate|].
    destruct (JS.isWhiteSpace2 x y); [discriminate|].
    destruct (JS.isWhiteSpace3 x y z); [|discriminate].
    destruct a; discriminate.
Qed.

Lemma endsWhiteSpace_app_LF (a b : string) :
  b <> "" -> endsWhiteSpace (a ++ String JS.LF b) = endsWhiteSpace b.
Proof.
  intros N. induction a as [|x a IH].
  - cbn [append endsWhiteSpace JS.whiteSpace].
    change (JS.isWhiteSpace1 JS.LF) with true. cbv iota.
    destruct b; [contradiction|reflexivity].
  - change (String x a ++ String JS.LF b)
      with (String x (a ++ String JS.LF b)).
    pose proof (whiteSpace_before_LF (String x a) b N) as W.
    change (String x a ++ String JS.LF b)
      with (String x (a ++ String JS.LF b)) in W.
    cbn [endsWhiteSpace]. rewrite IH.
    destruct (JS.whiteSpace (String x (a ++ String JS.LF b))) as [[|]|];
      [contradiction|reflexivity|reflexivity].
Qed.

Lemma whiteSpace_app_LF (l r : string) :
  JS.whiteSpace l = None -> l <> "" ->
  JS.whiteSpace (l ++ String JS.LF r) = None.
Proof.
  destruct l as [|x [|y [|z l]]]; cbn [append JS.whiteSpace];
    [contradiction| | |]; intros W _.
  - destruct (JS.isWhiteSpace1 x); [discriminate|].
    rewrite isWhiteSpace2_LF. destruct r; [reflexivity|].
    now rewrite isWhiteSpace3_LF_inside.
  - destruct (JS.isWhiteSpace1 x); [discriminate|].
    destruct (JS.isWhiteSpace2 x y); [discriminate|].
    now rewrite isWhiteSpace3_LF.
  - destruct (JS.isWhiteSpace1 x); [discriminate|].
    destruct (JS.isWhiteSpace2 x y); [discriminate|].
    now destruct (JS.isWhiteSpace3 x y z).
Qed.

Lemma document_not_empty (ls : list string) :
  List.last ls "" <> "" -> Docs.document ls <> "".
Proof.
  induction ls as [|l ls IH]; [contradiction|].
  destruct ls as [|m ls]; [exact (fun N => N)|].
  intros _. rewrite document_cons. destruct l; discriminate.
Qed.

Lemma endsWhiteSpace_document (ls : list string) :
  List.last ls "" <> "" ->
  endsWhiteSpace (Docs.document ls) = endsWhiteSpace (List.last ls "").
Proof.
  induction ls as [|l ls IH]; [reflexivity|].
  destruct ls as [|m ls]; [reflexivity|].
  intros N. rewrite document_cons.
  change (List.last (l :: m :: ls) "") with (List.last (m :: ls) "") in *.
  rewrite endsWhiteSpace_app_LF by (now apply document_not_empty).
  apply (IH N).
Qed.

Lemma splitLines_line (l : string) :
  allChars notLF l = true -> JS.splitLines l = [l].
Proof.
  induction l as [|c l IH]; simpl; [reflexivity|].
  intros H. apply andb_prop in H. destruct H as [H1 H2].
  unfold notLF in H1. apply negb_true_iff in H1.
  now rewrite H1, (IH H2).
Qed.

Lemma splitLines_LF (rest : string) :
  JS.splitLines (String JS.LF rest) = "" :: JS.splitLines (dropLF rest).
Proof.
  induction rest as [|c r IH]; [reflexivity|].
  cbn [dropLF]. destruct (Ascii.eqb_spec c JS.LF) as [->|N].
  - rewrite <- IH. reflexivity.
  - cbn [JS.splitLines]. rewrite Ascii.eqb_refl.
    now rewrite (proj2 (Ascii.eqb_neq _ _) N).
Qed.

Lemma splitLines_app_LF (l rest : string) :
  allChars notLF l = true ->
  JS.splitLines (l ++ String JS.LF rest) = l :: JS.splitLines (dropLF rest).
Proof.
  induction l as [|c l IH]; intros H.
  - apply splitLines_LF.
  - simpl in H. apply andb_prop in H. destruct H as [H1 H2].
    unfold notLF in H1. apply negb_true_iff in H1.
    cbn [append JS.splitLines]. now rewrite H1, (IH H2).
Qed.

Lemma dropLF_line (l rest : string) :
  allChars notLF l = true -> l <> "" -> dropLF (l ++ rest) = l ++ rest.
Proof.
  destruct l as [|c l]; [contradiction|]. simpl. intros H _.
  apply andb_prop in H. destruct H as [H1 _].
  unfold notLF in H1. apply negb_true_iff in H1. now rewrite H1.
Qed.

Lemma splitLines_document (ls : list string) :
  Forall (fun l => allChars notLF l = true) ls ->
  List.last ls "" <> "" ->
  JS.splitLines (dropLF (Docs.document ls))
    = List.filter (fun l => negb (String.eqb l "")) ls.
Proof.
  induction ls as [|l ls IH]; intros F N; [contradiction|].
  inversion F as [|? ? Hl F']; subst.
  destruct ls as [|m ls].
  - simpl in N. cbn [Docs.document String.concat List.filter].
    destruct (String.eqb_spec l ""); [contradiction|]. simpl.
    rewrite <- (append_nil_r l) at 1.
    rewrite (dropLF_line l "" Hl) by assumption.
    rewrite append_nil_r. now apply splitLines_line.
  - rewrite document_cons.
    change (List.last (l :: m :: ls) "") with (List.last (m :: ls) "") in N.
    specialize (IH F' N). cbn [List.filter].
    destruct (String.eqb_spec l "") as [->|NE].
    + simpl negb. cbv iota. cbn [append dropLF]. rewrite Ascii.eqb_refl.
      exact IH.
    + simpl negb. cbv iota. rewrite (dropLF_line l _ Hl NE).
      rewrite (splitLines_app_LF l _ Hl). now rewrite IH.
Qed.

(** X9.  A document written as lines joined by single line feeds, none of
    which holds a carriage return or a line feed, the first starting and
    the last ending with a character that is not white space, is split
    into exactly those lines, the empty ones left out, in order. *)
Theorem linesOf_document (ls : list string) :
  Forall (fun l => noNewline l = true) ls ->
  startsTrimmed (List.hd "" ls) -> endsTrimmed (List.last ls "") ->
  linesOf (Docs.document ls)
    = List.filter (fun l => negb (String.eqb l "")) ls.
Proof.
  intros F H L.
  assert (FC : Forall (fun l => allChars notCR l = true) ls).
  { rewrite Forall_forall in *. intros l I. specialize (F l I).
    unfold noNewline in F. apply andb_prop in F. apply F. }
  assert (FL : Forall (fun l => allChars notLF l = true) ls).
  { rewrite Forall_forall in *. intros l I. specialize (F l I).
    unfold noNewline in F. apply andb_prop in F. apply F. }
  assert (NL : List.last ls "" <> "").
  { intros E. unfold endsTrimmed in L. now rewrite E in L. }
  assert (NH : List.hd "" ls <> "").
  { intros E. unfold startsTrimmed in H. now rewrite E in H. }
  unfold linesOf.
  rewrite (normalizeNewlines_id _ (allChars_document notCR ls eq_refl FC)).
  assert (D : dropLF (Docs.document ls) = Docs.document ls).
  { destruct ls as [|l ls]; [reflexivity|]. simpl in NH.
    inversion FL as [|? ? Hl _]; subst.
    destruct ls as [|m ls].
    - simpl. rewrite <- (append_nil_r l).
      now apply dropLF_line.
    - rewrite document_cons. now apply dropLF_line. }
  assert (T : JS.trim (Docs.document ls) = Docs.document ls).
  { unfold JS.trim. rewrite trimStart_id.
    - apply trimEnd_id. rewrite (endsWhiteSpace_document ls NL).
      unfold endsTrimmed in L. now destruct (List.last ls "").
    - destruct ls as [|l ls]; [reflexivity|]. simpl in H, NH.
      assert (W : JS.whiteSpace l = None).
      { unfold startsTrimmed in H. now destruct l. }
      destruct ls as [|m ls]; [exact W|].
      rewrite document_cons. now apply whiteSpace_app_LF. }
  rewrite T, <- D. now apply splitLines_document.
Qed.

Lemma linesOf_document_witness :
  linesOf (Docs.document [ "#EXTM3U"; ""; "#EXTINF:5"; ""; ""; "uri" ])
    = [ "#EXTM3U"; "#EXTINF:5"; "uri" ].
Proof.
  apply (linesOf_document [ "#EXTM3U"; ""; "#EXTINF:5"; ""; ""; "uri" ]).
  - repeat constructor.
  - reflexivity.
  - reflexivity.
Defined.

(** ** The two loops, case by case *)

(** What a round of the scanning loop that goes on has done. *)
Lemma scanLine_Next (st st' : ScanState) (g g' : nat) (line : string)
  (rest : list string) :
  scanLine st g line rest = Next st' g' ->
  (Utils.isComment line || skip st = true /\
   g' = g /\
   st' = mkScanState (playlistType st) (typeDetected st) (tags st)
           (scanIndex st) false) \/
  (exists tag,
     Utils.isComment line || skip st = false /\
     parseTag g line = inr tag /\
     has SEGMENT_TAGS (Tag.name tag) = false /\
     g' = S g /\
     st' = mkScanState (fst (detectType st (Tag.name tag)))
             (snd (detectType st (Tag.name tag)))
             (tags st ++ [pushedTag tag (List.hd_error rest)])
             (updateTagIndexForTag_ (scanIndex st)
                (pushedTag tag (List.hd_error rest)))
             (String.eqb (Tag.name tag) "EXT-X-STREAM-INF")).
Proof.
  unfold scanLine.
  destruct (Utils.isComment line || skip st) eqn:CK.
  - intros H; inversion H; subst. left. tauto.
  - destruct (parseTag g line) as [e|t] eqn:P; [discriminate|].
    destruct (detectType st (Tag.name t)) as [ty det] eqn:DT.
    destruct (has SEGMENT_TAGS (Tag.name t)) eqn:SG.
    + destruct (negb (PlaylistType_eqb ty MEDIA)); [discriminate|].
      destruct (parseSegments_ _ _ _ _); discriminate.
    + intros H; inversion H; subst. right. exists t. rewrite DT.
      repeat split; try reflexivity; assumption.
Qed.

(** What a round of the scanning loop that returns has done. *)
Lemma scanLine_Returns (st : ScanState) (g g' : nat) (line : string)
  (rest : list string) (p : Playlist.t) :
  scanLine st g line rest = Done (Returns p g') ->
  exists tag r,
    Utils.isComment line || skip st = false /\
    parseTag g line = inr tag /\
    has SEGMENT_TAGS (Tag.name tag) = true /\
    fst (detectType st (Tag.name tag)) = MEDIA /\
    parseSegments_ (line :: rest) (tags st) (scanIndex st) (S g)
      = Returns r g' /\
    p = mediaPlaylist r.
Proof.
  unfold scanLine.
  destruct (Utils.isComment line || skip st) eqn:CK; [discriminate|].
  destruct (parseTag g line) as [e|t] eqn:P; [discriminate|].
  destruct (detectType st (Tag.name t)) as [ty det] eqn:DT.
  destruct (has SEGMENT_TAGS (Tag.name t)) eqn:SG; [|discriminate].
  destruct ty; simpl; [discriminate|].
  destruct (parseSegments_ _ _ _ _) as [r g1|e g1] eqn:PS; [|discriminate].
  intros H; inversion H; subst. exists t, r. rewrite DT.
  repeat split; try reflexivity; assumption.
Qed.

(** What a round of the scanning loop that throws has done. *)
Lemma scanLine_Throws (st : ScanState) (g g' : nat) (line : string)
  (rest : list string) (e : Error) :
  scanLine st g line rest = Done (Throws e g') ->
  Utils.isComment line || skip st = false /\
  ((parseTag g line = inl e /\ g' = S g) \/
   exists tag,
     parseTag g line = inr tag /\
     has SEGMENT_TAGS (Tag.name tag) = true /\
     ((e = HLS_INVALID_PLAYLIST_HIERARCHY /\ g' = S g) \/
      parseSegments_ (line :: rest) (tags st) (scanIndex st) (S g)
        = Throws e g')).
Proof.
  unfold scanLine.
  destruct (Utils.isComment line || skip st) eqn:CK; [discriminate|].
  intros H0. split; [reflexivity|]. revert H0.
  destruct (parseTag g line) as [e0|t] eqn:P.
  - intros H; inversion H; subst. left. split; reflexivity.
  - destruct (detectType st (Tag.name t)) as [ty det].
    destruct (has SEGMENT_TAGS (Tag.name t)) eqn:SG; [|discriminate].
    destruct (negb (PlaylistType_eqb ty MEDIA)).
    + intros H; inversion H; subst. right. exists t.
      split; [reflexivity|]. split; [exact SG|]. left. split; reflexivity.
    + destruct (parseSegments_ _ _ _ _) as [r g1|e1 g1] eqn:PS;
        [discriminate|].
      intros H; inversion H; subst. right. exists t.
      split; [reflexivity|]. split; [exact SG|]. now right.
Qed.

(** How a run of the scanning loop that returns has ended: out of lines,
    or in the segment aggregator. *)
Lemma scanLines_Returns (lines : list string) (st : ScanState) (g g' : nat)
  (p : Playlist.t) :
  scanLines lines st g = Returns p g' ->
  (exists st',
     Spec.scanPrefix lines [] st g = Some (st', g') /\
     p = scannedPlaylist st') \/
  (exists pre line post st1 g1,
     lines = (pre ++ line :: post)%list /\
     Spec.scanPrefix pre (line :: post) st g = Some (st1, g1) /\
     scanLine st1 g1 line post = Done (Returns p g')).
Proof.
  revert st g. induction lines as [|l ls IH]; intros st g.
  - simpl. intros H; inversion H; subst. left. exists st. split; reflexivity.
  - cbn [scanLines]. destruct (scanLine st g l ls) as [st1 g1|o] eqn:E.
    + intros H. destruct (IH st1 g1 H)
        as [(st' & P & Q)|(pre & line & post & st2 & g2 & L & P & D)].
      * left. exists st'. split; [|exact Q].
        simpl. now rewrite app_nil_r, E.
      * right. exists (l :: pre), line, post, st2, g2.
        split; [simpl; now rewrite L|]. split; [|exact D].
        simpl. now rewrite <- L, E.
    + intros ->. right. exists [], l, ls, st, g. repeat split. exact E.
Qed.

(** How a run of the scanning loop that throws has ended. *)
Lemma scanLines_Throws (lines : list string) (st : ScanState) (g g' : nat)
  (e : Error) :
  scanLines lines st g = Throws e g' ->
  exists pre line post st1 g1,
    lines = (pre ++ line :: post)%list /\
    Spec.scanPrefix pre (line :: post) st g = Some (st1, g1) /\
    scanLine st1 g1 line post = Done (Throws e g').
Proof.
  revert st g. induction lines as [|l ls IH]; intros st g.
  - discriminate.
  - cbn [scanLines]. destruct (scanLine st g l ls) as [st1 g1|o] eqn:E.
    + intros H. destruct (IH st1 g1 H)
        as (pre & line & post & st2 & g2 & L & P & D).
      exists (l :: pre), line, post, st2, g2.
      split; [simpl; now rewrite L|]. split; [|exact D].
      simpl. now rewrite <- L, E.
    + intros ->. exists [], l, ls, st, g. repeat split. exact E.
Qed.

Section ScanInvariant.

(** An invariant of the scanning loop: a property of the lines still to
    come, the state and the counter that every round that goes on keeps. *)
Variable I : list string -> ScanState -> nat -> Prop.

Hypothesis step :
  forall line rest st g st' g',
    I (line :: rest) st g -> scanLine st g line rest = Next st' g' ->
    I rest st' g'.

Lemma scanPrefix_invariant (pre post : list string) (st st' : ScanState)
  (g g' : nat) :
  I (pre ++ post) st g -> Spec.scanPrefix pre post st g = Some (st', g') ->
  I post st' g'.
Proof.
  revert st g. induction pre as [|l pre IH]; intros st g H; simpl.
  - intros E; inversion E; subst. exact H.
  - destruct (scanLine st g l (pre ++ post)) as [st1 g1|] eqn:E;
      [|discriminate].
    apply IH. eapply step; eauto.
Qed.

End ScanInvariant.

(** [linesOf] and the header test, together. *)
Lemma parsePlaylist_Returns (g g' : nat) (str : string) (p : Playlist.t) :
  parsePlaylist g str = Returns p g' ->
  scanLines (linesOf str) initialScanState g = Returns p g'.
Proof.
  unfold parsePlaylist. destruct (negb (header _)); [discriminate|auto].
Qed.

Lemma parsePlaylist_Throws (g g' : nat) (str : string) (e : Error) :
  parsePlaylist g str = Throws e g' ->
  (e = HLS_PLAYLIST_HEADER_MISSING /\ g' = g) \/
  scanLines (linesOf str) initialScanState g = Throws e g'.
Proof.
  unfold parsePlaylist. destruct (negb (header _)); [|auto].
  intros H; inversion H; subst. left. split; reflexivity.
Qed.

(** Where the aggregator puts a tag. *)
Lemma directiveLine_route (st : SegmentsState.t) (tag : Tag.t) :
  directiveLine st tag =
    match routeOf tag with
    | ToPlaylist =>
        inr (SegmentsState.set_tagIndex
               (SegmentsState.set_playlistTags st
                  (SegmentsState.playlistTags st ++ [tag]))
               (updateTagIndexForTag_ (SegmentsState.tagIndex st) tag))
    | ToMap =>
        inr (SegmentsState.set_computed
               (SegmentsState.set_currentMapTag st (Some (Spec.mapTagOf tag)))
               (withMap (SegmentsState.computed st) (Spec.mapTagOf tag)))
    | ToPartial =>
        inr (SegmentsState.set_partialSegmentTags st
               (SegmentsState.partialSegmentTags st ++ [tag]))
    | Dropped => inr st
    | ToSegment =>
        match updateComputedForTag_ (SegmentsState.computed st) tag with
        | inr c =>
            inr (SegmentsState.set_computed
                   (SegmentsState.set_segmentTags st
                      (SegmentsState.segmentTags st ++ [tag])) c)
        | inl e => inl e
        end
    end.
Proof.
  unfold routeOf.
  destruct (has MEDIA_PLAYLIST_TAGS (Tag.name tag)) eqn:M.
  { unfold directiveLine. now rewrite M. }
  destruct (Spec.isMapTag tag) eqn:IM; [now apply directiveLine_map|].
  destruct (Spec.isPartialTag tag) eqn:IP; [now apply directiveLine_partial|].
  unfold Spec.isMapTag in IM. unfold Spec.isPartialTag in IP.
  apply orb_false_elim in IM. destruct IM as [M1 M2].
  apply orb_false_elim in IP. destruct IP as [P1 P2].
  unfold directiveLine. rewrite M, M1, P1.
  destruct (String.eqb_spec (Tag.name tag) "EXT-X-PRELOAD-HINT") as [E|N].
  - simpl in M2, P2. rewrite M2, P2.
    unfold updateComputedForTag_. rewrite E. simpl. now destruct st.
  - reflexivity.
Qed.

Section SegmentsInvariant.

(** An invariant of the aggregator's loop: a property of the state and the
    counter that a directive line and a URI line keep. *)
Variable I : SegmentsState.t -> nat -> Prop.

Hypothesis directive :
  forall st g line tag st',
    I st g -> JS.startsWith line "#EXT" = true ->
    parseTag g line = inr tag -> directiveLine st tag = inr st' ->
    I st' (S g).

Hypothesis uri :
  forall st g line,
    I st g -> JS.startsWith line "#EXT" = false ->
    Utils.isComment line = false -> I (uriLine st line) g.

Lemma segmentsLoop_invariant (lines : list string)
  (st st' : SegmentsState.t) (g g' : nat) :
  I st g -> segmentsLoop lines st g = Returns st' g' -> I st' g'.
Proof.
  revert st g. induction lines as [|l ls IH]; intros st g H; simpl.
  - intros E; inversion E; subst. exact H.
  - destruct (JS.startsWith l "#EXT") eqn:S.
    + destruct (parseTag g l) as [e|t] eqn:P; [discriminate|].
      destruct (directiveLine st t) as [e|st1] eqn:D; [discriminate|].
      apply IH. eapply directive; eauto.
    + destruct (Utils.isComment l) eqn:C; [now apply IH|].
      apply IH. now apply uri.
Qed.

End SegmentsInvariant.

Lemma parseTag_own_id (g : nat) (line : string) (t : Tag.t) :
  parseTag g line = inr t -> Tag.id t = g.
Proof.
  intros P. pose proof (parseTag_id g g line t P) as Q.
  rewrite P in Q. inversion Q as [E]. now rewrite E.
Qed.

(** What the code after the loop adds to the state. *)
Lemma finishSegments_fields (st : SegmentsState.t) (r : SegmentsResult) :
  finishSegments st = inr r ->
  playlistTags r = SegmentsState.playlistTags st /\
  tagIndex r = SegmentsState.tagIndex st /\
  SegmentsComputed.count (analysis r) = List.length (segments r) /\
  SegmentsComputed.gapCount (analysis r) = SegmentsState.gapCount st /\
  SegmentsComputed.lastExtinfDuration (analysis r)
    = SegmentsState.lastExtinfDuration st.
Proof.
  unfold finishSegments.
  destruct (SegmentsState.partialSegmentTags st) as [|x xs].
  - intros H; inversion H; subst; simpl. tauto.
  - destruct (updateComputedForTags _ _) as [e|c]; [discriminate|].
    intros H; inversion H; subst; simpl.
    destruct (storeSegment_index st
                (Segment.new ""
                   (withMapTag (SegmentsState.segmentTags st)
                      (SegmentsState.currentMapTag st)) c (x :: xs)))
      as [A B].
    rewrite A, B. unfold storeSegment.
    destruct (_ <? _)%nat; simpl; tauto.
Qed.

Lemma parseSegments_Returns (lines : list string) (tags : list Tag.t)
  (index : PlaylistComputed.t) (g g' : nat) (r : SegmentsResult) :
  parseSegments_ lines tags index g = Returns r g' ->
  exists st,
    segmentsLoop lines (initialSegmentsState (List.length lines) tags index) g
      = Returns st g' /\
    finishSegments st = inr r.
Proof.
  unfold parseSegments_.
  destruct (segmentsLoop lines _ g) as [st g1|e g1]; [|discriminate].
  destruct (finishSegments st) as [e|r0] eqn:F; [discriminate|].
  intros H; inversion H; subst. now exists st.
Qed.

Lemma uriLine_fields (st : SegmentsState.t) (line : string) :
  SegmentsState.playlistTags (uriLine st line)
    = SegmentsState.playlistTags st /\
  SegmentsState.tagIndex (uriLine st line) = SegmentsState.tagIndex st.
Proof.
  unfold uriLine. simpl. apply storeSegment_index.
Qed.

(** The aggregator adds to the playlist's tags the tags of
    MEDIA_PLAYLIST_TAGS it meets, and nothing else. *)
Lemma segmentsLoop_playlistTags (lines : list string)
  (st st' : SegmentsState.t) (g g' : nat) :
  segmentsLoop lines st g = Returns st' g' ->
  exists new,
    SegmentsState.playlistTags st'
      = (SegmentsState.playlistTags st ++ new)%list /\
    Forall (fun t => has MEDIA_PLAYLIST_TAGS (Tag.name t) = true) new.
Proof.
  revert st g. induction lines as [|l ls IH]; intros st g; simpl.
  - intros E; inversion E; subst. exists []. now rewrite app_nil_r.
  - destruct (JS.startsWith l "#EXT") eqn:S.
    + destruct (parseTag g l) as [e|t] eqn:P; [discriminate|].
      destruct (directiveLine st t) as [e|st1] eqn:D; [discriminate|].
      intros H. destruct (IH _ _ H) as (new & E & F).
      rewrite directiveLine_route in D. unfold routeOf in D.
      destruct (has MEDIA_PLAYLIST_TAGS (Tag.name t)) eqn:M.
      * inversion D; subst. simpl in E. exists (t :: new).
        rewrite E, <- app_assoc. split; [reflexivity|].
        constructor; assumption.
      * exists new. split; [|exact F]. rewrite E. f_equal.
        destruct (Spec.isMapTag t); [now inversion D|].
        destruct (Spec.isPartialTag t); [now inversion D|].
        destruct (String.eqb (Tag.name t) "EXT-X-PRELOAD-HINT");
          [now inversion D|].
        destruct (updateComputedForTag_ _ t); [discriminate|].
        now inversion D.
    + destruct (Utils.isComment l); [apply IH|].
      intros H. destruct (IH _ _ H) as (new & E & F).
      exists new. split; [|exact F]. rewrite E.
      now rewrite (proj1 (uriLine_fields st l)).
Qed.

Lemma parseSegments_playlistTags (lines : list string) (tags : list Tag.t)
  (index : PlaylistComputed.t) (g g' : nat) (r : SegmentsResult) :
  parseSegments_ lines tags index g = Returns r g' ->
  exists new,
    playlistTags r = (tags ++ new)%list /\
    Forall (fun t => has MEDIA_PLAYLIST_TAGS (Tag.name t) = true) new.
Proof.
  intros H. destruct (parseSegments_Returns _ _ _ _ _ _ H) as (st & L & F).
  destruct (segmentsLoop_playlistTags _ _ _ _ _ L) as (new & E & N).
  exists new. split; [|exact N].
  now rewrite (proj1 (finishSegments_fields _ _ F)), E.
Qed.

(** ** The multi-valued slots of the playlist index *)

Section Pushes.

Variable field : PlaylistComputed.t -> list Tag.t.
Variable name : string.

Lemma indexTags_pushes :
  (forall index t,
     field (updateTagIndexForTag_ index t)
       = if String.eqb (Tag.name t) name
         then (field index ++ [t])%list else field index) ->
  forall tags index,
    field (indexTags tags index)
      = (field index ++ tagsNamed name tags)%list.
Proof.
  intros step tags. unfold indexTags, tagsNamed.
  induction tags as [|t tags IH]; intros index; simpl.
  - now rewrite app_nil_r.
  - rewrite IH, step. destruct (String.eqb (Tag.name t) name).
    + now rewrite <- app_assoc.
    + reflexivity.
Qed.

End Pushes.

Lemma variableTags_step (index : PlaylistComputed.t) (t : Tag.t) :
  PlaylistComputed.variableTags (updateTagIndexForTag_ index t)
    = if String.eqb (Tag.name t) "EXT-X-DEFINE"
      then (PlaylistComputed.variableTags index ++ [t])%list
      else PlaylistComputed.variableTags index.
Proof. name_cases index t. Qed.

Lemma dateRangeTags_step (index : PlaylistComputed.t) (t : Tag.t) :
  PlaylistComputed.dateRangeTags (updateTagIndexForTag_ index t)
    = if String.eqb (Tag.name t) "EXT-X-DATERANGE"
      then (PlaylistComputed.dateRangeTags index ++ [t])%list
      else PlaylistComputed.dateRangeTags index.
Proof. name_cases index t. Qed.

Lemma mediaTags_step (index : PlaylistComputed.t) (t : Tag.t) :
  PlaylistComputed.mediaTags (updateTagIndexForTag_ index t)
    = if String.eqb (Tag.name t) "EXT-X-MEDIA"
      then (PlaylistComputed.mediaTags index ++ [t])%list
      else PlaylistComputed.mediaTags index.
Proof. name_cases index t. Qed.

Lemma variantTags_step (index : PlaylistComputed.t) (t : Tag.t) :
  PlaylistComputed.variantTags (updateTagIndexForTag_ index t)
    = if String.eqb (Tag.name t) "EXT-X-STREAM-INF"
      then (PlaylistComputed.variantTags index ++ [t])%list
      else PlaylistComputed.variantTags index.
Proof. name_cases index t. Qed.

Lemma imageTags_step (index : PlaylistComputed.t) (t : Tag.t) :
  PlaylistComputed.imageTags (updateTagIndexForTag_ index t)
    = if String.eqb (Tag.name t) "EXT-X-IMAGE-STREAM-INF"
      then (PlaylistComputed.imageTags index ++ [t])%list
      else PlaylistComputed.imageTags index.
Proof. name_cases index t. Qed.

Lemma iFrameTags_step (index : PlaylistComputed.t) (t : Tag.t) :
  PlaylistComputed.iFrameTags (updateTagIndexForTag_ index t)
    = if String.eqb (Tag.name t) "EXT-X-I-FRAME-STREAM-INF"
      then (PlaylistComputed.iFrameTags index ++ [t])%list
      else PlaylistComputed.iFrameTags index.
Proof. name_cases index t. Qed.

Lemma sessionKeyTags_step (index : PlaylistComputed.t) (t : Tag.t) :
  PlaylistComputed.sessionKeyTags (updateTagIndexForTag_ index t)
    = if String.eqb (Tag.name t) "EXT-X-SESSION-KEY"
      then (PlaylistComputed.sessionKeyTags index ++ [t])%list
      else PlaylistComputed.sessionKeyTags index.
Proof. name_cases index t. Qed.

Lemma sessionDataTags_step (index : PlaylistComputed.t) (t : Tag.t) :
  PlaylistComputed.sessionDataTags (updateTagIndexForTag_ index t)
    = if String.eqb (Tag.name t) "EXT-X-SESSION-DATA"
      then (PlaylistComputed.sessionDataTags index ++ [t])%list
      else PlaylistComputed.sessionDataTags index.
Proof. name_cases index t. Qed.

Lemma contentSteeringTags_step (index : PlaylistComputed.t) (t : Tag.t) :
  PlaylistComputed.contentSteeringTags (updateTagIndexForTag_ index t)
    = if String.eqb (Tag.name t) "EXT-X-CONTENT-STEERING"
      then (PlaylistComputed.contentSteeringTags index ++ [t])%list
      else PlaylistComputed.contentSteeringTags index.
Proof. name_cases index t. Qed.

(** X10.  In every returned playlist each multi-valued slot of the
    playlist index holds exactly the tags of its name that are in the
    playlist's tag list, in the order of that list: EXT-X-DEFINE,
    EXT-X-DATERANGE, EXT-X-MEDIA, EXT-X-STREAM-INF (each with the URI
    attribute the scanning loop added), EXT-X-IMAGE-STREAM-INF,
    EXT-X-I-FRAME-STREAM-INF, EXT-X-SESSION-KEY, EXT-X-SESSION-DATA and
    EXT-X-CONTENT-STEERING. *)
Theorem multi_valued_slots (g g' : nat) (str : string) (p : Playlist.t) :
  parsePlaylist g str = Returns p g' ->
  let index := PlaylistComputedData.playlist (Playlist.computed p) in
  PlaylistComputed.variableTags index
    = tagsNamed "EXT-X-DEFINE" (Playlist.tags p) /\
  PlaylistComputed.dateRangeTags index
    = tagsNamed "EXT-X-DATERANGE" (Playlist.tags p) /\
  PlaylistComputed.mediaTags index
    = tagsNamed "EXT-X-MEDIA" (Playlist.tags p) /\
  PlaylistComputed.variantTags index
    = tagsNamed "EXT-X-STREAM-INF" (Playlist.tags p) /\
  PlaylistComputed.imageTags index
    = tagsNamed "EXT-X-IMAGE-STREAM-INF" (Playlist.tags p) /\
  PlaylistComputed.iFrameTags index
    = tagsNamed "EXT-X-I-FRAME-STREAM-INF" (Playlist.tags p) /\
  PlaylistComputed.sessionKeyTags index
    = tagsNamed "EXT-X-SESSION-KEY" (Playlist.tags p) /\
  PlaylistComputed.sessionDataTags index
    = tagsNamed "EXT-X-SESSION-DATA" (Playlist.tags p) /\
  PlaylistComputed.contentSteeringTags index
    = tagsNamed "EXT-X-CONTENT-STEERING" (Playlist.tags p).
Proof.
  intros H index. subst index. rewrite (parsePlaylist_index _ _ _ _ H).
  repeat split.
  - apply (indexTags_pushes _ _ variableTags_step).
  - apply (indexTags_pushes _ _ dateRangeTags_step).
  - apply (indexTags_pushes _ _ mediaTags_step).
  - apply (indexTags_pushes _ _ variantTags_step).
  - apply (indexTags_pushes _ _ imageTags_step).
  - apply (indexTags_pushes _ _ iFrameTags_step).
  - apply (indexTags_pushes _ _ sessionKeyTags_step).
  - apply (indexTags_pushes _ _ sessionDataTags_step).
  - apply (indexTags_pushes _ _ contentSteeringTags_step).
Qed.

Lemma multi_valued_slots_witness :
  PlaylistComputed.variantTags
    (PlaylistComputedData.playlist (Playlist.computed Docs.masterPlaylist))
    = tagsNamed "EXT-X-STREAM-INF" (Playlist.tags Docs.masterPlaylist).
Proof.
  apply (multi_valued_slots 0 1 Docs.master Docs.masterPlaylist).
  vm_compute. reflexivity.
Defined.

(** ** Stream variants and the playlist type *)

Lemma pushedTag_name (tag : Tag.t) (next : option string) :
  Tag.name (pushedTag tag next) = Tag.name tag.
Proof.
  unfold pushedTag. now destruct (String.eqb (Tag.name tag) _).
Qed.

Lemma pushedTag_id (tag : Tag.t) (next : option string) :
  Tag.id (pushedTag tag next) = Tag.id tag.
Proof.
  unfold pushedTag. now destruct (String.eqb (Tag.name tag) _).
Qed.

Lemma not_variant_name (name : string) :
  has MEDIA_PLAYLIST_TAGS name = true -> name <> "EXT-X-STREAM-INF".
Proof. intros H ->. vm_compute in H. discriminate. Qed.

(** X11.  In every returned playlist each tag named EXT-X-STREAM-INF of the
    playlist's tag list is the tag of a line of the document followed by
    one more attribute, named URI, whose value is the next line of the
    document as it stands (it is not trimmed), or [undefined] when the
    variant line is the last line. *)
Theorem variant_tags_carry_their_uri (g g' : nat) (str : string)
  (p : Playlist.t) :
  parsePlaylist g str = Returns p g' ->
  Forall
    (fun t => Tag.name t = "EXT-X-STREAM-INF" -> variantOf (linesOf str) t)
    (Playlist.tags p).
Proof.
  intros H. apply parsePlaylist_Returns in H.
  set (Q := fun t => Tag.name t = "EXT-X-STREAM-INF" ->
                     variantOf (linesOf str) t).
  set (I := fun (rest : list string) (st : ScanState) (_ : nat) =>
              (exists pre, linesOf str = (pre ++ rest)%list) /\
              Forall Q (tags st)).
  assert (step : forall line rest st g st' g',
            I (line :: rest) st g -> scanLine st g line rest = Next st' g' ->
            I rest st' g').
  { intros line rest st g0 st' g1 [[pre L] F] N.
    assert (L' : exists pre', linesOf str = (pre' ++ rest)%list).
    { exists (pre ++ [line])%list. now rewrite <- app_assoc. }
    destruct (scanLine_Next _ _ _ _ _ _ N)
      as [(_ & _ & ->)|(tag & _ & P & _ & _ & ->)].
    - split; [exact L'|exact F].
    - split; [exact L'|]. simpl. apply Forall_app. split; [exact F|].
      constructor; [|constructor]. intros V.
      rewrite pushedTag_name in V. exists pre, line, rest, tag.
      split; [exact L|]. rewrite pushedTag_id.
      rewrite (parseTag_own_id _ _ _ P). split; [exact P|].
      unfold pushedTag. now rewrite V. }
  assert (I0 : I (linesOf str) initialScanState g).
  { split; [now exists []|constructor]. }
  destruct (scanLines_Returns _ _ _ _ _ H)
    as [(st' & P & ->)|(pre & line & post & st1 & g1 & L & P & D)].
  - rewrite <- (app_nil_r (linesOf str)) in I0.
    apply (scanPrefix_invariant I step _ _ _ _ _ _ I0 P).
  - rewrite L in I0.
    destruct (scanPrefix_invariant I step _ _ _ _ _ _ I0 P) as [_ F].
    destruct (scanLine_Returns _ _ _ _ _ _ D)
      as (tag & r & _ & _ & _ & _ & PS & ->).
    destruct (parseSegments_playlistTags _ _ _ _ _ _ PS) as (new & E & M).
    simpl. rewrite E. apply Forall_app. split; [exact F|].
    rewrite Forall_forall in *. intros t T V.
    now destruct (not_variant_name _ (M t T)).
Qed.

Lemma variant_tags_carry_their_uri_witness :
  Forall
    (fun t => Tag.name t = "EXT-X-STREAM-INF" ->
              variantOf (linesOf Docs.master) t)
    (Playlist.tags Docs.masterPlaylist).
Proof.
  apply (variant_tags_carry_their_uri 0 1 Docs.master Docs.masterPlaylist).
  vm_compute. reflexivity.
Defined.

Lemma detectedType_app (a b : list Tag.t) :
  Spec.detectedType (a ++ b) =
    match Spec.detectedType a with
    | Some ty => Some ty
    | None => Spec.detectedType b
    end.
Proof.
  induction a as [|t a IH]; simpl; [reflexivity|].
  destruct (Spec.typeOfName (Tag.name t)); [reflexivity|exact IH].
Qed.

Lemma detectedType_media (new : list Tag.t) :
  Forall (fun t => has MEDIA_PLAYLIST_TAGS (Tag.name t) = true) new ->
  Spec.detectedType new = None \/ Spec.detectedType new = Some MEDIA.
Proof.
  destruct new as [|t new]; [now left|]. intros F.
  inversion F as [|? ? M _]; subst. right. simpl.
  unfold Spec.typeOfName. now rewrite M.
Qed.

(** X12.  The type of a returned playlist is the type that the first
    type-deciding tag of the playlist's tag list decides (MEDIA for a tag
    of MEDIA_PLAYLIST_TAGS, MASTER for EXT-X-STREAM-INF and EXT-X-MEDIA).
    When no tag of the list decides, the type is MASTER, unless the
    document holds a segment-only directive line, which makes it MEDIA. *)
Theorem playlist_type (g g' : nat) (str : string) (p : Playlist.t) :
  parsePlaylist g str = Returns p g' ->
  match Spec.detectedType (Playlist.tags p) with
  | Some ty => Playlist.type p = ty
  | None =>
      Playlist.type p = MASTER \/
      (Playlist.type p = MEDIA /\
       exists line id tag,
         In line (linesOf str) /\ parseTag id line = inr tag /\
         has SEGMENT_TAGS (Tag.name tag) = true)
  end.
Proof.
  intros H. apply parsePlaylist_Returns in H.
  destruct (scanLines_Returns _ _ _ _ _ H)
    as [(st' & P & ->)|(pre & line & post & st1 & g1 & L & P & D)].
  - destruct (scanPrefix_typeInvariant _ _ _ _ _ _
                initialScanState_typeInvariant P) as [T1 T2].
    simpl. rewrite T1. destruct (typeDetected st'); [reflexivity|].
    left. now apply T2.
  - pose proof (scanPrefix_typeInvariant _ _ _ _ _ _
                  initialScanState_typeInvariant P) as TI.
    destruct (scanLine_Returns _ _ _ _ _ _ D)
      as (tag & r & _ & PT & SG & DT & PS & ->).
    destruct (parseSegments_playlistTags _ _ _ _ _ _ PS) as (new & E & M).
    simpl. rewrite E, detectedType_app.
    rewrite (detectType_typeOfName st1 _ TI) in DT.
    rewrite (typeOfName_segment _ SG) in DT.
    destruct (Spec.detectedType (tags st1)) as [ty|]; simpl in DT.
    + now rewrite DT.
    + destruct (detectedType_media new M) as [-> | ->]; [|reflexivity].
      right. split; [reflexivity|]. exists line, g1, tag.
      split; [rewrite L; apply in_or_app; right; now left|].
      split; [exact PT|exact SG].
Qed.

Lemma playlist_type_witness :
  Playlist.type Docs.masterPlaylist = MASTER.
Proof.
  apply (playlist_type 0 1 Docs.master Docs.masterPlaylist).
  vm_compute. reflexivity.
Defined.

(** ** The errors of [parsePlaylist] *)

Lemma updateComputedForTag_Throws (c : SegmentComputed.t) (t : Tag.t)
  (e : Error) :
  updateComputedForTag_ c t = inl e ->
  e = TypeError /\ Tag.name t = "EXTINF" /\ Tag.value t = None.
Proof.
  unfold updateComputedForTag_.
  destruct (String.eqb_spec (Tag.name t) "EXTINF") as [E|N].
  - destruct (SegmentComputed.extinf c); [discriminate|].
    destruct (Tag.value t); [discriminate|].
    intros H; inversion H; subst. tauto.
  - intros H. exfalso. revert H.
    repeat match goal with
           | |- context [if ?b then _ else _] => destruct b
           | |- context [match ?x with _ => _ end] => destruct x
           end; discriminate.
Qed.

Lemma directiveLine_Throws (st : SegmentsState.t) (t : Tag.t) (e : Error) :
  directiveLine st t = inl e ->
  e = TypeError /\ Tag.name t = "EXTINF" /\ Tag.value t = None.
Proof.
  rewrite directiveLine_route. destruct (routeOf t); try discriminate.
  destruct (updateComputedForTag_ _ t) as [e0|c] eqn:U; [|discriminate].
  intros H; inversion H; subst. eapply updateComputedForTag_Throws; eauto.
Qed.

Lemma finishSegments_returns (st : SegmentsState.t) :
  wfState st -> exists r, finishSegments st = inr r.
Proof.
  intros W. destruct (trailer_computed st W) as (c & U & _).
  unfold finishSegments.
  destruct (SegmentsState.partialSegmentTags st); [eexists; reflexivity|].
  rewrite U. eexists; reflexivity.
Qed.

(** The aggregator throws on a directive line that [parseTag] does not
    take, and on a duration directive without a value. *)
Lemma segmentsLoop_Throws (lines : list string) (st : SegmentsState.t)
  (g g' : nat) (e : Error) :
  segmentsLoop lines st g = Throws e g' ->
  (exists line,
     In line lines /\ e = INVALID_HLS_TAG line /\
     Utils.isComment line = false /\ tagBlocks line = None) \/
  (e = TypeError /\
   exists line id tag,
     In line lines /\ parseTag id line = inr tag /\
     Tag.name tag = "EXTINF" /\ Tag.value tag = None).
Proof.
  revert st g. induction lines as [|l ls IH]; intros st g; simpl.
  - discriminate.
  - assert (K : forall st1 g1,
              segmentsLoop ls st1 g1 = Throws e g' ->
              (exists line,
                 (l = line \/ In line ls) /\ e = INVALID_HLS_TAG line /\
                 Utils.isComment line = false /\ tagBlocks line = None) \/
              (e = TypeError /\
               exists line id tag,
                 (l = line \/ In line ls) /\ parseTag id line = inr tag /\
                 Tag.name tag = "EXTINF" /\ Tag.value tag = None)).
    { intros st1 g1 H.
      destruct (IH st1 g1 H) as [(line & X)|(E & line & i & t & X)].
      - left. exists line. tauto.
      - right. split; [exact E|]. exists line, i, t. tauto. }
    destruct (JS.startsWith l "#EXT") eqn:S.
    + destruct (parseTag g l) as [e0|t] eqn:P.
      * intros H; inversion H; subst. left. exists l.
        split; [now left|]. split; [now apply (parseTag_error g)|].
        split; [unfold Utils.isComment; rewrite S; apply andb_false_r|].
        apply (parseTag_None g). now exists e.
      * destruct (directiveLine st t) as [e0|st1] eqn:DL; [|apply K].
        intros H; inversion H; subst.
        destruct (directiveLine_Throws _ _ _ DL) as (E & N & V).
        right. split; [exact E|]. exists l, g, t. tauto.
    + destruct (Utils.isComment l); apply K.
Qed.

Lemma parseSegments_Throws (lines : list string) (tags : list Tag.t)
  (index : PlaylistComputed.t) (g g' : nat) (e : Error) :
  parseSegments_ lines tags index g = Throws e g' ->
  (exists line,
     In line lines /\ e = INVALID_HLS_TAG line /\
     Utils.isComment line = false /\ tagBlocks line = None) \/
  (e = TypeError /\
   exists line id tag,
     In line lines /\ parseTag id line = inr tag /\
     Tag.name tag = "EXTINF" /\ Tag.value tag = None).
Proof.
  unfold parseSegments_.
  destruct (segmentsLoop lines _ g) as [st g1|e1 g1] eqn:L.
  - pose proof (segmentsLoop_wf _ _ _ _ _
                  (initialSegmentsState_wf _ tags index) L) as W.
    destruct (finishSegments_returns st W) as [r ->]. discriminate.
  - intros H; inversion H; subst. eapply segmentsLoop_Throws; eauto.
Qed.

(** The errors of [parsePlaylist] past the header check. *)
Lemma scanLines_errors (str : string) (g g' : nat) (e : Error) :
  scanLines (linesOf str) initialScanState g = Throws e g' ->
  e = HLS_INVALID_PLAYLIST_HIERARCHY \/
  (exists line,
     e = INVALID_HLS_TAG line /\ In line (linesOf str) /\
     Utils.isComment line = false /\ tagBlocks line = None) \/
  (e = TypeError /\
   exists line id tag,
     In line (linesOf str) /\ parseTag id line = inr tag /\
     Tag.name tag = "EXTINF" /\ Tag.value tag = None).
Proof.
  intros H.
  destruct (scanLines_Throws _ _ _ _ _ H)
    as (pre & line & post & st1 & g1 & L & _ & D).
  assert (IL : forall l, In l (line :: post) -> In l (linesOf str)).
  { intros l I. rewrite L. apply in_or_app. now right. }
  destruct (scanLine_Throws _ _ _ _ _ _ D)
    as [CK [[P _]|(tag & P & SG & [[-> _]|PS])]].
  - right. left. pose proof (parseTag_error _ _ _ P) as ->.
    exists line. split; [reflexivity|]. split; [apply IL; now left|].
    apply orb_false_elim in CK. split; [tauto|].
    apply (parseTag_None g1). eexists. exact P.
  - now left.
  - right. destruct (parseSegments_Throws _ _ _ _ _ _ PS)
      as [(l & I & E & X)|(E & l & i & t & I & X)].
    + left. exists l. split; [exact E|]. split; [now apply IL|exact X].
    + right. split; [exact E|]. exists l, i, t.
      split; [now apply IL|exact X].
Qed.

(** X13.  The errors of [parsePlaylist], all of them.  A call that throws
    throws HLS_PLAYLIST_HEADER_MISSING, with the counter untouched; or
    HLS_INVALID_PLAYLIST_HIERARCHY; or INVALID_HLS_TAG carrying a line of
    the document that is not a comment and that [parseTag] does not take:
    it does not start with [#EXT], or it holds a line terminator (which in
    a line is a U+2028 or a U+2029) after its first colon; or a TypeError,
    and then a line of the document is a duration directive (EXTINF)
    without a value. *)
Theorem parsePlaylist_errors (g g' : nat) (str : string) (e : Error) :
  parsePlaylist g str = Throws e g' ->
  (e = HLS_PLAYLIST_HEADER_MISSING /\ g' = g) \/
  e = HLS_INVALID_PLAYLIST_HIERARCHY \/
  (exists line,
     e = INVALID_HLS_TAG line /\ In line (linesOf str) /\
     Utils.isComment line = false /\
     (JS.startsWith line "#EXT" = false \/
      exists data,
        afterFirstColon line = Some data /\ dotStarToEnd data = false)) \/
  (e = TypeError /\
   exists line id tag,
     In line (linesOf str) /\ parseTag id line = inr tag /\
     Tag.name tag = "EXTINF" /\ Tag.value tag = None).
Proof.
  intros H. apply parsePlaylist_Throws in H.
  destruct H as [H|H]; [now left|]. right.
  destruct (scanLines_errors str g g' e H) as [E|[(l & E & I & C & T)|X]].
  - now left.
  - right. left. exists l. split; [exact E|]. split; [exact I|].
    split; [exact C|]. now apply tagBlocks_None.
  - right. right. exact X.
Qed.

Lemma parsePlaylist_errors_witness :
  exists line id tag,
    In line (linesOf (Docs.document [ "#EXTM3U"; "#EXTINF"; "uri" ])) /\
    parseTag id line = inr tag /\
    Tag.name tag = "EXTINF" /\ Tag.value tag = None.
Proof.
  destruct (parsePlaylist_errors 0 2
              (Docs.document [ "#EXTM3U"; "#EXTINF"; "uri" ]) TypeError)
    as [[E _]|[E|[(l & E & _)|(_ & X)]]].
  - vm_compute. reflexivity.
  - discriminate E.
  - discriminate E.
  - discriminate E.
  - exact X.
Defined.

(** ** Properties of every segment *)

Lemma directiveLine_segments (st st' : SegmentsState.t) (t : Tag.t) :
  directiveLine st t = inr st' ->
  SegmentsState.segments st' = SegmentsState.segments st.
Proof.
  rewrite directiveLine_route. destruct (routeOf t);
    try (intros H; inversion H; subst; reflexivity).
  destruct (updateComputedForTag_ _ t); [discriminate|].
  intros H; inversion H; subst; reflexivity.
Qed.

Section SegmentProperty.

(** A property [P] of segments that follows from an invariant [Inv] of the
    aggregator's state holds of every segment of every playlist. *)
Variable Inv : SegmentsState.t -> Prop.
Variable P : Segment.t -> Prop.

Hypothesis init :
  forall n tags index, Inv (initialSegmentsState n tags index).

Hypothesis directive :
  forall st tag st', Inv st -> directiveLine st tag = inr st' -> Inv st'.

Hypothesis uri :
  forall st line, Inv st -> Inv (uriLine st line) /\ P (emitted st line).

Hypothesis last :
  forall st c,
    Inv st ->
    updateComputedForTags createDefaultComputed_
      (withMapTag (SegmentsState.segmentTags st)
         (SegmentsState.currentMapTag st)) = inr c ->
    P (trailer st c).

Lemma segmentsLoop_Forall (lines : list string) (st st' : SegmentsState.t)
  (g g' : nat) :
  Inv st -> Forall P (SegmentsState.segments st) ->
  segmentsLoop lines st g = Returns st' g' ->
  Inv st' /\ Forall P (SegmentsState.segments st').
Proof.
  revert st g. induction lines as [|l ls IH]; intros st g H F; simpl.
  - intros E; inversion E; subst. now split.
  - destruct (JS.startsWith l "#EXT").
    + destruct (parseTag g l) as [e|t]; [discriminate|].
      destruct (directiveLine st t) as [e|st1] eqn:D; [discriminate|].
      apply IH; [eapply directive; eauto|].
      now rewrite (directiveLine_segments _ _ _ D).
    + destruct (Utils.isComment l); [now apply IH|].
      destruct (uri st l H) as [H1 H2].
      apply IH; [exact H1|].
      rewrite (proj1 (uriLine_emits st l)). apply Forall_app.
      split; [exact F|]. now constructor.
Qed.

Lemma parseSegments_Forall (lines : list string) (tags : list Tag.t)
  (index : PlaylistComputed.t) (g g' : nat) (r : SegmentsResult) :
  parseSegments_ lines tags index g = Returns r g' ->
  Forall P (segments r).
Proof.
  intros H. destruct (parseSegments_Returns _ _ _ _ _ _ H) as (st & L & F).
  destruct (segmentsLoop_Forall _ _ _ _ _ (init _ _ _) (Forall_nil P) L)
    as [I S].
  destruct (finishSegments_cases _ _ F) as [[_ ->]|(c & _ & U & ->)];
    [exact S|].
  apply Forall_app. split; [exact S|]. constructor; [|constructor].
  now apply last.
Qed.

Lemma parsePlaylist_Forall (g g' : nat) (str : string) (p : Playlist.t)
  (segs : list Segment.t) :
  parsePlaylist g str = Returns p g' ->
  Playlist.segments p = Some segs -> Forall P segs.
Proof.
  intros H. apply parsePlaylist_Returns in H.
  destruct (scanLines_Returns _ _ _ _ _ H)
    as [(st' & _ & ->)|(pre & line & post & st1 & g1 & _ & _ & D)].
  - simpl. intros E; inversion E; subst. constructor.
  - destruct (scanLine_Returns _ _ _ _ _ _ D)
      as (tag & r & _ & _ & _ & _ & PS & ->).
    simpl. intros E; inversion E; subst.
    eapply parseSegments_Forall; eauto.
Qed.

End SegmentProperty.

(** ** The computed view of a segment and the segment's tags *)

Lemma firstTag_snoc (n : string) (l : list Tag.t) (t : Tag.t) :
  Spec.firstTag n (l ++ [t]) =
    match Spec.firstTag n l with
    | Some x => Some x
    | None => if String.eqb (Tag.name t) n then Some t else None
    end.
Proof.
  unfold Spec.firstTag. induction l as [|x l IH]; simpl.
  - now destruct (String.eqb (Tag.name t) n).
  - destruct (String.eqb (Tag.name x) n); [reflexivity|exact IH].
Qed.

Lemma tagsNamed_snoc (n : string) (l : list Tag.t) (t : Tag.t) :
  tagsNamed n (l ++ [t]) =
    (tagsNamed n l ++ (if String.eqb (Tag.name t) n then [t] else []))%list.
Proof.
  unfold tagsNamed. rewrite List.filter_app. simpl.
  now destruct (String.eqb (Tag.name t) n).
Qed.

Lemma viewOf_default : viewOf createDefaultComputed_ [].
Proof. repeat split. Qed.

(** The update of the computed view for one more tag is the view of one
    more tag. *)
Lemma viewOf_snoc (c c' : SegmentComputed.t) (l : list Tag.t) (t : Tag.t) :
  viewOf c l -> updateComputedForTag_ c t = inr c' -> viewOf c' (l ++ [t]).
Proof.
  unfold viewOf, durationOf.
  intros (A1 & A2 & A3 & A4 & A5 & A6 & A7 & A8).
  rewrite !firstTag_snoc, tagsNamed_snoc.
  rewrite <- A1 in A2. rewrite <- A1, <- A3, <- A4, <- A5, <- A6, <- A7, <- A8.
  clear A1 A3 A4 A5 A6 A7 A8. revert A2.
  unfold updateComputedForTag_.
  repeat match goal with
         | |- context [String.eqb (Tag.name t) ?s] =>
             destruct (String.eqb_spec (Tag.name t) s) as [->|_]
         end;
    destruct c; simpl;
    repeat match goal with
           | |- context [match ?x with _ => _ end] => destruct x; simpl
           end;
    intros A2 H; inversion H; subst; simpl;
    rewrite ?app_nil_r; repeat split; try reflexivity; try assumption.
Qed.

Lemma updateComputedForTags_viewOf (ts l : list Tag.t)
  (c c' : SegmentComputed.t) :
  viewOf c l -> updateComputedForTags c ts = inr c' -> viewOf c' (l ++ ts).
Proof.
  revert l c. induction ts as [|t ts IH]; intros l c V; simpl.
  - intros H; inversion H; subst. now rewrite app_nil_r.
  - destruct (updateComputedForTag_ c t) as [e|c1] eqn:U; [discriminate|].
    intros H. change (t :: ts) with ([t] ++ ts)%list. rewrite app_assoc.
    apply (IH _ c1); [|exact H]. eapply viewOf_snoc; eauto.
Qed.

(** A map tag at the end of the tag list does not show in the view. *)
Lemma viewOf_map_tag (c : SegmentComputed.t) (l : list Tag.t) (m : Tag.t) :
  Tag.name m = "EXT-X-MAP" -> viewOf c l -> viewOf c (l ++ [m]).
Proof.
  unfold viewOf, durationOf. intros N.
  rewrite !firstTag_snoc, tagsNamed_snoc, N. simpl.
  rewrite app_nil_r.
  destruct (Spec.firstTag "EXTINF" l), (Spec.firstTag "EXT-X-GAP" l),
    (Spec.firstTag "EXT-X-BYTERANGE" l),
    (Spec.firstTag "EXT-X-DISCONTINUITY" l),
    (Spec.firstTag "EXT-X-PROGRAM-DATE-TIME" l),
    (Spec.firstTag "EXT-X-TILES" l); tauto.
Qed.

Lemma viewOf_withMap (c : SegmentComputed.t) (l : list Tag.t)
  (m : option Tag.t) (i : option nat) :
  viewOf c l ->
  viewOf (SegmentComputed.set_mapId (SegmentComputed.set_map c m) i) l.
Proof. destruct c. unfold viewOf. simpl. tauto. Qed.

Lemma viewInvariant_directive (st st' : SegmentsState.t) (tag : Tag.t) :
  viewInvariant st -> directiveLine st tag = inr st' -> viewInvariant st'.
Proof.
  intros [V M]. rewrite directiveLine_route. destruct (routeOf tag).
  - intros H; inversion H; subst. split; assumption.
  - intros H; inversion H; subst. split; simpl.
    + unfold withMap. destruct (SegmentComputed.map _); [exact V|].
      now apply viewOf_withMap.
    + intros m E. inversion E; subst. apply mapTagOf_name.
  - intros H; inversion H; subst. split; assumption.
  - intros H; inversion H; subst. split; assumption.
  - destruct (updateComputedForTag_ _ tag) as [e|c] eqn:U; [discriminate|].
    intros H; inversion H; subst. split; simpl; [|exact M].
    eapply viewOf_snoc; eauto.
Qed.

Lemma viewInvariant_uri (st : SegmentsState.t) (line : string) :
  viewInvariant st ->
  viewInvariant (uriLine st line) /\
  viewOf (Segment.computed (emitted st line)) (Segment.tags (emitted st line)).
Proof.
  intros [V M]. split.
  - destruct (uriLine_emits st line) as (_ & C & K & T & _).
    split; [rewrite K, T; apply viewOf_default|now rewrite C].
  - unfold emitted. simpl. unfold withMapTag.
    destruct (SegmentsState.currentMapTag st) as [m|].
    + specialize (M m eq_refl).
      destruct (SegmentComputed.map _);
        [|apply viewOf_withMap]; now apply viewOf_map_tag.
    + now destruct (SegmentComputed.map _).
Qed.

(** X14.  The computed view of every segment of a returned playlist is
    the view of the segment's own tag list: [extinf], [gap], [byterange],
    [discontinuity], [dateTime] and [tiles] hold the first tag of their
    name in [segment.tags], or [null] when there is none; [keys] holds the
    EXT-X-KEY tags of [segment.tags] in order; and [extinfDuration] is
    [Number] of the text before the first comma of the value of the first
    EXTINF tag, 0 without one. *)
Theorem computed_view_of_tags (g g' : nat) (str : string) (p : Playlist.t)
  (segs : list Segment.t) :
  parsePlaylist g str = Returns p g' ->
  Playlist.segments p = Some segs ->
  Forall (fun s => viewOf (Segment.computed s) (Segment.tags s)) segs.
Proof.
  apply (parsePlaylist_Forall viewInvariant).
  - intros n tags index. split; [apply viewOf_default|discriminate].
  - intros st tag st'. apply viewInvariant_directive.
  - apply viewInvariant_uri.
  - intros st c _ U. unfold trailer. simpl.
    apply (updateComputedForTags_viewOf _ [] _ _ viewOf_default U).
Qed.

Lemma computed_view_of_tags_witness :
  Forall (fun s => viewOf (Segment.computed s) (Segment.tags s))
    (segmentsOf withTrailingPartPlaylist).
Proof.
  apply (computed_view_of_tags 0 (counterAfter Docs.withTrailingPart)
           Docs.withTrailingPart withTrailingPartPlaylist).
  - vm_compute. reflexivity.
  - reflexivity.
Defined.

(** ** The map of a segment, its id and the segment's tags *)


Lemma routeOf_ToSegment (tag : Tag.t) :
  routeOf tag = ToSegment ->
  has MEDIA_PLAYLIST_TAGS (Tag.name tag) = false /\
  String.eqb (Tag.name tag) "EXT-X-MAP" = false /\
  String.eqb (Tag.name tag) "EXT-X-PART" = false /\
  String.eqb (Tag.name tag) "EXT-X-PRELOAD-HINT" = false.
Proof.
  unfold routeOf, Spec.isMapTag, Spec.isPartialTag.
  destruct (has MEDIA_PLAYLIST_TAGS (Tag.name tag)); [discriminate|].
  destruct (String.eqb (Tag.name tag) "EXT-X-MAP"); [discriminate|].
  destruct (String.eqb (Tag.name tag) "EXT-X-PART");
    [simpl; destruct (_ && _); discriminate|].
  destruct (String.eqb (Tag.name tag) "EXT-X-PRELOAD-HINT"); simpl.
  - destruct (looseEq _ "MAP"); [discriminate|].
    destruct (looseEq _ "PART"); discriminate.
  - tauto.
Qed.






(** ** The segments and the analysis, from the lines *)

Lemma firstTag_existsb (n : string) (l : list Tag.t) :
  existsb (fun t => String.eqb (Tag.name t) n) l
    = match Spec.firstTag n l with Some _ => true | None => false end.
Proof.
  unfold Spec.firstTag. induction l as [|t l IH]; simpl; [reflexivity|].
  destruct (String.eqb (Tag.name t) n); [reflexivity|exact IH].
Qed.

Lemma routeOf_partial (tag : Tag.t) :
  Spec.isPartialTag tag
    = match routeOf tag with ToPartial => true | _ => false end.
Proof.
  unfold routeOf, Spec.isPartialTag, Spec.isMapTag.
  destruct (String.eqb_spec (Tag.name tag) "EXT-X-PART") as [E|N].
  - rewrite E. reflexivity.
  - destruct (String.eqb_spec (Tag.name tag) "EXT-X-PRELOAD-HINT") as [E|N'].
    + rewrite E. simpl. change (has MEDIA_PLAYLIST_TAGS _) with false.
      cbv iota. unfold looseEq.
      destruct (Tag.getAttributeValue tag "TYPE") as [v|]; [|reflexivity].
      destruct (String.eqb_spec v "MAP") as [->|]; [reflexivity|].
      destruct (String.eqb v "PART"); reflexivity.
    + simpl. destruct (has MEDIA_PLAYLIST_TAGS (Tag.name tag));
        [reflexivity|].
      rewrite orb_false_r.
      destruct (String.eqb (Tag.name tag) "EXT-X-MAP"); reflexivity.
Qed.

Lemma isPartialLine_parseTag (line : string) (g : nat) (t : Tag.t) :
  JS.startsWith line "#EXT" = true -> parseTag g line = inr t ->
  Spec.isPartialLine line = Spec.isPartialTag t.
Proof.
  intros S P. unfold Spec.isPartialLine.
  apply (lineIs_parseTag _ line g t (isPartialTag_id t) S P).
Qed.

(** The state after a directive line, field by field. *)
Lemma directiveLine_counters (st st' : SegmentsState.t) (t : Tag.t) :
  directiveLine st t = inr st' ->
  SegmentsState.gapCount st' = SegmentsState.gapCount st /\
  SegmentsState.lastExtinfDuration st'
    = SegmentsState.lastExtinfDuration st /\
  SegmentsState.partialSegmentTags st'
    = (SegmentsState.partialSegmentTags st
         ++ (if Spec.isPartialTag t then [t] else []))%list.
Proof.
  rewrite routeOf_partial, directiveLine_route.
  destruct (routeOf t);
    try (intros H; inversion H; subst; simpl; rewrite ?app_nil_r; tauto).
  destruct (updateComputedForTag_ _ t); [discriminate|].
  intros H; inversion H; subst; simpl. rewrite app_nil_r. tauto.
Qed.

Lemma emitted_flags (st : SegmentsState.t) (line : string) :
  viewInvariant st ->
  Spec.segmentIsGap (emitted st line)
    = match SegmentComputed.gap (SegmentsState.computed st) with
      | Some _ => true
      | None => false
      end /\
  hasDuration (emitted st line)
    = match SegmentComputed.extinf (SegmentsState.computed st) with
      | Some _ => true
      | None => false
      end /\
  durationOf (Segment.tags (emitted st line))
    = SegmentComputed.extinfDuration (SegmentsState.computed st).
Proof.
  intros V. destruct (viewInvariant_uri st line V) as [_ E].
  destruct V as [V _].
  unfold Spec.segmentIsGap, hasDuration. rewrite !firstTag_existsb.
  destruct E as (E1 & E2 & E3 & _). destruct V as (V1 & V2 & V3 & _).
  rewrite <- E1, <- E3, <- E2. unfold emitted. simpl.
  destruct (SegmentComputed.map (SegmentsState.computed st));
    [tauto|].
  destruct (SegmentsState.currentMapTag st); [|tauto].
  destruct (SegmentsState.computed st); simpl. tauto.
Qed.

Lemma uriLine_counters (st : SegmentsState.t) (line : string) :
  SegmentsState.gapCount (uriLine st line)
    = match SegmentComputed.gap (SegmentsState.computed st) with
      | Some _ => S (SegmentsState.gapCount st)
      | None => SegmentsState.gapCount st
      end /\
  SegmentsState.lastExtinfDuration (uriLine st line)
    = match SegmentComputed.extinf (SegmentsState.computed st) with
      | Some _ =>
          Some (SegmentComputed.extinfDuration (SegmentsState.computed st))
      | None => SegmentsState.lastExtinfDuration st
      end.
Proof. unfold uriLine. simpl. split; reflexivity. Qed.

Lemma segmentsLoop_analysis (lines : list string)
  (st st' : SegmentsState.t) (g g' : nat) :
  viewInvariant st ->
  segmentsLoop lines st g = Returns st' g' ->
  exists new,
    SegmentsState.segments st' = (SegmentsState.segments st ++ new)%list /\
    List.map Segment.verbatimSegmentUri new
      = List.map JS.trim (List.filter isUriLine lines) /\
    SegmentsState.gapCount st'
      = SegmentsState.gapCount st
        + List.length (List.filter Spec.segmentIsGap new) /\
    SegmentsState.lastExtinfDuration st'
      = match lastDuration new with
        | Some d => Some d
        | None => SegmentsState.lastExtinfDuration st
        end /\
    nonEmpty (SegmentsState.partialSegmentTags st')
      = pendingPartials lines
          (nonEmpty (SegmentsState.partialSegmentTags st)).
Proof.
  revert st g. induction lines as [|l ls IH]; intros st g V.
  - simpl. intros H; inversion H; subst. exists [].
    rewrite app_nil_r, Nat.add_0_r. repeat split.
  - cbn [segmentsLoop pendingPartials List.filter]. unfold isUriLine at 1.
    destruct (JS.startsWith l "#EXT") eqn:S.
    + destruct (parseTag g l) as [e|t] eqn:P; [discriminate|].
      destruct (directiveLine st t) as [e|st1] eqn:D; [discriminate|].
      intros H.
      destruct (IH st1 _ (viewInvariant_directive _ _ _ V D) H)
        as (new & A1 & A2 & A3 & A4 & A5).
      destruct (directiveLine_counters _ _ _ D) as (B1 & B2 & B3).
      exists new. rewrite A1, A3, A4, A5, B1, B2, B3.
      rewrite (directiveLine_segments _ _ _ D).
      rewrite (isPartialLine_parseTag l g t S P). simpl.
      repeat split; try assumption.
      f_equal. destruct (Spec.isPartialTag t);
        destruct (SegmentsState.partialSegmentTags st); reflexivity.
    + destruct (Utils.isComment l) eqn:C; [now apply IH|].
      intros H.
      destruct (IH _ _ (proj1 (viewInvariant_uri st l V)) H)
        as (new & A1 & A2 & A3 & A4 & A5).
      destruct (uriLine_emits st l) as (E & _ & _ & _ & PS).
      destruct (uriLine_counters st l) as (G & D).
      destruct (emitted_flags st l V) as (F1 & F2 & F3).
      exists (emitted st l :: new).
      split; [rewrite A1, E, <- app_assoc; reflexivity|]. split.
      { cbn [negb andb List.map]. now rewrite A2. }
      split.
      { rewrite A3, G. cbn [List.filter]. rewrite F1.
        destruct (SegmentComputed.gap _); simpl; lia. }
      split.
      { rewrite A4, D. cbn [lastDuration].
        destruct (lastDuration new); [reflexivity|]. rewrite F2, F3.
        now destruct (SegmentComputed.extinf _). }
      rewrite A5, PS. reflexivity.
Qed.

(** X16.  What the segment aggregator returns for its lines.  Every line
    that is neither a directive nor a comment gives one segment, in order,
    with the trimmed line as its URI; one more segment follows them, with
    an empty URI, exactly when partial segments are pending after the last
    line.  [count] is the number of these segments; [gapCount] is the
    number of the URI-line segments that have an EXT-X-GAP tag (the final
    wrapper is not counted); and [lastExtinfDuration] is the duration of
    the last URI-line segment that has an EXTINF tag, [null] without
    one. *)
Theorem segments_of_lines (lines : list string) (tags : list Tag.t)
  (index : PlaylistComputed.t) (g g' : nat) (r : SegmentsResult) :
  parseSegments_ lines tags index g = Returns r g' ->
  exists body rest,
    segments r = (body ++ rest)%list /\
    List.map Segment.verbatimSegmentUri body
      = List.map JS.trim (List.filter isUriLine lines) /\
    (if pendingPartials lines false
     then exists s,
            rest = [s] /\ Segment.verbatimSegmentUri s = "" /\
            Segment.partialSegments s <> []
     else rest = []) /\
    SegmentsComputed.count (analysis r) = List.length (body ++ rest) /\
    SegmentsComputed.gapCount (analysis r)
      = List.length (List.filter Spec.segmentIsGap body) /\
    SegmentsComputed.lastExtinfDuration (analysis r) = lastDuration body.
Proof.
  intros H. destruct (parseSegments_Returns _ _ _ _ _ _ H) as (st & L & F).
  assert (V : viewInvariant
                (initialSegmentsState (List.length lines) tags index)).
  { split; [apply viewOf_default|discriminate]. }
  destruct (segmentsLoop_analysis _ _ _ _ _ V L)
    as (new & A1 & A2 & A3 & A4 & A5).
  simpl in A1, A3, A4, A5.
  destruct (finishSegments_fields _ _ F) as (_ & _ & C & G & D).
  exists new.
  destruct (finishSegments_cases _ _ F) as [[PE E]|(c & PN & _ & E)].
  - exists []. rewrite app_nil_r. rewrite C, G, D, E, A3, A4.
    rewrite <- A5, PE, A1. simpl.
    split; [reflexivity|]. split; [exact A2|]. split; [reflexivity|].
    split; [reflexivity|]. split; [reflexivity|].
    now destruct (lastDuration new).
  - exists [trailer st c]. rewrite C, G, D, E, A1, A3, A4. rewrite <- A5.
    destruct (SegmentsState.partialSegmentTags st) eqn:PS; [congruence|].
    simpl. split; [reflexivity|]. split; [exact A2|]. split.
    + exists (trailer st c). unfold trailer. simpl. rewrite PS.
      split; [reflexivity|]. split; [reflexivity|discriminate].
    + split; [reflexivity|]. split; [reflexivity|].
      now destruct (lastDuration new).
Qed.

Lemma segments_of_lines_witness :
  exists body rest,
    segments Samples.twoSegmentsResult = (body ++ rest)%list /\
    List.map Segment.verbatimSegmentUri body = [ "uri"; "uri2" ] /\
    rest = [] /\
    SegmentsComputed.count (analysis Samples.twoSegmentsResult)
      = List.length (body ++ rest) /\
    SegmentsComputed.gapCount (analysis Samples.twoSegmentsResult)
      = List.length (List.filter Spec.segmentIsGap body) /\
    SegmentsComputed.lastExtinfDuration (analysis Samples.twoSegmentsResult)
      = lastDuration body.
Proof.
  apply (segments_of_lines (Docs.mapLine :: Samples.twoSegments) []
           createDefaultTagIndex_ 0 3 Samples.twoSegmentsResult).
  vm_compute. reflexivity.
Defined.

(** ** Where the tags of the segment section go *)

Lemma routeOf_flags (t : Tag.t) :
  isPlaylistTag t
    = match routeOf t with ToPlaylist => true | _ => false end /\
  isOwnTag t = match routeOf t with ToSegment => true | _ => false end.
Proof.
  unfold isPlaylistTag, isOwnTag, routeOf, Spec.isMapTag, Spec.isPartialTag.
  destruct (has MEDIA_PLAYLIST_TAGS (Tag.name t)); [split; reflexivity|].
  destruct (String.eqb (Tag.name t) "EXT-X-MAP"); [split; reflexivity|].
  destruct (String.eqb (Tag.name t) "EXT-X-PART"); simpl.
  - destruct (_ && _); split; reflexivity.
  - destruct (String.eqb (Tag.name t) "EXT-X-PRELOAD-HINT"); simpl.
    + destruct (looseEq _ "MAP"); [split; reflexivity|].
      destruct (looseEq _ "PART"); split; reflexivity.
    + split; reflexivity.
Qed.

Lemma directiveLine_lists (st st' : SegmentsState.t) (t : Tag.t) :
  directiveLine st t = inr st' ->
  SegmentsState.playlistTags st'
    = (SegmentsState.playlistTags st
         ++ (if isPlaylistTag t then [t] else []))%list /\
  SegmentsState.segmentTags st'
    = (SegmentsState.segmentTags st
         ++ (if isOwnTag t then [t] else []))%list.
Proof.
  destruct (routeOf_flags t) as [-> ->]. rewrite directiveLine_route.
  destruct (routeOf t);
    try (intros H; inversion H; subst; simpl; rewrite ?app_nil_r; tauto).
  destruct (updateComputedForTag_ _ t); [discriminate|].
  intros H; inversion H; subst; simpl. rewrite app_nil_r. tauto.
Qed.

Lemma ownTags_withMapTag (st : SegmentsState.t) :
  wfState st ->
  List.filter (fun t => negb (String.eqb (Tag.name t) "EXT-X-MAP"))
    (withMapTag (SegmentsState.segmentTags st)
       (SegmentsState.currentMapTag st))
  = SegmentsState.segmentTags st.
Proof.
  intros (W1 & W2 & _).
  assert (F : List.filter
                (fun t => negb (String.eqb (Tag.name t) "EXT-X-MAP"))
                (SegmentsState.segmentTags st)
              = SegmentsState.segmentTags st).
  { induction (SegmentsState.segmentTags st) as [|x l IH];
      [reflexivity|].
    inversion W1 as [|? ? N W']; subst. simpl. rewrite N. simpl.
    now rewrite (IH W'). }
  unfold withMapTag. destruct (SegmentsState.currentMapTag st) as [m|];
    [|exact F].
  rewrite List.filter_app, F. simpl. rewrite (W2 m eq_refl). simpl.
  apply app_nil_r.
Qed.

Lemma ownTags_emitted (st : SegmentsState.t) (line : string) :
  wfState st -> ownTags (emitted st line) = SegmentsState.segmentTags st.
Proof.
  intros W. unfold ownTags, emitted. simpl. now apply ownTags_withMapTag.
Qed.

Lemma ownTags_trailer (st : SegmentsState.t) (c : SegmentComputed.t) :
  wfState st -> ownTags (trailer st c) = SegmentsState.segmentTags st.
Proof.
  intros W. unfold ownTags, trailer. simpl. now apply ownTags_withMapTag.
Qed.

Lemma flat_map_snoc (A B : Type) (f : A -> list B) (l : list A) (x : A) :
  List.flat_map f (l ++ [x]) = (List.flat_map f l ++ f x)%list.
Proof. rewrite List.flat_map_app. simpl. now rewrite app_nil_r. Qed.

Lemma segmentsLoop_routing (lines : list string)
  (st st' : SegmentsState.t) (g g' : nat) :
  wfState st ->
  segmentsLoop lines st g = Returns st' g' ->
  g' = g + List.length (directiveTags g lines) /\
  SegmentsState.playlistTags st'
    = (SegmentsState.playlistTags st
         ++ List.filter isPlaylistTag (directiveTags g lines))%list /\
  (List.flat_map Segment.partialSegments (SegmentsState.segments st')
     ++ SegmentsState.partialSegmentTags st')%list
    = (List.flat_map Segment.partialSegments (SegmentsState.segments st)
         ++ SegmentsState.partialSegmentTags st
         ++ List.filter Spec.isPartialTag (directiveTags g lines))%list /\
  (List.flat_map ownTags (SegmentsState.segments st')
     ++ SegmentsState.segmentTags st')%list
    = (List.flat_map ownTags (SegmentsState.segments st)
         ++ SegmentsState.segmentTags st
         ++ List.filter isOwnTag (directiveTags g lines))%list.
Proof.
  revert st g. induction lines as [|l ls IH]; intros st g W.
  - simpl. intros H; inversion H; subst.
    rewrite !app_nil_r, Nat.add_0_r. repeat split.
  - cbn [segmentsLoop directiveTags].
    destruct (JS.startsWith l "#EXT") eqn:S.
    + destruct (parseTag g l) as [e|t] eqn:P; [discriminate|].
      destruct (directiveLine st t) as [e|st1] eqn:D; [discriminate|].
      intros H.
      destruct (IH st1 _ (directiveLine_wf _ _ _ W D) H)
        as (A1 & A2 & A3 & A4).
      destruct (directiveLine_lists _ _ _ D) as (B1 & B2).
      destruct (directiveLine_counters _ _ _ D) as (_ & _ & B3).
      rewrite (directiveLine_segments _ _ _ D) in A3, A4.
      rewrite A1, A2, A3, A4, B1, B2, B3. cbn [List.length List.filter].
      split; [lia|]. rewrite <- !app_assoc.
      split; [|split].
      * now destruct (isPlaylistTag t).
      * now destruct (Spec.isPartialTag t).
      * now destruct (isOwnTag t).
    + destruct (Utils.isComment l); [now apply IH|].
      intros H.
      destruct (IH _ _ (uriLine_wf st l W) H) as (A1 & A2 & A3 & A4).
      destruct (uriLine_emits st l) as (E & _ & _ & T & PS).
      destruct (uriLine_fields st l) as (F & _).
      rewrite E, T, PS in *. rewrite F in A2.
      rewrite !flat_map_snoc in *. cbn [app] in A3, A4.
      split; [exact A1|]. split; [exact A2|].
      rewrite A3, A4, (ownTags_emitted st l W).
      rewrite <- !app_assoc. split; reflexivity.
Qed.

Lemma uptoLastUri_none (lines : list string) :
  existsb isUriLine lines = false -> uptoLastUri lines = [].
Proof. destruct lines; [reflexivity|]. intros E. simpl in *. now rewrite E. Qed.

Lemma segmentsLoop_received (lines : list string)
  (st st' : SegmentsState.t) (g g' : nat) :
  wfState st ->
  segmentsLoop lines st g = Returns st' g' ->
  List.flat_map ownTags (SegmentsState.segments st')
    = (List.flat_map ownTags (SegmentsState.segments st)
         ++ (if existsb isUriLine lines
             then SegmentsState.segmentTags st
                    ++ List.filter isOwnTag
                         (directiveTags g (uptoLastUri lines))
             else []))%list.
Proof.
  revert st g. induction lines as [|l ls IH]; intros st g W.
  - simpl. intros H; inversion H; subst. now rewrite app_nil_r.
  - cbn [segmentsLoop uptoLastUri]. cbn [existsb]. unfold isUriLine at 1 3.
    destruct (JS.startsWith l "#EXT") eqn:S.
    + destruct (parseTag g l) as [e|t] eqn:P; [discriminate|].
      destruct (directiveLine st t) as [e|st1] eqn:D; [discriminate|].
      intros H. rewrite (IH st1 _ (directiveLine_wf _ _ _ W D) H).
      destruct (directiveLine_lists _ _ _ D) as (_ & B2).
      rewrite (directiveLine_segments _ _ _ D), B2. cbn [negb andb orb].
      destruct (existsb isUriLine ls); [|reflexivity].
      cbn [directiveTags]. rewrite S, P. cbn [List.filter].
      rewrite <- !app_assoc. now destruct (isOwnTag t).
    + cbn [negb andb]. destruct (Utils.isComment l) eqn:C.
      * cbn [negb orb]. intros H. rewrite (IH _ _ W H).
        destruct (existsb isUriLine ls); [|reflexivity].
        cbn [directiveTags]. now rewrite S.
      * cbn [negb orb]. intros H. rewrite (IH _ _ (uriLine_wf st l W) H).
        destruct (uriLine_emits st l) as (E & _ & _ & T & _).
        rewrite E, T, flat_map_snoc, (ownTags_emitted st l W).
        cbn [directiveTags]. rewrite S, <- app_assoc. f_equal.
        destruct (existsb isUriLine ls) eqn:X; [reflexivity|].
        rewrite (uptoLastUri_none ls X). simpl. now rewrite app_nil_r.
Qed.

(** X17.  Every directive line of the segment section is parsed once, in
    order, and its tag goes to exactly one place.  The counter advances by
    the number of these lines.  The tags of MEDIA_PLAYLIST_TAGS, and no
    others, are appended to the playlist's tag list.  The partial-segment
    tags, and no others, make up the partial segments of the segments, in
    document order, none lost and none repeated.  The tags that are
    neither of these nor named EXT-X-MAP or EXT-X-PRELOAD-HINT, of the
    lines up to the last URI line, make up, in document order, the tags
    of the segments apart from the map tag attached to each; those of the
    lines after the last URI line are in the segments too, none lost,
    when partial segments are pending at the end of the input (the
    trailing segment takes them), and in no segment otherwise. *)
Theorem tag_routing (lines : list string) (tags : list Tag.t)
  (index : PlaylistComputed.t) (g g' : nat) (r : SegmentsResult) :
  parseSegments_ lines tags index g = Returns r g' ->
  g' = g + List.length (directiveTags g lines) /\
  playlistTags r
    = (tags ++ List.filter isPlaylistTag (directiveTags g lines))%list /\
  List.flat_map Segment.partialSegments (segments r)
    = List.filter Spec.isPartialTag (directiveTags g lines) /\
  List.flat_map ownTags (segments r)
    = List.filter isOwnTag (directiveTags g (received lines)).
Proof.
  intros H. destruct (parseSegments_Returns _ _ _ _ _ _ H) as (st & L & F).
  pose proof (initialSegmentsState_wf (List.length lines) tags index) as W0.
  pose proof (segmentsLoop_wf _ _ _ _ _ W0 L) as W.
  destruct (segmentsLoop_routing _ _ _ _ _ W0 L) as (A1 & A2 & A3 & A4).
  pose proof (segmentsLoop_received _ _ _ _ _ W0 L) as A5.
  assert (V : viewInvariant
                (initialSegmentsState (List.length lines) tags index)).
  { split; [apply viewOf_default|discriminate]. }
  destruct (segmentsLoop_analysis _ _ _ _ _ V L) as (_ & _ & _ & _ & _ & A6).
  simpl in A2, A3, A4, A5, A6.
  destruct (finishSegments_fields _ _ F) as (B & _).
  split; [exact A1|]. split; [now rewrite B|]. unfold received.
  rewrite <- A6.
  destruct (finishSegments_cases _ _ F) as [[PE E]|(c & PN & _ & E)].
  - rewrite E. rewrite PE, app_nil_r in A3. split; [exact A3|].
    rewrite PE. simpl. rewrite A5.
    destruct (existsb isUriLine lines) eqn:X; [reflexivity|].
    now rewrite (uptoLastUri_none lines X).
  - rewrite E, !flat_map_snoc. split; [exact A3|].
    destruct (SegmentsState.partialSegmentTags st); [congruence|]. simpl.
    rewrite (ownTags_trailer st c W). exact A4.
Qed.

Lemma tag_routing_witness :
  List.flat_map ownTags (segments Samples.twoSegmentsResult)
    = List.filter isOwnTag
        (directiveTags 0 (received (Docs.mapLine :: Samples.twoSegments))).
Proof.
  apply (tag_routing (Docs.mapLine :: Samples.twoSegments) []
           createDefaultTagIndex_ 0 3 Samples.twoSegmentsResult).
  vm_compute. reflexivity.
Defined.

(** ** Tag ids *)

Lemma distinctIds_step (P Q : Tag.t -> Prop) (lo g : nat) (t : Tag.t) :
  distinctIds P lo g -> lo <= g -> Tag.id t = g ->
  (forall x, Q x -> P x \/ x = t) ->
  distinctIds Q lo (S g).
Proof.
  intros [R U] L I S. split.
  - intros x Qx. destruct (S x Qx) as [Px| ->]; [|lia].
    specialize (R x Px). lia.
  - intros x y Qx Qy E.
    destruct (S x Qx) as [Px| ->], (S y Qy) as [Py| ->].
    + now apply U.
    + specialize (R x Px). lia.
    + specialize (R y Py). lia.
    + reflexivity.
Qed.

Lemma distinctIds_weaken (P Q : Tag.t -> Prop) (lo g g2 : nat) :
  distinctIds P lo g -> g <= g2 -> (forall x, Q x -> P x) ->
  distinctIds Q lo g2.
Proof.
  intros [R U] L S. split.
  - intros x Qx. specialize (R x (S x Qx)). lia.
  - intros x y Qx Qy. apply U; now apply S.
Qed.

Lemma ascending_snoc (l : list Tag.t) (t : Tag.t) (g : nat) :
  ascending l g -> Tag.id t = g -> ascending (l ++ [t]) (S g).
Proof.
  intros [S F] I. split.
  - rewrite List.map_app. simpl. clear - S F I.
    induction l as [|x l IH]; simpl.
    + repeat constructor.
    + inversion S as [|? ? S' H]; subst.
      inversion F as [|? ? Hx F']; subst.
      constructor; [now apply IH|].
      apply Forall_app. split; [exact H|]. constructor; [|constructor].
      exact Hx.
  - apply Forall_app. split.
    + revert F. apply Forall_impl. intros; lia.
    + constructor; [lia|constructor].
Qed.

Lemma ascending_weaken (l : list Tag.t) (g g2 : nat) :
  ascending l g -> g <= g2 -> ascending l g2.
Proof.
  intros [S F] L. split; [exact S|].
  revert F. apply Forall_impl. intros; lia.
Qed.

Lemma mapTagOf_id (t : Tag.t) : Tag.id (Spec.mapTagOf t) = Tag.id t.
Proof.
  unfold Spec.mapTagOf. now destruct (String.eqb (Tag.name t) "EXT-X-MAP").
Qed.

Lemma in_snoc (A : Type) (l : list A) (a x : A) :
  In x (l ++ [a]) -> In x l \/ x = a.
Proof.
  intros H. apply in_app_or in H. destruct H as [H|[H|[]]]; auto.
Qed.

(** A directive line brings at most one new tag into the state, with the
    id of the line's tag. *)
Lemma directiveLine_inState (st st' : SegmentsState.t) (t : Tag.t) :
  directiveLine st t = inr st' ->
  exists t',
    Tag.id t' = Tag.id t /\
    forall x, inState st' x -> inState st x \/ x = t'.
Proof.
  rewrite directiveLine_route. destruct (routeOf t) eqn:R.
  - intros H; inversion H; subst. exists t. split; [reflexivity|].
    unfold inState. simpl. intros x [X|X]; [|tauto].
    apply in_snoc in X. tauto.
  - intros H; inversion H; subst. exists (Spec.mapTagOf t).
    split; [apply mapTagOf_id|].
    unfold inState. simpl. unfold withMap. intros x X.
    destruct X as [X|[X|[X|[X|[X|X]]]]]; try tauto.
    + inversion X; subst. now right.
    + destruct (SegmentComputed.map (SegmentsState.computed st)) eqn:E.
      * rewrite E in X. tauto.
      * destruct (SegmentsState.computed st); simpl in X.
        inversion X; subst. now right.
  - intros H; inversion H; subst. exists t. split; [reflexivity|].
    unfold inState. simpl. intros x X.
    destruct X as [X|[X|[X|X]]]; try tauto.
    apply in_snoc in X. tauto.
  - intros H; inversion H; subst. exists t. split; [reflexivity|]. tauto.
  - destruct (updateComputedForTag_ _ t) as [e|c] eqn:U; [discriminate|].
    intros H; inversion H; subst. exists t. split; [reflexivity|].
    destruct (routeOf_ToSegment _ R) as (_ & N & _).
    destruct (updateComputedForTag_not_map _ _ _ N U) as [A _].
    unfold inState. simpl. rewrite A. intros x X.
    destruct X as [X|[X|X]]; try tauto.
    apply in_snoc in X. tauto.
Qed.

Lemma in_withMapTag (l : list Tag.t) (m : option Tag.t) (x : Tag.t) :
  In x (withMapTag l m) -> In x l \/ m = Some x.
Proof.
  unfold withMapTag. destruct m as [m|]; [|tauto].
  intros H. apply in_snoc in H. destruct H as [H| ->]; auto.
Qed.

Lemma emitted_inState (st : SegmentsState.t) (line : string) (x : Tag.t) :
  inSegment (emitted st line) x -> inState st x.
Proof.
  unfold inSegment, emitted, inState. simpl. intros [X|[X|X]].
  - apply in_withMapTag in X. tauto.
  - tauto.
  - destruct (SegmentComputed.map (SegmentsState.computed st)) eqn:E.
    + rewrite E in X. tauto.
    + destruct (SegmentsState.currentMapTag st) as [m|] eqn:C.
      * destruct (SegmentsState.computed st); simpl in X. tauto.
      * rewrite E in X. discriminate.
Qed.

Lemma uriLine_inState (st : SegmentsState.t) (line : string) (x : Tag.t) :
  inState (uriLine st line) x -> inState st x.
Proof.
  destruct (uriLine_emits st line) as (E & C & K & T & PS).
  destruct (uriLine_fields st line) as (F & _).
  unfold inState at 1. rewrite E, C, K, T, PS, F. simpl.
  intros [X|[[]|[[]|[X|[X|(s & I & X)]]]]].
  - left. exact X.
  - right. right. right. left. exact X.
  - discriminate.
  - apply in_snoc in I. destruct I as [I| ->].
    + right. right. right. right. right. now exists s.
    + now apply (emitted_inState st line x).
Qed.

Lemma trailer_inState (st : SegmentsState.t) (c : SegmentComputed.t)
  (x : Tag.t) :
  wfState st ->
  updateComputedForTags createDefaultComputed_
    (withMapTag (SegmentsState.segmentTags st)
       (SegmentsState.currentMapTag st)) = inr c ->
  inSegment (trailer st c) x -> inState st x.
Proof.
  intros W U. destruct (trailer_computed st W) as (c' & U' & A & _).
  rewrite U in U'. inversion U'; subst c'.
  unfold inSegment, trailer, inState. simpl. rewrite A.
  intros [X|[X|X]]; try tauto.
  apply in_withMapTag in X. tauto.
Qed.

Lemma segmentsLoop_ids (lines : list string) (st st' : SegmentsState.t)
  (lo g g' : nat) :
  lo <= g ->
  distinctIds (inState st) lo g ->
  ascending (SegmentsState.playlistTags st) g ->
  segmentsLoop lines st g = Returns st' g' ->
  g <= g' /\ distinctIds (inState st') lo g' /\
  ascending (SegmentsState.playlistTags st') g'.
Proof.
  revert st g. induction lines as [|l ls IH]; intros st g L D A; simpl.
  - intros H; inversion H; subst. auto.
  - destruct (JS.startsWith l "#EXT").
    + destruct (parseTag g l) as [e|t] eqn:P; [discriminate|].
      destruct (directiveLine st t) as [e|st1] eqn:DL; [discriminate|].
      intros H.
      destruct (directiveLine_inState _ _ _ DL) as (t' & I & S).
      rewrite (parseTag_own_id _ _ _ P) in I.
      destruct (IH st1 (Datatypes.S g)) with (4 := H) as (X & Y & Z);
        [lia|eapply distinctIds_step; eauto| |].
      * destruct (directiveLine_lists _ _ _ DL) as [-> _].
        destruct (isPlaylistTag t).
        -- apply ascending_snoc; [exact A|].
           now apply (parseTag_own_id _ _ _ P).
        -- rewrite app_nil_r. apply (ascending_weaken _ g); [exact A|lia].
      * split; [lia|]. now split.
    + destruct (Utils.isComment l); [now apply IH|].
      apply IH; [exact L| |].
      * apply (distinctIds_weaken _ _ _ _ _ D (le_n g)).
        intros x. apply (uriLine_inState st l x).
      * now rewrite (proj1 (uriLine_fields st l)).
Qed.

Lemma parseSegments_ids (lines : list string) (tags : list Tag.t)
  (index : PlaylistComputed.t) (lo g g' : nat) (r : SegmentsResult) :
  lo <= g ->
  distinctIds (fun x => In x tags) lo g -> ascending tags g ->
  parseSegments_ lines tags index g = Returns r g' ->
  g <= g' /\ distinctIds (inPlaylist (mediaPlaylist r)) lo g' /\
  ascending (playlistTags r) g'.
Proof.
  intros L D A H.
  destruct (parseSegments_Returns _ _ _ _ _ _ H) as (st & LP & F).
  pose proof (segmentsLoop_wf _ _ _ _ _
                (initialSegmentsState_wf _ tags index) LP) as W.
  destruct (segmentsLoop_ids lines
              (initialSegmentsState (List.length lines) tags index)
              st lo g g' L) with (3 := LP)
    as (X & Y & Z).
  - apply (distinctIds_weaken _ _ _ _ _ D (le_n g)).
    unfold inState. simpl.
    intros x [I|[[]|[[]|[I|[I|(s & [] & _)]]]]];
      [exact I|discriminate|discriminate].
  - exact A.
  - destruct (finishSegments_fields _ _ F) as (B & _).
    split; [exact X|]. split; [|now rewrite B].
    apply (distinctIds_weaken _ _ _ _ _ Y (le_n g')).
    unfold inPlaylist, mediaPlaylist, segmentsOf. simpl. rewrite B.
    intros x [I|(s & I & S)]; [now left|].
    destruct (finishSegments_cases _ _ F) as [[_ E]|(c & _ & U & E)];
      rewrite E in I.
    + right. right. right. right. right. now exists s.
    + apply in_snoc in I. destruct I as [I| ->].
      * right. right. right. right. right. now exists s.
      * eapply trailer_inState; eauto.
Qed.

(** X18.  Ids identify tags.  A call that returns leaves the counter not
    below where it found it; every tag the returned playlist holds (in its
    tag list, in the tags or the partial segments of a segment, or as the
    map of a segment's computed view) has an id from the old value of the
    counter up to, not including, the new one; two such tags with the same
    id are the same tag; and the ids of the playlist's tag list go up. *)
Theorem ids_identify_tags (g g' : nat) (str : string) (p : Playlist.t) :
  parsePlaylist g str = Returns p g' ->
  g <= g' /\
  distinctIds (inPlaylist p) g g' /\
  ascending (Playlist.tags p) g'.
Proof.
  intros H. apply parsePlaylist_Returns in H.
  set (I := fun (_ : list string) (st : ScanState) (n : nat) =>
              g <= n /\ distinctIds (fun x => In x (tags st)) g n /\
              ascending (tags st) n).
  assert (step : forall line rest st n st' n',
            I (line :: rest) st n -> scanLine st n line rest = Next st' n' ->
            I rest st' n').
  { intros line rest st n st' n' (L & D & A) N.
    destruct (scanLine_Next _ _ _ _ _ _ N)
      as [(_ & -> & ->)|(tag & _ & P & _ & -> & ->)].
    - split; [exact L|]. split; assumption.
    - assert (E : Tag.id (pushedTag tag (List.hd_error rest)) = n).
      { rewrite pushedTag_id. now apply (parseTag_own_id _ _ _ P). }
      split; [lia|]. split; simpl.
      + apply (distinctIds_step _ _ _ _ _ D L E).
        intros x X. now apply in_snoc in X.
      + now apply ascending_snoc. }
  assert (I0 : forall ls, I ls initialScanState g).
  { intros ls. split; [lia|]. split.
    - split; [intros x []|intros x y []].
    - split; constructor. }
  destruct (scanLines_Returns _ _ _ _ _ H)
    as [(st' & P & ->)|(pre & line & post & st1 & g1 & L & P & D)].
  - destruct (scanPrefix_invariant I step _ _ _ _ _ _ (I0 _) P)
      as (X & Y & Z).
    split; [exact X|]. split; [|exact Z].
    apply (distinctIds_weaken _ _ _ _ _ Y (le_n g')).
    unfold inPlaylist, scannedPlaylist, segmentsOf. simpl.
    intros x [X1|(s & [] & _)]. exact X1.
  - destruct (scanPrefix_invariant I step _ _ _ _ _ _ (I0 _) P)
      as (X & Y & Z).
    destruct (scanLine_Returns _ _ _ _ _ _ D)
      as (tag & r & _ & _ & _ & _ & PS & ->).
    destruct (parseSegments_ids (line :: post) (tags st1) (scanIndex st1)
                g (S g1) g' r) with (4 := PS)
      as (A & B & C).
    + lia.
    + apply (distinctIds_weaken _ _ _ _ _ Y); [lia|auto].
    + apply (ascending_weaken _ g1); [exact Z|lia].
    + split; [lia|]. split; [exact B|exact C].
Qed.

Lemma ids_identify_tags_witness :
  0 <= counterAfter Docs.withTrailingPart /\
  distinctIds (inPlaylist withTrailingPartPlaylist) 0
    (counterAfter Docs.withTrailingPart) /\
  ascending (Playlist.tags withTrailingPartPlaylist)
    (counterAfter Docs.withTrailingPart).
Proof.
  apply (ids_identify_tags 0 (counterAfter Docs.withTrailingPart)
           Docs.withTrailingPart withTrailingPartPlaylist).
  vm_compute. reflexivity.
Defined.

(** ** Comments and the pre-sized array do not show *)

Lemma forgetLength_eq (a b : SegmentsState.t) :
  forgetLength a = forgetLength b ->
  exists n, b = SegmentsState.set_segmentsLength a n.
Proof.
  destruct a, b. unfold forgetLength. simpl. intros H. inversion H; subst.
  eexists. reflexivity.
Qed.

Lemma storeSegment_forget (st : SegmentsState.t) (n : nat) (s : Segment.t) :
  forgetLength (storeSegment (SegmentsState.set_segmentsLength st n) s)
    = forgetLength (storeSegment st s).
Proof.
  unfold storeSegment. simpl.
  destruct (_ <? n)%nat, (_ <? SegmentsState.segmentsLength st)%nat;
    reflexivity.
Qed.

Lemma directiveLine_forget (st : SegmentsState.t) (n : nat) (t : Tag.t) :
  directiveLine (SegmentsState.set_segmentsLength st n) t
    = match directiveLine st t with
      | inr st' => inr (SegmentsState.set_segmentsLength st' n)
      | inl e => inl e
      end.
Proof.
  rewrite !directiveLine_route. destruct (routeOf t); try reflexivity.
  simpl. now destruct (updateComputedForTag_ _ t).
Qed.

Lemma uriLine_forget (st : SegmentsState.t) (n : nat) (line : string) :
  forgetLength (uriLine (SegmentsState.set_segmentsLength st n) line)
    = forgetLength (uriLine st line).
Proof.
  unfold uriLine. simpl.
  pose proof (storeSegment_forget st n (emitted st line)) as F.
  unfold emitted in F. simpl in F.
  unfold forgetLength in *. unfold SegmentsState.set_segmentsLength in *.
  simpl in *. inversion F. reflexivity.
Qed.

(** Two runs of the loop from states that differ in the length of the
    pre-sized array only end alike. *)
Lemma segmentsLoop_forget (lines : list string) (a b : SegmentsState.t)
  (g : nat) :
  forgetLength a = forgetLength b ->
  match segmentsLoop lines a g, segmentsLoop lines b g with
  | Returns a' ga, Returns b' gb => forgetLength a' = forgetLength b' /\ ga = gb
  | Throws ea ga, Throws eb gb => ea = eb /\ ga = gb
  | _, _ => False
  end.
Proof.
  revert a b g. induction lines as [|l ls IH]; intros a b g E; simpl.
  - split; [exact E|reflexivity].
  - destruct (JS.startsWith l "#EXT").
    + destruct (parseTag g l) as [e|t]; [split; reflexivity|].
      destruct (forgetLength_eq _ _ E) as [n ->].
      rewrite directiveLine_forget.
      destruct (directiveLine a t) as [e|a1]; [split; reflexivity|].
      apply IH. reflexivity.
    + destruct (Utils.isComment l); [now apply IH|].
      apply IH. destruct (forgetLength_eq _ _ E) as [n ->].
      symmetry. apply uriLine_forget.
Qed.

Lemma finishSegments_forget (a b : SegmentsState.t) :
  forgetLength a = forgetLength b -> finishSegments a = finishSegments b.
Proof.
  intros E. destruct (forgetLength_eq _ _ E) as [n ->].
  unfold finishSegments. simpl.
  destruct (SegmentsState.partialSegmentTags a); [reflexivity|].
  destruct (updateComputedForTags _ _) as [e|c]; [reflexivity|].
  unfold storeSegment. simpl.
  destruct (_ <? n)%nat, (_ <? SegmentsState.segmentsLength a)%nat;
    reflexivity.
Qed.

Lemma segmentsLoop_comments (lines : list string) (st : SegmentsState.t)
  (g : nat) :
  segmentsLoop (withoutComments lines) st g = segmentsLoop lines st g.
Proof.
  revert st g. induction lines as [|l ls IH]; intros st g; [reflexivity|].
  unfold withoutComments in *. cbn [List.filter].
  destruct (Utils.isComment l) eqn:C; cbn [negb].
  - cbn [segmentsLoop]. rewrite C.
    assert (S : JS.startsWith l "#EXT" = false).
    { unfold Utils.isComment in C. apply andb_prop in C.
      destruct C as [_ C]. now apply negb_true_iff in C. }
    rewrite S. apply IH.
  - cbn [segmentsLoop]. rewrite C.
    destruct (JS.startsWith l "#EXT").
    + destruct (parseTag g l) as [e|t]; [reflexivity|].
      destruct (directiveLine st t); [reflexivity|apply IH].
    + apply IH.
Qed.

(** X19.  In the segment section comment lines are inert, and so is the
    size of the array the aggregator allocates in advance: with the
    comment lines removed from its lines the aggregator returns the same
    segments, analysis, playlist tags and index, leaves the same counter,
    or throws the same error. *)
Theorem comments_are_inert (lines : list string) (tags : list Tag.t)
  (index : PlaylistComputed.t) (g : nat) :
  parseSegments_ (withoutComments lines) tags index g
    = parseSegments_ lines tags index g.
Proof.
  unfold parseSegments_.
  pose proof (segmentsLoop_forget (withoutComments lines)
                (initialSegmentsState (List.length (withoutComments lines))
                   tags index)
                (initialSegmentsState (List.length lines) tags index) g
                eq_refl) as F.
  rewrite (segmentsLoop_comments lines
             (initialSegmentsState (List.length lines) tags index)) in F.
  destruct (segmentsLoop (withoutComments lines) _ g) as [a ga|ea ga],
    (segmentsLoop lines _ g) as [b gb|eb gb]; try contradiction.
  - destruct F as [F ->]. now rewrite (finishSegments_forget _ _ F).
  - destruct F as [-> ->]. reflexivity.
Qed.

(** ** Attributes without a value *)

Lemma validAttrName_parts (k : string) :
  Spec.validAttrName k = true ->
  k <> "" /\ Spec.noneOf isEquals k = true /\
  dotStarToEnd k = true.
Proof.
  unfold Spec.validAttrName. intros V.
  apply andb_prop in V. destruct V as [V _].
  apply andb_prop in V. destruct V as [V L].
  apply andb_prop in V. destruct V as [NE CE].
  split; [destruct k; [discriminate|congruence]|]. split; [|exact L].
  revert CE. apply noneOf_weaken. intros c H. unfold commaOrEquals.
  unfold isEquals in H. rewrite H. apply orb_true_r.
Qed.

Lemma readAttributes_end (fuel : nat) : readAttributes fuel "" = [].
Proof. destruct fuel; reflexivity. Qed.

(** X20.  The two ways to write an attribute without a value differ.
    Written with an empty quoted string the attribute is parsed with the
    value [undefined], and [toString()] prints it as the quoted text
    undefined; written with nothing after the equals sign it is parsed with
    the empty string as its value and printed back as it was. *)
Theorem empty_attribute_values (id : nat) (n k : string) :
  Spec.validName n = true -> Spec.validAttrName k = true ->
  parseTag id ("#" ++ n ++ ":" ++ k ++ "=" ++ JS.quoted "")
    = inr (Tag.mk id n [ Attribute.mk k None ] None) /\
  Tag.toString (Tag.mk id n [ Attribute.mk k None ] None) None
    = "#" ++ n ++ ":" ++ k ++ "=" ++ JS.quoted "undefined" /\
  parseTag id ("#" ++ n ++ ":" ++ k ++ "=")
    = inr (Tag.mk id n [ Attribute.mk k (Some "") ] None) /\
  Tag.toString (Tag.mk id n [ Attribute.mk k (Some "") ] None) None
    = "#" ++ n ++ ":" ++ k ++ "=".
Proof.
  intros VN VK. destruct (validAttrName_parts k VK) as (NE & EQ & LT).
  split; [|split].
  - unfold parseTag.
    assert (D : dotStarToEnd (k ++ "=" ++ JS.quoted "")
                = true).
    { cbn [append]. now rewrite (dotStarToEnd_plain "=" k _ eq_refl), LT. }
    rewrite (tagBlocks_data n _ VN D).
    assert (T : JS.truthyStr (Some (k ++ "=" ++ JS.quoted "")) = true).
    { destruct k; [congruence|reflexivity]. }
    rewrite T, (valueRegex_attribute k _ VK).
    destruct (String.length (k ++ "=" ++ JS.quoted "")) as [|fuel] eqn:L.
    { destruct k; [congruence|discriminate]. }
    cbn [readAttributes]. unfold attributeRegex.
    rewrite (span_app isEquals k ("=" ++ JS.quoted "") EQ eq_refl).
    destruct k as [|c k]; [congruence|].
    cbn [append]. rewrite <- (append_nil_r (JS.quoted "")).
    rewrite (quotedValue_quoted "" "" "" eq_refl); [|now left].
    cbn [orElse JS.truthyStr skipWhitespace]. simpl.
    now rewrite readAttributes_end.
  - reflexivity.
  - pose (d := Spec.mkDirective n None [ (k, Spec.Bare "") ]).
    assert (C : Spec.canonical d = true).
    { unfold Spec.canonical, d. simpl. rewrite VN. simpl.
      unfold Spec.validAttr. simpl. rewrite VK. reflexivity. }
    split.
    + change (Tag.mk id n [ Attribute.mk k (Some "") ] None)
        with (Spec.tagOf id d).
      rewrite <- (parseTag_render id d C). unfold d, Spec.render. simpl.
      rewrite ?append_nil_r. reflexivity.
    + change (Tag.mk id n [ Attribute.mk k (Some "") ] None)
        with (Spec.tagOf id d).
      rewrite (toString_tagOf id d C). unfold d, Spec.render. simpl.
      rewrite ?append_nil_r. reflexivity.
Qed.

Lemma empty_attribute_values_witness :
  parseTag 0 ("#EXT-X-KEY:URI=" ++ JS.quoted "")
    = inr (Tag.mk 0 "EXT-X-KEY" [ Attribute.mk "URI" None ] None) /\
  Tag.toString (Tag.mk 0 "EXT-X-KEY" [ Attribute.mk "URI" None ] None) None
    = "#EXT-X-KEY:URI=" ++ JS.quoted "undefined".
Proof.
  destruct (empty_attribute_values 0 "EXT-X-KEY" "URI") as (A & B & _).
  - reflexivity.
  - reflexivity.
  - split; [exact A|exact B].
Defined.

(** ** Blanks between attributes *)

Lemma spacedAttrs_cons (ws : string) (a : string * Spec.AttrValue)
  (attrs : list (string * Spec.AttrValue)) :
  exists tail rest,
    spacedAttrs ws (a :: attrs) = Spec.renderAttr a ++ tail /\
    ((tail = "" /\ rest = "") \/ tail = "," ++ rest) /\
    ((attrs = [] /\ rest = "")
     \/ (attrs <> [] /\ rest = ws ++ spacedAttrs ws attrs)).
Proof.
  destruct attrs as [|b attrs].
  - exists "", "". split; [|split; left; split; reflexivity].
    unfold spacedAttrs. simpl. now rewrite append_nil_r.
  - exists ("," ++ ws ++ spacedAttrs ws (b :: attrs)),
      (ws ++ spacedAttrs ws (b :: attrs)).
    split; [reflexivity|]. split; [now right|]. right.
    split; [discriminate|reflexivity].
Qed.

Lemma skipWhitespace_blanks (ws s : string) :
  allChars isBlank ws = true ->
  skipWhitespace (ws ++ s) = skipWhitespace s.
Proof.
  induction ws as [|c ws IH]; [reflexivity|]. simpl. intros B.
  apply andb_prop in B. destruct B as [B1 B2]. rewrite B1. apply (IH B2).
Qed.

Lemma skipWhitespace_spacedAttrs (ws : string)
  (attrs : list (string * Spec.AttrValue)) :
  List.forallb Spec.validAttr attrs = true ->
  skipWhitespace (spacedAttrs ws attrs) = spacedAttrs ws attrs.
Proof.
  destruct attrs as [|a attrs]; [reflexivity|]. simpl. intros V.
  apply andb_prop in V. destruct V as [V _].
  destruct (spacedAttrs_cons ws a attrs) as (tail & rest & E & _). rewrite E.
  destruct (validAttr_head a tail V) as (c & s & -> & B).
  simpl. now rewrite B.
Qed.

Lemma readAttributes_spaced (ws : string)
  (attrs : list (string * Spec.AttrValue)) (fuel : nat) :
  allChars isBlank ws = true ->
  List.forallb Spec.validAttr attrs = true ->
  String.length (spacedAttrs ws attrs) <= fuel ->
  readAttributes fuel (spacedAttrs ws attrs)
    = List.map Spec.attributeOf attrs.
Proof.
  intros B. revert fuel. induction attrs as [|a attrs IH]; intros fuel V L.
  - destruct fuel; reflexivity.
  - simpl in V. apply andb_prop in V. destruct V as [Va Vs].
    destruct (spacedAttrs_cons ws a attrs) as (tail & rest & E & T & R).
    rewrite E in *.
    destruct (attributeRegex_render a tail rest Va T) as (g2 & g3 & A & O).
    pose proof (attributeRegex_length _ _ _ _ _ A) as LT.
    destruct fuel as [|fuel]; [lia|].
    cbn [readAttributes]. rewrite A, O.
    assert (S : skipWhitespace rest = spacedAttrs ws attrs
                /\ String.length (spacedAttrs ws attrs)
                   <= String.length rest).
    { destruct R as [[-> ->]|[_ ->]]; [split; [reflexivity|apply le_n]|].
      rewrite (skipWhitespace_blanks ws _ B).
      rewrite (skipWhitespace_spacedAttrs ws attrs Vs).
      split; [reflexivity|]. rewrite length_append. lia. }
    destruct S as [S1 S2]. rewrite S1.
    rewrite IH; [|exact Vs|lia]. destruct a; reflexivity.
Qed.

Lemma isBlank_plain (c : ascii) : isBlank c = true -> plain c = true.
Proof.
  unfold isBlank. intros B. apply orb_prop in B.
  destruct B as [B|B]; apply Ascii.eqb_eq in B; subst c; reflexivity.
Qed.

Lemma dotStarToEnd_blanks (ws s : string) :
  allChars isBlank ws = true -> dotStarToEnd (ws ++ s) = dotStarToEnd s.
Proof.
  induction ws as [|c ws IH]; [reflexivity|]. simpl allChars. intros B.
  apply andb_prop in B. destruct B as [B1 B2].
  cbn [append dotStarToEnd].
  rewrite (lineTerminator_plain c _ (isBlank_plain c B1)). apply (IH B2).
Qed.

Lemma noneOf_spacedAttrs (ws : string)
  (attrs : list (string * Spec.AttrValue)) :
  allChars isBlank ws = true ->
  List.forallb Spec.validAttr attrs = true ->
  dotStarToEnd (spacedAttrs ws attrs) = true.
Proof.
  intros B. induction attrs as [|a attrs IH]; [reflexivity|]. simpl.
  intros V. apply andb_prop in V. destruct V as [Va Vs].
  destruct (spacedAttrs_cons ws a attrs) as (tail & rest & E & T & R).
  rewrite E. destruct T as [[-> _]| ->].
  - rewrite append_nil_r. apply (noneOf_renderAttr a Va).
  - cbn [append]. rewrite (dotStarToEnd_plain "," _ _ eq_refl).
    rewrite (noneOf_renderAttr a Va). cbn [andb].
    destruct R as [[_ ->]|[_ ->]]; [reflexivity|].
    rewrite (dotStarToEnd_blanks ws _ B). apply (IH Vs).
Qed.

(** X21.  Blanks and tabs after the comma that ends an attribute are
    skipped: a canonical directive written with a run [ws] of blanks and
    tabs after each comma between its attributes parses to the same tag
    as the line without them. *)
Theorem blanks_between_attributes (id : nat) (ws : string)
  (d : Spec.Directive) :
  Spec.canonical d = true -> allChars isBlank ws = true ->
  parseTag id (spaced ws d) = inr (Spec.tagOf id d).
Proof.
  destruct d as [n v attrs]. unfold Spec.canonical, Spec.tagOf, spaced.
  cbn [Spec.dName Spec.dValue Spec.dAttrs].
  intros V B. apply andb_prop in V. destruct V as [V VA].
  apply andb_prop in V. destruct V as [VN VV].
  unfold parseTag.
  destruct v as [v|]; [|destruct attrs as [|a attrs]].
  - assert (NT : dotStarToEnd v = true).
    { unfold Spec.validValue in VV. apply andb_prop in VV. tauto. }
    assert (NE : JS.truthyStr (Some v) = true).
    { unfold Spec.validValue in VV. apply andb_prop in VV.
      destruct VV as [VV _]. apply andb_prop in VV. tauto. }
    destruct attrs as [|a attrs].
    + rewrite (tagBlocks_data n v VN NT), NE.
      rewrite <- (append_nil_r v) at 1.
      rewrite (valueRegex_value v "" "" VV); [reflexivity|now left].
    + rewrite tagBlocks_data; [|exact VN|].
      * assert (TR : JS.truthyStr
                       (Some (v ++ "," ++ spacedAttrs ws (a :: attrs)))
                     = true).
        { destruct v; [discriminate|reflexivity]. }
        rewrite TR.
        rewrite (valueRegex_value v _ (spacedAttrs ws (a :: attrs)) VV);
          [|now right].
        now rewrite (readAttributes_spaced ws (a :: attrs) _ B VA (le_n _)).
      * cbn [append]. rewrite (dotStarToEnd_plain "," v _ eq_refl), NT.
        apply (noneOf_spacedAttrs ws (a :: attrs) B VA).
  - now rewrite (tagBlocks_name n VN).
  - rewrite (tagBlocks_data n _ VN (noneOf_spacedAttrs ws (a :: attrs) B VA)).
    destruct (spacedAttrs_cons ws a attrs) as (tail & rest & E & _).
    pose proof VA as VA'. simpl in VA'. apply andb_prop in VA'.
    destruct VA' as [Va _].
    assert (TR : JS.truthyStr (Some (spacedAttrs ws (a :: attrs))) = true).
    { rewrite E. destruct (validAttr_head a tail Va) as (c & s & -> & _).
      reflexivity. }
    rewrite TR.
    assert (NV : valueRegex (spacedAttrs ws (a :: attrs)) = None).
    { rewrite E. destruct a as [an av].
      unfold Spec.validAttr in Va. apply andb_prop in Va.
      destruct Va as [Van _].
      destruct av; simpl; rewrite !append_assoc;
        apply (valueRegex_attribute an _ Van). }
    rewrite NV.
    now rewrite (readAttributes_spaced ws (a :: attrs) _ B VA (le_n _)).
Qed.

Lemma blanks_between_attributes_witness :
  parseTag 7 ("#EXT-X-STREAM-INF:BANDWIDTH=1280000, CODECS="
              ++ JS.quoted "avc1" ++ ", FRAME-RATE=30")
    = inr (Tag.mk 7 "EXT-X-STREAM-INF"
             [ Attribute.mk "BANDWIDTH" (Some "1280000");
               Attribute.mk "CODECS" (Some "avc1");
               Attribute.mk "FRAME-RATE" (Some "30") ] None).
Proof.
  apply (blanks_between_attributes 7 " "
           (Spec.mkDirective "EXT-X-STREAM-INF" None
              [ ("BANDWIDTH", Spec.Bare "1280000");
                ("CODECS", Spec.Quoted "avc1");
                ("FRAME-RATE", Spec.Bare "30") ])).
  - vm_compute. reflexivity.
  - reflexivity.
Defined.

(** ** C8: the hierarchy rule *)

(** What the scanning loop has classified when it stands in front of
    [post]. *)
Lemma scanPrefix_classified (pre post : list string) (st st' : ScanState)
  (g g' : nat) :
  Spec.scanPrefix pre post st g = Some (st', g') ->
  exists cpre,
    Spec.classified (skip st) (pre ++ post)
      = (cpre ++ Spec.classified (skip st') post)%list /\
    Forall (fun l => Spec.isPlaylistLine l = true) cpre /\
    Spec.detectedType (tags st')
      = match Spec.detectedType (tags st) with
        | Some ty => Some ty
        | None => Spec.decidedType cpre
        end.
Proof.
  revert st g. induction pre as [|l pre IH]; intros st g.
  - simpl. intros H; inversion H; subst. exists [].
    split; [reflexivity|]. split; [constructor|].
    now destruct (Spec.detectedType (tags st')).
  - cbn [Spec.scanPrefix].
    destruct (scanLine st g l (pre ++ post)) as [st1 g1|] eqn:E;
      [|discriminate].
    intros P. destruct (IH st1 g1 P) as (cpre & C & F & D).
    destruct (scanLine_Next _ _ _ _ _ _ E)
      as [(CK & -> & ->)|(tag & CK & PT & SG & -> & ->)].
    + exists cpre. cbn [app Spec.classified]. rewrite CK.
      split; [exact C|]. split; [exact F|exact D].
    + pose proof (parseTag_id g 0 l tag PT) as P0.
      assert (V : Spec.isVariantLine l
                  = String.eqb (Tag.name tag) "EXT-X-STREAM-INF").
      { unfold Spec.isVariantLine. now rewrite P0. }
      assert (N : Spec.nameOf l = Some (Tag.name tag)).
      { unfold Spec.nameOf. now rewrite P0. }
      exists (l :: cpre). cbn [app Spec.classified]. rewrite CK, V.
      split; [simpl in C; now rewrite C|]. split.
      * constructor; [|exact F]. unfold Spec.isPlaylistLine.
        now rewrite N, SG.
      * rewrite D. cbn [tags Spec.decidedType].
        rewrite detectedType_snoc, pushedTag_name, N.
        destruct (Spec.detectedType (tags st)); [reflexivity|].
        now destruct (Spec.typeOfName (Tag.name tag)).
Qed.

(** The scanning loop reaches every line it is to classify, as long as
    the lines before it are directives for the playlist. *)
Lemma classified_scanPrefix (lines : list string) (st : ScanState) (g : nat)
  (cpre : list string) (line : string) (cpost : list string) :
  Spec.classified (skip st) lines = (cpre ++ line :: cpost)%list ->
  Forall (fun l => Spec.isPlaylistLine l = true) cpre ->
  exists pre post st1 g1,
    lines = (pre ++ line :: post)%list /\
    Spec.scanPrefix pre (line :: post) st g = Some (st1, g1) /\
    skip st1 = false /\ Utils.isComment line = false /\
    g1 = g + List.length cpre /\
    Spec.detectedType (tags st1)
      = match Spec.detectedType (tags st) with
        | Some ty => Some ty
        | None => Spec.decidedType cpre
        end.
Proof.
  revert st g cpre. induction lines as [|l ls IH]; intros st g cpre C F.
  - destruct cpre; discriminate.
  - cbn [Spec.classified] in C.
    destruct (Utils.isComment l || skip st) eqn:CK.
    + assert (E : scanLine st g l ls
                  = Next (mkScanState (playlistType st) (typeDetected st)
                            (tags st) (scanIndex st) false) g).
      { unfold scanLine. now rewrite CK. }
      destruct (IH (mkScanState (playlistType st) (typeDetected st)
                      (tags st) (scanIndex st) false) g cpre C F)
        as (pre & post & st1 & g1 & L & P & R).
      exists (l :: pre), post, st1, g1.
      split; [simpl; now rewrite L|]. split; [|exact R].
      cbn [Spec.scanPrefix]. now rewrite <- L, E.
    + apply orb_false_elim in CK. destruct CK as [CO SK].
      destruct cpre as [|c cpre].
      * simpl in C. inversion C; subst. exists [], ls, st, g.
        split; [reflexivity|]. split; [reflexivity|].
        split; [exact SK|]. split; [exact CO|]. split; [simpl; lia|].
        now destruct (Spec.detectedType (tags st)).
      * simpl in C. inversion C as [[E1 E2]]. subst c.
        inversion F as [|? ? PL F']; subst.
        unfold Spec.isPlaylistLine, Spec.nameOf in PL.
        destruct (parseTag 0 l) as [e|t0] eqn:P0; [discriminate|].
        pose proof (parseTag_id 0 g l t0 P0) as PT.
        set (tag := Tag.mk g (Tag.name t0) (Tag.attributes t0)
                      (Tag.value t0)) in PT.
        apply negb_true_iff in PL.
        assert (V : Spec.isVariantLine l
                    = String.eqb (Tag.name tag) "EXT-X-STREAM-INF").
        { unfold Spec.isVariantLine. now rewrite P0. }
        set (st' := mkScanState (fst (detectType st (Tag.name tag)))
                      (snd (detectType st (Tag.name tag)))
                      (tags st ++ [pushedTag tag (List.hd_error ls)])
                      (updateTagIndexForTag_ (scanIndex st)
                         (pushedTag tag (List.hd_error ls)))
                      (String.eqb (Tag.name tag) "EXT-X-STREAM-INF")).
        assert (E : scanLine st g l ls = Next st' (S g)).
        { unfold scanLine. rewrite CO, SK, PT. cbn [orb].
          destruct (detectType st (Tag.name tag)) as [ty det] eqn:DT.
          change (has SEGMENT_TAGS (Tag.name tag))
            with (has SEGMENT_TAGS (Tag.name t0)).
          rewrite PL. reflexivity. }
        rewrite V in E2.
        destruct (IH st' (S g) cpre E2 F')
          as (pre & post & st1 & g1 & L & P & K & CL & G & D).
        exists (l :: pre), post, st1, g1.
        split; [simpl; now rewrite L|].
        split; [cbn [Spec.scanPrefix]; now rewrite <- L, E|].
        split; [exact K|]. split; [exact CL|].
        split; [simpl; lia|].
        rewrite D. unfold st'. cbn [tags Spec.decidedType].
        rewrite detectedType_snoc, pushedTag_name.
        unfold Spec.nameOf. rewrite P0.
        destruct (Spec.detectedType (tags st)); [reflexivity|].
        change (Tag.name tag) with (Tag.name t0).
        now destruct (Spec.typeOfName (Tag.name t0)).
Qed.

(** The encounters of the scanning loop are the segment-only directives
    among the classified lines that only directives for the playlist
    precede. *)
Lemma encounters_classified (g : nat) (str : string) (cpre : list string)
  (line : string) (cpost : list string) :
  Spec.classified true (linesOf str) = (cpre ++ line :: cpost)%list ->
  Forall (fun l => Spec.isPlaylistLine l = true) cpre ->
  Spec.isSegmentLine line = true ->
  exists st,
    Spec.encountersSegmentDirective g str st /\
    Spec.detectedType (tags st) = Spec.decidedType cpre.
Proof.
  intros C F SL.
  destruct (classified_scanPrefix (linesOf str) initialScanState g
              cpre line cpost C F)
    as (pre & post & st1 & g1 & L & P & K & CO & _ & D).
  exists st1. split; [|exact D].
  unfold Spec.isSegmentLine, Spec.lineIn, Spec.nameOf in SL.
  destruct (parseTag 0 line) as [e|t0] eqn:P0; [discriminate|].
  exists pre, line, post, g1,
    (Tag.mk g1 (Tag.name t0) (Tag.attributes t0) (Tag.value t0)).
  split; [exact L|]. split; [exact P|]. split; [exact K|].
  split; [exact CO|]. split; [apply (parseTag_id 0 g1 line t0 P0)|exact SL].
Qed.

(** A stream-variant or alternative-media declaration that no
    media-playlist-only directive precedes decides MASTER. *)
Lemma decidedType_master (pre : list string) :
  Forall (fun l => Spec.isPlaylistLine l = true) pre ->
  Forall (fun l => Spec.lineIn MEDIA_PLAYLIST_TAGS l = false) pre ->
  (exists l, In l pre /\
             Spec.lineIn [ "EXT-X-STREAM-INF"; "EXT-X-MEDIA" ] l = true) ->
  Spec.decidedType pre = Some MASTER.
Proof.
  induction pre as [|a pre IH]; intros F M (l & I & V).
  - contradiction.
  - inversion F as [|? ? Fa F']; subst. inversion M as [|? ? Ma M']; subst.
    cbn [Spec.decidedType].
    unfold Spec.isPlaylistLine, Spec.lineIn in *.
    destruct (Spec.nameOf a) as [n|] eqn:N; [|discriminate].
    apply negb_true_iff in Fa.
    unfold Spec.typeOfName. rewrite Ma, Fa.
    destruct (String.eqb n "EXT-X-STREAM-INF" || String.eqb n "EXT-X-MEDIA")
      eqn:Q; [reflexivity|].
    apply IH; [exact F'|exact M'|]. exists l. split; [|exact V].
    destruct I as [->|I]; [|exact I]. exfalso.
    rewrite N in V. unfold has in V. simpl in V.
    rewrite orb_false_r in V. congruence.
Qed.

(** C8 (counterexample).  In [Docs.variantThenSegment] a duration
    directive follows a stream-variant declaration and no
    media-playlist-only directive precedes: the duration line is consumed
    as the URI of the stream variant, and the call returns a MASTER
    playlist; it does not fail with InvalidHierarchy. *)
Lemma variant_uri_is_not_encountered :
  Spec.lineIn [ "EXT-X-STREAM-INF" ] "#EXT-X-STREAM-INF:BANDWIDTH=1" = true /\
  Spec.isSegmentLine "#EXTINF:5" = true /\
  linesOf Docs.variantThenSegment
    = [ "#EXTM3U"; "#EXT-X-STREAM-INF:BANDWIDTH=1"; "#EXTINF:5" ] /\
  exists p g,
    parsePlaylist 0 Docs.variantThenSegment = Returns p g /\
    Playlist.type p = MASTER /\
    List.map (fun t => Tag.getAttributeValue t "URI") (Playlist.tags p)
      = [ Some "#EXTINF:5" ].
Proof.
  split; [reflexivity|]. split; [reflexivity|]. split; [reflexivity|].
  destruct (parsePlaylist 0 Docs.variantThenSegment) as [p g|e g] eqn:E;
    vm_compute in E; [|discriminate].
  inversion E; subst. do 2 eexists. repeat split.
Qed.

(** C8 (amended).  [parsePlaylist] fails with
    HLS_INVALID_PLAYLIST_HIERARCHY (InvalidHierarchy) exactly when the
    header check passes and, among the lines the state machine classifies
    (all but the header line, the comments and the line after each
    classified stream-variant line), a segment-only directive comes after
    directives for the playlist only, the first type-relevant of which is
    a stream-variant or alternative-media declaration.  In particular the
    call fails so when such a declaration is among these earlier
    directives and none of them is media-playlist-only; and when the
    earlier directives do not decide MASTER (so when the segment-only
    directive is the first type-relevant one) the call does not fail with
    InvalidHierarchy and a playlist it returns is MEDIA. *)
Theorem invalid_hierarchy_iff (g : nat) (str : string) :
  ((exists g', parsePlaylist g str = Throws HLS_INVALID_PLAYLIST_HIERARCHY g')
   <->
   (Spec.headerLine (Spec.firstLine str) /\
    exists pre line post,
      Spec.classified true (linesOf str) = (pre ++ line :: post)%list /\
      Forall (fun l => Spec.isPlaylistLine l = true) pre /\
      Spec.isSegmentLine line = true /\
      Spec.decidedType pre = Some MASTER)) /\
  (forall pre line post,
     Spec.headerLine (Spec.firstLine str) ->
     Spec.classified true (linesOf str) = (pre ++ line :: post)%list ->
     Forall (fun l => Spec.isPlaylistLine l = true) pre ->
     Spec.isSegmentLine line = true ->
     Forall (fun l => Spec.lineIn MEDIA_PLAYLIST_TAGS l = false) pre ->
     (exists l, In l pre /\
                Spec.lineIn [ "EXT-X-STREAM-INF"; "EXT-X-MEDIA" ] l = true) ->
     parsePlaylist g str
       = Throws HLS_INVALID_PLAYLIST_HIERARCHY (g + S (List.length pre))) /\
  (forall pre line post,
     Spec.headerLine (Spec.firstLine str) ->
     Spec.classified true (linesOf str) = (pre ++ line :: post)%list ->
     Forall (fun l => Spec.isPlaylistLine l = true) pre ->
     Spec.isSegmentLine line = true ->
     Spec.decidedType pre <> Some MASTER ->
     (forall g', parsePlaylist g str
                 <> Throws HLS_INVALID_PLAYLIST_HIERARCHY g') /\
     (forall p g', parsePlaylist g str = Returns p g' ->
                   Playlist.type p = MEDIA)).
Proof.
  split; [split|split].
  - intros [g' T].
    assert (HL : Spec.headerLine (Spec.firstLine str)).
    { rewrite parsePlaylist_header in T.
      destruct (header (Spec.firstLine str)) eqn:H; [|discriminate].
      now apply (header_firstLine str). }
    split; [exact HL|].
    rewrite (parsePlaylist_scanLines g str HL) in T.
    destruct (scanLines_hierarchy _ _ _ _ initialScanState_typeInvariant T)
      as (pre & line & post & st1 & g1 & tag & L & P & K & C & PT & SG & D).
    destruct (scanPrefix_classified _ _ _ _ _ _ P) as (cpre & CL & F & DT).
    exists cpre, line, (Spec.classified (Spec.isVariantLine line) post).
    rewrite L. split.
    + change (skip initialScanState) with true in CL. rewrite CL.
      cbn [Spec.classified]. now rewrite C, K.
    + split; [exact F|]. split.
      * unfold Spec.isSegmentLine, Spec.lineIn, Spec.nameOf.
        now rewrite (parseTag_id g1 0 line tag PT).
      * now rewrite <- D, DT.
  - intros (HL & pre & line & post & C & F & SL & D).
    destruct (encounters_classified g str pre line post C F SL)
      as (st & E & DT).
    pose proof (parsePlaylist_at_segment_directive g str st HL E) as A.
    now rewrite DT, D in A.
  - intros pre line post HL C F SL M V.
    pose proof (decidedType_master pre F M V) as D.
    destruct (classified_scanPrefix (linesOf str) initialScanState g
                pre line post C F)
      as (pre0 & post0 & st1 & g1 & L & P & K & CO & G & DT).
    unfold Spec.isSegmentLine, Spec.lineIn, Spec.nameOf in SL.
    destruct (parseTag 0 line) as [e|t0] eqn:P0; [discriminate|].
    rewrite (parsePlaylist_scanLines g str HL), L,
      (scanLines_scanPrefix _ _ _ _ _ _ P).
    pose proof (scanPrefix_typeInvariant _ _ _ _ _ _
                  initialScanState_typeInvariant P) as I.
    rewrite (scanLines_segment_directive st1 g1 line post0 _ I K CO
               (parseTag_id 0 g1 line t0 P0) SL).
    change (Spec.detectedType (tags initialScanState)) with
      (@None PlaylistType) in DT.
    rewrite DT, D, G. f_equal. lia.
  - intros pre line post HL C F SL D.
    destruct (encounters_classified g str pre line post C F SL)
      as (st & E & DT).
    pose proof (parsePlaylist_at_segment_directive g str st HL E) as A.
    rewrite DT in A.
    destruct (Spec.decidedType pre) as [[|]|]; [congruence|exact A|exact A].
Qed.

Lemma invalid_hierarchy_iff_witness :
  parsePlaylist 0 Docs.segmentTagInMaster
    = Throws HLS_INVALID_PLAYLIST_HIERARCHY 2.
Proof.
  apply (proj1 (proj2 (invalid_hierarchy_iff 0 Docs.segmentTagInMaster))
           [ "#EXT-X-MEDIA:TYPE=AUDIO" ] "#EXTINF:6.00600" []).
  - exists "", "". split; [reflexivity|]. split; left; reflexivity.
  - reflexivity.
  - repeat constructor.
  - reflexivity.
  - repeat constructor.
  - exists "#EXT-X-MEDIA:TYPE=AUDIO". split; [now left|reflexivity].
Defined.

(** ** The playlist of a document, read off its lines *)

Lemma parseSegments_routedTags (lines : list string) (tags : list Tag.t)
  (index : PlaylistComputed.t) (g g' : nat) (r : SegmentsResult) :
  parseSegments_ lines tags index g = Returns r g' ->
  playlistTags r
    = (tags ++ List.filter isPlaylistTag (directiveTags g lines))%list.
Proof.
  intros H. destruct (parseSegments_Returns _ _ _ _ _ _ H) as (st & L & F).
  pose proof (initialSegmentsState_wf (List.length lines) tags index) as W0.
  destruct (segmentsLoop_routing _ _ _ _ _ W0 L) as (_ & A2 & _).
  destruct (finishSegments_fields _ _ F) as (B & _).
  now rewrite B.
Qed.


(** What the scanning loop returns, in terms of the lines: the tags, and
    the segments, which are those of the segment section. *)
Lemma scanLines_section (lines : list string) (st : ScanState) (g g' : nat)
  (p : Playlist.t) :
  scanLines lines st g = Returns p g' ->
  Playlist.tags p = (tags st ++ scopedTags g (skip st) lines)%list /\
  ((Spec.segmentSection (skip st) lines = [] /\
    Playlist.segments p = Some []) \/
   (exists tags1 index1 g1 r,
      parseSegments_ (Spec.segmentSection (skip st) lines) tags1 index1 g1
        = Returns r g' /\
      Playlist.segments p = Some (segments r) /\
      Playlist.type p = MEDIA)).
Proof.
  revert st g. induction lines as [|l ls IH]; intros st g.
  - simpl. intros H; inversion H; subst. simpl. rewrite app_nil_r.
    split; [reflexivity|]. left. split; reflexivity.
  - cbn [scanLines]. destruct (scanLine st g l ls) as [st1 g1|o] eqn:E.
    + intros H. destruct (IH st1 g1 H) as [T S].
      destruct (scanLine_Next _ _ _ _ _ _ E)
        as [(CK & -> & ->)|(tag & CK & PT & SG & -> & ->)].
      * cbn [scopedTags Spec.segmentSection]. rewrite CK.
        split; [exact T|exact S].
      * pose proof (parseTag_id g 0 l tag PT) as P0.
        cbn [scopedTags Spec.segmentSection]. rewrite CK, PT, SG.
        unfold Spec.isSegmentLine, Spec.lineIn, Spec.nameOf,
          Spec.isVariantLine.
        rewrite P0. cbn [Tag.name]. rewrite SG.
        cbn [tags skip] in T, S. split; [|exact S].
        now rewrite T, <- app_assoc.
    + intros ->.
      destruct (scanLine_Returns _ _ _ _ _ _ E)
        as (tag & r & CK & PT & SG & M & PS & ->).
      pose proof (parseTag_id g 0 l tag PT) as P0.
      cbn [scopedTags Spec.segmentSection]. rewrite CK, PT, SG.
      unfold Spec.isSegmentLine, Spec.lineIn, Spec.nameOf.
      rewrite P0. cbn [Tag.name]. rewrite SG. split.
      * simpl. apply (parseSegments_routedTags _ _ _ _ _ _ PS).
      * right. exists (tags st), (scanIndex st), (S g), r.
        split; [exact PS|]. split; reflexivity.
Qed.

(** ** C2: the segments of a returned playlist *)




(** ** C4: single-valued slots *)

(** C4 (counterexample).  With two EXT-X-SKIP tags in one document the
    skip slot holds the second one, not the first occurrence. *)
Lemma second_skip_tag_occupies_slot :
  exists p g first second,
    parsePlaylist 0 Docs.twoSkips = Returns p g /\
    Playlist.tags p = [first; second] /\
    Spec.firstTag "EXT-X-SKIP" (Playlist.tags p) = Some first /\
    PlaylistComputed.skipTag
      (PlaylistComputedData.playlist (Playlist.computed p)) = Some second /\
    first <> second.
Proof.
  destruct (parsePlaylist 0 Docs.twoSkips) as [p g|e g] eqn:E;
    vm_compute in E; [|discriminate].
  inversion E; subst. do 4 eexists.
  split; [reflexivity|]. simpl.
  repeat split; try reflexivity. discriminate.
Qed.

(** EXT-X-START tags met after the first segment-only directive are not
    playlist-scoped: they reach neither the raw tag list nor the slot. *)
Example start_tag_after_segment_not_indexed :
  exists p g,
    parsePlaylist 0 Docs.startAfterSegment = Returns p g /\
    Playlist.tags p = [] /\
    PlaylistComputed.startTag
      (PlaylistComputedData.playlist (Playlist.computed p)) = None.
Proof.
  destruct (parsePlaylist 0 Docs.startAfterSegment) as [p g|e g] eqn:E;
    vm_compute in E; [|discriminate].
  inversion E; subst. do 2 eexists. repeat split.
Qed.

(** C4 (amended).  The raw tag list [tags] of a returned playlist holds
    the tag of every playlist-scoped directive line of the document, in
    order, duplicates of a name included ([scopedTags]).  The end-list,
    server-control, playlist-type, start, part-inf and target-duration
    slots hold the first tag of that name in [tags]: later duplicates
    stay in [tags] and do not change the slot.  The skip slot is
    overwritten by every EXT-X-SKIP tag: it holds the last one of [tags],
    and [skippedSegments] is read from that same tag. *)
Theorem single_valued_slots (g g' : nat) (str : string) (p : Playlist.t) :
  parsePlaylist g str = Returns p g' ->
  Playlist.tags p = scopedTags g true (linesOf str) /\
  PlaylistComputed.endListTag
    (PlaylistComputedData.playlist (Playlist.computed p))
    = Spec.firstTag "EXT-X-ENDLIST" (Playlist.tags p) /\
  PlaylistComputed.serverControlTag
    (PlaylistComputedData.playlist (Playlist.computed p))
    = Spec.firstTag "EXT-X-SERVER-CONTROL" (Playlist.tags p) /\
  PlaylistComputed.playlistTypeTag
    (PlaylistComputedData.playlist (Playlist.computed p))
    = Spec.firstTag "EXT-X-PLAYLIST-TYPE" (Playlist.tags p) /\
  PlaylistComputed.startTag
    (PlaylistComputedData.playlist (Playlist.computed p))
    = Spec.firstTag "EXT-X-START" (Playlist.tags p) /\
  PlaylistComputed.partInfTag
    (PlaylistComputedData.playlist (Playlist.computed p))
    = Spec.firstTag "EXT-X-PART-INF" (Playlist.tags p) /\
  PlaylistComputed.targetDurationTag
    (PlaylistComputedData.playlist (Playlist.computed p))
    = Spec.firstTag "EXT-X-TARGETDURATION" (Playlist.tags p) /\
  PlaylistComputed.skipTag
    (PlaylistComputedData.playlist (Playlist.computed p))
    = Spec.lastTag "EXT-X-SKIP" (Playlist.tags p) /\
  PlaylistComputed.skippedSegments
    (PlaylistComputedData.playlist (Playlist.computed p))
    = match PlaylistComputed.skipTag
              (PlaylistComputedData.playlist (Playlist.computed p)) with
      | Some t =>
          Spec.numberOrDefault
            (Tag.getAttributeValue t "SKIPPED-SEGMENTS") JS.zero
      | None => JS.zero
      end.
Proof.
  intros H.
  assert (SK : PlaylistComputed.skipTag
                 (PlaylistComputedData.playlist (Playlist.computed p))
               = Spec.lastTag "EXT-X-SKIP" (Playlist.tags p)).
  { rewrite (parsePlaylist_index _ _ _ _ H).
    rewrite (indexTags_last_wins _ _ _ Some skipTag_step). simpl.
    now destruct (Spec.lastTag "EXT-X-SKIP" (Playlist.tags p)). }
  split.
  { destruct (scanLines_section _ _ _ _ _ (parsePlaylist_Returns _ _ _ _ H))
      as [T _]. exact T. }
  rewrite SK. rewrite (parsePlaylist_index _ _ _ _ H).
  repeat split.
  - apply (indexTags_first_wins _ _ endListTag_step).
  - apply (indexTags_first_wins _ _ serverControlTag_step).
  - apply (indexTags_first_wins _ _ playlistTypeTag_step).
  - apply (indexTags_first_wins _ _ startTag_step).
  - apply (indexTags_first_wins _ _ partInfTag_step).
  - apply (indexTags_first_wins _ _ targetDurationTag_step).
  - now rewrite (indexTags_last_wins _ _ _
                   (fun t => Spec.numberOrDefault
                               (Tag.getAttributeValue t "SKIPPED-SEGMENTS")
                               JS.zero)
                   skippedSegments_step).
Qed.

Lemma single_valued_slots_witness :
  Playlist.tags Docs.repeatedSlotsPlaylist
    = scopedTags 0 true (linesOf Docs.repeatedSlots) /\
  PlaylistComputed.targetDurationTag
    (PlaylistComputedData.playlist
       (Playlist.computed Docs.repeatedSlotsPlaylist))
    = Spec.firstTag "EXT-X-TARGETDURATION"
        (Playlist.tags Docs.repeatedSlotsPlaylist) /\
  PlaylistComputed.skipTag
    (PlaylistComputedData.playlist
       (Playlist.computed Docs.repeatedSlotsPlaylist))
    = Spec.lastTag "EXT-X-SKIP" (Playlist.tags Docs.repeatedSlotsPlaylist) /\
  PlaylistComputed.skippedSegments
    (PlaylistComputedData.playlist
       (Playlist.computed Docs.repeatedSlotsPlaylist))
    = match PlaylistComputed.skipTag
              (PlaylistComputedData.playlist
                 (Playlist.computed Docs.repeatedSlotsPlaylist)) with
      | Some t =>
          Spec.numberOrDefault
            (Tag.getAttributeValue t "SKIPPED-SEGMENTS") JS.zero
      | None => JS.zero
      end.
Proof.
  destruct (single_valued_slots 0 4 Docs.repeatedSlots
              Docs.repeatedSlotsPlaylist)
    as (T & _ & _ & _ & _ & _ & TD & SK & SS).
  - vm_compute. reflexivity.
  - repeat split; assumption.
Defined.

(** The slots of [Docs.repeatedSlots]: all four tags are in [tags]; the
    target-duration slot holds the first of its two tags, the skip slot
    the second of its two, and the skipped-segment count is the one of
    the second. *)
Example repeated_slots :
  List.map (fun t => Tag.toString t None)
    (Playlist.tags Docs.repeatedSlotsPlaylist)
    = [ "#EXT-X-TARGETDURATION:6"; "#EXT-X-SKIP:SKIPPED-SEGMENTS=1";
        "#EXT-X-TARGETDURATION:7"; "#EXT-X-SKIP:SKIPPED-SEGMENTS=2" ] /\
  option_map (fun t => Tag.toString t None)
    (PlaylistComputed.targetDurationTag
       (PlaylistComputedData.playlist
          (Playlist.computed Docs.repeatedSlotsPlaylist)))
    = Some "#EXT-X-TARGETDURATION:6" /\
  option_map (fun t => Tag.toString t None)
    (PlaylistComputed.skipTag
       (PlaylistComputedData.playlist
          (Playlist.computed Docs.repeatedSlotsPlaylist)))
    = Some "#EXT-X-SKIP:SKIPPED-SEGMENTS=2" /\
  PlaylistComputed.skippedSegments
    (PlaylistComputedData.playlist
       (Playlist.computed Docs.repeatedSlotsPlaylist))
    = JS.ofNat 2.
Proof. vm_compute. repeat split. Qed.

(** ** C3: numeric coercions *)

Lemma find_snoc (A : Type) (f : A -> bool) (l : list A) (x : A) :
  List.find f (l ++ [x]) =
    match List.find f l with
    | Some y => Some y
    | None => if f x then Some x else None
    end.
Proof.
  induction l as [|a l IH]; simpl; [reflexivity|].
  destruct (f a); [reflexivity|exact IH].
Qed.

Lemma find_none_last (f : JS.Num -> bool) (l : list JS.Num) (d : JS.Num) :
  List.find f l = None -> f d = false -> f (List.last l d) = false.
Proof.
  induction l as [|a l IH]; intros N D; [exact D|].
  simpl in N. destruct (f a) eqn:Fa; [discriminate|].
  destruct l as [|b l]; [exact Fa|]. now apply IH.
Qed.

(** The bit rate of one more tag. *)
Lemma bitrateOf_snoc (l : list Tag.t) (t : Tag.t) :
  bitrateOf (l ++ [t]) =
    if String.eqb (Tag.name t) "EXT-X-BITRATE"
    then if JS.truthyNum (bitrateOf l) then bitrateOf l
         else Spec.numberOrDefault (Tag.value t) JS.zero
    else bitrateOf l.
Proof.
  unfold bitrateOf. rewrite tagsNamed_snoc.
  destruct (String.eqb (Tag.name t) "EXT-X-BITRATE");
    [|now rewrite app_nil_r].
  rewrite List.map_app. cbn [List.map]. rewrite find_snoc, List.last_last.
  destruct (List.find JS.truthyNum _) as [b|] eqn:F.
  - apply List.find_some in F. now rewrite (proj2 F).
  - rewrite (find_none_last _ _ JS.zero F eq_refl).
    now destruct (JS.truthyNum (Spec.numberOrDefault _ _)).
Qed.

(** The bit rate after the update of the computed view for one tag. *)
Lemma bitrate_step (c c' : SegmentComputed.t) (t : Tag.t) :
  updateComputedForTag_ c t = inr c' ->
  SegmentComputed.bitrate c' =
    if String.eqb (Tag.name t) "EXT-X-BITRATE"
    then if JS.truthyNum (SegmentComputed.bitrate c)
         then SegmentComputed.bitrate c
         else Spec.numberOrDefault (Tag.value t) JS.zero
    else SegmentComputed.bitrate c.
Proof.
  rewrite <- numberOr_numberOrDefault. unfold updateComputedForTag_.
  repeat match goal with
         | |- context [String.eqb (Tag.name t) ?s] =>
             destruct (String.eqb_spec (Tag.name t) s) as [->|_]
         end;
    destruct c; simpl;
    repeat match goal with
           | |- context [match ?x with _ => _ end] => destruct x; simpl
           end;
    intros H; inversion H; subst; reflexivity.
Qed.

Lemma numbers_snoc (c c' : SegmentComputed.t) (l : list Tag.t) (t : Tag.t) :
  SegmentComputed.bitrate c = bitrateOf l ->
  updateComputedForTag_ c t = inr c' ->
  SegmentComputed.bitrate c' = bitrateOf (l ++ [t]).
Proof.
  intros B U. now rewrite (bitrate_step _ _ _ U), bitrateOf_snoc, B.
Qed.

Lemma updateComputedForTags_bitrate (ts l : list Tag.t)
  (c c' : SegmentComputed.t) :
  SegmentComputed.bitrate c = bitrateOf l ->
  updateComputedForTags c ts = inr c' ->
  SegmentComputed.bitrate c' = bitrateOf (l ++ ts).
Proof.
  revert l c. induction ts as [|t ts IH]; intros l c B; simpl.
  - intros H; inversion H; subst. now rewrite app_nil_r.
  - destruct (updateComputedForTag_ c t) as [e|c1] eqn:U; [discriminate|].
    intros H. change (t :: ts) with ([t] ++ ts)%list. rewrite app_assoc.
    apply (IH _ c1); [|exact H]. eapply numbers_snoc; eauto.
Qed.

Lemma bitrateOf_withMapTag (l : list Tag.t) (m : option Tag.t) :
  (forall x, m = Some x -> Tag.name x = "EXT-X-MAP") ->
  bitrateOf (withMapTag l m) = bitrateOf l.
Proof.
  intros N. unfold withMapTag. destruct m as [x|]; [|reflexivity].
  now rewrite bitrateOf_snoc, (N x eq_refl).
Qed.

Lemma bitrate_withMap (c : SegmentComputed.t) (m : Tag.t) :
  SegmentComputed.bitrate (withMap c m) = SegmentComputed.bitrate c.
Proof.
  unfold withMap. destruct (SegmentComputed.map c); [reflexivity|].
  now destruct c.
Qed.

Lemma hasValue_step (c c' : SegmentComputed.t) (t : Tag.t) :
  updateComputedForTag_ c t = inr c' -> hasValue c -> hasValue c'.
Proof.
  unfold updateComputedForTag_, hasValue.
  repeat match goal with
         | |- context [String.eqb (Tag.name t) ?s] =>
             destruct (String.eqb_spec (Tag.name t) s) as [->|_]
         end;
    destruct c; simpl;
    repeat match goal with
           | |- context [match ?x with _ => _ end] => destruct x eqn:?; simpl
           end;
    intros H J; inversion H; subst; simpl; intros y E;
    try (apply J; exact E); try discriminate;
    inversion E; subst; congruence.
Qed.

Lemma updateComputedForTags_hasValue (ts : list Tag.t)
  (c c' : SegmentComputed.t) :
  hasValue c -> updateComputedForTags c ts = inr c' -> hasValue c'.
Proof.
  revert c. induction ts as [|t ts IH]; intros c J; simpl.
  - intros H; inversion H; subst. exact J.
  - destruct (updateComputedForTag_ c t) as [e|c1] eqn:U; [discriminate|].
    apply IH. eapply hasValue_step; eauto.
Qed.

Lemma hasValue_withMap (c : SegmentComputed.t) (m : Tag.t) :
  hasValue c -> hasValue (withMap c m).
Proof.
  unfold withMap. destruct (SegmentComputed.map c); [tauto|].
  now destruct c.
Qed.

(** The numbers of a segment, from the view of its tags. *)
Lemma numbersOf_view (s : Segment.t) :
  viewOf (Segment.computed s) (Segment.tags s) ->
  hasValue (Segment.computed s) ->
  SegmentComputed.bitrate (Segment.computed s)
    = bitrateOf (Segment.tags s) ->
  numbersOf s.
Proof.
  intros (A1 & A2 & _) J B. split; [|exact B].
  unfold durationOf in A2. rewrite <- A1 in *.
  destruct (SegmentComputed.extinf (Segment.computed s)) as [t|] eqn:X;
    [|exact A2].
  destruct (Tag.value t) as [v|] eqn:V; [now exists v|].
  now destruct (J t X).
Qed.

Lemma numbersInvariant_directive (st st' : SegmentsState.t) (tag : Tag.t) :
  numbersInvariant st -> directiveLine st tag = inr st' ->
  numbersInvariant st'.
Proof.
  intros (V & J & B) D. split; [eapply viewInvariant_directive; eauto|].
  revert D. rewrite directiveLine_route. destruct (routeOf tag).
  - intros H; inversion H; subst. split; assumption.
  - intros H; inversion H; subst. simpl.
    split; [now apply hasValue_withMap|now rewrite bitrate_withMap].
  - intros H; inversion H; subst. split; assumption.
  - intros H; inversion H; subst. split; assumption.
  - destruct (updateComputedForTag_ _ tag) as [e|c] eqn:U; [discriminate|].
    intros H; inversion H; subst. simpl.
    split; [eapply hasValue_step; eauto|eapply numbers_snoc; eauto].
Qed.

Lemma numbersInvariant_uri (st : SegmentsState.t) (line : string) :
  numbersInvariant st ->
  numbersInvariant (uriLine st line) /\ numbersOf (emitted st line).
Proof.
  intros (V & J & B). destruct (viewInvariant_uri st line V) as [V1 V2].
  split; [split; [exact V1|]|].
  - destruct (uriLine_emits st line) as (_ & _ & K & T & _).
    rewrite K, T. split; [discriminate|reflexivity].
  - apply numbersOf_view; [exact V2| |].
    + unfold emitted. simpl.
      destruct (SegmentComputed.map _); [exact J|].
      destruct (SegmentsState.currentMapTag st); [|exact J].
      revert J. unfold hasValue.
      now destruct (SegmentsState.computed st).
    + unfold emitted. simpl.
      rewrite (bitrateOf_withMapTag _ _ (proj2 V)), <- B.
      destruct (SegmentComputed.map _); [reflexivity|].
      destruct (SegmentsState.currentMapTag st); [|reflexivity].
      now destruct (SegmentsState.computed st).
Qed.

(** The numeric fields of every segment. *)
Lemma parsePlaylist_numbers (g g' : nat) (str : string) (p : Playlist.t) :
  parsePlaylist g str = Returns p g' -> Forall numbersOf (segmentsOf p).
Proof.
  intros H. unfold segmentsOf.
  destruct (Playlist.segments p) as [segs|] eqn:S; [|constructor].
  revert H S. apply (parsePlaylist_Forall numbersInvariant).
  - intros n tags index.
    split; [split; [apply viewOf_default|discriminate]|].
    split; [discriminate|reflexivity].
  - intros st tag st'. apply numbersInvariant_directive.
  - apply numbersInvariant_uri.
  - intros st c _ U. apply numbersOf_view; unfold trailer; simpl.
    + apply (updateComputedForTags_viewOf _ [] _ _ viewOf_default U).
    + eapply (updateComputedForTags_hasValue _ createDefaultComputed_ c);
        [discriminate|exact U].
    + apply (updateComputedForTags_bitrate _ [] createDefaultComputed_ c
               eq_refl U).
Qed.

(** C3 (counterexample).  A media sequence number that is not numeric
    leaves NaN, not the fallback 0, in the index. *)
Lemma non_numeric_media_sequence_is_NaN :
  exists p g,
    parsePlaylist 0 Docs.badMediaSequence = Returns p g /\
    PlaylistComputed.mediaSequence
      (PlaylistComputedData.playlist (Playlist.computed p)) = JS.NaN /\
    PlaylistComputed.mediaSequence
      (PlaylistComputedData.playlist (Playlist.computed p)) <> JS.zero.
Proof.
  destruct (parsePlaylist 0 Docs.badMediaSequence) as [p g|e g] eqn:E;
    vm_compute in E; [|discriminate].
  inversion E; subst. do 2 eexists.
  split; [reflexivity|]. simpl. split; [reflexivity|discriminate].
Qed.

(** A duration directive with no value at all: [tag.value.split] is a
    property access on [null]. *)
Example extinf_without_value_throws :
  parsePlaylist 0 (Docs.document [ "#EXTM3U"; "#EXTINF"; "uri" ])
    = Throws TypeError 2.
Proof. vm_compute. reflexivity. Qed.

(** C3 (amended).  In every returned playlist the media sequence, the
    discontinuity sequence and the skipped-segment count are the fallback
    (0, -1, 0) when the playlist's tag list holds no such tag or the last
    such tag has no, or an empty, value (attribute SKIPPED-SEGMENTS for
    skip), and otherwise [Number] of that text, NaN included.  On every
    segment of a returned playlist, [extinfDuration] is [Number] of the
    text before the first comma of the value of the segment's first
    EXTINF tag, which has a value, NaN included, and 0 without an EXTINF
    tag ([numbersOf]); and [bitrate]
    is 0 without an EXT-X-BITRATE tag and otherwise, with [Number] of
    its value, or 0 for no or an empty value, as the number of such a
    tag, the first of these numbers that is neither 0 nor NaN, or else
    the last of them.  A value that is not numeric never aborts the
    parse: a call that throws throws MissingHeader, InvalidHierarchy,
    INVALID_HLS_TAG with a line that is not of the form of a directive, or
    a TypeError for a duration directive (EXTINF) with no value at
    all. *)
Theorem numeric_fields (g : nat) (str : string) :
  (forall p g',
     parsePlaylist g str = Returns p g' ->
     PlaylistComputed.mediaSequence
       (PlaylistComputedData.playlist (Playlist.computed p))
       = Spec.numericField "EXT-X-MEDIA-SEQUENCE" Tag.value JS.zero
           (Playlist.tags p) /\
     PlaylistComputed.discontinuitySequence
       (PlaylistComputedData.playlist (Playlist.computed p))
       = Spec.numericField "EXT-X-DISCONTINUITY-SEQUENCE" Tag.value
           JS.minusOne (Playlist.tags p) /\
     PlaylistComputed.skippedSegments
       (PlaylistComputedData.playlist (Playlist.computed p))
       = Spec.numericField "EXT-X-SKIP"
           (fun t => Tag.getAttributeValue t "SKIPPED-SEGMENTS") JS.zero
           (Playlist.tags p) /\
     Forall numbersOf (segmentsOf p)) /\
  (forall e g',
     parsePlaylist g str = Throws e g' ->
     e = HLS_PLAYLIST_HEADER_MISSING \/
     e = HLS_INVALID_PLAYLIST_HIERARCHY \/
     (exists line,
        e = INVALID_HLS_TAG line /\ In line (linesOf str) /\
        (JS.startsWith line "#EXT" = false \/
         exists data,
           afterFirstColon line = Some data /\ dotStarToEnd data = false)) \/
     (e = TypeError /\
      exists line id tag,
        In line (linesOf str) /\ parseTag id line = inr tag /\
        Tag.name tag = "EXTINF" /\ Tag.value tag = None)).
Proof.
  split.
  - intros p g' H. pose proof (parsePlaylist_numbers _ _ _ _ H) as N.
    rewrite (parsePlaylist_index _ _ _ _ H).
    split; [|split; [|split]].
    + unfold Spec.numericField.
      now rewrite (indexTags_last_wins _ _ _
                     (fun t => Spec.numberOrDefault (Tag.value t) JS.zero)
                     mediaSequence_step).
    + unfold Spec.numericField.
      now rewrite (indexTags_last_wins _ _ _
                     (fun t =>
                        Spec.numberOrDefault (Tag.value t) JS.minusOne)
                     discontinuitySequence_step).
    + unfold Spec.numericField.
      now rewrite (indexTags_last_wins _ _ _
                     (fun t =>
                        Spec.numberOrDefault
                          (Tag.getAttributeValue t "SKIPPED-SEGMENTS")
                          JS.zero)
                     skippedSegments_step).
    + exact N.
  - intros e g' H. apply parsePlaylist_Throws in H.
    destruct H as [[H _]|H]; [now left|]. right.
    destruct (scanLines_errors str g g' e H)
      as [E|[(l & E & I & C & T)|X]].
    + now left.
    + right. left. exists l. split; [exact E|]. split; [exact I|].
      now apply tagBlocks_None.
    + right. right. exact X.
Qed.

Lemma numeric_fields_witness :
  PlaylistComputed.mediaSequence
    (PlaylistComputedData.playlist
       (Playlist.computed Docs.badMediaSequencePlaylist))
    = Spec.numericField "EXT-X-MEDIA-SEQUENCE" Tag.value JS.zero
        (Playlist.tags Docs.badMediaSequencePlaylist) /\
  Forall numbersOf (segmentsOf Docs.twoBitratesPlaylist).
Proof.
  split.
  - apply (proj1 (numeric_fields 0 Docs.badMediaSequence)
             Docs.badMediaSequencePlaylist 1).
    vm_compute. reflexivity.
  - apply (proj1 (numeric_fields 0 Docs.twoBitrates)
             Docs.twoBitratesPlaylist 8).
    vm_compute. reflexivity.
Defined.

(** The segments of [Docs.twoBitrates]: the second bit rate does not
    replace one that counts, it replaces one that is 0, and a bit rate or
    a duration that is not a number is NaN. *)
Example two_bitrates :
  List.map (fun s => SegmentComputed.bitrate (Segment.computed s))
    (segmentsOf Docs.twoBitratesPlaylist)
    = [ JS.ofNat 800; JS.ofNat 700; JS.NaN ] /\
  List.map (fun s => SegmentComputed.extinfDuration (Segment.computed s))
    (segmentsOf Docs.twoBitratesPlaylist)
    = [ JS.ofNat 5; JS.NaN; JS.zero ].
Proof. vm_compute. split; reflexivity. Qed.
